(* ===== verification/_CoqProject ===== *)
-Q . S2P
Prelude.v
GoString.v
GoError.v
GoFloat.v
GoTime.v
Dns.v
Fixtures.v
GoStrconv.v
GoNet.v
Ttl.v
Serialization.v
Cacheable.v
Key.v
Config.v
Parse.v
Prog.v
RedisCache.v
Setup.v
Writer.v
Handler.v
Metrics.v
Startup.v
CacheSpec.v
World.v
System.v
Hostile.v
Progress.v
Deploy.v
