(* ===== verification/Prelude.v ===== *)
(** * A verification development for the redis_cache CoreDNS plugin

    The plugin (Go, under src/) is a second-level DNS cache in Redis. A request
    enters [ServeDNS] (handler.go). If its zone is served, [get] (redis_cache.go)
    derives a key from the question, reads the entry and its TTL from Redis in
    one pipeline, decodes it and verifies it against the request. A hit is
    answered at once. On a miss, or on any failure of Redis, the next plugin is
    called behind a response writer (cache.go) whose [WriteMsg] decides whether
    and for how long a reply may be kept, answers the client and starts a
    goroutine that stores the reply. Broken entries are evicted by another
    goroutine. setup.go reads the configuration, options.go, tls.go and
    readpool.go build the Redis clients.

    ** Files

    - Prelude.v: results, machine integers, tactics, shared lemmas.
    - GoString.v, GoError.v, GoFloat.v, GoTime.v, GoStrconv.v, GoNet.v: the parts
      of Go's standard library the plugin uses, on bytes, error trees, IEEE
      binary64 (SpecFloat) and 64-bit durations.
    - Dns.v: dns.Msg and its parts as records, and the libraries as classes:
      [DnsLib] (miekg/dns), [CoreDns] (request, response, zones), each with a
      separate class of laws that states what the plugin relies on.
    - Fixtures.v: an instance of these classes with its laws proved, and
      messages, on which the theorems are evaluated.
    - Ttl.v: ttl.go. Serialization.v: serialization.go. Cacheable.v and Key.v:
      [cacheable] and [keyer.key] of cache.go.
    - Config.v: the [Redis] struct (in groups of fields), [New], dialer,
      options.go, tls.go and [buildClients].
    - Parse.v: [parse] of setup.go with every directive, as a parser in a state
      and error monad over caddy's controller (class [Controller]).
    - Prog.v: programs with effects. A request or goroutine is a finite tree of
      effects (Redis commands, the client's writer, metrics, logs, starting a
      goroutine, singleflight, randomness, the clock), each continued by its
      answer; a panic is a leaf. [exec] runs a program in an environment, [Run]
      is a run with any answers, [wp] a weakest precondition.
    - RedisCache.v: [Get], [get], [Add], [evictAsync], [errReason], the two
      goroutine bodies, startup and shutdown of redis_cache.go, readpool.go.
    - Setup.v: what [parse] guarantees.
    - Writer.v: [ResponseWriter] of cache.go. Handler.v: [ServeDNS].
    - Metrics.v: metrics.go, and what a lookup counts.
    - Startup.v: [setup] with the line it logs, the closures for [AddPlugin] and
      [OnShutdown], and [init].
    - CacheSpec.v: the abstract specification, a cache whose entries expire.
    - World.v: all instances, requests and goroutines interleaved in time, as a
      step relation; Redis and the singleflight groups are a class [Services].
    - System.v: the world refines the specification. Hostile.v: what is left when
      nothing is assumed of Redis. Progress.v: termination and absence of
      deadlock. Deploy.v: the same for configurations that [setup] registered.

    ** What the theorems show

    - System.v: every world the instances reach is matched by a run of the
      specification: a client gets a fresh reply of the next plugin, or a stored
      reply to the same question, class, type, CD and DO, read at a moment of the
      request at which it had not expired. The TTL served is 0 or outlasts what
      is left of some entry under the key by less than a second; it is the entry
      served if there is only one, since Redis may answer GET and TTL from
      different SETs of the key. This holds for any hash function and a Redis that may lose, delay and forget, as long as it returns
      only values that were set and have not expired (up to [redis_late]). No
      thread panics, writes of an instance are deduplicated per key, everything
      in Redis belongs to a reply a client got and expires. The proof is a rely
      and guarantee argument: each program is safe for what it may rely on, and
      a simulation keeps the invariant.
    - Hostile.v: with no assumption on Redis at all, a served message still has
      the request's question, class, DO and CD bit.
    - Progress.v: without new requests every scheduling comes to rest, with every
      thread returned and every singleflight call left.
    - Deploy.v: all of it for fleets started from Corefiles that [setup] accepts.
    - Metrics.v: names and labels fit, and every lookup is counted once.
    - Handler.v: a hit has the fields the hit path promises; the plugin fails
      open: a failed GET, and every value that is no good entry and has a
      question, leaves it transparent, run by run.
    - Writer.v: when and what is stored, that the client is answered first, the
      clamp of TTLs (a minimum above the maximum wins), and that what was stored
      is found again.
    - RedisCache.v: a served message was verified on every component of the key;
      bad entries are evicted and counted as what they are, but for one without a
      question, on which the lookup panics; one bounded read per
      lookup; goroutines never bring the process down; the error reasons.
    - Serialization.v, Ttl.v, Cacheable.v, Key.v: round trip of the payload, the
      TTL rules against a reference, cacheability against a declarative
      specification with the CNAME chain, injectivity of the hash input.
    - Config.v, Setup.v, Startup.v: the TLS verification matrix, the clients of
      each topology, validity of every accepted configuration and exactly which
      combinations of modes are rejected, what a directive may change, how startup
      ends in every case and the line it logs, shutdown, registration and the place
      in the plugin chain, address and TTL syntax.

    Some theorems state behaviour that differs from what comments or the README
    say: [get_panics_without_question], [positive_duration_capped],
    [servfail_cached], [normalizeAddr_ipv6_without_port],
    [success_keeps_minimum], and in clauses of their own [parseTTL_spec] (the
    wrapped product), [setup_starts] (the panic on a malformed zone) and
    [parse_valid] (what the check of the modes lets through).

    ** Fuel

    Three loops are not structural. [canonicalName] has two turns more
    than the answer has records, which [canonicalName_terminates] shows to be
    enough. The block loops of [parse] take fuel beyond the number of tokens,
    which [parse_terminates] shows to be enough. [time.ParseDuration] consumes a
    byte per turn and has the length of its argument ([duration_loop_fuel]).

    ** What is not modelled

    Formatted texts of logs (but the startup line) and of errors, the values
    observed by the histogram, and the internals of go-redis, miekg/dns, CoreDNS,
    caddy, client_golang, xxhash, crypto/x509 and singleflight, which are classes
    with laws. Request messages are values: plugins down the chain that change
    the request in place are outside of the model, as is a caller that reads its
    reply after [WriteMsg] clamped it, and raw bytes that a plugin hands to
    [Write] are passed on without being looked at. Time passes between the steps
    of a world. A SET or EXPIRE of go-redis may panic in its goroutine, which
    recovers; the GET and TTL pipeline of the request path always returns, with
    values or errors: nothing there recovers from a panic inside go-redis, which
    would leave [ServeDNS] as the panic of any plugin does. A context is modelled by the timeouts it went through and whether
    it is detached, and a command that runs into its deadline is one that Redis
    answers with an error. *)

From Stdlib Require Export Ascii ZArith Lia.
From stdpp Require Export base gmap list strings sorting.

Local Open Scope Z_scope.

(** ** Results and errors

    A Go function that returns [(T, error)] is a function into [result]; a
    panic is [None] of an [option], so the two kinds of failure stay apart. *)

Inductive result (E A : Type) : Type :=
| Ok (a : A)
| Err (e : E).
Arguments Ok {E A} a.
Arguments Err {E A} e.

Definition result_bind {E A B} (r : result E A) (f : A → result E B) : result E B :=
  match r with
  | Ok a => f a
  | Err e => Err e
  end.

Definition result_map {E A B} (f : A → B) (r : result E A) : result E B :=
  match r with
  | Ok a => Ok (f a)
  | Err e => Err e
  end.

Definition is_ok {E A} (r : result E A) : bool :=
  match r with
  | Ok _ => true
  | Err _ => false
  end.

Declare Scope go_scope.
Delimit Scope go_scope with go.

Notation "'let?' x := r 'in' k" := (result_bind r (fun x => k))
  (at level 10, x pattern, r at level 100, k at level 200) : go_scope.

(** ** Machine integers

    [wrap_int w z] is the two's-complement value of [z] in [w] bits, the result
    Go defines for signed overflow; [wrap_uint w z] is its unsigned form. *)

Definition wrap_uint (w z : Z) : Z := z `mod` 2 ^ w.

Definition wrap_int (w z : Z) : Z :=
  let u := z `mod` 2 ^ w in
  if Z.ltb u (2 ^ (w - 1)) then u else u - 2 ^ w.

Definition in_uint (w z : Z) : Prop := (0 ≤ z < 2 ^ w).
Definition in_int (w z : Z) : Prop := (- 2 ^ (w - 1) ≤ z < 2 ^ (w - 1)).

(** A Go [[]byte] is a list of integers in the range of a byte. *)
Abbreviation bytes := (list Z).

Definition byte_ok (b : Z) : Prop := (0 ≤ b < 256).

(** ** Tactics *)

(** Split a boolean conjunction or disjunction hypothesis into propositions. *)
Ltac bool_hyps :=
  repeat match goal with
  | H : andb _ _ = true |- _ => apply andb_true_iff in H; destruct H
  | H : orb _ _ = false |- _ => apply orb_false_iff in H; destruct H
  | H : negb _ = true |- _ => apply negb_true_iff in H
  | H : negb _ = false |- _ => apply negb_false_iff in H
  | H : Z.eqb _ _ = true |- _ => apply Z.eqb_eq in H
  | H : Z.eqb _ _ = false |- _ => apply Z.eqb_neq in H
  | H : Z.ltb _ _ = true |- _ => apply Z.ltb_lt in H
  | H : Z.ltb _ _ = false |- _ => apply Z.ltb_ge in H
  | H : Z.leb _ _ = true |- _ => apply Z.leb_le in H
  | H : Z.leb _ _ = false |- _ => apply Z.leb_gt in H
  | H : String.eqb _ _ = true |- _ => apply String.eqb_eq in H
  | H : String.eqb _ _ = false |- _ => apply String.eqb_neq in H
  | H : Bool.eqb _ _ = true |- _ => apply Bool.eqb_prop in H
  | H : bool_decide _ = true |- _ => apply bool_decide_eq_true_1 in H
  | H : bool_decide _ = false |- _ => apply bool_decide_eq_false_1 in H
  end.

(** Case on the scrutinee of the first [if] of the goal, keeping its equation. *)
Ltac case_if :=
  match goal with
  | |- context [if ?b then _ else _] =>
      let E := fresh "Hif" in destruct b eqn:E
  end.

Ltac case_if_in H :=
  match type of H with
  | context [if ?b then _ else _] =>
      let E := fresh "Hif" in destruct b eqn:E
  end.

Create HintDb redis discriminated.

(** ** Lemmas on results, integers and lists *)

Lemma result_bind_ok {E A B} (r : result E A) (f : A → result E B) b :
  result_bind r f = Ok b ↔ ∃ a, r = Ok a ∧ f a = Ok b.
Proof. destruct r; split; [eauto|by intros (?&[= ->]&?)|done|by intros (?&?&?)]. Qed.

Lemma wrap_int_range w z : (0 < w) → in_int w (wrap_int w z).
Proof.
  intros Hw. unfold in_int, wrap_int.
  assert (2 ^ w = 2 * 2 ^ (w - 1)) as Hp.
  { rewrite <- Z.pow_succ_r by lia. f_equal. lia. }
  pose proof (Z.mod_pos_bound z (2 ^ w) ltac:(lia)).
  case_if; bool_hyps; lia.
Qed.

Lemma wrap_int_small w z : (0 < w) → in_int w z → wrap_int w z = z.
Proof.
  intros Hw. unfold in_int, wrap_int. intros Hz.
  assert (2 ^ w = 2 * 2 ^ (w - 1)) as Hp.
  { rewrite <- Z.pow_succ_r by lia. f_equal. lia. }
  destruct (decide (0 ≤ z)).
  - rewrite Z.mod_small by lia. case_if; bool_hyps; lia.
  - replace (z `mod` 2 ^ w) with (z + 2 ^ w).
    + case_if; bool_hyps; lia.
    + apply (Z.mod_unique _ _ (-1)); lia.
Qed.

Lemma wrap_uint_small w z : in_uint w z → wrap_uint w z = z.
Proof. intros. unfold wrap_uint. by apply Z.mod_small. Qed.

#[export] Hint Resolve wrap_int_range : redis.

(** ** Lemmas on finite sets *)

Lemma size_insert_le `{Countable A} (x : A) (X : gset A) :
  (size ({[x]} ∪ X) ≤ S (size X))%nat.
Proof.
  rewrite size_union_alt, size_singleton.
  pose proof (subseteq_size (X ∖ {[x]}) X ltac:(set_solver)). lia.
Qed.

Lemma size_list_to_set_le `{Countable A} (l : list A) :
  (size (list_to_set l : gset A) ≤ length l)%nat.
Proof.
  induction l as [|x l IH]; [done|].
  pose proof (size_insert_le x (list_to_set l)). simpl in *. lia.
Qed.

Lemma length_omap_le {A B} (f : A → option B) (l : list A) : (length (omap f l) ≤ length l)%nat.
Proof.
  induction l as [|x l IH]; [done|]. cbn -[length].
  change (list_omap _ _ f l) with (omap f l). destruct (f x); cbn; lia.
Qed.
