(* ===== verification/GoString.v ===== *)
(** * Go strings and byte slices

    The functions of [strings], [bytes], [encoding/binary] and [encoding/hex]
    that the plugin calls. A Go string is a sequence of bytes, which is what
    [string] is. [strings.EqualFold] and [strings.ToLower] scan the ASCII part
    of their arguments byte by byte; past the first byte that is not ASCII they
    use the Unicode tables, which are the two functions of [UnicodeTables]. *)

From S2P Require Import Prelude.

Local Open Scope Z_scope.

(** ** Bytes of a string *)

Definition byte_of (c : ascii) : Z := Z.of_N (N_of_ascii c).
Definition char_of (z : Z) : ascii := ascii_of_N (Z.to_N z).

Fixpoint bytes_of_string (s : string) : bytes :=
  match s with
  | EmptyString => []
  | String c s' => byte_of c :: bytes_of_string s'
  end.

(** A byte below [utf8.RuneSelf]. *)
Definition is_ascii (c : ascii) : bool := byte_of c <? 128.

Fixpoint all_ascii (s : string) : bool :=
  match s with
  | EmptyString => true
  | String c s' => is_ascii c && all_ascii s'
  end.

(** ['A' <= c && c <= 'Z'], and the byte [c + ('a' - 'A')] in that case. *)
Definition lower_byte (b : Z) : Z :=
  if (65 <=? b) && (b <=? 90) then b + 32 else b.

Definition lower_char (c : ascii) : ascii := char_of (lower_byte (byte_of c)).

Fixpoint string_map (f : ascii → ascii) (s : string) : string :=
  match s with
  | EmptyString => EmptyString
  | String c s' => String (f c) (string_map f s')
  end.

(** ** Package strings *)

Class UnicodeTables : Type := {
  (** [strings.Map(unicode.ToLower, s)] *)
  unicode_ToLower : string → string;
  (** the rune-by-rune tail of [strings.EqualFold] *)
  unicode_EqualFold : string → string → bool;
}.

Section strings.
Context `{UnicodeTables}.

Definition ToLower (s : string) : string :=
  if all_ascii s then string_map lower_char s else unicode_ToLower s.

Fixpoint EqualFold (s t : string) : bool :=
  match s, t with
  | EmptyString, EmptyString => true
  | String a s', String b t' =>
      if negb (is_ascii a && is_ascii b) then unicode_EqualFold s t
      else if lower_byte (byte_of a) =? lower_byte (byte_of b) then EqualFold s' t'
      else false
  | _, _ => false
  end.

End strings.

(** [strings.HasPrefix] on strings, [bytes.HasPrefix] on slices. *)
Definition HasPrefix (s p : string) : bool := String.prefix p s.

Fixpoint bytes_HasPrefix (b p : bytes) {struct p} : bool :=
  match p, b with
  | [], _ => true
  | y :: p', x :: b' => (x =? y) && bytes_HasPrefix b' p'
  | _ :: _, [] => false
  end.

(** [strings.Contains s sub]. *)
Fixpoint Contains (s sub : string) : bool :=
  String.prefix sub s ||
  match s with
  | EmptyString => false
  | String _ s' => Contains s' sub
  end.

(** [strings.TrimSuffix s suf]. *)
Fixpoint TrimSuffix (s suf : string) : string :=
  if String.eqb s suf then EmptyString
  else match s with
  | EmptyString => EmptyString
  | String c s' => String c (TrimSuffix s' suf)
  end.

(** [strings.Join elems sep]. *)
Fixpoint Join (elems : list string) (sep : string) : string :=
  match elems with
  | [] => EmptyString
  | [e] => e
  | e :: es => (e +:+ sep +:+ Join es sep)%stdpp
  end.

(** ** Packages encoding/binary and encoding/hex *)

(** The [n] big-endian bytes of [v], most significant first. *)
Fixpoint be_bytes (n : nat) (v : Z) : bytes :=
  match n with
  | O => []
  | S n' => Z.land (Z.shiftr v (8 * Z.of_nat n')) 255 :: be_bytes n' v
  end.

Definition PutUint16 (v : Z) : bytes := be_bytes 2 v.
Definition PutUint64 (v : Z) : bytes := be_bytes 8 v.

Definition hex_digit (d : Z) : ascii :=
  if d <? 10 then char_of (48 + d) else char_of (97 + (d - 10)).

Fixpoint EncodeToString (b : bytes) : string :=
  match b with
  | [] => EmptyString
  | x :: b' => String (hex_digit (Z.shiftr x 4))
                 (String (hex_digit (Z.land x 15)) (EncodeToString b'))
  end.

(** ** Lemmas *)

Lemma byte_of_range c : byte_ok (byte_of c).
Proof.
  unfold byte_ok, byte_of. pose proof (N_ascii_bounded c). lia.
Qed.

Lemma byte_of_char_of z : byte_ok z → byte_of (char_of z) = z.
Proof.
  intros [??]. unfold byte_of, char_of. rewrite N_ascii_embedding by lia. lia.
Qed.

Lemma char_of_byte_of c : char_of (byte_of c) = c.
Proof. unfold byte_of, char_of. rewrite N2Z.id. apply ascii_N_embedding. Qed.

#[export] Instance byte_of_inj : Inj (=) (=) byte_of.
Proof. intros a b E. by rewrite <- (char_of_byte_of a), E, char_of_byte_of. Qed.

Lemma lower_byte_range b : byte_ok b → byte_ok (lower_byte b).
Proof. unfold byte_ok, lower_byte. case_if; bool_hyps; lia. Qed.

Lemma byte_of_lower_char c : byte_of (lower_char c) = lower_byte (byte_of c).
Proof. apply byte_of_char_of, lower_byte_range, byte_of_range. Qed.

Lemma lower_byte_idemp b : lower_byte (lower_byte b) = lower_byte b.
Proof. unfold lower_byte. repeat case_if; bool_hyps; lia. Qed.

Lemma lower_char_idemp c : lower_char (lower_char c) = lower_char c.
Proof. apply (inj byte_of). by rewrite !byte_of_lower_char, lower_byte_idemp. Qed.

Lemma lower_char_ascii c : is_ascii (lower_char c) = is_ascii c.
Proof.
  unfold is_ascii. rewrite byte_of_lower_char. unfold lower_byte.
  case_if; [|done]. bool_hyps. apply eq_bool_prop_intro.
  rewrite !Is_true_true, !Z.ltb_lt. lia.
Qed.

Lemma string_map_comp f g s : string_map f (string_map g s) = string_map (λ c, f (g c)) s.
Proof. induction s; simpl; congruence. Qed.

Lemma string_map_ext f g s : (∀ c, f c = g c) → string_map f s = string_map g s.
Proof. intros E. induction s; simpl; [done|]. by rewrite E, IHs. Qed.

Lemma length_bytes_of_string s : length (bytes_of_string s) = String.length s.
Proof. induction s; simpl; congruence. Qed.

#[export] Instance bytes_of_string_inj : Inj (=) (=) bytes_of_string.
Proof.
  intros s. induction s as [|a s IH]; intros [|b t] E; simplify_eq/=; [done|].
  f_equal. by apply IH.
Qed.

Lemma bytes_of_string_map f g s :
  (∀ c, byte_of (f c) = g (byte_of c)) →
  bytes_of_string (string_map f s) = g <$> bytes_of_string s.
Proof. intros E. induction s; simpl; [done|]. by rewrite E, IHs. Qed.

Lemma all_ascii_lower s : all_ascii (string_map lower_char s) = all_ascii s.
Proof. induction s; simpl; [done|]. by rewrite lower_char_ascii, IHs. Qed.

Section strings_lemmas.
Context `{UnicodeTables}.

Lemma ToLower_ascii s : all_ascii s = true → ToLower s = string_map lower_char s.
Proof. unfold ToLower. by intros ->. Qed.

(** On ASCII strings, folding equality is equality of the lowered strings. *)
Lemma EqualFold_ascii s t :
  all_ascii s = true → all_ascii t = true →
  EqualFold s t = true ↔ ToLower s = ToLower t.
Proof.
  intros Hs Ht. rewrite !ToLower_ascii by done.
  revert t Hs Ht. induction s as [|a s IH]; intros [|b t] Hs Ht; simpl in *; [done|by split..|].
  bool_hyps. rewrite H0, H2. simpl. case_if; bool_hyps.
  - rewrite IH by done. split; [|by intros [= _ ?]]. intros ->. f_equal.
    apply (inj byte_of). by rewrite !byte_of_lower_char.
  - split; [done|]. intros E. exfalso. simplify_eq.
    apply Hif. rewrite <- !byte_of_lower_char. congruence.
Qed.

End strings_lemmas.

Lemma bytes_HasPrefix_spec b p : bytes_HasPrefix b p = true ↔ ∃ k, b = p ++ k.
Proof.
  revert b. induction p as [|y p IH]; intros b; simpl.
  - split; [|done]. by intros _; exists b.
  - destruct b as [|x b].
    + split; [done|]. by intros [k E].
    + rewrite andb_true_iff, Z.eqb_eq, IH. split.
      * intros [-> [k ->]]. by exists k.
      * intros [k [= -> ->]]. eauto.
Qed.

Lemma string_app_cons c s t : (String c s) +:+ t = String c (s +:+ t).
Proof. done. Qed.

Lemma length_string_app s t :
  String.length (s +:+ t) = (String.length s + String.length t)%nat.
Proof. induction s as [|c s IH]; [done|]. rewrite string_app_cons. simpl. by rewrite IH. Qed.

Lemma length_be_bytes n v : length (be_bytes n v) = n.
Proof. induction n; simpl; congruence. Qed.

Lemma be_bytes_ok n v : Forall byte_ok (be_bytes n v).
Proof.
  induction n as [|n IH]; simpl; [done|]. constructor; [|done].
  change 255 with (Z.ones 8). rewrite Z.land_ones by lia.
  apply Z.mod_pos_bound. lia.
Qed.

(** Big-endian encoding loses nothing of an [8 * n]-bit value. *)
Lemma be_bytes_inj n v w :
  in_uint (8 * Z.of_nat n) v → in_uint (8 * Z.of_nat n) w →
  be_bytes n v = be_bytes n w → v = w.
Proof.
  intros Hv Hw E.
  assert (∀ u, in_uint (8 * Z.of_nat n) u →
    u = foldl (λ acc b, acc * 256 + b) 0 (be_bytes n u)) as Hfold.
  { clear. intros u Hu.
    assert (∀ k acc, foldl (λ acc b, acc * 256 + b) acc (be_bytes k u) =
      acc * 2 ^ (8 * Z.of_nat k) + u `mod` 2 ^ (8 * Z.of_nat k)) as Hgen.
    { induction k as [|k IH]; intros acc; simpl be_bytes; simpl foldl.
      - rewrite Z.mul_0_r, Z.pow_0_r, Z.mod_1_r. lia.
      - rewrite IH. change 255 with (Z.ones 8). rewrite Z.land_ones, Z.shiftr_div_pow2 by lia.
        replace (8 * Z.of_nat (S k)) with (8 * Z.of_nat k + 8) by lia.
        rewrite Z.pow_add_r, (Z.rem_mul_r u) by lia. lia. }
    rewrite Hgen. rewrite Z.mod_small by done. lia. }
  rewrite (Hfold v), (Hfold w), E by done. done.
Qed.

Lemma hex_digit_inj a b : 0 ≤ a < 16 → 0 ≤ b < 16 → hex_digit a = hex_digit b → a = b.
Proof.
  intros Ha Hb E. apply (f_equal byte_of) in E. unfold hex_digit in E.
  repeat case_if_in E; bool_hyps; rewrite !byte_of_char_of in E by (unfold byte_ok; lia); lia.
Qed.

Lemma length_EncodeToString b : String.length (EncodeToString b) = (2 * length b)%nat.
Proof. induction b; simpl; [done|]. rewrite IHb. lia. Qed.

Lemma EncodeToString_inj a b :
  Forall byte_ok a → Forall byte_ok b → EncodeToString a = EncodeToString b → a = b.
Proof.
  revert b. induction a as [|x a IH]; intros [|y b] Ha Hb E; [done..|].
  cbn [EncodeToString] in E. injection E as E1 E2 E3.
  apply Forall_cons in Ha as [Hax Ha], Hb as [Hby Hb].
  assert (∀ z, byte_ok z → 0 ≤ Z.shiftr z 4 < 16 ∧ 0 ≤ Z.land z 15 < 16 ∧
    z = Z.shiftr z 4 * 16 + Z.land z 15) as Hz.
  { intros z [??]. change 15 with (Z.ones 4).
    rewrite Z.shiftr_div_pow2, Z.land_ones by lia. change (2 ^ 4) with 16.
    pose proof (Z.div_mod z 16). pose proof (Z.mod_pos_bound z 16).
    repeat split; lia. }
  destruct (Hz x) as (?&?&Hx); [done|]. destruct (Hz y) as (?&?&Hy); [done|].
  apply hex_digit_inj in E1, E2; [|lia..].
  f_equal; [lia|]. by apply IH.
Qed.

Lemma string_app_assoc a b c : (a +:+ b) +:+ c = a +:+ (b +:+ c).
Proof. induction a as [|x a IH]; [done|]. by rewrite !string_app_cons, IH. Qed.

