(* ===== verification/GoError.v ===== *)
(** * Go error values

    An error is a node with an identity (what [==] compares), the sentinels its
    own [Is] method accepts, whether it implements [net.Error] and then what its
    [Timeout] method returns, and the errors [Unwrap] gives. [errors.Is] and
    [errors.As] walk this tree in pre-order. *)

From S2P Require Import Prelude.

Inductive ErrId : Type :=
| DeadlineExceeded       (* context.DeadlineExceeded *)
| Canceled               (* context.Canceled *)
| ErrPoolTimeout          (* redis.ErrPoolTimeout *)
| RedisNil               (* redis.Nil *)
| EOF                    (* io.EOF *)
| UnexpectedEOF          (* io.ErrUnexpectedEOF *)
| ErrBuf                 (* dns.ErrBuf *)
| OtherErr (what : string).

#[export] Instance ErrId_eq_dec : EqDecision ErrId.
Proof. solve_decision. Defined.

Inductive error : Type :=
| Error (id : ErrId) (is_method : list ErrId) (net : option bool) (unwrap : list error).

(** A sentinel: no [Is] method, not a [net.Error], nothing to unwrap. *)
Definition sentinel (id : ErrId) : error := Error id [] None [].

(** [fmt.Errorf("...%w", e)]. *)
Definition Wrap (what : string) (e : error) : error := Error (OtherErr what) [] None [e].

Fixpoint errors_Is (e : error) (target : ErrId) : bool :=
  match e with
  | Error id ism _ us =>
      bool_decide (id = target) || bool_decide (target ∈ ism) ||
      existsb (λ u, errors_Is u target) us
  end.

(** [errors.As(err, &netErr)] with [netErr] a [net.Error]: the [Timeout()] of
    the first match. *)
Fixpoint errors_As_net (e : error) : option bool :=
  match e with
  | Error _ _ (Some t) _ => Some t
  | Error _ _ None us =>
      (fix go (us : list error) : option bool :=
         match us with
         | [] => None
         | u :: us' => match errors_As_net u with Some t => Some t | None => go us' end
         end) us
  end.

(** [err == target], the comparison of interface values. *)
Definition err_eqb (e : error) (target : ErrId) : bool :=
  match e with Error id _ _ _ => bool_decide (id = target) end.

Lemma errors_Is_Wrap what e target :
  OtherErr what ≠ target → errors_Is (Wrap what e) target = errors_Is e target.
Proof.
  intros Hne. unfold Wrap. cbn [errors_Is existsb].
  rewrite (bool_decide_eq_false_2 _ Hne).
  rewrite bool_decide_eq_false_2 by set_solver. simpl. apply orb_false_r.
Qed.

Lemma errors_As_net_Wrap what e : errors_As_net (Wrap what e) = errors_As_net e.
Proof. simpl. by destruct (errors_As_net e). Qed.

