(* ===== verification/GoFloat.v ===== *)
(** * float64

    The plugin turns durations into seconds through [float64], and
    [time.ParseDuration] scales the fraction of a literal with it. The values are
    the IEEE 754 binary64 numbers of the Standard Library's [SpecFloat], whose
    operations compute and are not axioms. A conversion to an unsigned integer
    truncates toward zero; Go leaves the value of an out-of-range conversion to
    the implementation, so it is a parameter, reduced to the width of the type:
    whatever the implementation yields is a value of that type. *)

From Stdlib Require Export SpecFloat.
From S2P Require Import Prelude.

Local Open Scope Z_scope.

Abbreviation float64 := spec_float.

Definition f64_of_Z (z : Z) : float64 := binary_normalize 53 1024 z 0 false.
Definition f64_add : float64 → float64 → float64 := SFadd 53 1024.
Definition f64_mul : float64 → float64 → float64 := SFmul 53 1024.
Definition f64_div : float64 → float64 → float64 := SFdiv 53 1024.

(** The integer part, [None] for an infinity or a NaN. *)
Definition f64_trunc (f : float64) : option Z :=
  match f with
  | S754_zero _ => Some 0
  | S754_finite s m e =>
      Some (cond_Zopp s (if 0 <=? e then Zpos m * 2 ^ e else Zpos m `div` 2 ^ (- e)))
  | _ => None
  end.

Class Platform : Type := {
  (** the value of [uintN(f)] when [f] is not in range, for [N] the first argument *)
  uint_of_float_oob : Z → float64 → Z;
}.

Definition uint_of_float `{Platform} (w : Z) (f : float64) : Z :=
  match f64_trunc f with
  | Some z => if (0 <=? z) && (z <? 2 ^ w) then z else wrap_uint w (uint_of_float_oob w f)
  | None => wrap_uint w (uint_of_float_oob w f)
  end.

Lemma uint_of_float_range `{Platform} w f : 0 ≤ w → in_uint w (uint_of_float w f).
Proof.
  intros Hw. unfold uint_of_float. pose proof (Z.pow_pos_nonneg 2 w ltac:(lia) Hw).
  destruct (f64_trunc f) as [z|]; [case_if; [by bool_hyps|]|]; by apply Z.mod_pos_bound.
Qed.

(** ** Exactness on integers below 2^53 *)

Lemma digits2_pos_log2 p : Zpos (digits2_pos p) = Z.log2 (Zpos p) + 1.
Proof.
  induction p as [p IH|p IH|]; cbn [digits2_pos]; [..|done].
  - rewrite Pos2Z.inj_succ, IH, Pos2Z.inj_xI, Z.log2_succ_double by lia. lia.
  - rewrite Pos2Z.inj_succ, IH, Pos2Z.inj_xO, Z.log2_double by lia. lia.
Qed.

Lemma iter_xO p k : Zpos (Pos.iter xO p k) = Zpos p * 2 ^ Zpos k.
Proof.
  induction k as [|k IH] using Pos.peano_ind.
  - simpl. lia.
  - rewrite Pos.iter_succ, Pos2Z.inj_xO, IH, Pos2Z.inj_succ, Z.pow_succ_r by lia. lia.
Qed.

(** A mantissa of exactly 53 bits needs no rounding. *)
Lemma binary_round_aux_exact s m e :
  Z.log2 (Zpos m) = 52 → -1074 ≤ e ≤ 971 →
  binary_round_aux 53 1024 s (Zpos m) e loc_Exact = S754_finite s m e.
Proof.
  intros Hlog He.
  assert (∀ l, shr_fexp 53 1024 (Zpos m) e l = (shr_record_of_loc (Zpos m) l, e)) as Hshr.
  { intros l. unfold shr_fexp, Zdigits2, fexp, emin. rewrite digits2_pos_log2, Hlog.
    replace (Z.max (52 + 1 + e - 53) (3 - 1024 - 53) - e) with 0 by lia. done. }
  unfold binary_round_aux. rewrite Hshr. simpl. rewrite Hshr. simpl.
  destruct (Z.leb_spec e (1024 - 53)); [done|lia].
Qed.

Lemma f64_of_Z_pos z :
  0 < z < 2 ^ 53 →
  ∃ m e, f64_of_Z z = S754_finite false m e ∧ -52 ≤ e ≤ 0 ∧ Zpos m = z * 2 ^ (- e).
Proof.
  intros Hz. destruct z as [|p|]; [lia| |lia].
  assert (0 ≤ Z.log2 (Zpos p) ≤ 52) as Hlog.
  { split; [apply Z.log2_nonneg|]. apply Z.lt_succ_r, Z.log2_lt_pow2; lia. }
  unfold f64_of_Z. simpl. unfold binary_round, fexp, emin, shl_align.
  rewrite digits2_pos_log2.
  replace (Z.max (Z.log2 (Zpos p) + 1 + 0 - 53) (3 - 1024 - 53)) with (Z.log2 (Zpos p) - 52)
    by lia.
  destruct (Z.log2 (Zpos p) - 52 - 0) as [|d|d] eqn:Ed; [..|].
  - exists p, 0. rewrite binary_round_aux_exact by lia. split_and!; [done|lia..].
  - lia.
  - assert (Z.log2 (Zpos (Pos.iter xO p d)) = 52).
    { rewrite iter_xO, Z.log2_mul_pow2 by lia. lia. }
    rewrite binary_round_aux_exact by lia. eexists _, _. split; [done|]. split; [lia|].
    rewrite iter_xO. f_equal. f_equal. lia.
Qed.

Lemma f64_trunc_of_Z z : 0 ≤ z < 2 ^ 53 → f64_trunc (f64_of_Z z) = Some z.
Proof.
  intros Hz. destruct (decide (z = 0)) as [->|]; [done|].
  destruct (f64_of_Z_pos z) as (m & e & -> & He & Hm); [lia|].
  unfold f64_trunc, cond_Zopp. f_equal. rewrite Hm. case_if; bool_hyps.
  - replace e with 0 by lia. lia.
  - by rewrite Z.div_mul by lia.
Qed.

(** Adding a positive zero changes nothing. *)
Lemma f64_add_zero z : 0 ≤ z < 2 ^ 53 → f64_add (f64_of_Z z) (S754_zero false) = f64_of_Z z.
Proof.
  intros Hz. destruct (decide (z = 0)) as [->|]; [done|].
  by destruct (f64_of_Z_pos z) as (m & e & -> & _); [lia|].
Qed.

Lemma uint_of_float_exact `{Platform} w z :
  in_uint w z → 0 < w ≤ 53 → uint_of_float w (f64_of_Z z) = z.
Proof.
  intros [? Hz] Hw. unfold uint_of_float.
  pose proof (Z.pow_le_mono_r 2 w 53 ltac:(lia) ltac:(lia)).
  rewrite f64_trunc_of_Z by lia. case_if; [done|].
  apply andb_false_iff in Hif as [?|?]; bool_hyps; lia.
Qed.
