(* ===== verification/GoTime.v ===== *)
(** * Package time: durations

    A [time.Duration] is an [int64] count of nanoseconds. *)

From S2P Require Import Prelude GoString GoFloat.

Local Open Scope Z_scope.

Abbreviation Duration := Z.

Definition Nanosecond : Duration := 1.
Definition Microsecond : Duration := 1000 * Nanosecond.
Definition Millisecond : Duration := 1000 * Microsecond.
Definition Second : Duration := 1000 * Millisecond.
Definition Minute : Duration := 60 * Second.
Definition Hour : Duration := 60 * Minute.

(** Multiplication of durations wraps around in 64 bits. *)
Definition dur_mul (a b : Duration) : Duration := wrap_int 64 (a * b).

(** [d.Seconds()]: [float64(d / Second) + float64(d % Second) / 1e9]. *)
Definition Seconds (d : Duration) : float64 :=
  f64_add (f64_of_Z (Z.quot d Second))
    (f64_div (f64_of_Z (Z.rem d Second)) (f64_of_Z 1000000000)).

(** [uint32(d.Seconds())]. *)
Definition uint32_Seconds `{Platform} (d : Duration) : Z := uint_of_float 32 (Seconds d).

(** A whole, non-negative number of seconds. *)
Definition whole_seconds (d : Duration) : Prop := 0 ≤ d ∧ d `mod` Second = 0.

(** ** Lemmas *)

Lemma Second_val : Second = 1000000000.
Proof. done. Qed.

Lemma Hour_val : Hour = 3600 * Second.
Proof. done. Qed.

Lemma whole_seconds_mul n : 0 ≤ n → whole_seconds (n * Second).
Proof. intros. split; [rewrite Second_val; lia|]. apply Z.mod_mul. done. Qed.

Lemma whole_seconds_div d : whole_seconds d → d = (d `div` Second) * Second.
Proof. intros [_ Hd]. pose proof (Z.div_mod d Second ltac:(done)). lia. Qed.

(** The float path through [Seconds] and the cast is exact on whole seconds
    below 2^32, the case of every TTL the plugin computes. *)
Lemma uint32_Seconds_mul `{Platform} n : in_uint 32 n → uint32_Seconds (n * Second) = n.
Proof.
  intros Hn. unfold uint32_Seconds, Seconds. unfold in_uint in Hn.
  rewrite Z.quot_mul, Z.rem_mul by done.
  replace (f64_div (f64_of_Z 0) (f64_of_Z 1000000000)) with (S754_zero false)
    by (vm_compute; done).
  rewrite f64_add_zero by lia. by apply uint_of_float_exact.
Qed.

Lemma uint32_Seconds_whole `{Platform} d :
  whole_seconds d → d < 2 ^ 32 * Second → uint32_Seconds d = d `div` Second.
Proof.
  intros Hw Hd. rewrite (whole_seconds_div d Hw) at 1.
  apply uint32_Seconds_mul. destruct Hw. split; [by apply Z.div_pos|].
  by apply Z.div_lt_upper_bound; [|rewrite Z.mul_comm].
Qed.

Lemma uint32_Seconds_range `{Platform} d : in_uint 32 (uint32_Seconds d).
Proof. by apply uint_of_float_range. Qed.

(** On whole seconds the cast never rounds up, in range or not. *)
Lemma uint32_Seconds_le `{Platform} d : whole_seconds d → uint32_Seconds d * Second ≤ d.
Proof.
  intros Hw. destruct (Z.lt_ge_cases d (2 ^ 32 * Second)) as [Hd|Hd].
  - rewrite (uint32_Seconds_whole d Hw Hd). by rewrite <- (whole_seconds_div d Hw).
  - pose proof (uint32_Seconds_range d) as [_ Hr]. rewrite Second_val in *. lia.
Qed.

Lemma dur_mul_small n : 0 ≤ n < 2 ^ 33 → dur_mul n Second = n * Second.
Proof.
  intros. apply wrap_int_small; [lia|]. unfold in_int. rewrite Second_val. lia.
Qed.
