(* ===== verification/Dns.v ===== *)
(** * DNS messages and the libraries the plugin calls

    The structures of [github.com/miekg/dns] are data here: the fields are the
    public fields of [dns.Msg], [dns.Question] and [dns.RR_Header], and an RR's
    dynamic type is [*dns.CNAME], [*dns.SOA] or another one, whose rdata the
    plugin never looks at. What these libraries compute (packing, EDNS lookup,
    reply construction, classification, the request wrapper, hashing) is not
    code of this repository: each library is a class of operations, and what
    the plugin relies on is a separate class of laws. *)

From S2P Require Import Prelude GoString GoError.

Local Open Scope Z_scope.

(** ** Data *)

Definition TypeCNAME : Z := 5.
Definition TypeSOA : Z := 6.
Definition TypeOPT : Z := 41.
Definition TypeANY : Z := 255.

Record RR_Header : Type := mkHeader {
  Name : string;
  Rrtype : Z;
  Class_ : Z;
  Ttl : Z;
}.

(** The dynamic type of an RR, with the fields the plugin reads. *)
Inductive RData : Type :=
| CNAME (Target : string)
| SOA (Minttl : Z) (rest : string)
| OtherRR (rdata : string).

Record RR : Type := mkRR {
  Header : RR_Header;
  Data : RData;
}.

Record Question_ : Type := mkQuestion {
  QName : string;
  Qtype : Z;
  Qclass : Z;
}.

Record Msg : Type := mkMsg {
  Id : Z;
  Response : bool;
  Opcode : Z;
  Authoritative : bool;
  Truncated : bool;
  RecursionDesired : bool;
  RecursionAvailable : bool;
  Zero : bool;
  AuthenticatedData : bool;
  CheckingDisabled : bool;
  Rcode : Z;
  Compress : bool;
  Question : list Question_;
  Answer : list RR;
  Ns : list RR;
  Extra : list RR;
}.

(** ** Field updates *)

Definition with_sections (m : Msg) (an ns ex : list RR) : Msg :=
  mkMsg (Id m) (Response m) (Opcode m) (Authoritative m) (Truncated m) (RecursionDesired m)
    (RecursionAvailable m) (Zero m) (AuthenticatedData m) (CheckingDisabled m) (Rcode m)
    (Compress m) (Question m) an ns ex.

Definition with_Rcode (m : Msg) (rc : Z) : Msg :=
  mkMsg (Id m) (Response m) (Opcode m) (Authoritative m) (Truncated m) (RecursionDesired m)
    (RecursionAvailable m) (Zero m) (AuthenticatedData m) (CheckingDisabled m) rc
    (Compress m) (Question m) (Answer m) (Ns m) (Extra m).

Definition with_Authoritative (m : Msg) (aa : bool) : Msg :=
  mkMsg (Id m) (Response m) (Opcode m) aa (Truncated m) (RecursionDesired m)
    (RecursionAvailable m) (Zero m) (AuthenticatedData m) (CheckingDisabled m) (Rcode m)
    (Compress m) (Question m) (Answer m) (Ns m) (Extra m).

Definition with_AuthenticatedData (m : Msg) (ad : bool) : Msg :=
  mkMsg (Id m) (Response m) (Opcode m) (Authoritative m) (Truncated m) (RecursionDesired m)
    (RecursionAvailable m) (Zero m) ad (CheckingDisabled m) (Rcode m)
    (Compress m) (Question m) (Answer m) (Ns m) (Extra m).

(** [Compress] is an instruction to [Pack], not a field of the wire format: a
    message that was packed and unpacked has it unset. *)
Definition unpacked (m : Msg) : Msg :=
  mkMsg (Id m) (Response m) (Opcode m) (Authoritative m) (Truncated m) (RecursionDesired m)
    (RecursionAvailable m) (Zero m) (AuthenticatedData m) (CheckingDisabled m) (Rcode m)
    false (Question m) (Answer m) (Ns m) (Extra m).

Definition with_Ttl (rr : RR) (ttl : Z) : RR :=
  let h := Header rr in
  mkRR (mkHeader (Name h) (Rrtype h) (Class_ h) ttl) (Data rr).

Definition is_type (t : Z) (rr : RR) : bool := Rrtype (Header rr) =? t.

(** ** Decidable equality and countability *)

#[export] Instance RR_Header_eq_dec : EqDecision RR_Header.
Proof. solve_decision. Defined.
#[export] Instance RData_eq_dec : EqDecision RData.
Proof. solve_decision. Defined.
#[export] Instance RR_eq_dec : EqDecision RR.
Proof. solve_decision. Defined.
#[export] Instance Question_eq_dec : EqDecision Question_.
Proof. solve_decision. Defined.
#[export] Instance Msg_eq_dec : EqDecision Msg.
Proof. solve_decision. Defined.

(** ** The libraries *)

(** [response.Type] of CoreDNS. *)
Inductive RType : Type :=
| NoError | NameError | ServerError | NoData | Delegation | Meta | Update | OtherError.

#[export] Instance RType_eq_dec : EqDecision RType.
Proof. solve_decision. Defined.

(** miekg/dns. [Msg.Copy] is a deep copy, which a pure value needs no operation for. *)
Class DnsLib : Type := {
  Pack : Msg → result error bytes;
  Unpack : bytes → result error Msg;
  IsEdns0 : Msg → option RR;
  opt_Do : RR → bool;
  (** [SetReply m r] is [m] after [m.SetReply(r)]. *)
  SetReply : Msg → Msg → Msg;
}.

(** CoreDNS: [response.Typify], the methods of [request.Request] on the
    request message, and [plugin.Zones.Matches]. *)
Class CoreDns : Type := {
  Typify : Msg → Z → RType * option RR;
  state_Name : Msg → string;
  state_QClass : Msg → Z;
  state_QType : Msg → Z;
  state_Do : Msg → bool;
  state_Match : Msg → Msg → bool;
  Zones_Matches : list string → string → string;
}.

(** What the documentation of miekg/dns says of the operations the plugin calls. *)
Class DnsLaws `{DnsLib} : Prop := {
  (** any OPT record of the additional section is found, and only such a record *)
  IsEdns0_Some m o : IsEdns0 m = Some o → o ∈ Extra m ∧ Rrtype (Header o) = TypeOPT;
  IsEdns0_None m o : IsEdns0 m = None → o ∈ Extra m → Rrtype (Header o) ≠ TypeOPT;
  (** a reply carries the request's id and first question, and the sections are not touched *)
  SetReply_Id m r : Id (SetReply m r) = Id r;
  SetReply_Response m r : Response (SetReply m r) = true;
  SetReply_Question m r q qs : Question r = q :: qs → Question (SetReply m r) = [q];
  SetReply_Answer m r : Answer (SetReply m r) = Answer m;
  SetReply_Ns m r : Ns (SetReply m r) = Ns m;
  SetReply_Extra m r : Extra (SetReply m r) = Extra m;
  SetReply_AD m r : AuthenticatedData (SetReply m r) = AuthenticatedData m;
}.

(** What the documentation of CoreDNS says. *)
Class CoreDnsLaws `{UnicodeTables, DnsLib, CoreDns} : Prop := {
  (** [Typify] returns the message's OPT record beside its type *)
  Typify_opt m t : snd (Typify m t) = IsEdns0 m;
  (** [Match] holds only of a reply with one question, for the request's name and type *)
  state_Match_spec r m :
    state_Match r m = true →
    ∃ q, Question m = [q] ∧ ToLower (QName q) = state_Name r ∧ Qtype q = state_QType r;
  (** and it looks at nothing else than these and the reply's QR bit *)
  state_Match_ext r r' m m' :
    state_Name r = state_Name r' → state_QType r = state_QType r' →
    Question m = Question m' → Response m = Response m' →
    state_Match r m = state_Match r' m';
}.
