(* ===== verification/Fixtures.v ===== *)
(** * Concrete libraries and messages

    An instance of every library class, with its laws proved, and a few DNS
    messages: the inputs on which the theorems of the other files are evaluated.
    The wire format of [demo_dns] is a token stream with a proved round trip, not
    the format of RFC 1035. Nothing outside the witnesses depends on this file. *)

From S2P Require Import Prelude GoString GoError GoFloat GoTime Dns.

Local Open Scope Z_scope.

Definition demo_unicode : UnicodeTables := {|
  unicode_ToLower s := s;
  unicode_EqualFold s t := String.eqb s t;
|}.

Definition demo_platform : Platform := {| uint_of_float_oob _ _ := 0 |}.

(** ** A codec for messages *)

Class Codec (A : Type) : Type := {
  enc : A → bytes;
  dec : bytes → option (A * bytes);
  dec_enc x r : dec (enc x ++ r) = Some (x, r);
}.

#[local] Program Instance codec_Z : Codec Z := {|
  enc z := [z];
  dec b := match b with [] => None | z :: r => Some (z, r) end;
|}.
Next Obligation. done. Qed.

#[local] Program Instance codec_bool : Codec bool := {|
  enc b := [if b then 1 else 0];
  dec b := match b with [] => None | z :: r => Some (z =? 1, r) end;
|}.
Next Obligation. by intros []. Qed.

#[local] Program Instance codec_prod {A B} `{Codec A, Codec B} : Codec (A * B) := {|
  enc p := enc p.1 ++ enc p.2;
  dec b := match dec b with
    | Some (x, r) => match dec r with Some (y, r') => Some ((x, y), r') | None => None end
    | None => None
    end;
|}.
Next Obligation. intros A B ?? [x y] r. simpl. by rewrite <- app_assoc, !dec_enc. Qed.

Fixpoint dec_n {A} `{Codec A} (n : nat) (b : bytes) : option (list A * bytes) :=
  match n with
  | O => Some ([], b)
  | S n' =>
      match dec b with
      | Some (x, r) =>
          match dec_n n' r with Some (xs, r') => Some (x :: xs, r') | None => None end
      | None => None
      end
  end.

#[local] Program Instance codec_list {A} `{Codec A} : Codec (list A) := {|
  enc l := Z.of_nat (length l) :: concat (map enc l);
  dec b := match b with [] => None | n :: r => dec_n (Z.to_nat n) r end;
|}.
Next Obligation.
  intros A HA l r. simpl. rewrite Nat2Z.id.
  induction l as [|x l IH]; simpl; [done|].
  rewrite <- app_assoc, dec_enc. simpl in IH. by rewrite IH.
Qed.

Definition codec_iso {A B} `{Codec B} (f : A → B) (g : B → A) (Hgf : ∀ x, g (f x) = x) : Codec A.
Proof.
  refine {|
    enc x := enc (f x);
    dec b := match dec b with Some (y, r) => Some (g y, r) | None => None end |}.
  intros x r. by rewrite dec_enc, Hgf.
Defined.

#[local] Program Instance codec_string : Codec string :=
  codec_iso (λ s, bytes_of_string s) (λ b, foldr (λ z s, String (char_of z) s) EmptyString b) _.
Next Obligation. intros s. induction s; simpl; [done|]. by rewrite char_of_byte_of, IHs. Qed.

#[local] Program Instance codec_header : Codec RR_Header :=
  codec_iso (λ h, (Name h, Rrtype h, Class_ h, Ttl h))
    (λ '(n, t, c, l), mkHeader n t c l) _.
Next Obligation. by intros []. Qed.

#[local] Program Instance codec_rdata : Codec RData :=
  codec_iso
    (λ d, match d with CNAME t => (0, 0, t) | SOA m r => (1, m, r) | OtherRR r => (2, 0, r) end)
    (λ '(k, m, r), if k =? 0 then CNAME r else if k =? 1 then SOA m r else OtherRR r) _.
Next Obligation. by intros []. Qed.

#[local] Program Instance codec_rr : Codec RR :=
  codec_iso (λ r, (Header r, Data r)) (λ '(h, d), mkRR h d) _.
Next Obligation. by intros []. Qed.

#[local] Program Instance codec_question : Codec Question_ :=
  codec_iso (λ q, (QName q, Qtype q, Qclass q)) (λ '(n, t, c), mkQuestion n t c) _.
Next Obligation. by intros []. Qed.

#[local] Program Instance codec_msg : Codec Msg :=
  codec_iso
    (λ m, (Id m, Response m, Opcode m, Authoritative m, Truncated m, RecursionDesired m,
           RecursionAvailable m, Zero m, AuthenticatedData m, CheckingDisabled m, Rcode m,
           Compress m, Question m, Answer m, Ns m, Extra m))
    (λ '(a, b, c, d, e, f, g, h, i, j, k, l, q, an, ns, ex),
       mkMsg a b c d e f g h i j k l q an ns ex) _.
Next Obligation. by intros []. Qed.

(** ** The libraries *)

Definition demo_SetReply (m r : Msg) : Msg :=
  mkMsg (Id r) true (Opcode r) (Authoritative m) (Truncated m)
    (if Opcode r =? 0 then RecursionDesired r else RecursionDesired m)
    (RecursionAvailable m) (Zero m) (AuthenticatedData m)
    (if Opcode r =? 0 then CheckingDisabled r else CheckingDisabled m) 0 (Compress m)
    (match Question r with [] => Question m | q :: _ => [q] end)
    (Answer m) (Ns m) (Extra m).

Definition demo_dns : DnsLib := {|
  Pack m := Ok (enc (unpacked m));
  Unpack b := match dec b with
    | Some (m, []) => Ok m
    | _ => Err (sentinel (OtherErr "overflow unpacking"))
    end;
  IsEdns0 m := snd <$> list_find (λ r, Rrtype (Header r) = TypeOPT) (Extra m);
  opt_Do o := Z.testbit (Ttl (Header o)) 15;
  SetReply := demo_SetReply;
|}.

Section demo.
#[local] Existing Instances demo_unicode demo_dns.

Definition demo_Name (r : Msg) : string :=
  match Question r with [] => "." | q :: _ => ToLower (QName q) end.

Definition demo_Typify (m : Msg) : RType :=
  if Rcode m =? 3 then NameError
  else if Rcode m =? 2 then ServerError
  else if negb (Rcode m =? 0) then OtherError
  else match Answer m with
  | _ :: _ => NoError
  | [] => if existsb (is_type TypeSOA) (Ns m) then NoData
          else match Ns m with [] => NoError | _ :: _ => Delegation end
  end.

Definition demo_coredns : CoreDns := {|
  Typify m _ := (demo_Typify m, IsEdns0 m);
  state_Name := demo_Name;
  state_QClass r := match Question r with [] => 0 | q :: _ => Qclass q end;
  state_QType r := match Question r with [] => 0 | q :: _ => Qtype q end;
  state_Do r := match IsEdns0 r with Some o => opt_Do o | None => false end;
  state_Match r m :=
    match Question m with
    | [q] => Response m && String.eqb (ToLower (QName q)) (demo_Name r) &&
             (Qtype q =? match Question r with [] => 0 | q' :: _ => Qtype q' end)
    | _ => false
    end;
  Zones_Matches zones _ := match zones with [] => "" | z :: _ => z end;
|}.

Lemma demo_dns_laws : DnsLaws.
Proof.
  constructor; try (by intros).
  - intros m o E. simpl in E. apply fmap_Some in E as ([i x] & E & ->).
    apply list_find_Some in E as (Hi & Hx & _). split; [|done].
    by eapply list_elem_of_lookup_2.
  - intros m o E Ho. simpl in E. apply fmap_None, list_find_None in E.
    rewrite Forall_forall in E. by apply E.
  - intros m r q qs E. simpl. by rewrite E.
Qed.

Lemma demo_Unpack_Pack m b : Pack m = Ok b → Unpack b = Ok (unpacked m).
Proof.
  intros Hb. apply (f_equal (λ r, match r with Ok x => x | Err _ => [] end)) in Hb.
  change (enc (unpacked m) = b) in Hb. subst b.
  pose proof (dec_enc (unpacked m) []) as E. rewrite app_nil_r in E.
  change (match dec (enc (unpacked m)) with
    | Some (m, []) => Ok m
    | _ => Err (sentinel (OtherErr "overflow unpacking"))
    end = Ok (unpacked m)). by rewrite E.
Qed.

#[local] Existing Instance demo_coredns.

Lemma demo_coredns_laws : CoreDnsLaws.
Proof.
  constructor; [done| |by intros r r' m m' Hn Ht Hq Hr; simpl in *; rewrite Hn, Ht, Hq, Hr].
  intros r m. simpl. destruct (Question m) as [|q [|]]; [done| |done].
  intros E. bool_hyps. eauto.
Qed.

End demo.

(** ** Messages *)

Definition hdr_ex (n : string) (t ttl : Z) : RR_Header := mkHeader n t 1 ttl.
Definition q_ex : Question_ := mkQuestion "www.Example.org." 1 1.
Definition a_ex (ttl : Z) : RR := mkRR (hdr_ex "www.example.org." 1 ttl) (OtherRR "192.0.2.1").
Definition soa_ex (ttl minttl : Z) : RR :=
  mkRR (hdr_ex "example.org." TypeSOA ttl) (SOA minttl "ns.example.org. root.example.org. 1").
(** an OPT record with the DO bit set *)
Definition opt_ex : RR := mkRR (hdr_ex "." TypeOPT 32768) (OtherRR "").

Definition msg_ex (resp : bool) (rcode : Z) (an ns ex : list RR) : Msg :=
  mkMsg 4660 resp 0 false false true true false false false rcode true [q_ex] an ns ex.

Definition req_ex : Msg := msg_ex false 0 [] [] [].
Definition ans_ex : Msg := msg_ex true 0 [a_ex 7200; a_ex 300] [] [].
Definition ans_do_ex : Msg := msg_ex true 0 [a_ex 300] [] [opt_ex].
Definition nx_ex : Msg := msg_ex true 3 [] [soa_ex 900 60] [].
Definition servfail_ex : Msg := msg_ex true 2 [] [] [].
