(* ===== verification/GoStrconv.v ===== *)
(** * Packages strconv and time: reading numbers and durations

    [strconv.Atoi] and [strconv.ParseUint] in base 10 with a 64-bit [int], and
    [time.ParseDuration] with its unsigned arithmetic, overflow tests and the
    [float64] scaling of fractions. *)

From S2P Require Import Prelude GoString GoError GoFloat GoTime Fixtures.

Local Open Scope Z_scope.

(** ** Digits *)

Definition is_digit (c : ascii) : bool := (48 <=? byte_of c) && (byte_of c <=? 57).
Definition digit (c : ascii) : Z := byte_of c - 48.

(** The value of a string of decimal digits read after [acc]. *)
Fixpoint dec_val (s : string) (acc : Z) : option Z :=
  match s with
  | EmptyString => Some acc
  | String c s' => if is_digit c then dec_val s' (acc * 10 + digit c) else None
  end.

(** ** strconv *)

Definition ErrSyntax : error := sentinel (OtherErr "invalid syntax").
Definition ErrRange : error := sentinel (OtherErr "value out of range").

(** An optional sign, [true] for a minus, and the rest. *)
Definition take_sign (s : string) : bool * string :=
  match s with
  | String c s' =>
      if byte_of c =? 45 then (true, s') else if byte_of c =? 43 then (false, s') else (false, s)
  | EmptyString => (false, s)
  end.

Definition Atoi (s : string) : result error Z :=
  let '(neg, ds) := take_sign s in
  match ds with
  | EmptyString => Err ErrSyntax
  | _ =>
      match dec_val ds 0 with
      | None => Err ErrSyntax
      | Some n =>
          if neg then (if n <=? 2 ^ 63 then Ok (- n) else Err ErrRange)
          else (if n <? 2 ^ 63 then Ok n else Err ErrRange)
      end
  end.

Definition ParseUint64 (s : string) : result error Z :=
  match s with
  | EmptyString => Err ErrSyntax
  | _ =>
      match dec_val s 0 with
      | None => Err ErrSyntax
      | Some n => if n <? 2 ^ 64 then Ok n else Err ErrRange
      end
  end.

(** ** time.ParseDuration *)

(** [leadingInt]: [None] on overflow past 2^63. *)
Fixpoint leadingInt (s : string) (x : Z) : option (Z * string) :=
  match s with
  | String c s' =>
      if is_digit c then
        if 2 ^ 63 `div` 10 <? x then None
        else
          let x := wrap_uint 64 (x * 10 + digit c) in
          if 2 ^ 63 <? x then None else leadingInt s' x
      else Some (x, s)
  | EmptyString => Some (x, s)
  end.

(** [leadingFraction]: once it overflows, further digits are skipped. *)
Fixpoint leadingFraction (s : string) (x : Z) (scale : float64) (overflow : bool) :
    Z * float64 * string :=
  match s with
  | String c s' =>
      if is_digit c then
        if overflow then leadingFraction s' x scale true
        else if (2 ^ 63 - 1) `div` 10 <? x then leadingFraction s' x scale true
        else
          let y := wrap_uint 64 (x * 10 + digit c) in
          if 2 ^ 63 <? y then leadingFraction s' x scale true
          else leadingFraction s' y (f64_mul scale (f64_of_Z 10)) false
      else (x, scale, s)
  | EmptyString => (x, scale, s)
  end.

(** The unit: everything up to the next dot or digit. *)
Fixpoint take_unit (s : string) : string * string :=
  match s with
  | String c s' =>
      if (byte_of c =? 46) || is_digit c then (EmptyString, s)
      else let '(u, rest) := take_unit s' in (String c u, rest)
  | EmptyString => (EmptyString, EmptyString)
  end.

(** The two spellings of the micro sign, in UTF-8. *)
Definition micro_s (b1 b2 : Z) : string := String (char_of b1) (String (char_of b2) "s").

Definition unitMap (u : string) : option Z :=
  if String.eqb u "ns" then Some Nanosecond
  else if String.eqb u "us" then Some Microsecond
  else if String.eqb u (micro_s 0xC2 0xB5) then Some Microsecond
  else if String.eqb u (micro_s 0xCE 0xBC) then Some Microsecond
  else if String.eqb u "ms" then Some Millisecond
  else if String.eqb u "s" then Some Second
  else if String.eqb u "m" then Some Minute
  else if String.eqb u "h" then Some Hour
  else None.

Definition invalid_duration : error := sentinel (OtherErr "time: invalid duration").
Definition missing_unit : error := sentinel (OtherErr "time: missing unit in duration").
Definition unknown_unit : error := sentinel (OtherErr "time: unknown unit in duration").

Section duration.
Context `{Platform}.

(** One turn of the loop: the value of the next term and the rest. *)
Definition duration_term (s : string) : result error (Z * string) :=
  match s with
  | EmptyString => Err invalid_duration
  | String c _ =>
      if negb ((byte_of c =? 46) || is_digit c) then Err invalid_duration
      else match leadingInt s 0 with
      | None => Err invalid_duration
      | Some (v, s1) =>
          let pre := negb (String.length s =? String.length s1)%nat in
          let '(f, scale, s2, post) :=
            match s1 with
            | String d s1' =>
                if byte_of d =? 46 then
                  let '(f, scale, s2) := leadingFraction s1' 0 (f64_of_Z 1) false in
                  (f, scale, s2, negb (String.length s1' =? String.length s2)%nat)
                else (0, f64_of_Z 1, s1, false)
            | EmptyString => (0, f64_of_Z 1, s1, false)
            end in
          if negb pre && negb post then Err invalid_duration
          else
            let '(u, s3) := take_unit s2 in
            if String.eqb u "" then Err missing_unit
            else match unitMap u with
            | None => Err unknown_unit
            | Some unit =>
                if 2 ^ 63 `div` unit <? v then Err invalid_duration
                else
                  let v := wrap_uint 64 (v * unit) in
                  if 0 <? f then
                    let v := wrap_uint 64
                      (v + uint_of_float 64 (f64_mul (f64_of_Z f) (f64_div (f64_of_Z unit) scale))) in
                    if 2 ^ 63 <? v then Err invalid_duration else Ok (v, s3)
                  else Ok (v, s3)
            end
      end
  end.

(** Each turn consumes at least one byte: [fuel] is the length of the string. *)
Fixpoint duration_loop (fuel : nat) (s : string) (d : Z) : result error Z :=
  match s with
  | EmptyString => Ok d
  | _ =>
      match fuel with
      | O => Err invalid_duration
      | S fuel' =>
          match duration_term s with
          | Err e => Err e
          | Ok (v, s') =>
              let d := wrap_uint 64 (d + v) in
              if 2 ^ 63 <? d then Err invalid_duration else duration_loop fuel' s' d
          end
      end
  end.

Definition ParseDuration (s : string) : result error Duration :=
  let '(neg, s) := take_sign s in
  if String.eqb s "0" then Ok 0
  else if String.eqb s "" then Err invalid_duration
  else match duration_loop (String.length s) s 0 with
  | Err e => Err e
  | Ok d =>
      if neg then Ok (wrap_int 64 (- wrap_int 64 d))
      else if 2 ^ 63 - 1 <? d then Err invalid_duration
      else Ok (wrap_int 64 d)
  end.

End duration.

(** ** Lemmas *)

Lemma digit_range c : is_digit c = true → 0 ≤ digit c ≤ 9.
Proof. unfold is_digit, digit. intros E. bool_hyps. lia. Qed.

Lemma dec_val_ge s acc n : dec_val s acc = Some n → 0 ≤ acc → acc ≤ n.
Proof.
  revert acc. induction s as [|c s IH]; intros acc; simpl; [intros [= <-]; lia|].
  destruct (is_digit c) eqn:E; [|done]. pose proof (digit_range c E). intros Hn Ha.
  specialize (IH _ Hn). lia.
Qed.

(** Not a digit: where a number ends. *)
Definition no_digit_head (s : string) : Prop :=
  match s with String c _ => is_digit c = false | EmptyString => True end.

Lemma leadingInt_digits ds rest acc n :
  dec_val ds acc = Some n → 0 ≤ acc → n ≤ 2 ^ 63 → no_digit_head rest →
  leadingInt (ds +:+ rest) acc = Some (n, rest).
Proof.
  intros Hd Ha Hn Hr. revert acc Hd Ha. induction ds as [|c ds IH]; intros acc Hd Ha; simpl in Hd.
  - injection Hd as ->. change (leadingInt rest n = Some (n, rest)). destruct rest as [|c rest]; [done|]. simpl in *. by rewrite Hr.
  - destruct (is_digit c) eqn:E; [|done]. pose proof (digit_range c E).
    pose proof (dec_val_ge _ _ _ Hd ltac:(lia)).
    change (leadingInt (String c (ds +:+ rest)) acc = Some (n, rest)). cbn [leadingInt]. rewrite E.
    rewrite (proj2 (Z.ltb_ge (2 ^ 63 `div` 10) acc)) by (apply Z.div_le_lower_bound; lia).
    rewrite wrap_uint_small by (unfold in_uint; lia).
    rewrite (proj2 (Z.ltb_ge _ _)) by lia. apply IH; [done|lia].
Qed.

Lemma leadingInt_length s x v s' :
  leadingInt s x = Some (v, s') → (String.length s' ≤ String.length s)%nat.
Proof.
  revert x. induction s as [|c s IH]; intros x; simpl; [by intros [= _ <-]|].
  destruct (is_digit c); [|intros [= _ <-]; simpl; lia].
  destruct (_ <? x); [done|]. destruct (2 ^ 63 <? _); [done|]. intros ?%IH. lia.
Qed.

Lemma leadingFraction_length s x sc o f sc' s' :
  leadingFraction s x sc o = (f, sc', s') → (String.length s' ≤ String.length s)%nat.
Proof.
  revert x sc o. induction s as [|c s IH]; intros x sc o; simpl; [by intros [= _ _ <-]|].
  destruct (is_digit c); [|intros [= _ _ <-]; simpl; lia].
  destruct o; [intros ?%IH; lia|]. destruct (_ <? x); [intros ?%IH; lia|].
  destruct (2 ^ 63 <? _); intros ?%IH; lia.
Qed.

Lemma take_unit_length s u s' :
  take_unit s = (u, s') → (String.length u + String.length s' = String.length s)%nat.
Proof.
  revert u s'. induction s as [|c s IH]; intros u s'; simpl; [by intros [= <- <-]|].
  destruct (_ || _); [by intros [= <- <-]|]. destruct (take_unit s) as [u0 s0].
  intros [= <- <-]. simpl. by rewrite (IH _ _ eq_refl).
Qed.

Section duration_lemmas.
Context `{Platform}.

Lemma duration_term_length s v s' :
  duration_term s = Ok (v, s') → (String.length s' < String.length s)%nat.
Proof.
  destruct s as [|c s]; [done|]. unfold duration_term. set (s0 := String c s).
  destruct (negb _); [done|]. destruct (leadingInt s0 0) as [[w s1]|] eqn:El; [|done].
  apply leadingInt_length in El.
  set (fr := match s1 with EmptyString => _ | String _ _ => _ end).
  assert (String.length (snd (fst fr)) ≤ String.length s1)%nat as Hfr.
  { unfold fr. destruct s1 as [|d s1']; [done|]. destruct (byte_of d =? 46); [|done].
    destruct (leadingFraction _ _ _ _) as [[f sc] s2] eqn:Ef. apply leadingFraction_length in Ef.
    simpl. lia. }
  clearbody fr. destruct fr as [[[f sc] s2] post]. simpl in Hfr.
  destruct (_ && _); [done|]. destruct (take_unit s2) as [u s3] eqn:Eu.
  apply take_unit_length in Eu. destruct (String.eqb_spec u ""); [done|].
  assert (0 < String.length u)%nat by (destruct u; [done|simpl; lia]).
  destruct (unitMap u); [|done]. destruct (_ <? w); [done|].
  destruct (0 <? f); [destruct (2 ^ 63 <? _); [done|]|]; intros [= _ <-]; lia.
Qed.

(** The fuel of the loop is enough: more changes nothing. *)
Lemma duration_loop_fuel n s d :
  (String.length s ≤ n)%nat → duration_loop n s d = duration_loop (String.length s) s d.
Proof.
  revert s d. induction n as [n IH] using lt_wf_ind. intros s d Hn.
  destruct s as [|c s]; [by destruct n|]. destruct n as [|n]; [simpl in Hn; lia|].
  change (String.length (String c s)) with (S (String.length s)) in *. cbn [duration_loop].
  destruct (duration_term (String c s)) as [[v s']|e] eqn:Et; [|done].
  apply duration_term_length in Et. simpl in Et.
  destruct (_ <? _); [done|]. rewrite (IH n), (IH (String.length s)) by (simpl in *; lia). done.
Qed.

Lemma ParseDuration_range s d : ParseDuration s = Ok d → in_int 64 d.
Proof.
  unfold ParseDuration. destruct (take_sign s) as [neg s'].
  destruct (String.eqb s' "0"); [intros [= <-]; unfold in_int; lia|].
  destruct (String.eqb s' ""); [done|]. destruct (duration_loop _ _ _); [|done].
  destruct neg; [intros [= <-]; by apply wrap_int_range|].
  destruct (_ <? _); [done|]. intros [= <-]. by apply wrap_int_range.
Qed.

(** A unit holds no digit and no dot. *)
Lemma unitMap_unit u unit :
  unitMap u = Some unit →
  take_unit u = (u, "") ∧ no_digit_head u ∧ u ≠ "" ∧ 0 < unit ≤ Hour ∧
  match u with String c _ => byte_of c ≠ 46 | EmptyString => True end.
Proof.
  unfold unitMap.
  repeat match goal with
  | |- context [String.eqb u ?x] =>
      destruct (String.eqb_spec u x) as [-> | _];
      [intros [= <-]; vm_compute; repeat split; congruence|]
  end. done.
Qed.

Lemma dec_val_head c s n : dec_val (String c s) 0 = Some n → is_digit c = true.
Proof. simpl. by destruct (is_digit c). Qed.

Lemma take_sign_digit c s : is_digit c = true → take_sign (String c s) = (false, String c s).
Proof.
  unfold is_digit. intros E. bool_hyps. simpl.
  rewrite (proj2 (Z.eqb_neq _ _)), (proj2 (Z.eqb_neq (byte_of c) 43)) by lia. done.
Qed.

(** The first term of a number without a fraction. *)
Lemma duration_term_int ds rest n :
  ds ≠ "" → dec_val ds 0 = Some n → n ≤ 2 ^ 63 → no_digit_head rest →
  match rest with String c _ => byte_of c ≠ 46 | EmptyString => True end →
  duration_term (ds +:+ rest) =
  (let '(u, s3) := take_unit rest in
   if String.eqb u "" then Err missing_unit
   else match unitMap u with
   | None => Err unknown_unit
   | Some unit => if 2 ^ 63 `div` unit <? n then Err invalid_duration
                  else Ok (wrap_uint 64 (n * unit), s3)
   end).
Proof.
  intros Hne Hd Hn Hr Hdot. pose proof (leadingInt_digits ds rest 0 n Hd ltac:(lia) Hn Hr) as Hl.
  destruct ds as [|c ds]; [done|]. pose proof (dec_val_head _ _ _ Hd) as Hc.
  assert (String.length rest ≠ String.length (String c ds +:+ rest)) as Hlen.
  { rewrite length_string_app. simpl. lia. }
  change (String c ds +:+ rest) with (String c (ds +:+ rest)) in *.
  unfold duration_term at 1. cbv beta iota. rewrite Hc, orb_true_r. cbn [negb]. rewrite Hl.
  rewrite (proj2 (Nat.eqb_neq _ _)) by congruence. cbn [negb andb].
  destruct rest as [|d rest]; [done|]. rewrite (proj2 (Z.eqb_neq _ _)) by done.
  destruct (take_unit (String d rest)) as [u s3]. destruct (String.eqb u ""); [done|].
  destruct (unitMap u); [|done]. by destruct (_ <? n).
Qed.

Lemma leadingInt_all s x v s' acc n :
  dec_val s acc = Some n → leadingInt s x = Some (v, s') → s' = "".
Proof.
  revert x acc. induction s as [|c s IH]; intros x acc; simpl; [by intros _ [= _ <-]|].
  destruct (is_digit c); [|done]. destruct (_ <? x); [done|]. destruct (2 ^ 63 <? _); [done|]. apply IH.
Qed.

(** A number without a unit is not a duration, but for 0. *)
Lemma ParseDuration_bare ds n :
  ds ≠ "0" → dec_val ds 0 = Some n → ∃ e, ParseDuration ds = Err e.
Proof.
  intros H0' Hd. destruct ds as [|c ds]; [by eexists|].
  pose proof (dec_val_head _ _ _ Hd) as Hc. unfold ParseDuration. rewrite take_sign_digit by done.
  rewrite (proj2 (String.eqb_neq _ _)) by done. cbn [String.eqb String.length duration_loop].
  assert (∃ e, duration_term (String c ds) = Err e) as [e ->]; [|by eexists].
  unfold duration_term. rewrite Hc, orb_true_r. cbn [negb].
  destruct (leadingInt (String c ds) 0) as [[v s']|] eqn:El; [|by eexists].
  rewrite (leadingInt_all _ _ _ _ _ _ Hd El). simpl. by eexists.
Qed.

(** An integer with a unit. *)
Lemma ParseDuration_unit ds u unit n :
  ds ≠ "" → dec_val ds 0 = Some n → unitMap u = Some unit → n * unit < 2 ^ 63 →
  ParseDuration (ds +:+ u) = Ok (n * unit).
Proof.
  intros Hne Hd Hu Hn. destruct (unitMap_unit u unit Hu) as (Htu & Hnd & Hu0 & Hunit & Hdot).
  pose proof (dec_val_ge _ _ _ Hd ltac:(lia)) as Hn0.
  assert (n < 2 ^ 63) by nia.
  pose proof (duration_term_int ds u n Hne Hd ltac:(lia) Hnd Hdot) as Ht.
  rewrite Htu, (proj2 (String.eqb_neq _ _) Hu0), Hu in Ht.
  rewrite (proj2 (Z.ltb_ge _ _)) in Ht by (apply Z.div_le_lower_bound; lia).
  rewrite wrap_uint_small in Ht by (unfold in_uint; lia).
  destruct ds as [|c ds]; [done|]. pose proof (dec_val_head _ _ _ Hd) as Hc.
  change (String c ds +:+ u) with (String c (ds +:+ u)) in *.
  unfold ParseDuration. rewrite take_sign_digit by done.
  rewrite (proj2 (String.eqb_neq _ "0")).
  2: { intros [= _ E]. destruct u; [done|]. by destruct ds. }
  cbn [String.eqb String.length duration_loop]. rewrite Ht.
  rewrite Z.add_0_l, wrap_uint_small by (unfold in_uint; lia).
  rewrite (proj2 (Z.ltb_ge _ _)) by lia. destruct (String.length _); cbn [duration_loop];
    (rewrite (proj2 (Z.ltb_ge _ _)) by lia); (rewrite wrap_int_small by (done || (unfold in_int; lia))); done.
Qed.

End duration_lemmas.

Section examples.
#[local] Existing Instance demo_platform.

Example ParseDuration_ex :
  ParseDuration "1h30m" = Ok (90 * Minute) ∧ ParseDuration "1.5s" = Ok (1500 * Millisecond) ∧
  ParseDuration "-10ms" = Ok (-10 * Millisecond) ∧ ParseDuration "300" = Err missing_unit ∧
  ParseDuration "9223372036854775807ns" = Ok (2 ^ 63 - 1) ∧
  ParseDuration "9223372036854775808ns" = Err invalid_duration.
Proof. by vm_compute. Qed.

End examples.
