(* ===== verification/GoNet.v ===== *)
(** * Package net: host and port

    [net.SplitHostPort] and [net.JoinHostPort]. An [*net.AddrError] is its
    message, which is what the plugin looks at. *)

From S2P Require Import Prelude GoString.

Local Open Scope Z_scope.

(** ** Positions of a byte *)

Definition colon : ascii := char_of 58.
Definition lbracket : ascii := char_of 91.
Definition rbracket : ascii := char_of 93.

(** [bytealg.IndexByteString], [None] for -1. *)
Fixpoint IndexByte (s : string) (c : ascii) : option nat :=
  match s with
  | EmptyString => None
  | String d s' => if Ascii.eqb d c then Some 0%nat else S <$> IndexByte s' c
  end.

(** [bytealg.LastIndexByteString]. *)
Fixpoint LastIndexByte (s : string) (c : ascii) : option nat :=
  match s with
  | EmptyString => None
  | String d s' =>
      match LastIndexByte s' c with
      | Some i => Some (S i)
      | None => if Ascii.eqb d c then Some 0%nat else None
      end
  end.

(** [s[:n]] and [s[n:]]. *)
Fixpoint str_take (n : nat) (s : string) : string :=
  match n, s with
  | S n', String c s' => String c (str_take n' s')
  | _, _ => EmptyString
  end.

Fixpoint str_drop (n : nat) (s : string) : string :=
  match n, s with
  | S n', String _ s' => str_drop n' s'
  | _, _ => s
  end.

Definition has_byte (s : string) (c : ascii) : bool :=
  match IndexByte s c with Some _ => true | None => false end.

(** ** SplitHostPort *)

Definition missingPort : string := "missing port in address".
Definition tooManyColons : string := "too many colons in address".

(** [(&AddrError{Err: why, Addr: addr}).Error()] *)
Definition addrErr (addr why : string) : string :=
  (if String.eqb addr "" then why else ("address " +:+ addr +:+ ": " +:+ why)%stdpp).

(** The tail of the function, on the host and the two positions it found. *)
Definition split_tail (hostport host : string) (i j k : nat) : result string (string * string) :=
  if has_byte (str_drop j hostport) lbracket then Err (addrErr hostport "unexpected '[' in address")
  else if has_byte (str_drop k hostport) rbracket then Err (addrErr hostport "unexpected ']' in address")
  else Ok (host, str_drop (S i) hostport).

Definition SplitHostPort (hostport : string) : result string (string * string) :=
  match LastIndexByte hostport colon with
  | None => Err (addrErr hostport missingPort)
  | Some i =>
      if HasPrefix hostport (String lbracket "") then
        match IndexByte hostport rbracket with
        | None => Err (addrErr hostport "missing ']' in address")
        | Some end_ =>
            if (S end_ =? String.length hostport)%nat then Err (addrErr hostport missingPort)
            else if (S end_ =? i)%nat then
              split_tail hostport (str_take (end_ - 1) (str_drop 1 hostport)) i 1 (S end_)
            else if HasPrefix (str_drop (S end_) hostport) (String colon "") then
              Err (addrErr hostport tooManyColons)
            else Err (addrErr hostport missingPort)
        end
      else
        let host := str_take i hostport in
        if has_byte host colon then Err (addrErr hostport tooManyColons)
        else split_tail hostport host i 0 0
  end.

Definition JoinHostPort (host port : string) : string :=
  if has_byte host colon
  then (String lbracket "" +:+ host +:+ String rbracket (String colon "") +:+ port)%stdpp
  else (host +:+ String colon "" +:+ port)%stdpp.

(** ** Lemmas *)

Lemma has_byte_cons d s c : has_byte (String d s) c = Ascii.eqb d c || has_byte s c.
Proof. unfold has_byte. simpl. destruct (Ascii.eqb d c); [done|]. by destruct (IndexByte s c). Qed.

Lemma has_byte_app s t c : has_byte (s +:+ t) c = has_byte s c || has_byte t c.
Proof.
  induction s as [|d s IH]; [done|]. change (String d s +:+ t) with (String d (s +:+ t)).
  rewrite !has_byte_cons, IH. by destruct (Ascii.eqb d c).
Qed.

Lemma HasPrefix_1 d s c : HasPrefix (String d s) (String c "") = Ascii.eqb d c.
Proof.
  unfold HasPrefix. cbn [String.prefix]. destruct (ascii_dec c d) as [-> |Hne].
  - rewrite Ascii.eqb_refl. by destruct s.
  - symmetry. apply Ascii.eqb_neq. congruence.
Qed.

Lemma LastIndexByte_None s c : LastIndexByte s c = None ↔ has_byte s c = false.
Proof.
  induction s as [|d s IH]; [done|]. rewrite has_byte_cons. simpl.
  destruct (LastIndexByte s c), (Ascii.eqb d c), (has_byte s c); simpl; naive_solver.
Qed.

Lemma LastIndexByte_app s t c :
  has_byte t c = false → LastIndexByte (s +:+ String c t) c = Some (String.length s).
Proof.
  intros Ht. induction s as [|d s IH].
  - simpl. change ((EmptyString +:+ String c t)%stdpp) with (String c t). simpl.
    rewrite (proj2 (LastIndexByte_None t c) Ht). by rewrite Ascii.eqb_refl.
  - change (String d s +:+ String c t) with (String d (s +:+ String c t)). simpl. by rewrite IH.
Qed.

Lemma IndexByte_app s t c : has_byte s c = false → IndexByte (s +:+ String c t) c = Some (String.length s).
Proof.
  induction s as [|d s IH].
  - intros _. change ((EmptyString +:+ String c t)%stdpp) with (String c t). simpl.
    by rewrite Ascii.eqb_refl.
  - rewrite has_byte_cons. intros [Hd Hs]%orb_false_iff.
    change (String d s +:+ String c t) with (String d (s +:+ String c t)). simpl. by rewrite Hd, IH.
Qed.

Lemma str_take_app s t : str_take (String.length s) (s +:+ t) = s.
Proof.
  induction s as [|d s IH]; [by destruct t|].
  change (String d s +:+ t) with (String d (s +:+ t)). simpl. by rewrite IH.
Qed.

Lemma str_drop_app_S s c t : str_drop (S (String.length s)) (s +:+ String c t) = t.
Proof.
  induction s as [|d s IH]; [done|].
  change (String d s +:+ String c t) with (String d (s +:+ String c t)). simpl in *. by rewrite IH.
Qed.

(** A name or address without the three bytes that have a meaning here. *)
Definition plain (s : string) : Prop :=
  has_byte s colon = false ∧ has_byte s lbracket = false ∧ has_byte s rbracket = false.

Lemma SplitHostPort_plain h p : plain h → plain p → SplitHostPort (h +:+ String colon p) = Ok (h, p).
Proof.
  intros (Hc & Hl & Hr) (Hc' & Hl' & Hr'). unfold SplitHostPort.
  rewrite LastIndexByte_app by done.
  replace (HasPrefix _ _) with false; cycle 1.
  { destruct h as [|d h]; [reflexivity|]. rewrite has_byte_cons in Hl. apply orb_false_iff in Hl as [Hl _].
    change (false = HasPrefix (String d (h +:+ String colon p)) (String lbracket "")).
    by rewrite HasPrefix_1, Hl. }
  rewrite str_take_app, Hc. unfold split_tail.
  assert (∀ s, str_drop 0 s = s) as E by by intros [].
  rewrite !E, !has_byte_app, !has_byte_cons, Hl, Hr, Hl', Hr', str_drop_app_S. done.
Qed.

(** A bracketed host: the brackets are dropped, colons inside are kept. *)
Lemma SplitHostPort_bracket h p :
  has_byte h lbracket = false → has_byte h rbracket = false → plain p →
  SplitHostPort (String lbracket (h +:+ String rbracket (String colon p))) = Ok (h, p).
Proof.
  intros Hl Hr (Hc' & Hl' & Hr'). unfold SplitHostPort.
  set (s := String lbracket (h +:+ String rbracket (String colon p))).
  assert (s = (String lbracket h +:+ String rbracket "") +:+ String colon p) as Es.
  { unfold s. change (String lbracket h +:+ String rbracket "")
      with (String lbracket (h +:+ String rbracket "")).
    change (String lbracket (h +:+ String rbracket "") +:+ String colon p)
      with (String lbracket ((h +:+ String rbracket "") +:+ String colon p)).
    f_equal. by rewrite string_app_assoc. }
  assert (LastIndexByte s colon = Some (String.length (String lbracket h +:+ String rbracket ""))) as Hi
    by (rewrite Es; by apply LastIndexByte_app).
  assert (IndexByte s rbracket = Some (S (String.length h))) as He.
  { unfold s. simpl. by rewrite IndexByte_app. }
  rewrite Hi, He. rewrite length_string_app. cbn [String.length].
  assert (HasPrefix s (String lbracket "") = true) as ->
    by (unfold s; rewrite HasPrefix_1; apply Ascii.eqb_refl).
  rewrite (proj2 (Nat.eqb_neq _ _)).
  2: { unfold s. simpl. rewrite length_string_app. simpl. lia. }
  replace (S (S (String.length h)) =? S (String.length h) + 1)%nat with true
    by (symmetry; apply Nat.eqb_eq; lia).
  unfold split_tail.
  assert (str_drop 1 s = h +:+ String rbracket (String colon p)) as -> by (unfold s; simpl; by destruct h).
  replace (S (String.length h) - 1)%nat with (String.length h) by lia. rewrite str_take_app.
  rewrite !has_byte_app, !has_byte_cons, Hl, Hl'. cbn [orb].
  assert (str_drop (S (S (String.length h))) s = String colon p) as ->.
  { exact (str_drop_app_S h rbracket (String colon p)). }
  rewrite !has_byte_cons, Hr'. cbn [orb].
  replace (S (S (String.length h) + 1)) with (S (S (S (String.length h)))) by lia.
  assert (str_drop (S (S (S (String.length h)))) s = p) as ->; [|done].
  change (str_drop (S (S (String.length h))) (h +:+ String rbracket (String colon p)) = p).
  clear. induction h as [|d h IH]; [by destruct p|exact IH].
Qed.

(** [SplitHostPort] undoes [JoinHostPort], IPv6 hosts included. *)
Lemma SplitHostPort_JoinHostPort h p :
  has_byte h lbracket = false → has_byte h rbracket = false → plain p →
  SplitHostPort (JoinHostPort h p) = Ok (h, p).
Proof.
  intros Hl Hr Hp. unfold JoinHostPort. destruct (has_byte h colon) eqn:Hc.
  - by apply (SplitHostPort_bracket h p).
  - by apply SplitHostPort_plain.
Qed.

(** Without a colon there is no port. *)
Lemma SplitHostPort_no_colon s :
  has_byte s colon = false → SplitHostPort s = Err (addrErr s missingPort).
Proof. intros Hc. unfold SplitHostPort. by rewrite (proj2 (LastIndexByte_None s colon) Hc). Qed.

Lemma prefix_refl s : String.prefix s s = true.
Proof. induction s as [|c s IH]; [done|]. simpl. by destruct (ascii_dec c c). Qed.

Lemma Contains_suffix s t : Contains (s +:+ t) t = true.
Proof.
  induction s as [|c s IH].
  - change (Contains t t = true). destruct t as [|c t]; [done|].
    unfold Contains. by rewrite prefix_refl.
  - change (Contains (String c (s +:+ t)) t = true).
    change (String.prefix t (String c (s +:+ t)) || Contains (s +:+ t) t = true).
    by rewrite IH, orb_true_r.
Qed.

Lemma addrErr_contains a why : Contains (addrErr a why) why = true.
Proof.
  unfold addrErr. case_if; [apply (Contains_suffix "")|].
  rewrite <- !string_app_assoc. apply Contains_suffix.
Qed.

(** A bracketed IPv6 address without a port: the error is the missing port. *)
Lemma SplitHostPort_bracket_no_port h :
  has_byte h colon = true → has_byte h rbracket = false →
  SplitHostPort (String lbracket (h +:+ String rbracket "")) =
  Err (addrErr (String lbracket (h +:+ String rbracket "")) missingPort).
Proof.
  intros Hc Hr. set (s := String lbracket (h +:+ String rbracket "")). unfold SplitHostPort.
  destruct (LastIndexByte s colon) as [i|] eqn:Ei; cycle 1.
  { apply LastIndexByte_None in Ei. unfold s in Ei. rewrite has_byte_cons, has_byte_app, Hc in Ei.
    by rewrite orb_true_r in Ei. }
  assert (HasPrefix s (String lbracket "") = true) as ->
    by (unfold s; rewrite HasPrefix_1; apply Ascii.eqb_refl).
  assert (IndexByte s rbracket = Some (S (String.length h))) as ->.
  { unfold s. simpl. by rewrite IndexByte_app. }
  replace (S (S (String.length h)) =? String.length s)%nat with true; [done|].
  symmetry. apply Nat.eqb_eq. unfold s. simpl. rewrite length_string_app. simpl. lia.
Qed.

(** An address with doubled brackets does not split. *)
Lemma SplitHostPort_double_bracket h p :
  has_byte h rbracket = false → has_byte p colon = false →
  let s := String lbracket (String lbracket (h +:+ String rbracket (String rbracket (String colon p)))) in
  SplitHostPort s = Err (addrErr s missingPort).
Proof.
  intros Hr Hp s. unfold SplitHostPort.
  assert (s = String lbracket (String lbracket (h +:+ String rbracket (String rbracket ""))) +:+
      String colon p) as Es.
  { unfold s. change (String lbracket (String lbracket (h +:+ String rbracket (String rbracket (String colon p)))) =
      String lbracket (String lbracket ((h +:+ String rbracket (String rbracket "")) +:+ String colon p))).
    by rewrite string_app_assoc. }
  rewrite Es at 1. rewrite LastIndexByte_app by done.
  assert (HasPrefix s (String lbracket "") = true) as ->
    by (unfold s; rewrite HasPrefix_1; apply Ascii.eqb_refl).
  assert (IndexByte s rbracket = Some (S (S (String.length h)))) as ->.
  { unfold s. simpl. by rewrite IndexByte_app. }
  rewrite (proj2 (Nat.eqb_neq _ _)), (proj2 (Nat.eqb_neq _ _)).
  - assert (str_drop (S (S (S (String.length h)))) s = String rbracket (String colon p)) as ->.
    { exact (str_drop_app_S h rbracket (String rbracket (String colon p))). }
    by rewrite HasPrefix_1.
  - simpl. rewrite length_string_app. simpl. lia.
  - unfold s. simpl. rewrite length_string_app. simpl. lia.
Qed.
