(* ===== verification/Ttl.v ===== *)
(** * ttl.go: the TTL of a message

    [minMsgTTL] computes how long a reply may be kept and [setMsgTTL] rewrites
    the TTLs of a message. The constants are those of cache.go. *)

From S2P Require Import Prelude GoString GoError GoFloat GoTime Dns Fixtures.

Local Open Scope Z_scope.

Definition maxTTL : Duration := 1 * Hour.
Definition maxNTTL : Duration := 30 * Minute.
Definition failSafeTTL : Duration := 5 * Second.

(** How a pass of the loop leaves it: the function returned, or [minTTL] goes on. *)
Inductive flow : Type :=
| Returned (d : Duration)
| Running (minTTL : Duration).

Section minMsgTTL.
Context `{Platform}.

(** One pass of the inner loop; [None] is the panic of the type assertion
    [r.( *dns.SOA)]. *)
Definition minMsgTTL_step (mt : RType) (r : RR) (minTTL : Duration) : option flow :=
  if is_type TypeOPT r then Some (Running minTTL)
  else match mt with
  | NameError | NoData =>
      if is_type TypeSOA r then
        match Data r with
        | SOA minttl _ => Some (Returned (dur_mul minttl Second))
        | _ => None
        end
      else Some (Running minTTL)
  | NoError | Delegation =>
      if Ttl (Header r) <? uint32_Seconds minTTL
      then Some (Running (dur_mul (Ttl (Header r)) Second))
      else Some (Running minTTL)
  | _ => Some (Running minTTL)
  end.

Fixpoint minMsgTTL_section (mt : RType) (section : list RR) (minTTL : Duration) : option flow :=
  match section with
  | [] => Some (Running minTTL)
  | r :: rs =>
      match minMsgTTL_step mt r minTTL with
      | Some (Running d) => minMsgTTL_section mt rs d
      | out => out
      end
  end.

Fixpoint minMsgTTL_sections (mt : RType) (ss : list (list RR)) (minTTL : Duration) : option flow :=
  match ss with
  | [] => Some (Running minTTL)
  | s :: ss' =>
      match minMsgTTL_section mt s minTTL with
      | Some (Running d) => minMsgTTL_sections mt ss' d
      | out => out
      end
  end.

Definition minMsgTTL (m : Msg) (mt : RType) : option Duration :=
  match mt with
  | NoError | Delegation | NameError | NoData =>
      if (length (Answer m) + length (Ns m) =? 0)%nat then Some failSafeTTL
      else match minMsgTTL_sections mt [Answer m; Ns m; Extra m] maxTTL with
      | Some (Returned d) => Some d
      | Some (Running d) => Some d
      | None => None
      end
  | _ => Some 0
  end.

End minMsgTTL.

Definition setMsgTTL (m : Msg) (ttl : Z) : Msg :=
  with_sections m
    ((λ r, with_Ttl r ttl) <$> Answer m)
    ((λ r, with_Ttl r ttl) <$> Ns m)
    ((λ r, if is_type TypeOPT r then r else with_Ttl r ttl) <$> Extra m).

(** ** What a message handed to the plugin looks like

    The TTL fields are [uint32]s, and an RR of type SOA is a [*dns.SOA]: that is
    how miekg/dns builds every RR it unpacks. *)

Definition rr_wf (r : RR) : Prop :=
  in_uint 32 (Ttl (Header r)) ∧
  (Rrtype (Header r) = TypeSOA → ∃ minttl rest, Data r = SOA minttl rest) ∧
  (∀ minttl rest, Data r = SOA minttl rest → in_uint 32 minttl).

Definition msg_wf (m : Msg) : Prop :=
  Forall rr_wf (Answer m) ∧ Forall rr_wf (Ns m) ∧ Forall rr_wf (Extra m).

Definition all_rrs (m : Msg) : list RR := Answer m ++ Ns m ++ Extra m.

(** ** Reference definitions *)

(** The smallest TTL of the records that are not OPT, [cap] when there is none. *)
Definition min_ttl (cap : Z) (rs : list RR) : Z :=
  foldr (λ r acc, if is_type TypeOPT r then acc else Z.min (Ttl (Header r)) acc) cap rs.

(** The minimum field of the first SOA record. *)
Fixpoint first_soa (rs : list RR) : option Z :=
  match rs with
  | [] => None
  | r :: rs' =>
      if is_type TypeSOA r then
        match Data r with SOA minttl _ => Some minttl | _ => None end
      else first_soa rs'
  end.

(** ** Lemmas on the loop *)

Section lemmas.
Context `{Platform}.

Lemma minMsgTTL_section_app mt rs1 rs2 d :
  minMsgTTL_section mt (rs1 ++ rs2) d =
  match minMsgTTL_section mt rs1 d with
  | Some (Running d') => minMsgTTL_section mt rs2 d'
  | out => out
  end.
Proof.
  revert d. induction rs1 as [|r rs1 IH]; intros d; simpl; [done|].
  destruct (minMsgTTL_step mt r d) as [[]|]; [done|apply IH|done].
Qed.

(** The loop over the three sections is the loop over their concatenation. *)
Lemma minMsgTTL_sections_concat mt ss d :
  minMsgTTL_sections mt ss d = minMsgTTL_section mt (concat ss) d.
Proof.
  revert d. induction ss as [|s ss IH]; intros d; simpl; [done|].
  rewrite minMsgTTL_section_app.
  destruct (minMsgTTL_section mt s d) as [[]|]; [done|apply IH|done].
Qed.

Definition positive_type (mt : RType) : Prop := mt = NoError ∨ mt = Delegation.
Definition denial_type (mt : RType) : Prop := mt = NameError ∨ mt = NoData.

Lemma minMsgTTL_section_positive mt rs s :
  positive_type mt → Forall rr_wf rs → in_uint 32 s →
  minMsgTTL_section mt rs (s * Second) = Some (Running (min_ttl s rs * Second)).
Proof.
  intros Hmt Hrs. revert s. induction Hrs as [|r rs [Hr _] _ IH]; intros s Hs; [done|].
  assert (min_ttl s (r :: rs) =
    min_ttl (if is_type TypeOPT r then s else Z.min (Ttl (Header r)) s) rs) as ->.
  { clear. simpl. induction rs as [|r' rs IH]; simpl; [by case_if|].
    repeat case_if; rewrite ?Hif in IH; lia. }
  unfold in_uint in Hr, Hs. simpl. unfold minMsgTTL_step.
  rewrite uint32_Seconds_mul, dur_mul_small by (unfold in_uint; lia).
  destruct (is_type TypeOPT r).
  { by apply IH. }
  destruct (Z.ltb_spec (Ttl (Header r)) s).
  - rewrite Z.min_l by lia. destruct Hmt as [-> | ->]; by apply IH.
  - rewrite Z.min_r by lia. destruct Hmt as [-> | ->]; by apply IH.
Qed.

Lemma minMsgTTL_section_denial mt rs d :
  denial_type mt → Forall rr_wf rs →
  minMsgTTL_section mt rs d =
  Some match first_soa rs with
  | Some minttl => Returned (minttl * Second)
  | None => Running d
  end.
Proof.
  intros Hmt Hrs. induction Hrs as [|r rs (_ & Hsoa & Hmin) _ IH]; [done|].
  simpl. unfold minMsgTTL_step, is_type in *.
  destruct (Z.eqb_spec (Rrtype (Header r)) TypeSOA) as [E|E].
  - destruct (Hsoa E) as (minttl & rest & Hd). rewrite E, Hd. simpl.
    specialize (Hmin _ _ Hd). unfold in_uint in Hmin. rewrite (dur_mul_small minttl) by lia.
    by destruct Hmt as [-> | ->].
  - destruct Hmt as [-> | ->]; case_if; apply IH.
Qed.

Lemma min_ttl_bounds cap rs :
  Forall rr_wf rs → 0 ≤ cap → 0 ≤ min_ttl cap rs ≤ cap.
Proof.
  intros Hrs Hc. induction Hrs as [|r rs [Hr _] _ IH]; simpl; [lia|].
  unfold in_uint in Hr. case_if; lia.
Qed.

Lemma first_soa_range rs s : Forall rr_wf rs → first_soa rs = Some s → in_uint 32 s.
Proof.
  intros Hrs. induction Hrs as [|r rs (_ & _ & Hmin) _ IH]; simpl; [done|].
  case_if; [|done]. destruct (Data r) eqn:Hd; [done| |done]. intros [= <-]. eauto.
Qed.

Lemma concat_sections m : concat [Answer m; Ns m; Extra m] = all_rrs m.
Proof. simpl. by rewrite app_nil_r. Qed.

Lemma msg_wf_all m : msg_wf m ↔ Forall rr_wf (all_rrs m).
Proof. unfold msg_wf, all_rrs. by rewrite !Forall_app. Qed.

(** The value on every branch, for the two groups of types the loop serves. *)
Lemma minMsgTTL_positive_eq m mt :
  positive_type mt → msg_wf m →
  minMsgTTL m mt = Some (if (length (Answer m) + length (Ns m) =? 0)%nat then failSafeTTL
                         else min_ttl 3600 (all_rrs m) * Second).
Proof.
  intros Hmt Hwf%msg_wf_all.
  assert (minMsgTTL_sections mt [Answer m; Ns m; Extra m] maxTTL =
    Some (Running (min_ttl 3600 (all_rrs m) * Second))) as E.
  { rewrite minMsgTTL_sections_concat, concat_sections. unfold maxTTL.
    rewrite Hour_val, Z.mul_1_l. apply minMsgTTL_section_positive; [done..|].
    unfold in_uint; lia. }
  unfold minMsgTTL. rewrite E. destruct Hmt as [-> | ->]; by case_if.
Qed.

Lemma minMsgTTL_denial_eq m mt :
  denial_type mt → msg_wf m →
  minMsgTTL m mt = Some (if (length (Answer m) + length (Ns m) =? 0)%nat then failSafeTTL
                         else default 3600 (first_soa (all_rrs m)) * Second).
Proof.
  intros Hmt Hwf%msg_wf_all. unfold minMsgTTL.
  rewrite minMsgTTL_sections_concat, concat_sections, minMsgTTL_section_denial by done.
  destruct Hmt as [-> | ->]; case_if; [done| |done|]; by destruct (first_soa (all_rrs m)).
Qed.

Lemma first_soa_default_range rs : Forall rr_wf rs → in_uint 32 (default 3600 (first_soa rs)).
Proof.
  intros Hrs. destruct (first_soa rs) eqn:E; simpl; [by apply (first_soa_range rs)|].
  unfold in_uint. lia.
Qed.

(** Every message type and every well-formed message has a TTL, a whole number
    of seconds that fits the wire's [uint32]. *)
Lemma minMsgTTL_total m mt :
  msg_wf m → ∃ s, minMsgTTL m mt = Some (s * Second) ∧ in_uint 32 s.
Proof.
  intros Hwf. pose proof (proj1 (msg_wf_all m) Hwf) as Hall.
  pose proof (min_ttl_bounds 3600 _ Hall ltac:(lia)).
  pose proof (first_soa_default_range _ Hall). unfold in_uint in *.
  assert (∀ (b : bool) d, 0 ≤ d < 2 ^ 32 →
    ∃ s, Some (if b then failSafeTTL else d * Second) = Some (s * Second) ∧ 0 ≤ s < 2 ^ 32) as Hd.
  { intros [] d ?; [exists 5|exists d]; (split; [done|lia]). }
  assert (positive_type mt ∨ denial_type mt ∨ minMsgTTL m mt = Some (0 * Second)) as [Hmt|[Hmt|E]].
  { unfold positive_type, denial_type. destruct mt; auto. }
  - rewrite minMsgTTL_positive_eq by done. apply Hd. lia.
  - rewrite minMsgTTL_denial_eq by done. by apply Hd.
  - exists 0. by rewrite E.
Qed.

(** C24: the TTL of a reply on every branch. For a positive reply or a delegation
    it is the smallest TTL of the records that are not OPT, over all three
    sections, and at most one hour; for a denial (NXDOMAIN or NODATA) it is the
    minimum field of the first SOA record in section order, and one hour without
    one; for both it is the five-second fail-safe when the answer and authority
    sections are empty; every other type has TTL 0. The float comparison of the
    loop and its early exits never change that value. *)
Theorem minMsgTTL_spec m mt :
  msg_wf m →
  minMsgTTL m mt =
    Some (match mt with
          | NoError | Delegation =>
              if (length (Answer m) + length (Ns m) =? 0)%nat then failSafeTTL
              else min_ttl 3600 (all_rrs m) * Second
          | NameError | NoData =>
              if (length (Answer m) + length (Ns m) =? 0)%nat then failSafeTTL
              else default 3600 (first_soa (all_rrs m)) * Second
          | _ => 0
          end) ∧
  0 ≤ min_ttl 3600 (all_rrs m) ≤ 3600.
Proof.
  intros Hwf. split.
  - destruct mt; try done; first [by apply minMsgTTL_positive_eq; [left|] |
      by apply minMsgTTL_positive_eq; [right|] | by apply minMsgTTL_denial_eq; [left|] |
      by apply minMsgTTL_denial_eq; [right|]].
  - by apply min_ttl_bounds; [apply msg_wf_all|].
Qed.

End lemmas.

Lemma is_type_with_Ttl t r a : is_type t (with_Ttl r a) = is_type t r.
Proof. done. Qed.

Lemma setMsgTTL_twice m a b : setMsgTTL (setMsgTTL m a) b = setMsgTTL m b.
Proof.
  unfold setMsgTTL, with_sections. simpl. f_equal; rewrite <- list_fmap_compose.
  1-2: by apply list_fmap_ext.
  apply list_fmap_ext. intros i r _. simpl.
  destruct (is_type TypeOPT r) eqn:E; simpl; [by rewrite E|].
  by rewrite is_type_with_Ttl, E.
Qed.

Lemma is_type_spec t r : is_type t r = bool_decide (Rrtype (Header r) = t).
Proof. unfold is_type. by destruct (Z.eqb_spec (Rrtype (Header r)) t); case_bool_decide. Qed.

Lemma filter_opt_with_Ttl ttl (rs : list RR) :
  filter (λ r, Rrtype (Header r) = TypeOPT)
    ((λ r, if is_type TypeOPT r then r else with_Ttl r ttl) <$> rs) =
  filter (λ r, Rrtype (Header r) = TypeOPT) rs.
Proof.
  induction rs as [|r rs IH]; [done|]. rewrite fmap_cons, !filter_cons, IH, is_type_spec.
  destruct (decide (Rrtype (Header r) = TypeOPT)).
  - by rewrite bool_decide_eq_true_2, decide_True by done.
  - by rewrite bool_decide_eq_false_2, decide_False by done.
Qed.

(** C25: [setMsgTTL] gives every record of the message the new TTL except the
    OPT records of the additional section, which keep their TTL field (it holds
    the EDNS flags); the records stay in their sections and in order, nothing else
    of them or of the message changes, and a second call overrides the first. *)
Theorem setMsgTTL_spec m ttl ttl' :
  let m' := setMsgTTL m ttl in
  (∀ r, r ∈ Answer m' ++ Ns m' → Ttl (Header r) = ttl) ∧
  (∀ r, r ∈ Extra m' → Rrtype (Header r) ≠ TypeOPT → Ttl (Header r) = ttl) ∧
  filter (λ r, Rrtype (Header r) = TypeOPT) (Extra m') =
    filter (λ r, Rrtype (Header r) = TypeOPT) (Extra m) ∧
  m' = with_sections m (Answer m') (Ns m') (Extra m') ∧
  (λ r, with_Ttl r 0) <$> all_rrs m' = (λ r, with_Ttl r 0) <$> all_rrs m ∧
  length <$> [Answer m'; Ns m'; Extra m'] = length <$> [Answer m; Ns m; Extra m] ∧
  setMsgTTL m' ttl' = setMsgTTL m ttl'.
Proof.
  split_and!; simpl.
  - intros r. rewrite elem_of_app, !list_elem_of_fmap. by intros [(x & -> & _)|(x & -> & _)].
  - intros r (x & -> & _)%list_elem_of_fmap. unfold is_type. case_if; bool_hyps; by simpl.
  - apply filter_opt_with_Ttl.
  - done.
  - unfold all_rrs. simpl. rewrite !fmap_app, <- !list_fmap_compose.
    do 2 f_equal; apply list_fmap_ext; intros i r _; simpl; [done..|]. by case_if.
  - by rewrite !length_fmap.
  - apply setMsgTTL_twice.
Qed.

(** ** Witnesses *)

Ltac solve_rr_wf :=
  unfold rr_wf, in_uint; simpl; split_and!;
  [lia|lia|by intros E; (discriminate E || eexists _, _; reflexivity)
  |by intros ? ? E; (discriminate E || (injection E as <- <-; lia))].

Ltac solve_wf :=
  unfold msg_wf; simpl; split_and!; repeat (apply Forall_cons; split; [solve_rr_wf|]);
  apply Forall_nil; exact I.

Section witnesses.
#[local] Existing Instance demo_platform.

Lemma minMsgTTL_spec_witness :
  minMsgTTL ans_ex NoError = Some (300 * Second) ∧ minMsgTTL nx_ex NameError = Some (60 * Second) ∧
  minMsgTTL servfail_ex ServerError = Some 0.
Proof.
  split; [|split].
  - apply (proj1 (minMsgTTL_spec ans_ex NoError ltac:(solve_wf))).
  - apply (proj1 (minMsgTTL_spec nx_ex NameError ltac:(solve_wf))).
  - apply (proj1 (minMsgTTL_spec servfail_ex ServerError ltac:(solve_wf))).
Defined.

End witnesses.
