(* ===== verification/Serialization.v ===== *)
(** * serialization.go: the payload stored in Redis

    A payload is the prefix RCD2, a flag byte whose bit 0 is the DO bit of the
    message's OPT record, and the packed message without its OPT records. A
    payload without the prefix is a packed message of an older version. *)

From S2P Require Import Prelude GoString GoError GoFloat GoTime Dns Fixtures Ttl.

Local Open Scope Z_scope.

Definition cachePayloadPrefix : bytes := [82; 67; 68; 50].
Definition cachePayloadFlagDO : Z := Z.shiftl 1 0.

(** The loop of [msgWithoutOPT]: [extra := clone.Extra[:0]] shares the backing
    array [arr] with the slice that is ranged over, so [append] overwrites
    [arr] at index [j] while index [i] is read. [n] passes are left. *)
Fixpoint withoutOPT_loop (n i j : nat) (arr : list RR) : list RR * nat :=
  match n with
  | O => (arr, j)
  | S n' =>
      match arr !! i with
      | Some rr =>
          if negb (is_type TypeOPT rr)
          then withoutOPT_loop n' (S i) (S j) (<[j := rr]> arr)
          else withoutOPT_loop n' (S i) j arr
      | None => (arr, j)
      end
  end.

Definition msgWithoutOPT (m : Msg) : Msg :=
  if (length (Extra m) =? 0)%nat then m
  else
    let '(arr, j) := withoutOPT_loop (length (Extra m)) 0 0 (Extra m) in
    with_sections m (Answer m) (Ns m) (take j arr).

Section codec.
Context `{DnsLib}.

(** [opt := m.IsEdns0(); opt != nil && opt.Do()] *)
Definition msg_DO (m : Msg) : bool :=
  match IsEdns0 m with
  | Some opt => opt_Do opt
  | None => false
  end.

Definition ToBytes (m : Msg) : result error bytes :=
  match Pack (msgWithoutOPT m) with
  | Err e => Err e
  | Ok wire =>
      let flags := if msg_DO m then Z.lor 0 cachePayloadFlagDO else 0 in
      Ok (cachePayloadPrefix ++ [flags] ++ wire)
  end.

(** The decoding of [b] after the prefix has been looked at. *)
Definition FromBytes_body (hasMetaPrefix storedDO : bool) (b : bytes) (ttl : Z) :
    result error (Msg * bool) :=
  match Unpack b with
  | Err e => Err e
  | Ok m =>
      let m' := setMsgTTL m ttl in
      Ok (m', if hasMetaPrefix then storedDO else msg_DO m')
  end.

Definition FromBytes (b : bytes) (ttl : Z) : result error (Msg * bool) :=
  if bytes_HasPrefix b cachePayloadPrefix then
    match drop (length cachePayloadPrefix) b with
    | [] => Err (sentinel ErrBuf)
    | flag :: wire =>
        FromBytes_body true (negb (Z.land flag cachePayloadFlagDO =? 0)) wire ttl
    end
  else FromBytes_body false false b ttl.

(** Packing loses nothing of [m] but [Compress]: the reading of the library's
    contract that a round trip needs. It fails for messages miekg/dns
    normalises. *)
Definition RoundTrips (m : Msg) : Prop := ∀ b, Pack m = Ok b → Unpack b = Ok (unpacked m).

End codec.

(** ** Lemmas *)

(** Overwriting never reaches an element that is still to be read. *)
Lemma withoutOPT_loop_spec n i j arr :
  (j ≤ i)%nat → (i + n = length arr)%nat →
  let '(arr', j') := withoutOPT_loop n i j arr in
  take j' arr' = take j arr ++ filter (λ r, Rrtype (Header r) ≠ TypeOPT) (drop i arr).
Proof.
  revert i j arr. induction n as [|n IH]; intros i j arr Hji Hlen; simpl.
  - rewrite drop_ge by lia. by rewrite app_nil_r.
  - destruct (lookup_lt_is_Some_2 arr i) as [rr Hrr]; [lia|]. rewrite Hrr.
    rewrite (drop_S arr rr i Hrr), filter_cons, is_type_spec.
    destruct (decide (Rrtype (Header rr) = TypeOPT)) as [E|E].
    + rewrite bool_decide_eq_true_2, decide_False by naive_solver. simpl.
      apply IH; lia.
    + rewrite bool_decide_eq_false_2, decide_True by naive_solver. simpl.
      specialize (IH (S i) (S j) (<[j:=rr]> arr)). rewrite length_insert in IH.
      specialize (IH ltac:(lia) ltac:(lia)).
      destruct (withoutOPT_loop n (S i) (S j) (<[j:=rr]> arr)) as [arr' j'].
      rewrite IH, drop_insert_lt by lia.
      rewrite (take_S_r _ _ rr) by (apply list_lookup_insert_eq; lia).
      by rewrite take_insert_ge, <- app_assoc by lia.
Qed.

Lemma msgWithoutOPT_eq m :
  msgWithoutOPT m =
  with_sections m (Answer m) (Ns m) (filter (λ r, Rrtype (Header r) ≠ TypeOPT) (Extra m)).
Proof.
  unfold msgWithoutOPT. case_if.
  - apply Nat.eqb_eq, length_zero_iff_nil in Hif. rewrite Hif.
    destruct m; simpl in *. by subst.
  - pose proof (withoutOPT_loop_spec (length (Extra m)) 0 0 (Extra m)) as Hs.
    specialize (Hs ltac:(lia) ltac:(lia)).
    destruct (withoutOPT_loop _ _ _ _). by rewrite Hs.
Qed.

Section lemmas.
Context `{DnsLaws}.

Lemma FromBytes_prefixed flag wire ttl :
  FromBytes (cachePayloadPrefix ++ [flag] ++ wire) ttl =
  FromBytes_body true (negb (Z.land flag cachePayloadFlagDO =? 0)) wire ttl.
Proof. done. Qed.

Lemma ToBytes_inv m b :
  ToBytes m = Ok b →
  ∃ wire, Pack (msgWithoutOPT m) = Ok wire ∧
    b = cachePayloadPrefix ++ [if msg_DO m then 1 else 0] ++ wire.
Proof.
  unfold ToBytes. destruct (Pack _) as [wire|]; [|done]. intros [= <-].
  exists wire. split; [done|]. by destruct (msg_DO m).
Qed.

Lemma ToBytes_nonempty m b : ToBytes m = Ok b → b ≠ [].
Proof. intros (wire & _ & ->)%ToBytes_inv. done. Qed.

(** What is read back from a payload the plugin wrote, whatever the wire codec. *)
Lemma FromBytes_ToBytes_body m b ttl :
  ToBytes m = Ok b →
  ∃ wire, Pack (msgWithoutOPT m) = Ok wire ∧
    FromBytes b ttl =
    match Unpack wire with
    | Ok m' => Ok (setMsgTTL m' ttl, msg_DO m)
    | Err e => Err e
    end.
Proof.
  intros (wire & Hp & ->)%ToBytes_inv. exists wire. split; [done|].
  rewrite FromBytes_prefixed. unfold FromBytes_body.
  destruct (Unpack wire); [|done]. by destruct (msg_DO m).
Qed.

(** The in-place filter of [msgWithoutOPT], which appends to a slice that
    shares its backing array with the slice it ranges over, gives exactly the
    records of the additional section that are not OPT, in their order, and
    changes nothing else of the message. *)
Theorem msgWithoutOPT_filter m :
  Extra (msgWithoutOPT m) = filter (λ r, Rrtype (Header r) ≠ TypeOPT) (Extra m) ∧
  msgWithoutOPT m = with_sections m (Answer m) (Ns m) (Extra (msgWithoutOPT m)).
Proof. by rewrite msgWithoutOPT_eq. Qed.

(** C15: a message that was stored is read back as it was, without its OPT
    records and with every TTL replaced by the remaining one, and with the DO
    bit it was stored under; the message read back carries no OPT record. *)
Theorem FromBytes_ToBytes m b ttl :
  RoundTrips (msgWithoutOPT m) → ToBytes m = Ok b →
  FromBytes b ttl = Ok (setMsgTTL (unpacked (msgWithoutOPT m)) ttl, msg_DO m) ∧
  IsEdns0 (setMsgTTL (unpacked (msgWithoutOPT m)) ttl) = None.
Proof.
  intros Hrt Hb. destruct (FromBytes_ToBytes_body m b ttl Hb) as (wire & Hp & ->).
  rewrite (Hrt wire) by done. split; [done|].
  destruct (IsEdns0 _) as [o|] eqn:E; [|done].
  apply IsEdns0_Some in E as [Hin Ho]. exfalso. revert Hin.
  rewrite msgWithoutOPT_eq. simpl. intros (x & -> & [Hx _]%list_elem_of_filter)%list_elem_of_fmap.
  revert Ho. by case_if.
Qed.

(** C35: a value written by an older version is never taken for a payload of
    this one: a packed response has the QR bit set in its third byte, the prefix
    has not, so [FromBytes] unpacks the whole value and takes DO from its OPT
    record. A value that is only the prefix is an error. *)
Theorem FromBytes_legacy b ttl x :
  b !! 2%nat = Some x → 128 ≤ x →
  FromBytes b ttl =
    match Unpack b with
    | Ok m => Ok (setMsgTTL m ttl, msg_DO (setMsgTTL m ttl))
    | Err e => Err e
    end ∧
  FromBytes cachePayloadPrefix ttl = Err (sentinel ErrBuf).
Proof.
  intros Hx Hqr. split; [|done]. unfold FromBytes.
  destruct (bytes_HasPrefix b cachePayloadPrefix) eqn:Hp; [|done].
  apply bytes_HasPrefix_spec in Hp as [k ->]. simpl in Hx. simplify_eq. lia.
Qed.

End lemmas.

(** ** Witnesses *)

Section witnesses.
#[local] Existing Instances demo_platform demo_dns.

Lemma demo_RoundTrips m : RoundTrips m.
Proof. intros b. apply demo_Unpack_Pack. Qed.

Lemma FromBytes_ToBytes_witness :
  ∃ b, ToBytes ans_do_ex = Ok b ∧
    FromBytes b 42 = Ok (setMsgTTL (unpacked (msgWithoutOPT ans_do_ex)) 42, true).
Proof.
  eexists. split; [reflexivity|].
  apply (@FromBytes_ToBytes demo_dns demo_dns_laws ans_do_ex _ 42);
    [apply demo_RoundTrips|reflexivity].
Defined.

Lemma FromBytes_legacy_witness :
  FromBytes [1; 2; 129; 128] 42 = Err (sentinel (OtherErr "overflow unpacking")).
Proof. exact (proj1 (FromBytes_legacy [1; 2; 129; 128] 42 129 eq_refl ltac:(lia))). Defined.

End witnesses.
