(* ===== verification/Cacheable.v ===== *)
(** * cache.go: which replies may be cached

    [cacheable] and the functions it calls. A panic (the index [Question[0]] of
    a message without a question) is [None]. The loop of [canonicalName] has no
    bound in the source: it is a fixpoint with fuel, [canonicalName_fuel] passes
    are enough for every input, and that is proved below. *)

From S2P Require Import Prelude GoString GoError GoFloat GoTime Dns Fixtures Ttl.

Local Open Scope Z_scope.

Definition hasSOA (m : Msg) : bool := existsb (is_type TypeSOA) (Ns m).

Section cacheable.
Context `{UnicodeTables}.

(** [nameSet] is a [map[string]struct{}] keyed by the lowered name. *)
Definition nameSet_contains (s : gset string) (name : string) : bool :=
  bool_decide (ToLower name ∈ s).

Definition nameSet_add (s : gset string) (name : string) : gset string :=
  {[ToLower name]} ∪ s.

(** The loop of [uniqueCNAMETarget], with the target found so far. *)
Fixpoint uniqueCNAMETarget_loop (answer : list RR) (owner target : string) : string * bool :=
  match answer with
  | [] => (target, true)
  | rr :: rest =>
      match Data rr with
      | CNAME t =>
          if negb (EqualFold (Name (Header rr)) owner)
          then uniqueCNAMETarget_loop rest owner target
          else if negb (String.eqb target "") && negb (EqualFold target t)
          then ("", false)
          else uniqueCNAMETarget_loop rest owner t
      | _ => uniqueCNAMETarget_loop rest owner target
      end
  end.

Definition uniqueCNAMETarget (answer : list RR) (owner : string) : string * bool :=
  uniqueCNAMETarget_loop answer owner "".

Fixpoint canonicalName_loop (fuel : nat) (answer : list RR) (visited : gset string)
    (name : string) : option (string * bool) :=
  match fuel with
  | O => None
  | S fuel' =>
      if nameSet_contains visited name then Some (name, false)
      else
        let visited := nameSet_add visited name in
        let '(target, ok) := uniqueCNAMETarget answer name in
        if negb ok then Some (name, false)
        else if String.eqb target "" then Some (name, true)
        else canonicalName_loop fuel' answer visited target
  end.

Definition canonicalName_fuel (answer : list RR) : nat := length answer + 2.

Definition canonicalName (answer : list RR) (name : string) : string * bool :=
  default (name, false) (canonicalName_loop (canonicalName_fuel answer) answer ∅ name).

(** The last loop of [isNODATA]: no record answers [qtype] at [name]. *)
Fixpoint isNODATA_loop (answer : list RR) (qtype : Z) (name : string) : bool :=
  match answer with
  | [] => true
  | rr :: rest =>
      if is_type qtype rr && EqualFold (Name (Header rr)) name then false
      else isNODATA_loop rest qtype name
  end.

Definition isNODATA (m : Msg) : option bool :=
  if (length (Answer m) =? 0)%nat then Some false
  else
    match Question m with
    | [] => None
    | q :: _ =>
        let qtype := Qtype q in
        if qtype =? TypeANY then Some false
        else if negb (qtype =? TypeCNAME) then
          let '(terminal, ok) := canonicalName (Answer m) (QName q) in
          if negb ok then Some true
          else Some (isNODATA_loop (Answer m) qtype terminal)
        else Some (isNODATA_loop (Answer m) qtype (QName q))
    end.

Definition cacheable (m : Msg) (t : RType) : option bool :=
  if negb (length (Question m) =? 1)%nat then Some false
  else if Truncated m then Some false
  else if bool_decide (t = NameError) && negb (hasSOA m) then Some false
  else
    (* the third operand of the condition is evaluated last, and only when needed *)
    match (if bool_decide (t = NoError) && negb (hasSOA m) then isNODATA m else Some false) with
    | None => None
    | Some true => Some false
    | Some false =>
        if bool_decide (t = OtherError) || bool_decide (t = Meta) || bool_decide (t = Update)
        then Some false
        else Some true
    end.

(** ** Specification of the CNAME chain *)

(** [answer] leads from [a] to [b] through CNAME records that agree on the target. *)
Inductive cname_chain (answer : list RR) : string → string → Prop :=
| chain_refl a : cname_chain answer a a
| chain_step a b c :
    uniqueCNAMETarget answer a = (b, true) → b ≠ "" →
    cname_chain answer b c → cname_chain answer a c.

(** The chain ends at [b]: no CNAME record is owned by [b]. *)
Definition terminal (answer : list RR) (b : string) : Prop :=
  uniqueCNAMETarget answer b = ("", true).

Definition answered_at (answer : list RR) (qtype : Z) (name : string) : Prop :=
  ∃ rr, rr ∈ answer ∧ Rrtype (Header rr) = qtype ∧ EqualFold (Name (Header rr)) name = true.

Definition rr_ascii (rr : RR) : Prop :=
  all_ascii (Name (Header rr)) = true ∧
  match Data rr with CNAME t => all_ascii t = true | _ => True end.

(** The lowered names the loop can see: the start and every CNAME target. *)
Definition chain_names (answer : list RR) (name : string) : gset string :=
  {[ToLower name]} ∪
  list_to_set (omap (λ rr, match Data rr with CNAME t => Some (ToLower t) | _ => None end) answer).

(** ** Lemmas *)

Lemma uniqueCNAMETarget_loop_target answer owner target t ok :
  uniqueCNAMETarget_loop answer owner target = (t, ok) → t ≠ "" →
  t = target ∨ ∃ rr, rr ∈ answer ∧ Data rr = CNAME t.
Proof.
  revert target. induction answer as [|rr rest IH]; intros target; simpl.
  - intros [= -> _]. auto.
  - intros E Ht.
    assert (∀ tg, uniqueCNAMETarget_loop rest owner tg = (t, ok) →
      t = tg ∨ ∃ rr0, rr0 ∈ rr :: rest ∧ Data rr0 = CNAME t) as Hrest.
    { intros tg Htg. destruct (IH tg Htg Ht) as [|(r & ? & ?)]; [auto|].
      right. exists r. by rewrite elem_of_cons; auto. }
    destruct (Data rr) as [tt| |] eqn:Hd; [|by apply Hrest..].
    repeat case_if_in E; [by apply Hrest|by simplify_eq|].
    destruct (Hrest _ E) as [->|]; [|auto]. right. exists rr. by rewrite elem_of_cons; auto.
Qed.

Lemma uniqueCNAMETarget_in answer owner t :
  uniqueCNAMETarget answer owner = (t, true) → t ≠ "" →
  ∀ name, ToLower t ∈ chain_names answer name.
Proof.
  intros E Ht name. destruct (uniqueCNAMETarget_loop_target _ _ _ _ _ E Ht) as [?|(rr & Hin & Hd)];
    [done|].
  unfold chain_names. apply elem_of_union_r, elem_of_list_to_set, list_elem_of_omap.
  exists rr. by rewrite Hd.
Qed.

Lemma chain_names_size answer name : (size (chain_names answer name) ≤ S (length answer))%nat.
Proof.
  unfold chain_names. etransitivity; [apply size_insert_le|]. apply le_n_S.
  etransitivity; [apply size_list_to_set_le|apply length_omap_le].
Qed.

(** Every pass adds a new name of a finite set, so the loop stops. *)
Lemma canonicalName_loop_total answer start fuel visited name :
  visited ⊆ chain_names answer start → ToLower name ∈ chain_names answer start →
  (size (chain_names answer start) < fuel + size visited)%nat →
  is_Some (canonicalName_loop fuel answer visited name).
Proof.
  revert visited name. induction fuel as [|fuel IH]; intros visited name Hsub Hin Hf.
  { pose proof (subseteq_size _ _ Hsub). lia. }
  simpl. unfold nameSet_contains. case_bool_decide as Hv; [eauto|].
  destruct (uniqueCNAMETarget answer name) as [t [|]] eqn:E; simpl; [|eauto].
  destruct (String.eqb_spec t ""); [eauto|].
  unfold nameSet_add. apply IH; [set_solver|by eapply uniqueCNAMETarget_in|].
  rewrite size_union by set_solver. rewrite size_singleton. lia.
Qed.

(** More fuel never changes an answer. *)
Lemma canonicalName_loop_mono answer fuel fuel' visited name r :
  (fuel ≤ fuel')%nat → canonicalName_loop fuel answer visited name = Some r →
  canonicalName_loop fuel' answer visited name = Some r.
Proof.
  revert fuel' visited name. induction fuel as [|fuel IH]; intros fuel' visited name Hle; [done|].
  destruct fuel' as [|fuel']; [lia|]. simpl. case_if; [done|].
  destruct (uniqueCNAMETarget answer name) as [t [|]]; simpl; [|done].
  case_if; [done|]. apply IH. lia.
Qed.

(** C16: the unbounded loop of [canonicalName] terminates on every answer
    section, cyclic CNAME chains included: [length answer + 2] passes always
    reach a return, any larger number of passes gives the same result, and
    that result is what [canonicalName] is. *)
Theorem canonicalName_terminates answer name fuel :
  (canonicalName_fuel answer ≤ fuel)%nat →
  canonicalName_loop fuel answer ∅ name = Some (canonicalName answer name).
Proof.
  intros Hle. apply (canonicalName_loop_mono _ (canonicalName_fuel answer)); [done|].
  unfold canonicalName.
  destruct (canonicalName_loop_total answer name (canonicalName_fuel answer) ∅ name) as [r ->];
    [set_solver|unfold chain_names; set_solver| |done].
  pose proof (chain_names_size answer name). unfold canonicalName_fuel. rewrite size_empty. lia.
Qed.

(** ** The chain is followed correctly *)

Lemma canonicalName_loop_sound answer fuel visited name n :
  canonicalName_loop fuel answer visited name = Some (n, true) →
  cname_chain answer name n ∧ terminal answer n.
Proof.
  revert visited name. induction fuel as [|fuel IH]; intros visited name; simpl; [done|].
  case_if; [done|]. destruct (uniqueCNAMETarget answer name) as [t [|]] eqn:E; simpl; [|done].
  destruct (String.eqb_spec t "") as [->|Ht].
  - intros [= ->]. split; [constructor|done].
  - intros [Hc Hn]%IH. split; [|done]. by eapply chain_step.
Qed.

Lemma EqualFold_cong n a b :
  all_ascii n = true → all_ascii a = true → all_ascii b = true →
  ToLower a = ToLower b → EqualFold n a = EqualFold n b.
Proof.
  intros Hn Ha Hb E. apply eq_bool_prop_intro.
  by rewrite !Is_true_true, !EqualFold_ascii, E.
Qed.

Lemma uniqueCNAMETarget_cong answer a b :
  Forall rr_ascii answer → all_ascii a = true → all_ascii b = true → ToLower a = ToLower b →
  uniqueCNAMETarget answer a = uniqueCNAMETarget answer b.
Proof.
  intros Hall Ha Hb E. unfold uniqueCNAMETarget. generalize "" as target.
  induction Hall as [|rr rest [Hrr _] _ IH]; intros target; simpl; [done|].
  rewrite (EqualFold_cong _ a b) by done. by destruct (Data rr); rewrite ?IH.
Qed.

Lemma uniqueCNAMETarget_ascii answer a t :
  Forall rr_ascii answer → uniqueCNAMETarget answer a = (t, true) → t ≠ "" → all_ascii t = true.
Proof.
  intros Hall E Ht. destruct (uniqueCNAMETarget_loop_target _ _ _ _ _ E Ht) as [?|(rr & Hin & Hd)];
    [done|].
  rewrite Forall_forall in Hall. destruct (Hall rr Hin) as [_ Hrr]. by rewrite Hd in Hrr.
Qed.

(** [chain_to answer k a c]: [k] steps lead from [a] to the terminal name [c]. *)
Inductive chain_to (answer : list RR) : nat → string → string → Prop :=
| chain_to_end a : terminal answer a → chain_to answer 0 a a
| chain_to_step k a b c :
    uniqueCNAMETarget answer a = (b, true) → b ≠ "" →
    chain_to answer k b c → chain_to answer (S k) a c.

Lemma cname_chain_to answer a c :
  cname_chain answer a c → terminal answer c → ∃ k, chain_to answer k a c.
Proof.
  induction 1 as [a|a b c E Hb _ IH]; intros Ht.
  - exists 0%nat. by constructor.
  - destruct (IH Ht) as [k Hk]. exists (S k). by econstructor.
Qed.

(** The number of steps to the end depends on the name only up to case. *)
Lemma chain_to_length answer k l a b c d :
  Forall rr_ascii answer → all_ascii a = true → all_ascii b = true → ToLower a = ToLower b →
  chain_to answer k a c → chain_to answer l b d → k = l.
Proof.
  intros Hall Ha Hb E Hk. revert l b d Hb E.
  induction Hk as [a Ht|k a a' c Ea Hne _ IH]; intros l b d Hb E Hl.
  - unfold terminal in Ht. rewrite (uniqueCNAMETarget_cong answer a b) in Ht by done.
    inv Hl; [done|]. congruence.
  - rewrite (uniqueCNAMETarget_cong answer a b) in Ea by done.
    inv Hl as [? Ht|? ? b' ? Eb]; [unfold terminal in Ht; congruence|].
    assert (a' = b') as -> by congruence.
    assert (all_ascii b' = true) by (by eapply uniqueCNAMETarget_ascii).
    f_equal. by eapply IH.
Qed.

Lemma canonicalName_loop_complete answer c fuel visited k name :
  Forall rr_ascii answer → all_ascii name = true → chain_to answer k name c →
  (∀ v, v ∈ visited → ∃ x j, v = ToLower x ∧ all_ascii x = true ∧ (k < j)%nat ∧
    chain_to answer j x c) →
  (k < fuel)%nat → canonicalName_loop fuel answer visited name = Some (c, true).
Proof.
  intros Hall. revert visited k name.
  induction fuel as [|fuel IH]; intros visited k name Hn Hk Hv Hf; [lia|].
  simpl. unfold nameSet_contains. case_bool_decide as Hin.
  { destruct (Hv _ Hin) as (x & j & E & Hx & Hj & Hjc).
    pose proof (chain_to_length answer k j name x c c Hall Hn Hx E Hk Hjc). lia. }
  inv Hk as [? Ht|k' ? b ? E Hne Hk'].
  - by rewrite Ht.
  - rewrite E. simpl. destruct (String.eqb_spec b "") as [|_]; [done|].
    apply (IH _ k'); [by eapply uniqueCNAMETarget_ascii|done| |lia].
    unfold nameSet_add. intros v [->%elem_of_singleton|Hvv]%elem_of_union.
    + exists name, (S k'). split_and!; [done..|lia|]. by econstructor.
    + destruct (Hv v Hvv) as (x & j & ? & ? & ? & ?). exists x, j. split_and!; [done..|lia|done].
Qed.

(** [canonicalName] succeeds exactly when the chain ends, and gives its end. *)
Lemma canonicalName_spec answer name n :
  Forall rr_ascii answer → all_ascii name = true →
  canonicalName answer name = (n, true) ↔ cname_chain answer name n ∧ terminal answer n.
Proof.
  intros Hall Hn. split.
  - intros E. apply (canonicalName_loop_sound _ (canonicalName_fuel answer) ∅).
    rewrite <- E. apply canonicalName_terminates. lia.
  - intros [Hc Ht]. destruct (cname_chain_to _ _ _ Hc Ht) as [k Hk].
    assert (Some (canonicalName answer name) = Some (n, true)) as [=]; [|done].
    rewrite <- (canonicalName_terminates answer name (k + canonicalName_fuel answer)) by lia.
    apply (canonicalName_loop_complete answer n _ ∅ k); [done..|set_solver|].
    unfold canonicalName_fuel. lia.
Qed.

Lemma isNODATA_loop_spec answer qtype name :
  isNODATA_loop answer qtype name = false ↔ answered_at answer qtype name.
Proof.
  unfold answered_at. induction answer as [|rr rest IH]; simpl.
  - split; [done|]. intros (rr & Hin & _). by apply elem_of_nil in Hin.
  - case_if.
    + split; [|done]. intros _. unfold is_type in Hif. bool_hyps.
      exists rr. split_and!; [apply elem_of_cons; by left|done..].
    + rewrite IH. split.
      * intros (r & ? & ? & ?). exists r. split_and!; [apply elem_of_cons; by right|done..].
      * intros (r & [-> | ?]%elem_of_cons & Ht & Hf); [|by exists r].
        rewrite is_type_spec, bool_decide_eq_true_2 in Hif by done. simpl in Hif. congruence.
Qed.

(** When a NOERROR reply without SOA answers its question. *)
Definition positive_answer (m : Msg) (q : Question_) : Prop :=
  Answer m = [] ∨ Qtype q = TypeANY ∨
  (Qtype q = TypeCNAME ∧ answered_at (Answer m) TypeCNAME (QName q)) ∨
  (Qtype q ≠ TypeCNAME ∧
    ∃ n, cname_chain (Answer m) (QName q) n ∧ terminal (Answer m) n ∧
      answered_at (Answer m) (Qtype q) n).

Definition names_ascii (m : Msg) : Prop :=
  Forall rr_ascii (Answer m) ∧ Forall (λ q, all_ascii (QName q) = true) (Question m).

Lemma isNODATA_spec m q :
  names_ascii m → Question m = [q] →
  ∃ b, isNODATA m = Some b ∧ (b = false ↔ positive_answer m q).
Proof.
  intros [Ha Hq] Eq. rewrite Eq in Hq. apply Forall_cons in Hq as [Hq _].
  unfold isNODATA, positive_answer. rewrite Eq.
  destruct (Answer m) as [|a l] eqn:El; simpl length; simpl Nat.eqb; [naive_solver|].
  rewrite <- El in *. assert (Answer m ≠ []) as Hne by by rewrite El.
  destruct (Z.eqb_spec (Qtype q) TypeANY) as [Hany|Hany]; [naive_solver|].
  destruct (Z.eqb_spec (Qtype q) TypeCNAME) as [Hcn|Hcn]; simpl.
  - eexists. split; [done|]. rewrite isNODATA_loop_spec, Hcn. naive_solver.
  - destruct (canonicalName (Answer m) (QName q)) as [n [|]] eqn:En; simpl.
    + eexists. split; [done|]. rewrite isNODATA_loop_spec.
      pose proof (proj1 (canonicalName_spec _ _ n Ha Hq) En) as [Hc Ht].
      split; [naive_solver|]. intros [?|[?|[[? ?]|(_ & n' & Hc' & Ht' & Hat)]]]; [done..|].
      pose proof (proj2 (canonicalName_spec _ _ n' Ha Hq) (conj Hc' Ht')). congruence.
    + eexists. split; [done|]. split; [done|].
      intros [?|[?|[[? ?]|(_ & n' & Hc' & Ht' & Hat)]]]; [done..|].
      pose proof (proj2 (canonicalName_spec _ _ n' Ha Hq) (conj Hc' Ht')). congruence.
Qed.


End cacheable.

(** ** Witnesses *)

Section witnesses.
#[local] Existing Instance demo_unicode.

Definition cname_ex (owner target : string) : RR :=
  mkRR (hdr_ex owner TypeCNAME 60) (CNAME target).

(** a chain that runs into a cycle *)
Definition loop_ex : list RR :=
  [cname_ex "www.example.org." "a.example.org."; cname_ex "A.example.org." "b.example.org.";
   cname_ex "b.example.org." "A.EXAMPLE.org."].

Lemma canonicalName_terminates_witness :
  canonicalName_loop 1000 loop_ex ∅ "www.example.org." = Some ("A.EXAMPLE.org.", false).
Proof.
  rewrite (canonicalName_terminates loop_ex "www.example.org." 1000);
    [vm_compute; reflexivity|unfold canonicalName_fuel; simpl; lia].
Defined.


End witnesses.
