(* ===== verification/Key.v ===== *)
(** * cache.go: cache keys

    [keyer.key] hashes the question tuple with xxhash64 and formats the sum as
    hexadecimal under the configured prefix. The hash is a library: [XxHash] has
    the four operations of its digest and [XxHashLaws] what is documented of
    them. Nothing is assumed about collisions. *)

From S2P Require Import Prelude GoString GoError GoFloat GoTime Dns Fixtures.

Local Open Scope Z_scope.

Class XxHash : Type := {
  Digest : Type;
  NewWithSeed : Z → Digest;
  Digest_Write : Digest → bytes → Digest;
  Sum64 : Digest → Z;
}.

Class XxHashLaws `{XxHash} : Prop := {
  Sum64_range d : in_uint 64 (Sum64 d);
  (** two writes add the same data as one *)
  Write_app d a b : Sum64 (Digest_Write (Digest_Write d a) b) = Sum64 (Digest_Write d (a ++ b));
}.

Record keyer : Type := mkKeyer {
  prefix : string;
  hashSeed : Z;
}.

(** [hdr], the six bytes before the name. *)
Definition key_hdr (qclass qtype : Z) (do cd : bool) : bytes :=
  PutUint16 qclass ++ PutUint16 qtype ++ [if do then 1 else 0] ++ [if cd then 1 else 0].

(** [buf[:n]], the name lowered into a 256-byte buffer. *)
Definition key_buf (qname : string) : bytes :=
  lower_byte <$> take 256 (bytes_of_string qname).

Section key.
Context `{XxHash}.

Definition key_sum (k : keyer) (qname : string) (qclass qtype : Z) (do cd : bool) : Z :=
  let h := NewWithSeed (hashSeed k) in
  let h := Digest_Write h (key_hdr qclass qtype do cd) in
  let h := Digest_Write h (key_buf qname) in
  Sum64 h.

Definition key (k : keyer) (qname : string) (qclass qtype : Z) (do cd : bool) : string :=
  let hexsum := EncodeToString (PutUint64 (key_sum k qname qclass qtype do cd)) in
  if String.eqb (prefix k) "" then hexsum
  else prefix k +:+ ":" +:+ hexsum.

(** The bytes that are hashed. *)
Definition key_input (qname : string) (qclass qtype : Z) (do cd : bool) : bytes :=
  key_hdr qclass qtype do cd ++ key_buf qname.

(** ** Lemmas *)

Lemma length_hexsum v : String.length (EncodeToString (PutUint64 v)) = 16%nat.
Proof. unfold PutUint64. by rewrite length_EncodeToString, length_be_bytes. Qed.

Lemma string_app_inj_length a b c d :
  String.length b = String.length d → a +:+ b = c +:+ d → a = c ∧ b = d.
Proof.
  intros Hl. revert c. induction a as [|x a IH]; intros [|y c] E.
  - done.
  - apply (f_equal String.length) in E. rewrite !length_string_app in E. simpl in E. lia.
  - apply (f_equal String.length) in E. rewrite !length_string_app in E. simpl in E. lia.
  - rewrite !string_app_cons in E. injection E as -> E. by apply IH in E as [-> ->].
Qed.

(** Two keys are equal only under the same prefix and with the same sum. *)
Lemma key_eq_inv `{!XxHashLaws} k1 k2 n1 c1 t1 d1 x1 n2 c2 t2 d2 x2 :
  key k1 n1 c1 t1 d1 x1 = key k2 n2 c2 t2 d2 x2 →
  prefix k1 = prefix k2 ∧ key_sum k1 n1 c1 t1 d1 x1 = key_sum k2 n2 c2 t2 d2 x2.
Proof.
  unfold key. intros E.
  set (h1 := EncodeToString (PutUint64 (key_sum k1 n1 c1 t1 d1 x1))) in *.
  set (h2 := EncodeToString (PutUint64 (key_sum k2 n2 c2 t2 d2 x2))) in *.
  assert (String.length h1 = 16%nat) as L1 by apply length_hexsum.
  assert (String.length h2 = 16%nat) as L2 by apply length_hexsum.
  assert (prefix k1 = prefix k2 ∧ h1 = h2) as [Hp Hh].
  { destruct (String.eqb_spec (prefix k1) "") as [P1|P1], (String.eqb_spec (prefix k2) "") as [P2|P2].
    - by rewrite P1, P2.
    - apply (f_equal String.length) in E. rewrite !length_string_app in E. simpl in E. lia.
    - apply (f_equal String.length) in E. rewrite !length_string_app in E. simpl in E. lia.
    - rewrite <- !string_app_assoc in E.
      apply string_app_inj_length in E as [E ->]; [|lia].
      by apply string_app_inj_length in E as [-> _]. }
  split; [done|]. apply EncodeToString_inj in Hh; [|apply be_bytes_ok..].
  apply (be_bytes_inj 8) in Hh; [done|apply Sum64_range..].
Qed.

Lemma key_hdr_inj c1 t1 d1 x1 c2 t2 d2 x2 :
  in_uint 16 c1 → in_uint 16 t1 → in_uint 16 c2 → in_uint 16 t2 →
  key_hdr c1 t1 d1 x1 = key_hdr c2 t2 d2 x2 → c1 = c2 ∧ t1 = t2 ∧ d1 = d2 ∧ x1 = x2.
Proof.
  intros Hc1 Ht1 Hc2 Ht2 E. unfold key_hdr, PutUint16 in E.
  apply app_inj_1 in E as [Ec E]; [|done]. apply app_inj_1 in E as [Et E]; [|done].
  apply (be_bytes_inj 2) in Ec, Et; [|done..]. injection E as Ed Ex.
  destruct d1, d2, x1, x2; done.
Qed.

Lemma key_input_inj n1 c1 t1 d1 x1 n2 c2 t2 d2 x2 :
  in_uint 16 c1 → in_uint 16 t1 → in_uint 16 c2 → in_uint 16 t2 →
  key_input n1 c1 t1 d1 x1 = key_input n2 c2 t2 d2 x2 →
  c1 = c2 ∧ t1 = t2 ∧ d1 = d2 ∧ x1 = x2 ∧ key_buf n1 = key_buf n2.
Proof.
  intros Hc1 Ht1 Hc2 Ht2 E. unfold key_input in E.
  apply app_inj_1 in E as [Eh Eb].
  - apply key_hdr_inj in Eh; naive_solver.
  - unfold key_hdr, PutUint16. by rewrite !length_app, !length_be_bytes.
Qed.

Lemma key_buf_lower n : (String.length n ≤ 256)%nat →
  key_buf n = bytes_of_string (string_map lower_char n).
Proof.
  intros Hl. unfold key_buf. rewrite take_ge by (by rewrite length_bytes_of_string).
  symmetry. apply bytes_of_string_map, byte_of_lower_char.
Qed.

Lemma key_sum_input `{!XxHashLaws} k n c t d x :
  key_sum k n c t d x = Sum64 (Digest_Write (NewWithSeed (hashSeed k)) (key_input n c t d x)).
Proof. apply Write_app. Qed.


(** A key is [prefix:hex] with 16 hexadecimal digits, or the 16 digits
    alone when the prefix is empty, for a name of any length; it depends on the
    name only through its first 256 bytes and not on the case of its letters. *)
Theorem key_shape k n c t d x n' :
  (∃ hexsum, String.length hexsum = 16%nat ∧
    key k n c t d x = if String.eqb (prefix k) "" then hexsum else prefix k +:+ ":" +:+ hexsum) ∧
  (String.length (key k n c t d x) =
    if String.eqb (prefix k) "" then 16 else String.length (prefix k) + 17)%nat ∧
  (lower_byte <$> take 256 (bytes_of_string n) = lower_byte <$> take 256 (bytes_of_string n') →
    key k n c t d x = key k n' c t d x).
Proof.
  split_and!.
  - eexists. split; [apply length_hexsum|]. done.
  - unfold key. case_if; [apply length_hexsum|].
    rewrite !length_string_app, length_hexsum. simpl. lia.
  - intros E. unfold key, key_sum, key_buf. by rewrite E.
Qed.

End key.

(** ** Witness *)

(** A hash that sums the bytes it reads, with the seed as the initial sum. *)
Definition demo_xxhash : XxHash := {|
  Digest := Z;
  NewWithSeed seed := seed;
  Digest_Write d b := foldl (λ acc x, wrap_uint 64 (acc * 257 + x)) d b;
  Sum64 d := wrap_uint 64 d;
|}.

Lemma demo_xxhash_laws : @XxHashLaws demo_xxhash.
Proof.
  constructor.
  - intros d. apply Z.mod_pos_bound. lia.
  - intros d a b. simpl. by rewrite foldl_app.
Qed.

Section witnesses.
#[local] Existing Instances demo_xxhash demo_xxhash_laws.

Definition keyer_ex : keyer := mkKeyer "cdrc" 0.


End witnesses.
