(* ===== verification/Config.v ===== *)
(** * redis_cache.go, options.go, tls.go: configuration and clients

    The [Redis] struct with its fields in the groups its comments name, [New],
    the option literals of the four client kinds, the TLS configuration and
    [buildClients]. A [*redis.Client] is a pointer: here an index into the list
    of the clients [buildClients] created, so that two fields can hold the same
    client. The [Next] handler, the two singleflight groups and the log throttle
    are run-time state and are modelled where they are used. *)

From coqutil Require Import Datatypes.RecordSetters.
From S2P Require Import Prelude GoString GoError GoFloat GoTime Dns Ttl Key.
Import DoubleBraceUpdate.

#[global] Arguments RecordSetters.constant {E} newValue _ /.

Local Open Scope Z_scope.

(** ** The Redis struct *)

Record TtlConf : Type := mkTtlConf {
  pMaxTTL : Duration;
  nMaxTTL : Duration;
  pMinTTL : Duration;
  nMinTTL : Duration;
}.

Record ConnConf : Type := mkConnConf {
  addr : string;
  endpointSet : bool;
  username : string;
  password : string;
  readEndpoints : list string;
}.

Record TimeoutConf : Type := mkTimeoutConf {
  connectTimeout : Duration;
  readTimeout : Duration;
  writeTimeout : Duration;
}.

Record PoolConf : Type := mkPoolConf {
  poolSize : Z;
  minIdleConns : Z;
  maxIdleConns : Z;
  maxActiveConns : Z;
  connMaxIdleTime : Duration;
  connMaxLifetime : Duration;
  poolTimeout : Duration;
}.

Record RetryConf : Type := mkRetryConf {
  maxRetries : Z;
  minRetryBackoff : Duration;
  maxRetryBackoff : Duration;
}.

Record SentinelConf : Type := mkSentinelConf {
  sentinels : list string;
  masterName : string;
  sentinelUsername : string;
  sentinelPassword : string;
}.

Record ClusterConf : Type := mkClusterConf {
  clusterAddrs : list string;
  readFrom : string;
}.

Record TlsConf : Type := mkTlsConf {
  tlsEnabled : bool;
  tlsCert : string;
  tlsKey : string;
  tlsCA : string;
  tlsVerifyChain : bool;
  tlsVerifyHostname : bool;
}.

(** A [*redis.Client], [*redis.ClusterClient] or nil. *)
Abbreviation client_ptr := (option nat).

Record Redis : Type := mkRedis {
  Zones : list string;
  writeClient : client_ptr;
  readClient : client_ptr;
  (** [*readReplicaPool]: nil, or its [clients] slice *)
  readPool : option (list nat);
  ttls : TtlConf;
  re_keyer : keyer;
  conn : ConnConf;
  timeouts : TimeoutConf;
  db : Z;
  pool : PoolConf;
  retries : RetryConf;
  tcpKeepalive : Duration;
  resolver : string;
  sentinel_conf : SentinelConf;
  cluster : ClusterConf;
  tls : TlsConf;
}.

Definition defaultKeyPrefix : string := "cdrc".
Definition defaultConnectTimeout : Duration := 1 * Second.
Definition defaultReadTimeout : Duration := 500 * Millisecond.
Definition defaultWriteTimeout : Duration := 2 * Second.
Definition defaultPoolTimeout : Duration := 500 * Millisecond.

Definition New : Redis := {|
  Zones := ["."];
  writeClient := None;
  readClient := None;
  readPool := None;
  ttls := mkTtlConf maxTTL maxNTTL 0 0;
  re_keyer := mkKeyer defaultKeyPrefix 0;
  conn := mkConnConf "127.0.0.1:6379" false "" "" [];
  timeouts := mkTimeoutConf defaultConnectTimeout defaultReadTimeout defaultWriteTimeout;
  db := 0;
  pool := mkPoolConf 0 0 0 0 0 0 defaultPoolTimeout;
  retries := mkRetryConf 1 0 0;
  tcpKeepalive := 0;
  resolver := "";
  sentinel_conf := mkSentinelConf [] "" "" "";
  cluster := mkClusterConf [] "";
  tls := mkTlsConf false "" "" "" true true;
|}.

Definition with_clients (re : Redis) (w r : client_ptr) (p : option (list nat)) : Redis :=
  re {{ writeClient := w; readClient := r; readPool := p }}.

(** ** Well-formed configurations *)

(** What the parser guarantees of the four TTL bounds. *)
Definition ttls_ok (t : TtlConf) : Prop :=
  whole_seconds (pMaxTTL t) ∧ whole_seconds (nMaxTTL t) ∧
  whole_seconds (pMinTTL t) ∧ whole_seconds (nMinTTL t) ∧
  0 < pMaxTTL t ∧ 0 < nMaxTTL t.

(** Writes have a client, and reads have the replica pool or a client. *)
Definition clients_ok (re : Redis) : Prop :=
  is_Some (writeClient re) ∧
  match readPool re with
  | Some p => p ≠ []
  | None => is_Some (readClient re)
  end.

(** ** The dialer *)

Record Resolver : Type := mkResolver {
  PreferGo : bool;
  (** the [Dial] closure: its dialer's timeout and the address it dials *)
  Resolver_Timeout : Duration;
  Resolver_network : string;
  Resolver_addr : string;
}.

Record Dialer : Type := mkDialer {
  Dialer_Timeout : Duration;
  Dialer_KeepAlive : Duration;
  Dialer_Resolver : option Resolver;
}.

(** [None] is the nil function: go-redis then uses its own dialer. *)
Definition dialer (re : Redis) : option Dialer :=
  if String.eqb (resolver re) "" && (tcpKeepalive re =? 0) then None
  else Some {|
    Dialer_Timeout := connectTimeout (timeouts re);
    Dialer_KeepAlive := tcpKeepalive re;
    Dialer_Resolver :=
      if negb (String.eqb (resolver re) "")
      then Some (mkResolver true (connectTimeout (timeouts re)) "udp" (resolver re))
      else None;
  |}.

(** ** TLS *)

(** Files, PEM and X.509 are the operating system's and crypto/x509's. *)
Class TlsLib : Type := {
  Certificate : Type;
  CertPool : Type;
  LoadX509KeyPair : string → string → result error Certificate;
  ReadFile : string → result error bytes;
  (** [pool.AppendCertsFromPEM] on a new pool, [None] when it returns false *)
  AppendCertsFromPEM : bytes → option CertPool;
  PeerCertificate : Type;
  (** [cert.Verify]: roots ([None] is the system's), intermediates, DNS name ("" is none) *)
  cert_Verify : PeerCertificate → option CertPool → list PeerCertificate → string → option error;
}.

Definition VersionTLS12 : Z := 0x0303.

Section tls.
Context `{TlsLib}.

Record Config : Type := mkConfig {
  MinVersion : Z;
  Certificates : list Certificate;
  RootCAs : option CertPool;
  InsecureSkipVerify : bool;
  (** on the peer certificates of the connection state; the outer option is nil *)
  VerifyConnection : option (list PeerCertificate → option error);
}.

(** The closure that verifies the chain without the host name. *)
Definition verifyChainOnly (roots : option CertPool) (peers : list PeerCertificate) : option error :=
  match peers with
  | [] => Some (sentinel (OtherErr "tls: server presented no certificate"))
  | leaf :: intermediates => cert_Verify leaf roots intermediates ""
  end.

Definition buildTLSConfig (re : Redis) : result error (option Config) :=
  let t := tls re in
  if negb (tlsEnabled t) then Ok None
  else
    let certs : result error (list Certificate) :=
      if negb (String.eqb (tlsCert t) "") || negb (String.eqb (tlsKey t) "") then
        if String.eqb (tlsCert t) "" || String.eqb (tlsKey t) "" then
          Err (sentinel (OtherErr "tls client certificate and key must both be provided"))
        else match LoadX509KeyPair (tlsCert t) (tlsKey t) with
        | Err e => Err (Wrap "load tls client certificate" e)
        | Ok cert => Ok [cert]
        end
      else Ok [] in
    result_bind certs (fun certificates =>
    let roots : result error (option CertPool) :=
      if negb (String.eqb (tlsCA t) "") then
        match ReadFile (tlsCA t) with
        | Err e => Err (Wrap "read tls ca file" e)
        | Ok pem =>
            match AppendCertsFromPEM pem with
            | None => Err (sentinel (OtherErr "no valid PEM certificates found in tls ca file"))
            | Some p => Ok (Some p)
            end
        end
      else Ok None in
    result_bind roots (fun rootCAs =>
    Ok (Some (
      if negb (tlsVerifyChain t) then
        mkConfig VersionTLS12 certificates rootCAs true None
      else if negb (tlsVerifyHostname t) then
        mkConfig VersionTLS12 certificates rootCAs true (Some (verifyChainOnly rootCAs))
      else mkConfig VersionTLS12 certificates rootCAs false None)))).

(** ** Client options (options.go) *)

Record Options : Type := mkOptions {
  Addr : string;
  Username : string;
  Password : string;
  DB : Z;
  MaxRetries : Z;
  MinRetryBackoff : Duration;
  MaxRetryBackoff : Duration;
  DialTimeout : Duration;
  ReadTimeout : Duration;
  WriteTimeout : Duration;
  PoolSize : Z;
  MinIdleConns : Z;
  MaxIdleConns : Z;
  MaxActiveConns : Z;
  ConnMaxIdleTime : Duration;
  ConnMaxLifetime : Duration;
  PoolTimeout : Duration;
  Opt_Dialer : option Dialer;
  TLSConfig : option Config;
}.

Definition clientOptions (re : Redis) (a : string) (dial : option Dialer) (tlsCfg : option Config) :
    Options := {|
  Addr := a;
  Username := username (conn re);
  Password := password (conn re);
  DB := db re;
  MaxRetries := maxRetries (retries re);
  MinRetryBackoff := minRetryBackoff (retries re);
  MaxRetryBackoff := maxRetryBackoff (retries re);
  DialTimeout := connectTimeout (timeouts re);
  ReadTimeout := readTimeout (timeouts re);
  WriteTimeout := writeTimeout (timeouts re);
  PoolSize := poolSize (pool re);
  MinIdleConns := minIdleConns (pool re);
  MaxIdleConns := maxIdleConns (pool re);
  MaxActiveConns := maxActiveConns (pool re);
  ConnMaxIdleTime := connMaxIdleTime (pool re);
  ConnMaxLifetime := connMaxLifetime (pool re);
  PoolTimeout := poolTimeout (pool re);
  Opt_Dialer := dial;
  TLSConfig := tlsCfg;
|}.

Record ClusterOptions : Type := mkClusterOptions {
  Co_Addrs : list string;
  Co_Username : string;
  Co_Password : string;
  Co_MaxRetries : Z;
  Co_MinRetryBackoff : Duration;
  Co_MaxRetryBackoff : Duration;
  Co_DialTimeout : Duration;
  Co_ReadTimeout : Duration;
  Co_WriteTimeout : Duration;
  Co_PoolSize : Z;
  Co_MinIdleConns : Z;
  Co_MaxIdleConns : Z;
  Co_MaxActiveConns : Z;
  Co_ConnMaxIdleTime : Duration;
  Co_ConnMaxLifetime : Duration;
  Co_PoolTimeout : Duration;
  Co_Dialer : option Dialer;
  Co_TLSConfig : option Config;
  Co_ReadOnly : bool;
  Co_RouteByLatency : bool;
  Co_RouteRandomly : bool;
}.

Definition clusterOptions (re : Redis) (dial : option Dialer) (tlsCfg : option Config) :
    ClusterOptions := {|
  Co_Addrs := clusterAddrs (cluster re);
  Co_Username := username (conn re);
  Co_Password := password (conn re);
  Co_MaxRetries := maxRetries (retries re);
  Co_MinRetryBackoff := minRetryBackoff (retries re);
  Co_MaxRetryBackoff := maxRetryBackoff (retries re);
  Co_DialTimeout := connectTimeout (timeouts re);
  Co_ReadTimeout := readTimeout (timeouts re);
  Co_WriteTimeout := writeTimeout (timeouts re);
  Co_PoolSize := poolSize (pool re);
  Co_MinIdleConns := minIdleConns (pool re);
  Co_MaxIdleConns := maxIdleConns (pool re);
  Co_MaxActiveConns := maxActiveConns (pool re);
  Co_ConnMaxIdleTime := connMaxIdleTime (pool re);
  Co_ConnMaxLifetime := connMaxLifetime (pool re);
  Co_PoolTimeout := poolTimeout (pool re);
  Co_Dialer := dial;
  Co_TLSConfig := tlsCfg;
  Co_ReadOnly := false;
  Co_RouteByLatency := false;
  Co_RouteRandomly := false;
|}.

Definition with_routing (o : ClusterOptions) (ro lat rnd : bool) : ClusterOptions :=
  mkClusterOptions (Co_Addrs o) (Co_Username o) (Co_Password o) (Co_MaxRetries o)
    (Co_MinRetryBackoff o) (Co_MaxRetryBackoff o) (Co_DialTimeout o) (Co_ReadTimeout o)
    (Co_WriteTimeout o) (Co_PoolSize o) (Co_MinIdleConns o) (Co_MaxIdleConns o)
    (Co_MaxActiveConns o) (Co_ConnMaxIdleTime o) (Co_ConnMaxLifetime o) (Co_PoolTimeout o)
    (Co_Dialer o) (Co_TLSConfig o) ro lat rnd.

Definition applyClusterReadRouting (opts : ClusterOptions) (readFrom : string) : ClusterOptions :=
  if String.eqb readFrom "random" then with_routing opts true (Co_RouteByLatency opts) true
  else if String.eqb readFrom "primary" then opts
  else with_routing opts true true (Co_RouteRandomly opts).

Record FailoverOptions : Type := mkFailoverOptions {
  Fo_MasterName : string;
  Fo_SentinelAddrs : list string;
  Fo_SentinelUsername : string;
  Fo_SentinelPassword : string;
  Fo_Username : string;
  Fo_Password : string;
  Fo_DB : Z;
  Fo_RouteRandomly : bool;
  Fo_MaxRetries : Z;
  Fo_MinRetryBackoff : Duration;
  Fo_MaxRetryBackoff : Duration;
  Fo_DialTimeout : Duration;
  Fo_ReadTimeout : Duration;
  Fo_WriteTimeout : Duration;
  Fo_PoolSize : Z;
  Fo_MinIdleConns : Z;
  Fo_MaxIdleConns : Z;
  Fo_MaxActiveConns : Z;
  Fo_ConnMaxIdleTime : Duration;
  Fo_ConnMaxLifetime : Duration;
  Fo_PoolTimeout : Duration;
  Fo_Dialer : option Dialer;
  Fo_TLSConfig : option Config;
}.

Definition failoverOptions (re : Redis) (dial : option Dialer) (tlsCfg : option Config) :
    FailoverOptions := {|
  Fo_MasterName := masterName (sentinel_conf re);
  Fo_SentinelAddrs := sentinels (sentinel_conf re);
  Fo_SentinelUsername := sentinelUsername (sentinel_conf re);
  Fo_SentinelPassword := sentinelPassword (sentinel_conf re);
  Fo_Username := username (conn re);
  Fo_Password := password (conn re);
  Fo_DB := db re;
  Fo_RouteRandomly := true;
  Fo_MaxRetries := maxRetries (retries re);
  Fo_MinRetryBackoff := minRetryBackoff (retries re);
  Fo_MaxRetryBackoff := maxRetryBackoff (retries re);
  Fo_DialTimeout := connectTimeout (timeouts re);
  Fo_ReadTimeout := readTimeout (timeouts re);
  Fo_WriteTimeout := writeTimeout (timeouts re);
  Fo_PoolSize := poolSize (pool re);
  Fo_MinIdleConns := minIdleConns (pool re);
  Fo_MaxIdleConns := maxIdleConns (pool re);
  Fo_MaxActiveConns := maxActiveConns (pool re);
  Fo_ConnMaxIdleTime := connMaxIdleTime (pool re);
  Fo_ConnMaxLifetime := connMaxLifetime (pool re);
  Fo_PoolTimeout := poolTimeout (pool re);
  Fo_Dialer := dial;
  Fo_TLSConfig := tlsCfg;
|}.

(** ** buildClients *)

(** What a [redis.New*] constructor made. *)
Inductive Client : Type :=
| NewClient (o : Options)
| NewClusterClient (o : ClusterOptions)
| NewFailoverClusterClient (o : FailoverOptions).

(** The clients created, in order of creation; a pointer is an index. *)
Definition buildClients (re : Redis) : result error (Redis * list Client) :=
  let dial := dialer re in
  match buildTLSConfig re with
  | Err e => Err (Wrap "tls" e)
  | Ok tlsCfg =>
      if negb (length (clusterAddrs (cluster re)) =? 0)%nat then
        let opts := applyClusterReadRouting (clusterOptions re dial tlsCfg) (readFrom (cluster re)) in
        Ok (with_clients re (Some 0%nat) (Some 0%nat) (readPool re), [NewClusterClient opts])
      else if negb (String.eqb (masterName (sentinel_conf re)) "") then
        Ok (with_clients re (Some 0%nat) (Some 0%nat) (readPool re),
            [NewFailoverClusterClient (failoverOptions re dial tlsCfg)])
      else
        match readEndpoints (conn re) with
        | [] =>
            Ok (with_clients re (Some 0%nat) (Some 0%nat) (readPool re),
                [NewClient (clientOptions re (addr (conn re)) dial tlsCfg)])
        | [ep] =>
            Ok (with_clients re (Some 0%nat) (Some 1%nat) (readPool re),
                [NewClient (clientOptions re (addr (conn re)) dial tlsCfg);
                 NewClient (clientOptions re ep dial tlsCfg)])
        | eps =>
            Ok (with_clients re (Some 0%nat) (readClient re) (Some (seq 1 (length eps))),
                NewClient (clientOptions re (addr (conn re)) dial tlsCfg) ::
                ((λ ep, NewClient (clientOptions re ep dial tlsCfg)) <$> eps))
        end
  end.

(** ** TLS verification *)

(** What crypto/tls checks of a server: unless [InsecureSkipVerify] is set the
    chain against the roots and the name that was dialed, and then the
    [VerifyConnection] callback. *)
Definition accepts_peer (cfg : Config) (host : string) (peers : list PeerCertificate) : Prop :=
  (InsecureSkipVerify cfg = false →
    ∃ leaf ints, peers = leaf :: ints ∧ cert_Verify leaf (RootCAs cfg) ints host = None) ∧
  (∀ f, VerifyConnection cfg = Some f → f peers = None).

(** The roots of the configured CA file, the system's when none is configured. *)
Definition roots_of (re : Redis) (roots : option CertPool) : Prop :=
  if String.eqb (tlsCA (tls re)) "" then roots = None
  else ∃ pem p, ReadFile (tlsCA (tls re)) = Ok pem ∧ AppendCertsFromPEM pem = Some p ∧ roots = Some p.

Lemma verifyChainOnly_None roots peers :
  verifyChainOnly roots peers = None ↔
  ∃ leaf ints, peers = leaf :: ints ∧ cert_Verify leaf roots ints "" = None.
Proof. destruct peers; naive_solver. Qed.

Lemma buildTLSConfig_inv re o :
  buildTLSConfig re = Ok o →
  if tlsEnabled (tls re) then
    ∃ certs roots, roots_of re roots ∧
      o = Some (mkConfig VersionTLS12 certs roots
        (negb (tlsVerifyChain (tls re) && tlsVerifyHostname (tls re)))
        (if tlsVerifyChain (tls re) && negb (tlsVerifyHostname (tls re))
         then Some (verifyChainOnly roots) else None))
  else o = None.
Proof.
  unfold buildTLSConfig. destruct (tlsEnabled (tls re)); [|by intros [= <-]]. simpl.
  intros (certs & _ & (roots & Hr & E)%result_bind_ok)%result_bind_ok. exists certs, roots. split.
  - unfold roots_of. destruct (String.eqb (tlsCA (tls re)) ""); [by injection Hr as <-|].
    simpl in Hr. destruct (ReadFile _) as [pem|]; [|done].
    destruct (AppendCertsFromPEM pem) as [p|] eqn:Ep; [|done]. injection Hr as <-. eauto.
  - by destruct (tlsVerifyChain (tls re)), (tlsVerifyHostname (tls re)); injection E as <-.
Qed.

(** C21: the verification matrix of the TLS configuration. A connection is
    plaintext exactly when TLS is not enabled; otherwise TLS 1.2 is the minimum,
    and a server is accepted when its chain verifies against the configured
    roots for the dialed name with both checks on, when its chain verifies
    without a name (and it presented a certificate) with only the chain check,
    and always when the chain check is off. *)
Theorem buildTLSConfig_verifies re o :
  buildTLSConfig re = Ok o →
  (o = None ↔ tlsEnabled (tls re) = false) ∧
  ∀ cfg, o = Some cfg → MinVersion cfg = VersionTLS12 ∧ roots_of re (RootCAs cfg) ∧
    ∀ host peers, accepts_peer cfg host peers ↔
      (tlsVerifyChain (tls re) = true →
        ∃ leaf ints, peers = leaf :: ints ∧
          cert_Verify leaf (RootCAs cfg) ints
            (if tlsVerifyHostname (tls re) then host else "") = None).
Proof.
  intros E%buildTLSConfig_inv. destruct (tlsEnabled (tls re)); [|by subst].
  destruct E as (certs & roots & Hr & ->). split; [done|]. intros cfg [= <-]. simpl.
  split_and!; [done..|]. intros host peers. unfold accepts_peer. simpl.
  destruct (tlsVerifyChain (tls re)), (tlsVerifyHostname (tls re)); simpl; [naive_solver| |naive_solver..].
  rewrite <- verifyChainOnly_None. naive_solver.
Qed.

(** ** The clients *)

(** The clients a configuration points to, in the order [close] visits them. *)
Definition client_refs (re : Redis) : list nat :=
  option_list (writeClient re) ++
  (match readClient re with
   | Some r => if bool_decide (writeClient re = Some r) then [] else [r]
   | None => []
   end) ++
  default [] (readPool re).

Lemma buildClients_inv re re' cs :
  writeClient re = None ∧ readClient re = None ∧ readPool re = None →
  buildClients re = Ok (re', cs) →
  clients_ok re' ∧ client_refs re' = seq 0 (length cs) ∧
  re' = with_clients re (writeClient re') (readClient re') (readPool re').
Proof.
  intros (Hw & Hr & Hp). unfold buildClients. destruct (buildTLSConfig re) as [t|]; [|done].
  destruct (negb _); [|destruct (negb _); [|destruct (readEndpoints (conn re)) as [|e1 [|e2 es]]]].
  all: intros [= <- <-]; unfold client_refs, clients_ok; simpl; rewrite ?Hp, ?Hr; simpl.
  all: split_and!; try (by eexists); try done.
  by rewrite length_fmap.
Qed.

End tls.

Section witnesses.

(** A library where a chain is trusted when it has intermediates, and a name
    is [redis]. *)
Definition demo_tls : TlsLib := {|
  Certificate := string;
  CertPool := bytes;
  LoadX509KeyPair c k := Ok c;
  ReadFile f := if String.eqb f "/ca.pem" then Ok [1] else Err (sentinel (OtherErr "no such file"));
  AppendCertsFromPEM pem := match pem with [] => None | _ => Some pem end;
  PeerCertificate := string;
  cert_Verify leaf _ ints host :=
    if negb (length ints =? 0)%nat && (String.eqb host "" || String.eqb host leaf) then None
    else Some (sentinel (OtherErr "x509"));
|}.

#[local] Existing Instance demo_tls.

Definition redis_tls_ex : Redis := New {{ tls := mkTlsConf true "" "" "/ca.pem" true false }}.

Lemma buildTLSConfig_verifies_witness :
  ∃ cfg, buildTLSConfig redis_tls_ex = Ok (Some cfg) ∧ accepts_peer cfg "10.0.0.1" ["redis"; "ca"].
Proof.
  eexists. split; [reflexivity|].
  refine (proj2 (proj2 (proj2 (proj2 (buildTLSConfig_verifies redis_tls_ex (Some _) _) _ eq_refl))
    "10.0.0.1" ["redis"; "ca"]) _); [reflexivity|].
  intros _. exists "redis", ["ca"]. split; reflexivity.
Defined.

End witnesses.
