(* ===== verification/Parse.v ===== *)
(** * setup.go: reading the configuration

    [parse] is a parser over caddy's controller: a program in a state and error
    monad. The controller's token stream is caddy's, a class with the operations
    [parse] calls. The block loops run on fuel; a controller has finitely many
    tokens, so fuel beyond their number is never exhausted.

    Error texts are constants: the values the source formats into them are not
    modelled. *)

From coqutil Require Import Datatypes.RecordSetters.
From S2P Require Import Prelude GoString GoError GoFloat GoTime Dns Fixtures GoStrconv GoNet.
From S2P Require Import Ttl Key Config.
Import DoubleBraceUpdate.

Local Open Scope Z_scope.

Definition errorf (text : string) : error := sentinel (OtherErr text).

(** ** Values *)

Section values.
Context `{!UnicodeTables, !Platform}.

Definition parseBool (s : string) : result error bool :=
  let l := ToLower s in
  if String.eqb l "true" || String.eqb l "on" || String.eqb l "yes" || String.eqb l "1" then Ok true
  else if String.eqb l "false" || String.eqb l "off" || String.eqb l "no" || String.eqb l "0"
  then Ok false
  else Err (errorf "invalid boolean value").

Definition parseTTL (s : string) : result error Duration :=
  let whole (d : Duration) : result error Duration :=
    if negb (Z.rem d Second =? 0) then Err (errorf "TTL must be a whole number of seconds") else Ok d in
  match ParseDuration s with
  | Ok d => whole d
  | Err _ =>
      match Atoi s with
      | Err _ => Err (errorf "invalid TTL")
      | Ok n => whole (dur_mul n Second)
      end
  end.

Definition normalizeAddr (addr : string) : result error string :=
  match SplitHostPort addr with
  | Err text =>
      if negb (Contains text missingPort) then Err (Wrap "invalid address" (errorf text))
      else Ok (JoinHostPort addr "6379")
  | Ok (h, p) =>
      if String.eqb h "" then Err (errorf "empty host in address")
      else
        let p := if String.eqb p "" then "6379" else p in
        Ok (JoinHostPort h p)
  end.

(** The loops over addresses: they stop at the first error. *)
Fixpoint normalizeAddrs (wrap : error → error) (args : list string) : result error (list string) :=
  match args with
  | [] => Ok []
  | a :: rest =>
      match normalizeAddr a with
      | Err e => Err (wrap e)
      | Ok addr => result_map (cons addr) (normalizeAddrs wrap rest)
      end
  end.

End values.

(** ** The controller *)

(** caddy's [*caddy.Controller], and [plugin.Host.NormalizeExact] of CoreDNS. *)
Class Controller : Type := {
  Ctl : Type;
  Next : Ctl → bool * Ctl;
  NextBlock : Ctl → bool * Ctl;
  Val : Ctl → string;
  RemainingArgs : Ctl → list string * Ctl;
  ServerBlockKeys : Ctl → list string;
  ArgErr : Ctl → error;
  Errf : Ctl → string → error;
  (** the number of tokens after the cursor *)
  Remaining : Ctl → nat;
  NormalizeExact : string → list string;
}.

(** Inside a block with balanced braces, entering the next line of the block
    consumes a token, and reading arguments never goes back. *)
Class ControllerLaws `{Controller} : Prop := {
  NextBlock_consumes c c' : NextBlock c = (true, c') → (Remaining c' < Remaining c)%nat;
  NextBlock_end c c' : NextBlock c = (false, c') → (Remaining c' ≤ Remaining c)%nat;
  Next_forward c : (Remaining (snd (Next c)) ≤ Remaining c)%nat;
  RemainingArgs_forward c : (Remaining (snd (RemainingArgs c)) ≤ Remaining c)%nat;
}.

(** ** The parser monad *)

Inductive Outcome (A : Type) : Type :=
| Done (a : A)
| Failed (e : error)
| Panicked
| OutOfFuel.
Arguments Done {A} a.
Arguments Failed {A} e.
Arguments Panicked {A}.
Arguments OutOfFuel {A}.

Section parser.
Context `{!UnicodeTables, !Platform, !Controller}.

Definition Parser (A : Type) : Type := Ctl → Outcome (A * Ctl).

Definition parser_ret {A} (a : A) : Parser A := λ c, Done (a, c).

Definition parser_bind {A B} (f : A → Parser B) (p : Parser A) : Parser B := λ c,
  match p c with
  | Done (a, c') => f a c'
  | Failed e => Failed e
  | Panicked => Panicked
  | OutOfFuel => OutOfFuel
  end.

#[export] Instance parser_mret : MRet Parser := @parser_ret.
#[export] Instance parser_mbind : MBind Parser := @parser_bind.

Definition fail {A} (e : error) : Parser A := λ _, Failed e.
Definition argErr {A} : Parser A := λ c, Failed (ArgErr c).
Definition errf {A} (text : string) : Parser A := λ c, Failed (Errf c text).
Definition val : Parser string := λ c, Done (Val c, c).
Definition next : Parser bool := λ c, Done (Next c).
Definition nextBlock : Parser bool := λ c, Done (NextBlock c).
Definition remainingArgs : Parser (list string) := λ c, Done (RemainingArgs c).
Definition serverBlockKeys : Parser (list string) := λ c, Done (ServerBlockKeys c, c).

(** The value of a call that returned [(T, error)], or its error through [h]. *)
Definition lift {A} (r : result error A) (h : error → Parser A) : Parser A :=
  match r with
  | Ok a => parser_ret a
  | Err e => h e
  end.

(** [if cond { return nil, ... }] *)
Definition reject (cond : bool) (p : Parser unit) : Parser unit :=
  if cond then p else parser_ret tt.

(** [args := c.RemainingArgs(); if len(args) != 1 { return nil, c.ArgErr() }] *)
Definition oneArg : Parser string :=
  args ← remainingArgs;
  match args with
  | [a] => mret a
  | _ => argErr
  end.

(** [for c.NextBlock() { body }] *)
Fixpoint blockLoop (fuel : nat) (body : Redis → Parser Redis) (re : Redis) : Parser Redis :=
  match fuel with
  | O => λ _, OutOfFuel
  | S fuel' =>
      more ← nextBlock;
      if (more : bool) then (re' ← body re; blockLoop fuel' body re') else mret re
  end.

(** ** The directives *)

(** [success] and [denial] differ in the fields they set. *)
Definition d_success (re : Redis) : Parser Redis :=
  args ← remainingArgs;
  match args with
  | [] => argErr
  | a0 :: rest =>
      pttl ← lift (parseTTL a0) (λ _, errf "success");
      _ ← reject (pttl <=? 0) (fail (errorf "success max TTL must be positive"));
      let re := re {{ ttls -> pMaxTTL := pttl }} in
      match rest with
      | [] => mret re
      | a1 :: _ =>
          pmin ← lift (parseTTL a1) (λ _, errf "success min TTL");
          _ ← reject (pmin <? 0) (fail (errorf "success min TTL cannot be negative"));
          _ ← reject (pttl <? pmin) (fail (errorf "success min TTL cannot exceed max TTL"));
          mret (re {{ ttls -> pMinTTL := pmin }})
      end
  end.

Definition d_denial (re : Redis) : Parser Redis :=
  args ← remainingArgs;
  match args with
  | [] => argErr
  | a0 :: rest =>
      nttl ← lift (parseTTL a0) (λ _, errf "denial");
      _ ← reject (nttl <=? 0) (fail (errorf "denial max TTL must be positive"));
      let re := re {{ ttls -> nMaxTTL := nttl }} in
      match rest with
      | [] => mret re
      | a1 :: _ =>
          nmin ← lift (parseTTL a1) (λ _, errf "denial min TTL");
          _ ← reject (nmin <? 0) (fail (errorf "denial min TTL cannot be negative"));
          _ ← reject (nttl <? nmin) (fail (errorf "denial min TTL cannot exceed max TTL"));
          mret (re {{ ttls -> nMinTTL := nmin }})
      end
  end.

Definition d_endpoint (re : Redis) : Parser Redis :=
  args ← remainingArgs;
  match args with
  | [] => argErr
  | a :: _ =>
      addr' ← lift (normalizeAddr a) fail;
      mret (re {{ conn -> addr := addr'; conn -> endpointSet := true }})
  end.

Definition d_read_endpoint (re : Redis) : Parser Redis :=
  args ← remainingArgs;
  match args with
  | [] => argErr
  | _ =>
      addrs ← lift (normalizeAddrs id args) fail;
      mret (re {{ conn -> readEndpoints ::= λ l, l ++ addrs }})
  end.

Definition d_username (re : Redis) : Parser Redis :=
  a ← oneArg; mret (re {{ conn -> username := a }}).

Definition d_password (re : Redis) : Parser Redis :=
  a ← oneArg; mret (re {{ conn -> password := a }}).

Definition d_sentinel_username (re : Redis) : Parser Redis :=
  a ← oneArg; mret (re {{ sentinel_conf -> sentinelUsername := a }}).

Definition d_sentinel_password (re : Redis) : Parser Redis :=
  a ← oneArg; mret (re {{ sentinel_conf -> sentinelPassword := a }}).

Definition d_sentinel (re : Redis) : Parser Redis :=
  args ← remainingArgs;
  match args with
  | master :: a :: rest =>
      l ← lift (normalizeAddrs (Wrap "invalid sentinel address") (a :: rest)) fail;
      mret (re {{ sentinel_conf -> masterName := master;
                  sentinel_conf -> sentinels ::= λ old, old ++ l }})
  | _ => fail (errorf "sentinel requires MASTER_NAME and at least one sentinel address")
  end.

Definition d_cluster (re : Redis) : Parser Redis :=
  args ← remainingArgs;
  match args with
  | [] => fail (errorf "cluster requires at least one seed address")
  | _ =>
      l ← lift (normalizeAddrs (Wrap "invalid cluster seed") args) fail;
      mret (re {{ cluster -> clusterAddrs ::= λ old, old ++ l }})
  end.

Definition d_read_from (re : Redis) : Parser Redis :=
  a ← oneArg;
  if String.eqb a "latency" || String.eqb a "random" || String.eqb a "primary"
  then mret (re {{ cluster -> readFrom := a }})
  else errf "invalid read_from value (allowed: latency, random, primary)".

(** The body of the [timeout] block. *)
Definition d_timeout_line (re : Redis) : Parser Redis :=
  v ← val;
  a ← oneArg;
  d ← lift (ParseDuration a) (λ _, errf "timeout");
  _ ← reject (d <=? 0) (fail (errorf "timeout must be positive"));
  if String.eqb v "connect" then mret (re {{ timeouts -> connectTimeout := d }})
  else if String.eqb v "read" then mret (re {{ timeouts -> readTimeout := d }})
  else if String.eqb v "write" then mret (re {{ timeouts -> writeTimeout := d }})
  else errf "unknown timeout directive".

Definition d_pool_line (re : Redis) : Parser Redis :=
  v ← val;
  a ← oneArg;
  if String.eqb v "size" || String.eqb v "min_idle" || String.eqb v "max_idle" ||
     String.eqb v "max_active" then
    n ← lift (Atoi a) fail;
    _ ← reject (n <? 0) (fail (errorf "pool cannot be negative"));
    mret (if String.eqb v "size" then re {{ pool -> poolSize := n }}
          else if String.eqb v "min_idle" then re {{ pool -> minIdleConns := n }}
          else if String.eqb v "max_idle" then re {{ pool -> maxIdleConns := n }}
          else re {{ pool -> maxActiveConns := n }})
  else if String.eqb v "max_idle_time" || String.eqb v "max_lifetime" ||
          String.eqb v "wait_timeout" then
    d ← lift (ParseDuration a) (λ _, errf "pool");
    _ ← reject (d <? 0) (fail (errorf "pool cannot be negative"));
    mret (if String.eqb v "max_idle_time" then re {{ pool -> connMaxIdleTime := d }}
          else if String.eqb v "max_lifetime" then re {{ pool -> connMaxLifetime := d }}
          else re {{ pool -> poolTimeout := d }})
  else errf "unknown pool directive".

Definition d_retries_line (re : Redis) : Parser Redis :=
  v ← val;
  a ← oneArg;
  if String.eqb v "max" then
    n ← lift (Atoi a) (λ _, errf "retries max");
    _ ← reject (n <? 0) (errf "retries max cannot be negative");
    mret (re {{ retries -> maxRetries := if n =? 0 then -1 else n }})
  else if String.eqb v "min_backoff" then
    d ← lift (ParseDuration a) (λ _, errf "retries min_backoff");
    _ ← reject (d <? 0) (fail (errorf "retries min_backoff cannot be negative"));
    mret (re {{ retries -> minRetryBackoff := d }})
  else if String.eqb v "max_backoff" then
    d ← lift (ParseDuration a) (λ _, errf "retries max_backoff");
    _ ← reject (d <? 0) (fail (errorf "retries max_backoff cannot be negative"));
    mret (re {{ retries -> maxRetryBackoff := d }})
  else errf "unknown retries directive".

Definition d_tcp_keepalive (re : Redis) : Parser Redis :=
  a ← oneArg;
  d ← lift (ParseDuration a) (λ _, errf "tcp_keepalive");
  _ ← reject (d <? 0) (fail (errorf "tcp_keepalive cannot be negative"));
  mret (re {{ tcpKeepalive := d }}).

Definition d_db (re : Redis) : Parser Redis :=
  a ← oneArg;
  n ← lift (Atoi a) fail;
  _ ← reject (n <? 0) (fail (errorf "db index cannot be negative"));
  mret (re {{ db := n }}).

Definition d_tls (re : Redis) : Parser Redis :=
  args ← remainingArgs;
  match args with
  | [] => mret (re {{ tls -> tlsEnabled := true }})
  | _ => argErr
  end.

Definition d_tls_cert (re : Redis) : Parser Redis :=
  a ← oneArg; mret (re {{ tls -> tlsEnabled := true; tls -> tlsCert := a }}).

Definition d_tls_key (re : Redis) : Parser Redis :=
  a ← oneArg; mret (re {{ tls -> tlsEnabled := true; tls -> tlsKey := a }}).

Definition d_tls_ca (re : Redis) : Parser Redis :=
  a ← oneArg; mret (re {{ tls -> tlsEnabled := true; tls -> tlsCA := a }}).

Definition d_tls_verify_chain (re : Redis) : Parser Redis :=
  a ← oneArg;
  v ← lift (parseBool a) (λ _, errf "tls_verify_chain");
  mret (re {{ tls -> tlsEnabled := true; tls -> tlsVerifyChain := v }}).

Definition d_tls_verify_hostname (re : Redis) : Parser Redis :=
  a ← oneArg;
  v ← lift (parseBool a) (λ _, errf "tls_verify_hostname");
  mret (re {{ tls -> tlsEnabled := true; tls -> tlsVerifyHostname := v }}).

Definition resolverAddr (a : string) : string :=
  let '(host, port) := match SplitHostPort a with Ok hp => hp | Err _ => (a, "53") end in
  JoinHostPort host (if String.eqb port "" then "53" else port).

Definition d_resolver (re : Redis) : Parser Redis :=
  a ← oneArg; mret (re {{ resolver := resolverAddr a }}).

Definition d_key_prefix (re : Redis) : Parser Redis :=
  a ← oneArg; mret (re {{ re_keyer -> prefix := TrimSuffix a (String colon "") }}).

Definition d_key_hash_seed (re : Redis) : Parser Redis :=
  a ← oneArg;
  seed ← lift (ParseUint64 a)
    (λ e, fail (Wrap "key_hash_seed must be an unsigned 64-bit integer" e));
  mret (re {{ re_keyer -> hashSeed := seed }}).

(** The names of the two TTL directives. *)
Definition Success : string := "success".
Definition Denial : string := "denial".

(** The [switch c.Val()] of the block. *)
Definition directive_switch (fuel : nat) (re : Redis) (v : string) : Parser Redis :=
  if String.eqb v Success then d_success re
  else if String.eqb v Denial then d_denial re
  else if String.eqb v "endpoint" then d_endpoint re
  else if String.eqb v "read_endpoint" then d_read_endpoint re
  else if String.eqb v "username" then d_username re
  else if String.eqb v "password" then d_password re
  else if String.eqb v "sentinel_username" then d_sentinel_username re
  else if String.eqb v "sentinel_password" then d_sentinel_password re
  else if String.eqb v "sentinel" then d_sentinel re
  else if String.eqb v "cluster" then d_cluster re
  else if String.eqb v "read_from" then d_read_from re
  else if String.eqb v "timeout" then blockLoop fuel d_timeout_line re
  else if String.eqb v "pool" then blockLoop fuel d_pool_line re
  else if String.eqb v "retries" then blockLoop fuel d_retries_line re
  else if String.eqb v "tcp_keepalive" then d_tcp_keepalive re
  else if String.eqb v "db" then d_db re
  else if String.eqb v "tls" then d_tls re
  else if String.eqb v "tls_cert" then d_tls_cert re
  else if String.eqb v "tls_key" then d_tls_key re
  else if String.eqb v "tls_ca" then d_tls_ca re
  else if String.eqb v "tls_verify_chain" then d_tls_verify_chain re
  else if String.eqb v "tls_verify_hostname" then d_tls_verify_hostname re
  else if String.eqb v "resolver" then d_resolver re
  else if String.eqb v "key_prefix" then d_key_prefix re
  else if String.eqb v "key_hash_seed" then d_key_hash_seed re
  else argErr.

Definition directive (fuel : nat) (re : Redis) : Parser Redis :=
  v ← val; directive_switch fuel re v.

(** ** Cross-directive validation *)

Definition nonempty {A} (l : list A) : bool := negb (length l =? 0)%nat.
Definition set (s : string) : bool := negb (String.eqb s "").

Definition validateMode (re : Redis) : Parser unit :=
  if nonempty (clusterAddrs (cluster re)) then
    _ ← reject (set (masterName (sentinel_conf re)))
          (fail (errorf "cluster and sentinel modes are mutually exclusive"));
    _ ← reject (endpointSet (conn re)) (fail (errorf "'endpoint' is not used in cluster mode"));
    _ ← reject (nonempty (readEndpoints (conn re)))
          (fail (errorf "'read_endpoint' is not used in cluster mode"));
    reject (negb (db re =? 0)) (fail (errorf "'db' must be 0 in cluster mode"))
  else if set (masterName (sentinel_conf re)) then
    _ ← reject (endpointSet (conn re)) (fail (errorf "'endpoint' is not used in sentinel mode"));
    reject (nonempty (readEndpoints (conn re)))
      (fail (errorf "'read_endpoint' is not used in sentinel mode"))
  else
    _ ← reject (set (sentinelUsername (sentinel_conf re)) || set (sentinelPassword (sentinel_conf re)))
          (fail (errorf "'sentinel_username' / 'sentinel_password' require sentinel mode"));
    reject (set (readFrom (cluster re))) (fail (errorf "'read_from' requires cluster mode")).

Definition validateBackoff (re : Redis) : Parser unit :=
  reject ((0 <? minRetryBackoff (retries re)) && (0 <? maxRetryBackoff (retries re)) &&
          (maxRetryBackoff (retries re) <? minRetryBackoff (retries re)))
    (fail (errorf "retries min_backoff cannot exceed max_backoff")).

(** [origins[i] = plugin.Host(origins[i]).NormalizeExact()[0]]: an index into an
    empty slice panics. *)
Fixpoint normalizeZones (origins : list string) : Parser (list string) :=
  match origins with
  | [] => mret []
  | o :: rest =>
      match NormalizeExact o with
      | [] => λ _, Panicked
      | z :: _ => zs ← normalizeZones rest; mret (z :: zs)
      end
  end.

(** [parse] on a controller; [None] is the nil [*Redis]. *)
Definition parse (fuel : nat) : Parser (option Redis) :=
  found ← next;
  if (found : bool) then
    args ← remainingArgs;
    keys ← serverBlockKeys;
    let origins := if nonempty args then args else keys in
    re ← blockLoop fuel (directive fuel) New;
    _ ← validateMode re;
    _ ← validateBackoff re;
    zones ← normalizeZones origins;
    let re := re {{ Zones := zones }} in
    second ← next;
    if (second : bool) then errf "only one redis_cache block per server"
    else mret (Some re)
  else mret None.

(** ** What a parser yields

    [pspec_or n P p Q]: from a controller with fewer than [n] tokens left, [p] does
    not run out of fuel, never goes back, what it returns satisfies [Q], and it
    panics only if [P] holds. [pspec n p Q] is the case of a parser that never
    panics. *)

Definition pspec_or {A} (n : nat) (P : Prop) (p : Parser A) (Q : A → Prop) : Prop :=
  ∀ c, (Remaining c < n)%nat →
    match p c with
    | Done (a, c') => (Remaining c' ≤ Remaining c)%nat ∧ Q a
    | Failed _ => True
    | Panicked => P
    | OutOfFuel => False
    end.

Lemma pspec_or_weaken {A} n (P : Prop) (p : Parser A) Q : pspec_or n False p Q → pspec_or n P p Q.
Proof.
  intros Hp c Hc. specialize (Hp c Hc). destruct (p c) as [[]| | |]; done.
Qed.

Lemma pspec_ret {A} {P : Prop} n (a : A) (Q : A → Prop) : Q a → pspec_or n P (mret a) Q.
Proof. by intros HQ c Hc. Qed.

Lemma pspec_bind {A B} {P : Prop} n (f : A → Parser B) p (R : A → Prop) Q :
  pspec_or n P p R → (∀ a, R a → pspec_or n P (f a) Q) → pspec_or n P (p ≫= f) Q.
Proof.
  intros Hp Hf c Hc. specialize (Hp c Hc). unfold mbind, parser_mbind, parser_bind.
  destruct (p c) as [[a c']| | |]; try done. destruct Hp as [Hc' Ha].
  specialize (Hf a Ha c' ltac:(lia)). destruct (f a c') as [[b c'']| | |]; try done.
  split; [lia|]. by destruct Hf.
Qed.

Lemma pspec_fail {A} {P : Prop} n e (Q : A → Prop) : pspec_or n P (fail e) Q.
Proof. done. Qed.

Lemma pspec_argErr {A} {P : Prop} n (Q : A → Prop) : pspec_or n P argErr Q.
Proof. done. Qed.

Lemma pspec_errf {A} {P : Prop} n t (Q : A → Prop) : pspec_or n P (errf t) Q.
Proof. done. Qed.

Lemma pspec_val {P : Prop} n : pspec_or n P val (λ _, True).
Proof. intros c Hc. simpl. done. Qed.

Lemma pspec_lift {A} {P : Prop} n (r : result error A) h Q :
  (∀ a, r = Ok a → Q a) → (∀ e, pspec_or n P (h e) Q) → pspec_or n P (lift r h) Q.
Proof. intros Hr Hh. destruct r; [apply pspec_ret; auto|apply Hh]. Qed.

Lemma pspec_reject {P : Prop} n cond p (Q : unit → Prop) :
  (cond = false → Q tt) → pspec_or n P p Q → pspec_or n P (reject cond p) Q.
Proof. intros HQ Hp. destruct cond; [done|]. by apply pspec_ret, HQ. Qed.

Context `{!ControllerLaws}.

Lemma pspec_remainingArgs {P : Prop} n : pspec_or n P remainingArgs (λ _, True).
Proof.
  intros c Hc. unfold remainingArgs. pose proof (RemainingArgs_forward c).
  by destruct (RemainingArgs c).
Qed.

Lemma pspec_oneArg {P : Prop} n : pspec_or n P oneArg (λ _, True).
Proof.
  eapply pspec_bind; [apply pspec_remainingArgs|]. intros [|a [|]] _; [done| |done]. by apply pspec_ret.
Qed.

Lemma pspec_blockLoop {P : Prop} n body (I : Redis → Prop) re :
  (∀ re, I re → pspec_or n P (body re) I) → I re → pspec_or n P (blockLoop n body re) I.
Proof.
  intros Hbody HI.
  assert (∀ f, (f ≤ n)%nat → ∀ re, I re → pspec_or f P (blockLoop f body re) I) as Hloop; [|by apply Hloop].
  clear re HI. induction f as [|f IH]; intros Hf re HI c Hc; [lia|].
  simpl. unfold mbind at 1, parser_mbind, parser_bind, nextBlock.
  destruct (NextBlock c) as [[] c1] eqn:En; cycle 1.
  { apply NextBlock_end in En. simpl. by split. }
  apply NextBlock_consumes in En. specialize (Hbody re HI c1 ltac:(lia)).
  unfold mbind, parser_bind. destruct (body re c1) as [[re2 c2]| | |]; try done.
  destruct Hbody as [Hc2 HI2]. specialize (IH ltac:(lia) re2 HI2 c2 ltac:(lia)).
  destruct (blockLoop f body re2 c2) as [[re3 c3]| | |]; try done. destruct IH. split; [lia|done].
Qed.

End parser.

Abbreviation pspec n p Q := (pspec_or n False p Q).

(** Decompose a parser into the facts its pieces yield. *)
Ltac pstep :=
  lazymatch goal with
  | |- pspec_or _ _ (mret _) _ => apply pspec_ret
  | |- pspec_or _ _ (fail _) _ => apply pspec_fail
  | |- pspec_or _ _ argErr _ => apply pspec_argErr
  | |- pspec_or _ _ (errf _) _ => apply pspec_errf
  | |- pspec_or _ _ (remainingArgs ≫= _) _ => eapply pspec_bind; [apply pspec_remainingArgs|intros ? _]
  | |- pspec_or _ _ (oneArg ≫= _) _ => eapply pspec_bind; [apply pspec_oneArg|intros ? _]
  | |- pspec_or _ _ (val ≫= _) _ => eapply pspec_bind; [apply pspec_val|intros ? _]
  | |- pspec_or _ _ (lift ?r ?h ≫= _) _ =>
      eapply (pspec_bind _ _ _ (λ a, r = Ok a));
      [apply pspec_lift; [by auto|intros; pstep]|intros ? ?]
  | |- pspec_or _ _ (reject ?c ?p ≫= _) _ =>
      eapply (pspec_bind _ _ _ (λ _, c = false));
      [apply pspec_reject; [by auto|pstep]|intros ? ?]
  | |- pspec_or _ _ (match ?x with _ => _ end) _ => destruct x eqn:?
  end.
