(* ===== verification/Prog.v ===== *)
(** * Programs with effects

    The request path and the goroutines of the plugin are programs: trees whose
    nodes are the effects the code performs on the outside (Redis commands, the
    client's [dns.ResponseWriter], metrics, logs, starting a goroutine,
    singleflight groups, random numbers, the clock), each continued by the
    answer it gets. A panic is a leaf. Trees are inductive, so every program is
    finite; they compose with [bind], [recover], [defer] and the substitution of
    a response writer. [exec] runs a program in an environment that answers its
    effects, [Run] is a run with any answers, and [wp] is the weakest precondition of
    a program in a world that the effects change. *)

From S2P Require Import Prelude GoString GoError GoFloat GoTime Dns.

Local Open Scope Z_scope.

(** ** Effects *)

(** The budgets of the [context.WithTimeout] calls a context went through, and
    whether [context.WithoutCancel] detached it from the request. *)
Record Ctx : Type := mkCtx {
  ctx_timeouts : list Duration;
  ctx_detached : bool;
}.

Definition Background : Ctx := mkCtx [] true.
Definition WithTimeout (c : Ctx) (d : Duration) : Ctx :=
  mkCtx (d :: ctx_timeouts c) (ctx_detached c).
Definition WithoutCancel (c : Ctx) : Ctx := mkCtx [] true.

(** metrics.go: the counters and the histogram, by their labels. *)
Inductive Metric : Type :=
| cacheHits (server : string)
| cacheRequests (server : string)
| cacheReadErrors (server reason : string)
| cacheResponseMismatches (server : string)
| cacheSetErrors (server reason : string)
| cacheCollisions (server : string)
| cacheEncodeErrors (server : string).

(** The level of a log line, with the text of the one that names the topology. *)
Inductive Level : Type := LDebug | LInfo (text : string) | LWarning | LError.

(** The two singleflight groups of the [Redis] struct. *)
Inductive Group : Type := writeFlight | evictFlight.

(** A goroutine: the closure with the variables it captures. *)
Inductive Task : Type :=
| TaskSet (ctx : Ctx) (server key : string) (wire : bytes) (duration : Duration)
| TaskEvict (parent : Ctx) (key : string).

(** What the two commands of a pipeline return. *)
Record PipeReply : Type := mkPipeReply {
  getCmd : result error bytes;
  ttlCmd : result error Duration;
}.

(** A command of the redis client in a goroutine returns its error, or panics. The
    pipeline of the request path returns its two replies. *)
Inductive CmdReply : Type :=
| CmdDone (err : option error)
| CmdPanic.

(** What a caller of a singleflight group's [Do] meets: it runs the function
    itself, or it waits for the call in flight and shares its result, a panic
    included. *)
Inductive FlightReply : Type :=
| Leader
| Shared (panicked : bool).

Inductive Effect : Type :=
| ENow
| EMetric (m : Metric)
| ELog (l : Level)
| ESometimes                                            (* rate.Sometimes.Do runs its argument? *)
| ERand (n : nat)                                       (* rand.IntN(n) *)
| EPipe (c : nat) (ctx : Ctx) (key : string)            (* pipe.Get, pipe.TTL, pipe.Exec *)
| ESet (c : nat) (ctx : Ctx) (key : string) (wire : bytes) (d : Duration)
| EExpire (c : nat) (ctx : Ctx) (key : string) (d : Duration)
| EPing (c : nat) (ctx : Ctx)
| EClose (c : nat)
| EFlight (g : Group) (key : string)                    (* enter Do *)
| EFlightEnd (g : Group) (key : string)
| EGo (t : Task)
| EWriteMsg (m : Msg)
| EWrite (b : bytes).

Definition Resp (e : Effect) : Type :=
  match e with
  | ENow => Z
  | EMetric _ | ELog _ | EFlightEnd _ _ | EGo _ => unit
  | ESometimes => bool
  | EFlight _ _ => FlightReply
  | ERand _ => nat
  | EPipe _ _ _ => PipeReply
  | ESet _ _ _ _ _ | EExpire _ _ _ _ => CmdReply
  | EPing _ _ | EClose _ | EWriteMsg _ => option error
  | EWrite _ => Z * option error
  end.

(** ** Programs *)

Inductive Prog (A : Type) : Type :=
| Ret (a : A)
| Panic
| Do (e : Effect) (k : Resp e → Prog A).
Arguments Ret {A} a.
Arguments Panic {A}.
Arguments Do {A} e k.

Definition perform (e : Effect) : Prog (Resp e) := Do e Ret.

Definition now : Prog Z := perform ENow.
Definition metric (m : Metric) : Prog unit := perform (EMetric m).
Definition log (l : Level) : Prog unit := perform (ELog l).
Definition sometimes : Prog bool := perform ESometimes.
Definition rand_IntN (n : nat) : Prog nat := perform (ERand n).
Definition pipe_get_ttl (c : nat) (ctx : Ctx) (key : string) : Prog PipeReply :=
  perform (EPipe c ctx key).
Definition redis_Set (c : nat) (ctx : Ctx) (key : string) (wire : bytes) (d : Duration) :
    Prog CmdReply := perform (ESet c ctx key wire d).
Definition redis_Expire (c : nat) (ctx : Ctx) (key : string) (d : Duration) : Prog CmdReply :=
  perform (EExpire c ctx key d).
Definition redis_Ping (c : nat) (ctx : Ctx) : Prog (option error) := perform (EPing c ctx).
Definition redis_Close (c : nat) : Prog (option error) := perform (EClose c).
Definition flight_enter (g : Group) (key : string) : Prog FlightReply := perform (EFlight g key).
Definition flight_leave (g : Group) (key : string) : Prog unit := perform (EFlightEnd g key).
Definition go (t : Task) : Prog unit := perform (EGo t).
Definition w_WriteMsg (m : Msg) : Prog (option error) := perform (EWriteMsg m).
Definition w_Write (b : bytes) : Prog (Z * option error) := perform (EWrite b).

Fixpoint prog_bind {A B} (f : A → Prog B) (p : Prog A) : Prog B :=
  match p with
  | Ret a => f a
  | Panic => Panic
  | Do e k => Do e (λ a, prog_bind f (k a))
  end.

#[export] Instance prog_mret : MRet Prog := @Ret.
#[export] Instance prog_mbind : MBind Prog := @prog_bind.

(** A pure function that may panic. *)
Definition of_option {A} (o : option A) : Prog A :=
  match o with
  | Some a => Ret a
  | None => Panic
  end.

(** [defer func() { if r := recover(); r != nil { h } }()] around [p]. *)
Fixpoint recover {A} (p h : Prog A) : Prog A :=
  match p with
  | Ret a => Ret a
  | Panic => h
  | Do e k => Do e (λ a, recover (k a) h)
  end.

(** [defer d] before [p]: [d] runs when [p] returns and when it panics. *)
Fixpoint defer {A} (d : Prog unit) (p : Prog A) : Prog A :=
  match p with
  | Ret a => prog_bind (λ _, Ret a) d
  | Panic => prog_bind (λ _, Panic) d
  | Do e k => Do e (λ a, defer d (k a))
  end.

(** [p] run against a response writer with the methods [wm] and [wr]. *)
Fixpoint with_writer {A} (wm : Msg → Prog (option error)) (wr : bytes → Prog (Z * option error))
    (p : Prog A) : Prog A :=
  match p with
  | Ret a => Ret a
  | Panic => Panic
  | Do e k =>
      match e return (Resp e → Prog A) → Prog A with
      | EWriteMsg m => λ k, prog_bind k (wm m)
      | EWrite b => λ k, prog_bind k (wr b)
      | e => λ k, Do e k
      end (λ a, with_writer wm wr (k a))
  end.

(** ** Running a program *)

(** The effects performed, in order, and the result, [None] for a panic. *)
Fixpoint exec {A} (env : ∀ e, Resp e) (p : Prog A) : list Effect * option A :=
  match p with
  | Ret a => ([], Some a)
  | Panic => ([], None)
  | Do e k => let '(tr, o) := exec env (k (env e)) in (e :: tr, o)
  end.

(** An environment in which nothing fails but the client's writer, which
    returns [err]. *)
Definition quiet_env (err : option error) : ∀ e, Resp e := λ e,
  match e with
  | ENow => 0
  | EMetric _ | ELog _ | EFlightEnd _ _ | EGo _ => tt
  | ESometimes => true
  | EFlight _ _ => Leader
  | ERand _ => 0%nat
  | EPipe _ _ _ => mkPipeReply (Err (sentinel RedisNil)) (Err (sentinel RedisNil))
  | ESet _ _ _ _ _ | EExpire _ _ _ _ => CmdDone None
  | EPing _ _ | EClose _ => None
  | EWriteMsg _ => err
  | EWrite _ => (0, err)
  end.

(** Every effect [p] may perform satisfies [P], and [p] does not panic. *)
Fixpoint all_effects {A} (P : Effect → Prop) (p : Prog A) : Prop :=
  match p with
  | Ret _ => True
  | Panic => False
  | Do e k => P e ∧ ∀ a, all_effects P (k a)
  end.

(** The same of a program that may panic. *)
Fixpoint only {A} (P : Effect → Prop) (p : Prog A) : Prop :=
  match p with
  | Ret _ | Panic => True
  | Do e k => P e ∧ ∀ a, only P (k a)
  end.

(** A run with any answers: the effects with their answers, in order. *)
Definition Event : Type := {e : Effect & Resp e}.

Fixpoint Run {A} (p : Prog A) (tr : list Event) (o : option A) : Prop :=
  match p with
  | Ret a => tr = [] ∧ o = Some a
  | Panic => tr = [] ∧ o = None
  | Do e k => ∃ a tr', tr = existT e a :: tr' ∧ Run (k a) tr' o
  end.

(** The reply to the first pipeline of a run. *)
Definition pipe_reply (ev : Event) : option PipeReply :=
  match ev with
  | existT (EPipe _ _ _) reply => Some reply
  | _ => None
  end.

Definition first_reply (tr : list Event) : option PipeReply := head (omap pipe_reply tr).

(** [rand.IntN(n)] answers below [n]. *)
Definition in_range (ev : Event) : Prop :=
  match ev with
  | existT (ERand n) i => (i < n)%nat
  | _ => True
  end.

(** The weakest precondition of [p] in a world [w] the effects change: every
    effect [p] performs is allowed by [Pre] in the world it is performed in, and
    whatever answers and next worlds [Post] allows, [Q] holds of the world and
    the result when [p] returns and [E] of the world when it panics. *)
Section wp.
Context {W : Type} (Pre : W → Effect → Prop) (Post : W → ∀ e, Resp e → W → Prop).

Fixpoint wp {A} (p : Prog A) (w : W) (Q : W → A → Prop) (E : W → Prop) : Prop :=
  match p with
  | Ret a => Q w a
  | Panic => E w
  | Do e k => Pre w e ∧ ∀ a w', Post w e a w' → wp (k a) w' Q E
  end.

Lemma wp_mono {A} (p : Prog A) w (Q Q' : W → A → Prop) (E E' : W → Prop) :
  wp p w Q E → (∀ w' a, Q w' a → Q' w' a) → (∀ w', E w' → E' w') → wp p w Q' E'.
Proof.
  intros Hp HQ HE. revert w Hp.
  induction p as [a| |e k IH]; intros w Hp; simpl in *; [by apply HQ|by apply HE|].
  destruct Hp as [He Hk]. split; [done|]. intros a w' Hw. by eapply IH, Hk.
Qed.

Lemma wp_bind {A B} (f : A → Prog B) (p : Prog A) w Q E :
  wp p w (λ w' a, wp (f a) w' Q E) E → wp (prog_bind f p) w Q E.
Proof.
  revert w. induction p as [a| |e k IH]; intros w; simpl; [done..|].
  intros [He Hk]. split; [done|]. intros a w' Hw. by eapply IH, Hk.
Qed.

Lemma wp_recover {A} (p h : Prog A) w Q E :
  wp p w Q (λ w', wp h w' Q E) → wp (recover p h) w Q E.
Proof.
  revert w. induction p as [a| |e k IH]; intros w; simpl; [done..|].
  intros [He Hk]. split; [done|]. intros a w' Hw. by eapply IH, Hk.
Qed.

Lemma wp_defer {A} (d : Prog unit) (p : Prog A) w Q E :
  wp p w (λ w' a, wp d w' (λ w'' _, Q w'' a) E) (λ w', wp d w' (λ w'' _, E w'') E) →
  wp (defer d p) w Q E.
Proof.
  revert w. induction p as [a| |e k IH]; intros w; simpl.
  - intros Hp. by apply (wp_bind (λ _, Ret a)).
  - intros Hp. by apply (wp_bind (λ _, Panic)).
  - intros [He Hk]. split; [done|]. intros a w' Hw. by eapply IH, Hk.
Qed.

(** The world may change between two steps of [p], as far as [R] allows. *)
Lemma wp_interfere {A} (R : W → W → Prop) (p : Prog A) w1 w2 Q E :
  (∀ u v e, R u v → Pre u e → Pre v e) →
  (∀ u v e a v', R u v → Post v e a v' → ∃ u', Post u e a u' ∧ R u' v') →
  (∀ u v a, R u v → Q u a → Q v a) → (∀ u v, R u v → E u → E v) →
  R w1 w2 → wp p w1 Q E → wp p w2 Q E.
Proof.
  intros HPre HPost HQ HE. revert w1 w2.
  induction p as [a| |e k IH]; intros w1 w2 HR; simpl; [by apply HQ|by apply HE|].
  intros [He Hk]. split; [by eapply HPre|]. intros a v' Hv.
  destruct (HPost _ _ _ _ _ HR Hv) as (u' & Hu & HR'). by eapply IH; [|apply Hk].
Qed.

(** A handler behind a writer: wherever the handler calls a method of the
    writer, the method's program must be safe and keep [I], and every other
    effect of the handler must be allowed and keep [I]. *)
Lemma wp_with_writer {A} wm wr (p : Prog A) (P0 : Effect → Prop) (I : W → Prop) w E :
  all_effects P0 p → I w →
  (∀ w m, I w → P0 (EWriteMsg m) → wp (wm m) w (λ w' _, I w') E) →
  (∀ w b, I w → P0 (EWrite b) → wp (wr b) w (λ w' _, I w') E) →
  (∀ w e, I w → P0 e → (∀ m, e ≠ EWriteMsg m) → (∀ b, e ≠ EWrite b) →
    Pre w e ∧ ∀ a w', Post w e a w' → I w') →
  wp (with_writer wm wr p) w (λ w' _, I w') E.
Proof.
  intros Hp HI Hwm Hwr He. revert w Hp HI.
  induction p as [a| |e k IH]; intros w Hp HI; simpl in Hp; [done..|].
  destruct Hp as [He0 Hk].
  destruct e; simpl;
    try (edestruct He as [HP HI']; [exact HI|exact He0|done|done|];
         split; [exact HP|]; intros a w' Hw; by apply IH; [|eapply HI']).
  - apply wp_bind. eapply wp_mono; [by apply Hwm| |done]. intros w' a Hw. by apply IH.
  - apply wp_bind. eapply wp_mono; [by apply Hwr| |done]. intros w' a Hw. by apply IH.
Qed.

(** The same without a writer in between. *)
Lemma wp_all_effects {A} (p : Prog A) (P0 : Effect → Prop) (I : W → Prop) w E :
  all_effects P0 p → I w →
  (∀ w e, I w → P0 e → Pre w e ∧ ∀ a w', Post w e a w' → I w') →
  wp p w (λ w' _, I w') E.
Proof.
  intros Hp HI He. revert w Hp HI.
  induction p as [a| |e k IH]; intros w Hp HI; simpl in Hp; [done..|].
  destruct Hp as [He0 Hk]. destruct (He w e HI He0) as [HP HI'].
  split; [done|]. intros a w' Hw. by apply IH; [|eapply HI'].
Qed.

End wp.

(** ** Lemmas on runs *)

Lemma Run_bind {A B} (f : A → Prog B) p tr o :
  Run (prog_bind f p) tr o ↔
  (∃ a tr1 tr2, tr = tr1 ++ tr2 ∧ Run p tr1 (Some a) ∧ Run (f a) tr2 o) ∨
  (o = None ∧ Run p tr None).
Proof.
  revert tr. induction p as [a| |e k IH]; intros tr; simpl.
  - split; [intros ?; left; by exists a, [], tr|].
    by intros [(b & tr1 & tr2 & -> & [-> [= ->]] & ?)|[? []]].
  - split; [intros [-> ->]; by right|]. intros [(b & tr1 & tr2 & _ & [_ ?] & _)|[-> [-> _]]]; done.
  - split.
    + intros (a & tr' & -> & [(b & tr1 & tr2 & -> & ? & ?)|[-> ?]]%IH); [|naive_solver].
      left. exists b, (existT e a :: tr1), tr2. naive_solver.
    + intros [(b & tr1 & tr2 & -> & (a & tr' & -> & ?) & ?)|[-> (a & tr' & -> & ?)]];
        exists a; eexists; (split; [done|]); apply IH; eauto 10.
Qed.

Lemma Run_defer {A} (d : Prog unit) (p : Prog A) tr o :
  Run (defer d p) tr o →
  ∃ tr1 tr2 o', tr = tr1 ++ tr2 ∧ Run p tr1 o' ∧
    (Run d tr2 (Some tt) ∧ o = o' ∨ Run d tr2 None ∧ o = None).
Proof.
  revert tr. induction p as [a| |e k IH]; intros tr; simpl.
  - intros [([] & tr1 & tr2 & -> & Hd & -> & ->)|[-> Hd]]%Run_bind;
      exists [], tr1 || exists [], tr; exists (Some a); rewrite ?app_nil_r; eauto 10.
  - intros [([] & tr1 & tr2 & -> & Hd & -> & ->)|[-> Hd]]%Run_bind;
      exists [], tr1 || exists [], tr; exists None; rewrite ?app_nil_r; eauto 10.
  - intros (a & tr' & -> & (tr1 & tr2 & o' & -> & Hp & Ho)%IH).
    exists (existT e a :: tr1), tr2, o'. eauto 10.
Qed.

Lemma only_bind {A B} P (f : A → Prog B) p :
  only P p → (∀ a, only P (f a)) → only P (prog_bind f p).
Proof. intros Hp Hf. induction p as [a| |e k IH]; simpl in *; naive_solver. Qed.

Lemma only_defer {A} P (p : Prog A) d : only P p → only P d → only P (defer d p).
Proof.
  intros Hp Hd. induction p as [a| |e k IH]; simpl in *; [by apply only_bind..|naive_solver].
Qed.

Lemma only_recover {A} P (p h : Prog A) : only P p → only P h → only P (recover p h).
Proof. intros Hp Hh. induction p as [a| |e k IH]; simpl in *; naive_solver. Qed.

Lemma only_mono {A} (P P' : Effect → Prop) (p : Prog A) :
  only P p → (∀ e, P e → P' e) → only P' p.
Proof. intros Hp HP. induction p as [a| |e k IH]; simpl in *; naive_solver. Qed.

Lemma only_all {A} (P : Effect → Prop) (p : Prog A) : (∀ e, P e) → only P p.
Proof. intros HP. induction p as [a| |e k IH]; simpl in *; naive_solver. Qed.

Lemma only_of_option {A} P (o : option A) : only P (of_option o).
Proof. by destruct o. Qed.

Lemma only_Run {A} P (p : Prog A) tr o : only P p → Run p tr o → Forall (λ ev, P (projT1 ev)) tr.
Proof.
  revert tr. induction p as [a| |e k IH]; intros tr; simpl; [intros _ [-> _]; by apply Forall_nil..|].
  intros [He Hk] (a & tr' & -> & Hr). apply Forall_cons. split; [done|]. by eapply IH.
Qed.

(** Show that a program performs only the effects that [tac] accepts. *)
Ltac only_effects tac :=
  repeat first
    [ apply only_of_option
    | exact I
    | progress intros
    | apply only_defer
    | apply only_bind
    | match goal with
      | |- context [match ?x with _ => _ end] => destruct x eqn:?
      | |- only _ (Do _ _) => split; [tac|]
      | |- only _ _ => progress (unfold perform, mbind, prog_mbind)
      end ].

Lemma Run_exec {A} env (p : Prog A) :
  Run p ((λ e, existT e (env e)) <$> fst (exec env p)) (snd (exec env p)).
Proof.
  induction p as [a| |e k IH]; simpl; [done..|].
  specialize (IH (env e)). destruct (exec env (k (env e))) as [tr o]. simpl in *. eauto.
Qed.

Lemma exec_bind {A B} env (f : A → Prog B) p :
  exec env (prog_bind f p) =
  match exec env p with
  | (tr, Some a) => let '(tr', o) := exec env (f a) in (tr ++ tr', o)
  | (tr, None) => (tr, None)
  end.
Proof.
  induction p as [a| |e k IH]; simpl; [by destruct (exec env (f a))|done|].
  rewrite IH. destruct (exec env (k (env e))) as [tr [a|]]; [|done].
  by destruct (exec env (f a)).
Qed.

Lemma exec_defer {A} env d (p : Prog A) :
  is_Some (snd (exec env d)) →
  exec env (defer d p) = (fst (exec env p) ++ fst (exec env d), snd (exec env p)).
Proof.
  intros [x Hd]. destruct (exec env d) as [tr o] eqn:Ed. simpl in Hd. subst o.
  induction p as [a| |e k IH]; simpl.
  1-2: by rewrite exec_bind, Ed; simpl; rewrite app_nil_r.
  rewrite IH. by destruct (exec env (k (env e))).
Qed.

(** A sequence whose first part only has effects, no result. *)
Lemma exec_bind_unit {B} env (f : unit → Prog B) p tr :
  exec env p = (tr, Some tt) →
  exec env (prog_bind f p) = (tr ++ fst (exec env (f tt)), snd (exec env (f tt))).
Proof. intros E. rewrite exec_bind, E. by destruct (exec env (f tt)). Qed.

Lemma exec_log env l : exec env (log l) = ([ELog l], Some tt).
Proof. simpl. by destruct (env (ELog l)). Qed.

Lemma exec_metric env m : exec env (metric m) = ([EMetric m], Some tt).
Proof. simpl. by destruct (env (EMetric m)). Qed.

Lemma exec_go env t : exec env (go t) = ([EGo t], Some tt).
Proof. simpl. by destruct (env (EGo t)). Qed.

(** Close an equation between traces that differ in how they are bracketed. *)
Ltac flat_traces :=
  repeat (progress (simpl; rewrite <- ?app_assoc; rewrite ?app_nil_r)); done.
