(* ===== verification/RedisCache.v ===== *)
(** * redis_cache.go, readpool.go: reads, writes and evictions

    [Get] and [get] are programs of the request path; the bodies of the two
    goroutines are programs too. The replica pool's random choice, the Redis
    replies and the log throttle are answers of the environment. *)

From S2P Require Import Prelude GoString GoError GoFloat GoTime Dns Fixtures Ttl.
From S2P Require Import Serialization Key Config Prog.

Local Open Scope Z_scope.

(** ** errReason *)

Definition errReason err : string :=
  match err with
  | None => ""
  | Some e =>
      if errors_Is e DeadlineExceeded || errors_Is e Canceled || errors_Is e ErrPoolTimeout
      then "timeout"
      else match errors_As_net e with
      | Some timeout => if timeout then "timeout" else "connection"
      | None =>
          if errors_Is e EOF || errors_Is e UnexpectedEOF then "connection" else "other"
      end
  end.

#[global] Arguments errReason : simpl never.
#[global] Arguments FromBytes : simpl never.
#[global] Arguments err_eqb : simpl never.

(** ** The replica pool *)

(** [p.clients[rand.IntN(len(p.clients))]]; [rand.IntN(0)] panics. *)
Definition pick (clients : list nat) : Prog nat :=
  if (length clients =? 0)%nat then Panic
  else i ← rand_IntN (length clients); of_option (clients !! i).

(** The pipeline is opened on the client that was picked. *)
Definition pipeline (clients : list nat) : Prog nat := pick clients.

(** The log level of a failed ping; [c.Options().Addr] only formats it. *)
Fixpoint pool_ping (ctx : Ctx) (clients : list nat) : Prog unit :=
  match clients with
  | [] => Ret tt
  | c :: cs =>
      err ← redis_Ping c ctx;
      _ ← (match err with Some _ => log LWarning | None => Ret tt end);
      pool_ping ctx cs
  end.

(** [errs], in order. *)
Fixpoint pool_close_errs (clients : list nat) : Prog (list error) :=
  match clients with
  | [] => Ret []
  | c :: cs =>
      err ← redis_Close c;
      errs ← pool_close_errs cs;
      Ret (match err with Some e => e :: errs | None => errs end)
  end.

(** [fmt.Errorf("close errors: %v", errs)] does not wrap [errs]. *)
Definition close_error (errs : list error) : option error :=
  match errs with
  | [] => None
  | _ => Some (sentinel (OtherErr "close errors"))
  end.

Definition pool_close (clients : list nat) : Prog (option error) :=
  errs ← pool_close_errs clients; Ret (close_error errs).

(** ** Startup and shutdown *)

(** [re.readClient != nil && re.readClient != re.writeClient] *)
Definition distinct_reader (re : Redis) : option nat :=
  match readClient re with
  | Some r => if bool_decide (writeClient re = Some r) then None else Some r
  | None => None
  end.

Definition verifyConnectivity (re : Redis) : Prog (option error) :=
  w ← of_option (writeClient re);
  err ← redis_Ping w Background;
  match err with
  | Some e => Ret (Some e)
  | None =>
      _ ← (match distinct_reader re with
           | Some r =>
               _ ← of_option (head (readEndpoints (conn re)));
               rerr ← redis_Ping r Background;
               (match rerr with Some _ => log LWarning | None => Ret tt end)
           | None => Ret tt
           end);
      _ ← (match readPool re with Some p => pool_ping Background p | None => Ret tt end);
      Ret None
  end.

Definition close_client (c : option nat) : Prog (list error) :=
  match c with
  | Some c => err ← redis_Close c; Ret (option_list err)
  | None => Ret []
  end.

Definition close (re : Redis) : Prog (option error) :=
  e1 ← close_client (writeClient re);
  e2 ← close_client (distinct_reader re);
  e3 ← (match readPool re with
        | Some p => err ← pool_close p; Ret (option_list err)
        | None => Ret []
        end);
  Ret (close_error (e1 ++ e2 ++ e3)).

(** ** Add, Get, evictAsync *)

Definition Add (re : Redis) (ctx : Ctx) (key : string) (wire : bytes) (duration : Duration) :
    Prog (option error) :=
  w ← of_option (writeClient re);
  r ← redis_Set w ctx key wire duration;
  match r with
  | CmdDone err => Ret err
  | CmdPanic => Panic
  end.

Definition readPipeline (re : Redis) : Prog nat :=
  match readPool re with
  | Some p => pipeline p
  | None => of_option (readClient re)
  end.

Definition evictAsync (parent : Ctx) (key : string) : Prog unit :=
  go (TaskEvict parent key).

(** [group.Do(key, fn)]: the first caller runs [fn] and leaves the group when
    [fn] returns or panics; one that comes while [fn] runs waits for it, and
    panics too if [fn] did. *)
Definition flight_Do (g : Group) (key : string) (fn : Prog unit) : Prog unit :=
  reply ← flight_enter g key;
  match reply with
  | Leader => defer (flight_leave g key) fn
  | Shared panicked => if panicked then Panic else Ret tt
  end.

(** The goroutine of [evictAsync]. *)
Definition evict_body (re : Redis) (parent : Ctx) (key : string) : Prog unit :=
  recover
    (flight_Do evictFlight key
      (w ← of_option (writeClient re);
       r ← redis_Expire w (WithoutCancel parent) key 0;
       match r with
       | CmdDone None => Ret tt
       | CmdDone (Some _) => log LDebug
       | CmdPanic => Panic
       end))
    (log LError).

(** The goroutine of [WriteMsg]. *)
Definition set_body (re : Redis) (ctx : Ctx) (server key : string) (wire : bytes)
    (duration : Duration) : Prog unit :=
  recover
    (flight_Do writeFlight key
      (addErr ← Add re (WithoutCancel ctx) key wire duration;
       match addErr with
       | None => Ret tt
       | Some e =>
           _ ← log LDebug;
           metric (cacheSetErrors server (errReason (Some e)))
       end))
    (log LError).

Definition task_body (re : Redis) (t : Task) : Prog unit :=
  match t with
  | TaskEvict parent key => evict_body re parent key
  | TaskSet ctx server key wire duration => set_body re ctx server key wire duration
  end.

Section get.
Context `{!UnicodeTables, !Platform, !DnsLib, !CoreDns, !XxHash}.

(** The TTL the message is served with: 0 when TTL failed or is not positive. *)
Definition Get_ttl (ttl : result error Duration) : Z :=
  match ttl with
  | Ok d => if 0 <? d then uint32_Seconds d else 0
  | Err _ => 0
  end.

(** [(msg, storedDO, err)], nil being [None]. *)
Definition Get (re : Redis) (ctx : Ctx) (key : string) : Prog (option Msg * bool * option error) :=
  let ctx := WithTimeout ctx (readTimeout (timeouts re)) in
  c ← readPipeline re;
  reply ← pipe_get_ttl c ctx key;
  match getCmd reply with
  | Err e => if err_eqb e RedisNil then Ret (None, false, None) else Ret (None, false, Some e)
  | Ok b =>
      if (length b =? 0)%nat then
        _ ← evictAsync ctx key;
        Ret (None, false, None)
      else
        _ ← (match ttlCmd reply with
             | Err terr => if negb (err_eqb terr RedisNil) then log LDebug else Ret tt
             | Ok _ => Ret tt
             end);
        match FromBytes b (Get_ttl (ttlCmd reply)) with
        | Err e =>
            _ ← evictAsync ctx key;
            Ret (None, false, Some e)
        | Ok (m, storedDO) => Ret (Some m, storedDO, None)
        end
  end.

(** The condition of the post-fetch check, [None] for the panic of the index
    [m.Question[0]] behind a [Match] that holds. *)
Definition mismatch (req m : Msg) (cachedDO : bool) : option bool :=
  if negb (state_Match req m) then Some true
  else match Question m with
  | [] => None
  | q :: _ =>
      Some (negb (Qclass q =? state_QClass req) || negb (Bool.eqb cachedDO (state_Do req)) ||
            negb (Bool.eqb (CheckingDisabled m) (CheckingDisabled req)))
  end.

(** The key a request is looked up under. *)
Definition request_key (re : Redis) (req : Msg) : string :=
  key (re_keyer re) (state_Name req) (state_QClass req) (state_QType req) (state_Do req)
    (CheckingDisabled req).

Definition get (re : Redis) (ctx : Ctx) (req : Msg) (server : string) : Prog (option Msg) :=
  _ ← now;
  defer (_ ← now; metric (cacheRequests server))
    (let k := request_key re req in
     r ← Get re ctx k;
     match r with
     | (_, _, Some err) =>
         _ ← metric (cacheReadErrors server (errReason (Some err)));
         emit ← sometimes;
         _ ← (if (emit : bool) then log LWarning else Ret tt);
         Ret None
     | (None, _, None) => Ret None
     | (Some m, cachedDO, None) =>
         mis ← of_option (mismatch req m cachedDO);
         (* both log calls format m.Question[0] *)
         _ ← of_option (head (Question m));
         if (mis : bool) then
           _ ← log LWarning;
           _ ← metric (cacheCollisions server);
           _ ← evictAsync ctx k;
           Ret None
         else
           _ ← log LDebug;
           _ ← metric (cacheHits server);
           Ret (Some m)
     end).

(** ** A run of get

    The effects after the pipeline and the result ([None] is a panic), by what
    Redis replied. *)

Definition ttl_log (reply : PipeReply) : list Effect :=
  match ttlCmd reply with
  | Err terr => if negb (err_eqb terr RedisNil) then [ELog LDebug] else []
  | Ok _ => []
  end.

Definition read_error (env : ∀ e, Resp e) (server : string) (e : error) : list Effect :=
  [EMetric (cacheReadErrors server (errReason (Some e))); ESometimes] ++
  if (env ESometimes : bool) then [ELog LWarning] else [].

Definition get_table (env : ∀ e, Resp e) (re : Redis) (ctx : Ctx) (req : Msg) (server : string)
    (reply : PipeReply) : list Effect * option (option Msg) :=
  let k := request_key re req in
  let ctx' := WithTimeout ctx (readTimeout (timeouts re)) in
  match getCmd reply with
  | Err e => if err_eqb e RedisNil then ([], Some None) else (read_error env server e, Some None)
  | Ok [] => ([EGo (TaskEvict ctx' k)], Some None)
  | Ok b =>
      match FromBytes b (Get_ttl (ttlCmd reply)) with
      | Err e => (ttl_log reply ++ EGo (TaskEvict ctx' k) :: read_error env server e, Some None)
      | Ok (m, storedDO) =>
          match mismatch req m storedDO, Question m with
          | Some true, _ :: _ =>
              (ttl_log reply ++
                [ELog LWarning; EMetric (cacheCollisions server); EGo (TaskEvict ctx k)], Some None)
          | Some false, _ :: _ =>
              (ttl_log reply ++ [ELog LDebug; EMetric (cacheHits server)], Some (Some m))
          | _, _ => (ttl_log reply, None)
          end
      end
  end.

(** The same for [Get], with its three results. *)
Definition Get_table (re : Redis) (ctx : Ctx) (k : string) (reply : PipeReply) :
    list Effect * (option Msg * bool * option error) :=
  let ctx' := WithTimeout ctx (readTimeout (timeouts re)) in
  match getCmd reply with
  | Err e => ([], (None, false, if err_eqb e RedisNil then None else Some e))
  | Ok [] => ([EGo (TaskEvict ctx' k)], (None, false, None))
  | Ok b =>
      match FromBytes b (Get_ttl (ttlCmd reply)) with
      | Err e => (ttl_log reply ++ [EGo (TaskEvict ctx' k)], (None, false, Some e))
      | Ok (m, storedDO) => (ttl_log reply, (Some m, storedDO, None))
      end
  end.

Lemma exec_ttl_log env reply :
  exec env (match ttlCmd reply with
    | Err terr => if negb (err_eqb terr RedisNil) then log LDebug else Ret tt
    | Ok _ => Ret tt
    end) = (ttl_log reply, Some tt).
Proof.
  unfold ttl_log. destruct (ttlCmd reply); [done|]. case_if; [apply exec_log|done].
Qed.

Lemma exec_Get env re ctx k rtr c :
  exec env (readPipeline re) = (rtr, Some c) →
  let pipe := EPipe c (WithTimeout ctx (readTimeout (timeouts re))) k in
  exec env (Get re ctx k) =
  (rtr ++ pipe :: fst (Get_table re ctx k (env pipe)), Some (snd (Get_table re ctx k (env pipe)))).
Proof.
  intros Hr pipe. unfold Get, Get_table, evictAsync. unfold mbind, prog_mbind.
  rewrite exec_bind, Hr. cbn [exec prog_bind pipe_get_ttl perform]. fold pipe.
  generalize (env pipe). cbn [Resp pipe]. intros reply.
  destruct (getCmd reply) as [[|b0 b]|e]; simpl length; cbn [Nat.eqb].
  - by rewrite (exec_bind_unit _ _ _ _ (exec_go _ _)).
  - rewrite (exec_bind_unit _ _ _ _ (exec_ttl_log _ _)).
    destruct (FromBytes _ _) as [[m d]|e].
    + simpl. by rewrite app_nil_r.
    + by rewrite (exec_bind_unit _ _ _ _ (exec_go _ _)).
  - by destruct (err_eqb e RedisNil).
Qed.

Lemma exec_read_error env server e :
  exec env
    (_ ← metric (cacheReadErrors server (errReason (Some e)));
     emit ← sometimes;
     _ ← (if (emit : bool) then log LWarning else Ret tt);
     Ret (None : option Msg)) = (read_error env server e, Some None).
Proof.
  unfold mbind, prog_mbind. rewrite (exec_bind_unit _ _ _ _ (exec_metric _ _)).
  unfold read_error. cbn [exec prog_bind sometimes perform]. generalize (env ESometimes).
  intros []; [|done]. by rewrite (exec_bind_unit _ _ _ _ (exec_log _ _)).
Qed.

Lemma exec_get env re ctx req server rtr c :
  exec env (readPipeline re) = (rtr, Some c) →
  let pipe := EPipe c (WithTimeout ctx (readTimeout (timeouts re))) (request_key re req) in
  let '(tr, o) := get_table env re ctx req server (env pipe) in
  exec env (get re ctx req server) =
  (ENow :: rtr ++ pipe :: tr ++ [ENow; EMetric (cacheRequests server)], o).
Proof.
  intros Hr pipe. destruct (get_table _ _ _ _ _ _) as [tr o] eqn:Et.
  unfold get, evictAsync, mbind, prog_mbind. cbn [exec prog_bind now perform].
  rewrite exec_defer by (simpl; eauto). cbn [exec prog_bind now perform].
  rewrite exec_metric, exec_bind, (exec_Get _ _ _ _ rtr c Hr). fold pipe.
  revert Et. generalize (env pipe). cbn [Resp pipe]. intros reply Et.
  revert Et. unfold get_table, Get_table.
  destruct (getCmd reply) as [[|b0 b]|e].
  - intros [= <- <-]. flat_traces.
  - destruct (FromBytes _ _) as [[m d]|e].
    + destruct (mismatch req m d) as [[|]|] eqn:Em; [..|intros [= <- <-]];
        [destruct (Question m) eqn:Eq; intros [= <- <-]..|].
      all: cbn [fst snd of_option]; rewrite ?Em; cbn [of_option prog_bind exec]; rewrite ?Eq; cbn [of_option prog_bind head exec].
      all: repeat rewrite (exec_bind_unit _ _ _ _ (exec_log _ _)); cbn [fst snd].
      all: repeat rewrite (exec_bind_unit _ _ _ _ (exec_metric _ _)); cbn [fst snd].
      all: repeat rewrite (exec_bind_unit _ _ _ _ (exec_go _ _)); cbn [fst snd].
      all: flat_traces.
    + intros [= <- <-]. cbn [fst snd]. setoid_rewrite exec_read_error. cbn [fst snd].
      flat_traces.
  - destruct (err_eqb e RedisNil); intros [= <- <-]; cbn [fst snd].
    + flat_traces.
    + setoid_rewrite exec_read_error. flat_traces.
Qed.

(** ** Properties of the read path *)

(** A command sent to Redis. *)
Definition redis_effect (e : Effect) : bool :=
  match e with
  | EPipe _ _ _ | ESet _ _ _ _ _ | EExpire _ _ _ _ | EPing _ _ | EClose _ => true
  | _ => false
  end.

(** Redis returned an entry that decodes to [m] and passes the post-fetch check. *)
Definition good_entry (req : Msg) (reply : PipeReply) (m : Msg) : Prop :=
  ∃ b d, getCmd reply = Ok b ∧ b ≠ [] ∧
    FromBytes b (Get_ttl (ttlCmd reply)) = Ok (m, d) ∧ mismatch req m d = Some false.

(** The entry decodes to a message for another question, DO or CD bit. *)
Definition collision (req : Msg) (reply : PipeReply) : Prop :=
  ∃ b m d, getCmd reply = Ok b ∧ b ≠ [] ∧
    FromBytes b (Get_ttl (ttlCmd reply)) = Ok (m, d) ∧ mismatch req m d = Some true.

(** The entry decodes to a message without a question. *)
Definition no_question (reply : PipeReply) : Prop :=
  ∃ b m d, getCmd reply = Ok b ∧ b ≠ [] ∧
    FromBytes b (Get_ttl (ttlCmd reply)) = Ok (m, d) ∧ Question m = [].

(** The read failed: a command error that is not a miss, or an undecodable entry. *)
Definition read_failed (reply : PipeReply) : Prop :=
  (∃ e, getCmd reply = Err e ∧ err_eqb e RedisNil = false) ∨
  (∃ b e, getCmd reply = Ok b ∧ b ≠ [] ∧ FromBytes b (Get_ttl (ttlCmd reply)) = Err e).

Lemma mismatch_false `{!CoreDnsLaws} req m d :
  mismatch req m d = Some false →
  (∃ q, Question m = [q] ∧ ToLower (QName q) = state_Name req ∧ Qtype q = state_QType req ∧
    Qclass q = state_QClass req) ∧
  d = state_Do req ∧ CheckingDisabled m = CheckingDisabled req.
Proof.
  unfold mismatch. destruct (state_Match req m) eqn:Em; [|done]. simpl.
  apply state_Match_spec in Em as (q & -> & Hn & Ht). intros [= E]. bool_hyps. eauto 10.
Qed.

Lemma ttl_log_quiet reply e : e ∈ ttl_log reply → e = ELog LDebug.
Proof.
  unfold ttl_log. destruct (ttlCmd reply); [set_solver|]. case_if; set_solver.
Qed.

Lemma read_error_elem env server err e :
  e ∈ read_error env server err →
  e = EMetric (cacheReadErrors server (errReason (Some err))) ∨ e = ESometimes ∨ e = ELog LWarning.
Proof. unfold read_error. destruct (env ESometimes); set_solver. Qed.

Lemma readPipeline_trace env re rtr c :
  exec env (readPipeline re) = (rtr, Some c) → ∀ e, e ∈ rtr → ∃ n, e = ERand n.
Proof.
  unfold readPipeline, pipeline, pick. destruct (readPool re) as [p|].
  - case_if; [done|]. simpl. destruct (p !! _); simpl; [|done].
    intros [= <- _] e. set_solver.
  - destruct (readClient re); [|done]. intros [= <- _] e. set_solver.
Qed.

(** C8: a lookup serves a message only if Redis returned, for the key of this
    request, an entry that decodes to it and the message answers the request on
    every component of the key: name, type, class, DO and CD. The check needs
    nothing of the hash function and nothing of who wrote the entry. *)
Theorem get_hit_verified `{!CoreDnsLaws} env re ctx req server rtr c tr m :
  exec env (readPipeline re) = (rtr, Some c) →
  exec env (get re ctx req server) = (tr, Some (Some m)) →
  (∃ q, Question m = [q] ∧ ToLower (QName q) = state_Name req ∧ Qtype q = state_QType req ∧
    Qclass q = state_QClass req) ∧
  CheckingDisabled m = CheckingDisabled req ∧
  ∃ b ttl,
    getCmd (env (EPipe c (WithTimeout ctx (readTimeout (timeouts re))) (request_key re req))) = Ok b ∧
    FromBytes b ttl = Ok (m, state_Do req).
Proof.
  intros Hr Hg. pose proof (exec_get env re ctx req server rtr c Hr) as Ht. cbv zeta in Ht.
  destruct (get_table _ _ _ _ _ _) as [ttr o] eqn:Et. rewrite Hg in Ht. injection Ht as _ <-.
  revert Et. unfold get_table. destruct (getCmd _) as [[|b0 b]|e]; [done| |by case_if].
  destruct (FromBytes _ _) as [[m' d]|e] eqn:Ef; [|done].
  destruct (mismatch req m' d) as [[|]|] eqn:Em; destruct (Question m') eqn:Eq; try done.
  intros [= _ ->].
  destruct (mismatch_false req m d Em) as (Hq & -> & Hcd). eauto 10.
Qed.

(** The check indexes a question only behind a [Match], so only a message with a
    question passes it. *)
Lemma mismatch_cases req m d :
  match Question m with
  | [] => mismatch req m d ≠ Some false
  | _ => is_Some (mismatch req m d)
  end.
Proof. unfold mismatch. destruct (negb _), (Question m); eauto. Qed.

(** What the effects [t] and the result [o] of a lookup say about the reply. *)
Definition get_facts (req : Msg) (server k : string) (reply : PipeReply) (t : list Effect)
    (o : option (option Msg)) : Prop :=
  (o = None ↔ no_question reply) ∧
  (∀ m, o = Some (Some m) ↔ good_entry req reply m) ∧
  (o = Some None ↔ ¬ no_question reply ∧ ¬ ∃ m, good_entry req reply m) ∧
  ((∃ ctx', EGo (TaskEvict ctx' k) ∈ t) ↔
    (∃ b, getCmd reply = Ok b) ∧ ¬ no_question reply ∧ ¬ ∃ m, good_entry req reply m) ∧
  (EMetric (cacheCollisions server) ∈ t ↔ collision req reply ∧ ¬ no_question reply) ∧
  ((∃ reason, EMetric (cacheReadErrors server reason) ∈ t) ↔ read_failed reply) ∧
  (EMetric (cacheHits server) ∈ t ↔ ∃ m, good_entry req reply m).

(** [N], [G], [C] and [F] name the entries without a question, the good entries,
    the collisions and the failures. *)
Lemma get_facts_intro req server k reply t o (G : Msg → Prop) (N C F : Prop) :
  (no_question reply ↔ N) → (∀ m, good_entry req reply m ↔ G m) → (collision req reply ↔ C) →
  (read_failed reply ↔ F) →
  (o = None ↔ N) → (∀ m, o = Some (Some m) ↔ G m) → (o = Some None ↔ ¬ N ∧ ¬ ∃ m, G m) →
  ((∃ ctx', EGo (TaskEvict ctx' k) ∈ t) ↔ (∃ b, getCmd reply = Ok b) ∧ ¬ N ∧ ¬ ∃ m, G m) →
  (EMetric (cacheCollisions server) ∈ t ↔ C ∧ ¬ N) →
  ((∃ reason, EMetric (cacheReadErrors server reason) ∈ t) ↔ F) →
  (EMetric (cacheHits server) ∈ t ↔ ∃ m, G m) → get_facts req server k reply t o.
Proof.
  intros HN HG HC HF H4 H5 H6 H7 H8 H9 H10. unfold get_facts. setoid_rewrite HG.
  by rewrite HN, HC, HF.
Qed.

Lemma entry_cases req reply b r :
  getCmd reply = Ok b → b ≠ [] → FromBytes b (Get_ttl (ttlCmd reply)) = r →
  (no_question reply ↔ ∃ m d, r = Ok (m, d) ∧ Question m = []) ∧
  (∀ m, good_entry req reply m ↔ ∃ d, r = Ok (m, d) ∧ mismatch req m d = Some false) ∧
  (collision req reply ↔ ∃ m d, r = Ok (m, d) ∧ mismatch req m d = Some true) ∧
  (read_failed reply ↔ ∃ e, r = Err e).
Proof.
  intros Eg Hb Ef. unfold no_question, good_entry, collision, read_failed. rewrite Eg. split_and!.
  - split; [|intros (m & d & ? & ?); exists b, m, d; by subst].
    intros (b' & m & d & [= <-] & _ & ? & ?). exists m, d. by subst.
  - intros m. split; [|intros (d & ? & ?); exists b, d; by subst].
    intros (b' & d & [= <-] & _ & ? & ?). exists d. by subst.
  - split; [|intros (m & d & ? & ?); exists b, m, d; by subst].
    intros (b' & m & d & [= <-] & _ & ? & ?). exists m, d. by subst.
  - split; [|intros (e & ?); right; exists b, e; by subst].
    intros [(e & ? & _)|(b' & e & [= <-] & _ & ?)]; [done|]. exists e. by subst.
Qed.

Lemma no_entry_cases req reply :
  getCmd reply = Ok [] ∨ (∃ e, getCmd reply = Err e) →
  (no_question reply ↔ False) ∧ (∀ m, good_entry req reply m ↔ False) ∧
  (collision req reply ↔ False) ∧
  (read_failed reply ↔ ∃ e, getCmd reply = Err e ∧ err_eqb e RedisNil = false).
Proof.
  unfold no_question, good_entry, collision, read_failed.
  intros [-> | [e ->]]; split_and!; naive_solver.
Qed.

Ltac solve_facts := set_unfold; naive_solver.

Lemma get_table_spec env re ctx req server reply :
  let '(t, o) := get_table env re ctx req server reply in
  get_facts req server (request_key re req) reply t o.
Proof.
  unfold get_table. set (k := request_key re req).
  assert (∀ e, e ∈ ttl_log reply → e = ELog LDebug) as Hlog by apply ttl_log_quiet.
  assert (∀ err e, e ∈ read_error env server err →
    e = EMetric (cacheReadErrors server (errReason (Some err))) ∨ e = ESometimes ∨
    e = ELog LWarning) as Herr by (intros; by eapply read_error_elem).
  assert (∀ err, EMetric (cacheReadErrors server (errReason (Some err))) ∈
    read_error env server err) as Herr' by (intros; unfold read_error; set_solver).
  clearbody k. generalize dependent (read_error env server). intros rerr Herr Herr'.
  destruct (getCmd reply) as [[|b0 b]|e] eqn:Eg.
  - destruct (no_entry_cases req reply) as (HN & HG & HC & HF); [by left|].
    apply (get_facts_intro _ _ _ _ _ _ _ _ _ _ HN HG HC HF);
      rewrite ?Eg; clear - Eg; solve_facts.
  - destruct (entry_cases req reply _ _ Eg ltac:(done) eq_refl) as (HN & HG & HC & HF).
    destruct (FromBytes _ _) as [[m d]|e] eqn:Ef; cycle 1.
    { apply (get_facts_intro _ _ _ _ _ _ _ _ _ _ HN HG HC HF);
        rewrite ?Eg; clear - Eg Hlog Herr Herr'; solve_facts. }
    pose proof (mismatch_cases req m d) as Hm. destruct (Question m) as [|q qs] eqn:Eq.
    + assert (no_question reply ↔ True) as HN' by (rewrite HN; split; [done|]; by exists m, d).
      assert (∀ m, good_entry req reply m ↔ False) as HG' 
        by (intros m'; rewrite HG; split; [|done]; by intros (? & [= <- <-] & ?)).
      destruct (mismatch req m d) as [[]|] eqn:Em; [|done|];
        apply (get_facts_intro _ _ _ _ _ _ _ _ _ _ HN' HG' HC HF);
        rewrite ?Eg; clear - Eg Em Eq Hlog; solve_facts.
    + assert (no_question reply ↔ False) as HN'
        by (rewrite HN; split; [|done]; intros (? & ? & [= <- <-] & ?); congruence).
      destruct Hm as [mis Em]. rewrite Em. destruct mis;
        apply (get_facts_intro _ _ _ _ _ _ _ _ _ _ HN' HG HC HF);
        rewrite ?Eg; clear - Eg Em Eq Hlog; solve_facts.
  - destruct (no_entry_cases req reply) as (HN & HG & HC & HF); [by right; exists e|].
    destruct (err_eqb e RedisNil) eqn:En;
      apply (get_facts_intro _ _ _ _ _ _ _ _ _ _ HN HG HC HF);
      rewrite ?Eg; clear - Eg En Herr Herr'; set_unfold; try naive_solver.
    split; [by intros [? []]|]. intros (x & [= <-] & ?). congruence.
Qed.

(** C9: every lookup is recorded as what it was, whatever Redis replied to the
    pipeline on the chosen client. [get] serves exactly the good entries: those that decode to a message that answers
    the request. It panics exactly on an entry that decodes to a message without a
    question, and returns nil on every other reply. It schedules the eviction of
    this key exactly when Redis returned a value that is neither a good entry nor
    one without a question, so that empty, undecodable and colliding entries are
    removed; it counts a collision exactly on a mismatch of a message with a
    question, a read error exactly on a failed command or decode, and a hit
    exactly when it serves. *)
Theorem get_self_heals env re ctx req server rtr c :
  exec env (readPipeline re) = (rtr, Some c) →
  let k := request_key re req in
  let reply := env (EPipe c (WithTimeout ctx (readTimeout (timeouts re))) k) in
  let '(tr, o) := exec env (get re ctx req server) in
  (o = None ↔ no_question reply) ∧
  (∀ m, o = Some (Some m) ↔ good_entry req reply m) ∧
  (o = Some None ↔ ¬ no_question reply ∧ ¬ ∃ m, good_entry req reply m) ∧
  ((∃ ctx', EGo (TaskEvict ctx' k) ∈ tr) ↔
    (∃ b, getCmd reply = Ok b) ∧ ¬ no_question reply ∧ ¬ ∃ m, good_entry req reply m) ∧
  (EMetric (cacheCollisions server) ∈ tr ↔ collision req reply ∧ ¬ no_question reply) ∧
  ((∃ reason, EMetric (cacheReadErrors server reason) ∈ tr) ↔ read_failed reply) ∧
  (EMetric (cacheHits server) ∈ tr ↔ ∃ m, good_entry req reply m).
Proof.
  intros Hr k reply. pose proof (exec_get env re ctx req server rtr c Hr) as Ht.
  cbv zeta in Ht. fold k reply in Ht.
  pose proof (get_table_spec env re ctx req server reply) as Hspec.
  destruct (get_table env re ctx req server reply) as [t o]. rewrite Ht. unfold get_facts in Hspec.
  assert (∀ e, (∃ t, e = EGo t) ∨ (∃ m, e = EMetric m ∧ m ≠ cacheRequests server) →
    e ∈ ENow :: rtr ++ EPipe c (WithTimeout ctx (readTimeout (timeouts re))) k :: t ++
      [ENow; EMetric (cacheRequests server)] ↔ e ∈ t) as Hmem.
  { intros e He. pose proof (readPipeline_trace _ _ _ _ Hr) as Hrand. set_unfold.
    split; [|naive_solver]. intros [?|[[n ?]%Hrand|?]]; naive_solver. }
  setoid_rewrite Hmem; [exact Hspec|eauto..].
Qed.

Lemma get_table_quiet env re ctx req server reply e :
  e ∈ fst (get_table env re ctx req server reply) → redis_effect e = false.
Proof.
  assert (∀ e, e ∈ ttl_log reply → redis_effect e = false) as Hlog
    by (intros ? ->%ttl_log_quiet; done).
  assert (∀ err e, e ∈ read_error env server err → redis_effect e = false) as Herr
    by (intros ? ? [-> | [-> | ->]]%read_error_elem; done).
  unfold get_table. repeat case_match; simpl; rewrite ?elem_of_app, ?elem_of_cons, ?elem_of_nil.
  all: intros Hin; destruct_or? Hin; subst; eauto; by destruct Hin.
Qed.

Lemma filter_none {A} (P : A → bool) (l : list A) :
  (∀ e, e ∈ l → P e = false) → filter (λ e, P e = true) l = [].
Proof.
  intros Hl. induction l as [|x l IH]; [done|]. rewrite filter_cons_False.
  - apply IH. intros e He. apply Hl. by apply elem_of_cons; right.
  - rewrite Hl; [done|]. by apply elem_of_cons; left.
Qed.

(** C30: whatever Redis answers, a lookup sends exactly one command sequence
    to Redis, the GET and TTL pipeline for this request's key on the chosen
    client, under a context bounded by the single read timeout; it never writes
    to Redis on the request path. *)
Theorem get_single_bounded_read env re ctx req server rtr c :
  exec env (readPipeline re) = (rtr, Some c) →
  filter (λ e, redis_effect e = true) (fst (exec env (get re ctx req server))) =
  [EPipe c (mkCtx (readTimeout (timeouts re) :: ctx_timeouts ctx) (ctx_detached ctx))
     (request_key re req)].
Proof.
  intros Hr. pose proof (exec_get env re ctx req server rtr c Hr) as Ht. cbv zeta in Ht.
  destruct (get_table _ _ _ _ _ _) as [t o] eqn:Et. rewrite Ht. cbn [fst].
  rewrite filter_cons_False, filter_app, filter_cons_True, filter_app by done.
  rewrite (filter_none _ rtr), (filter_none _ t); [done|..].
  - intros e He. eapply get_table_quiet. by rewrite Et.
  - by intros e [n ->]%(readPipeline_trace _ _ _ _ Hr).
Qed.

(** ** Any run of get *)

(** A run of the client choice finds a client and asks Redis nothing. *)
Lemma readPipeline_Run re tr o :
  clients_ok re → Forall in_range tr → Run (readPipeline re) tr o →
  is_Some o ∧ omap pipe_reply tr = [].
Proof.
  intros [_ Hc] Ht. unfold readPipeline, pipeline, pick.
  destruct (readPool re) as [p|].
  - destruct p as [|c p]; [done|]. intros (i & tr' & -> & Hr).
    apply Forall_cons in Ht as [Hi _]. simpl in Hi, Hr.
    destruct (lookup_lt_is_Some_2 (c :: p) i) as [x Hx]; [done|]. rewrite Hx in Hr.
    destruct Hr as [-> ->]. split; [eauto|done].
  - destruct Hc as [c ->]. intros [-> ->]. split; [eauto|done].
Qed.

(** What [Get] returns is decided by the reply to its pipeline. *)
Lemma Get_Run re ctx k tr o :
  clients_ok re → Forall in_range tr → Run (Get re ctx k) tr o →
  ∃ reply, first_reply tr = Some reply ∧ o = Some (snd (Get_table re ctx k reply)).
Proof.
  intros Hc Ht. unfold Get, evictAsync, mbind, prog_mbind.
  intros [(c & tr1 & tr2 & -> & R1 & R2)|[-> R1]]%Run_bind.
  2: { by apply readPipeline_Run in R1 as [[] _]. }
  apply Forall_app in Ht as [Ht _]. destruct (readPipeline_Run _ _ _ Hc Ht R1) as [_ E].
  destruct R2 as (reply & tr3 & -> & R3). simpl in reply, R3. exists reply.
  split; [unfold first_reply; rewrite omap_app, E; done|]. revert R3. unfold Get_table.
  destruct (getCmd reply) as [[|b0 b]|e]; simpl length; cbn [Nat.eqb].
  - simpl. by intros (u & tr' & -> & _ & ->).
  - intros [(u & tr4 & tr5 & -> & _ & R5)|[-> R5]]%Run_bind.
    + revert R5. destruct (FromBytes _ _) as [[m d]|e]; [by intros [_ ->]|].
      simpl. by intros (u' & tr' & -> & _ & ->).
    + revert R5. destruct (ttlCmd reply); [by intros [_ ?]|].
      case_if; [by intros (? & ? & _ & _ & ?)|by intros [_ ?]].
  - by destruct (err_eqb e RedisNil); intros [_ ->].
Qed.

(** The same for [get]: whatever the other answers are, the reply to the pipeline
    decides whether the lookup serves, misses or panics. *)
Lemma get_Run re ctx req server tr o :
  clients_ok re → Forall in_range tr → Run (get re ctx req server) tr o →
  ∃ reply, first_reply tr = Some reply ∧ (o = None ↔ no_question reply) ∧
    (∀ m, o = Some (Some m) ↔ good_entry req reply m) ∧
    (o = Some None ↔ ¬ no_question reply ∧ ¬ ∃ m, good_entry req reply m).
Proof.
  intros Hc Ht. unfold get, evictAsync, mbind, prog_mbind. intros (t & tr0 & -> & R0).
  apply Run_defer in R0 as (tr1 & tr2 & o' & -> & R1 & Ho).
  assert (o = o') as <-.
  { destruct Ho as [[_ ?]|[(? & ? & _ & ? & ? & _ & _ & ?) _]]; [done|done]. }
  apply Forall_cons in Ht as [_ [Ht _]%Forall_app].
  apply Run_bind in R1 as [(x & tr3 & tr4 & -> & R3 & R4)|[-> R3]].
  2: { apply Get_Run in R3 as (? & _ & ?); done. }
  apply Forall_app in Ht as [Ht _].
  destruct (Get_Run _ _ _ _ _ Hc Ht R3) as (reply & E & [= ->]). exists reply.
  split.
  { unfold first_reply in *. simpl. rewrite !omap_app. destruct (omap pipe_reply tr3); done. }
  pose proof (get_table_spec (quiet_env None) re ctx req server reply) as Hs.
  assert (o = snd (get_table (quiet_env None) re ctx req server reply)) as ->; cycle 1.
  { destruct (get_table _ _ _ _ _ _) as [ttr oo]. by destruct Hs as (? & ? & ? & _). }
  clear - R4. revert R4. unfold Get_table, get_table.
  assert (∀ e tr, Run (prog_bind (λ _ : (), prog_bind (λ emit : bool,
    prog_bind (λ _ : (), Ret None) (if emit then log LWarning else Ret tt)) sometimes)
    (metric (cacheReadErrors server (errReason (Some e))))) tr o → o = Some (None : option Msg)) as Hread.
  { intros e tr (u & tr' & -> & [] & tr'' & -> & R); [destruct R as (? & ? & _ & R)|]; by destruct R. }
  destruct (getCmd reply) as [[|b0 b]|e].
  - by intros [_ ->].
  - destruct (FromBytes _ _) as [[m d]|e]; [|by intros ?%Hread]. simpl.
    destruct (mismatch req m d) as [mis|]; simpl; [|by intros [_ ->]].
    destruct (Question m) as [|q qs]; simpl; [destruct mis; by intros [_ ->]|].
    destruct mis; simpl.
    + by intros (? & ? & _ & ? & ? & _ & ? & ? & _ & _ & ->).
    + by intros (? & ? & _ & ? & ? & _ & _ & ->).
  - destruct (err_eqb e RedisNil); [by intros [_ ->]|by intros ?%Hread].
Qed.

(** A reply that leaves nothing to serve: it has no good entry, and none that
    makes the lookup panic. *)
Definition unusable (req : Msg) (reply : PipeReply) : Prop :=
  ¬ no_question reply ∧ ¬ ∃ m, good_entry req reply m.

Lemma ok_ex {E} (m : Msg) (d : bool) (P : Msg → bool → Prop) :
  (∃ m' d', @Ok E _ (m, d) = Ok (m', d') ∧ P m' d') ↔ P m d.
Proof. split; [by intros (? & ? & [= <- <-] & ?)|by exists m, d]. Qed.

Lemma unusable_spec req reply :
  unusable req reply ↔
    (∃ e, getCmd reply = Err e) ∨ getCmd reply = Ok [] ∨
    (∃ b e, getCmd reply = Ok b ∧ b ≠ [] ∧ FromBytes b (Get_ttl (ttlCmd reply)) = Err e) ∨
    (collision req reply ∧ ¬ no_question reply).
Proof.
  unfold unusable. destruct (getCmd reply) as [[|b0 b]|e] eqn:Eg.
  - destruct (no_entry_cases req reply) as (HN & HG & _); [by left|]. setoid_rewrite HG. naive_solver.
  - destruct (entry_cases req reply _ _ Eg ltac:(done) eq_refl) as (HN & HG & HC & _).
    setoid_rewrite HG. rewrite HC, HN. destruct (FromBytes _ _) as [[m d]|e] eqn:Ef.
    + assert (∀ P : Prop, (∃ e, Ok (b0 :: b) = Err e) ∨ Ok (b0 :: b) = Ok [] ∨
        (∃ b' e', Ok (b0 :: b) = Ok b' ∧ b' ≠ [] ∧
          FromBytes b' (Get_ttl (ttlCmd reply)) = Err e') ∨ P ↔ P) as ->.
      { intros P. split; [|by do 3 right].
        intros [[? ?]|[?|[(? & ? & [= <-] & _ & ?)|?]]]; (done || congruence). }
      rewrite !ok_ex.
      pose proof (mismatch_cases req m d) as Hm.
      destruct (Question m); [naive_solver|]. destruct Hm as [[] ->]; naive_solver.
    + split; [|naive_solver]. intros _. right; right; left. by exists (b0 :: b), e.
  - destruct (no_entry_cases req reply) as (HN & HG & _); [by right; exists e|].
    setoid_rewrite HG. naive_solver.
Qed.

(** The lookup never asks for a random number below 0. *)
Lemma get_rand re ctx req server : only (λ e, e ≠ ERand 0) (get re ctx req server).
Proof.
  unfold get, Get, readPipeline, pipeline, pick, evictAsync, now, metric, log, sometimes, go,
    rand_IntN, pipe_get_ttl.
  only_effects ltac:(first [done | by intros [= E]; rewrite E in *]).
Qed.

(** Any reply may come. *)
Lemma get_any_reply re ctx req server reply :
  clients_ok re → ∃ tr, Run (get re ctx req server) tr
      (snd (get_table (quiet_env None) re ctx req server reply)) ∧
    Forall in_range tr ∧ first_reply tr = Some reply.
Proof.
  intros Hc.
  set (env := λ e, match e return Resp e with
    | EPipe _ _ _ => reply
    | e => quiet_env None e
    end).
  assert (∃ rtr c, exec env (readPipeline re) = (rtr, Some c) ∧
    omap pipe_reply ((λ e, existT e (env e)) <$> rtr) = []) as (rtr & c & Hr & Hrtr).
  { destruct Hc as [_ Hc]. unfold readPipeline, pipeline, pick.
    destruct (readPool re) as [[|c p]|]; [done|..].
    - by exists [ERand (S (length p))], c.
    - destruct Hc as [c ->]. by exists [], c. }
  pose proof (exec_get env re ctx req server rtr c Hr) as He. cbv zeta in He.
  change (get_table env re ctx req server _) with (get_table (quiet_env None) re ctx req server reply) in He.
  pose proof (Run_exec env (get re ctx req server)) as Hrun.
  destruct (get_table _ _ _ _ _ _) as [ttr o]. rewrite He in Hrun. simpl snd in *.
  eexists. split; [exact Hrun|]. split.
  - pose proof (only_Run _ _ _ _ (get_rand re ctx req server) Hrun) as Hall.
    rewrite Forall_fmap in Hall |- *. eapply Forall_impl; [exact Hall|]. intros e. simpl.
    destruct e; simpl; try done. destruct n; [done|lia].
  - unfold first_reply. cbn [fst]. rewrite fmap_cons, fmap_app, fmap_cons. simpl. by rewrite omap_app, Hrtr.
Qed.

(** C37: an entry that decodes to a message without a question makes the lookup
    panic: the post-fetch check sees the mismatch, and formatting the warning
    indexes [m.Question[0]]. No eviction is scheduled and no collision counted,
    so the entry stays. *)
Theorem get_panics_without_question `{!CoreDnsLaws} env re ctx req server rtr c b m d :
  exec env (readPipeline re) = (rtr, Some c) →
  let reply := env (EPipe c (WithTimeout ctx (readTimeout (timeouts re))) (request_key re req)) in
  getCmd reply = Ok b → b ≠ [] → FromBytes b (Get_ttl (ttlCmd reply)) = Ok (m, d) →
  Question m = [] →
  snd (exec env (get re ctx req server)) = None ∧
  ∀ t, EGo t ∉ fst (exec env (get re ctx req server)).
Proof.
  intros Hr reply Eg Hb Ef Eq. pose proof (exec_get env re ctx req server rtr c Hr) as Ht.
  cbv zeta in Ht. fold reply in Ht. destruct (get_table _ _ _ _ _ _) as [t o] eqn:Et.
  rewrite Ht. cbn [fst snd]. revert Et. unfold get_table. rewrite Eg.
  destruct b as [|b0 b]; [done|]. rewrite Ef, Eq.
  replace (mismatch req m d) with (Some true); cycle 1.
  { unfold mismatch. destruct (state_Match req m) eqn:Em; [|done].
    apply state_Match_spec in Em as (q & Hq & _). congruence. }
  intros [= <- <-]. split; [done|]. intros tk.
  rewrite !elem_of_cons, !elem_of_app, !elem_of_cons, !elem_of_app, !elem_of_cons, elem_of_nil.
  intros [?|[[n ?]%(readPipeline_trace _ _ _ _ Hr)|[?|[?%ttl_log_quiet|?]]]]; naive_solver.
Qed.

End get.

(** ** Properties of errors and goroutines *)

(** Every error has one of three reasons; the reason is timeout exactly
    when the chain holds a deadline, a cancellation or a pool timeout, or its
    first [net.Error] is a timeout; it is connection when that [net.Error] is
    not a timeout, or there is none and the chain holds an end of stream; and
    wrapping an error with [%w] never changes its reason. *)
Theorem errReason_spec e what :
  let timed := errors_Is e DeadlineExceeded || errors_Is e Canceled || errors_Is e ErrPoolTimeout in
  let eof := errors_Is e EOF || errors_Is e UnexpectedEOF in
  (errReason (Some e) = "timeout" ↔ timed = true ∨ errors_As_net e = Some true) ∧
  (errReason (Some e) = "connection" ↔
    timed = false ∧ (errors_As_net e = Some false ∨ errors_As_net e = None ∧ eof = true)) ∧
  (errReason (Some e) = "other" ↔ timed = false ∧ errors_As_net e = None ∧ eof = false) ∧
  errReason (Some (Wrap what e)) = errReason (Some e).
Proof.
  intros timed eof. unfold errReason. rewrite !errors_Is_Wrap, errors_As_net_Wrap by done.
  fold timed. fold eof.
  split_and!; [..|done];
    destruct timed; [|destruct (errors_As_net e) as [[|]|]; [..|destruct eof]| |
                      destruct (errors_As_net e) as [[|]|]; [..|destruct eof]| |
                      destruct (errors_As_net e) as [[|]|]; [..|destruct eof]]; naive_solver.
Qed.

(** The body of a goroutine, run with any answers of the environment: a panic
    of the redis client or a nil client included. *)
Definition detached (e : Effect) : Prop :=
  match e with
  | ESet _ ctx _ _ _ | EExpire _ ctx _ _ => ctx = mkCtx [] true
  | EPipe _ _ _ | EPing _ _ | EClose _ | EGo _ | EWriteMsg _ | EWrite _ => False
  | _ => True
  end.

Definition task_group (t : Task) : Group * string :=
  match t with
  | TaskSet _ _ k _ _ => (writeFlight, k)
  | TaskEvict _ k => (evictFlight, k)
  end.

(** Close a branch of a goroutine's run, where the trace is a concrete list. *)
Ltac task_case env :=
  repeat match goal with |- context [env ?e] => destruct (env e) end; simpl;
  repeat apply conj;
  [ done
  | repeat (apply Forall_cons; split; [done|]); by apply Forall_nil
  | done
  | first [done | intros _; repeat (apply elem_of_cons; first [by left|right])]
  | first [by intros [] | intros _; repeat (apply Forall_cons; split; [done|]); by apply Forall_nil] ].

(** C29: a goroutine never brings the process down: with any answers of the
    environment, a panic of the redis client or a nil client included, its body
    returns. It talks to Redis only on a context that is detached from the
    request and has no deadline of it, it enters one singleflight group for its
    key, when it was the first caller it leaves the group again, and when it was
    not it sends nothing to Redis. *)
Theorem task_body_safe env re t :
  let '(g, k) := task_group t in
  let '(tr, o) := exec env (task_body re t) in
  o = Some tt ∧ Forall detached tr ∧ head tr = Some (EFlight g k) ∧
  (env (EFlight g k) = Leader → EFlightEnd g k ∈ tr) ∧
  (env (EFlight g k) ≠ Leader → Forall (λ e, redis_effect e = false) tr).
Proof.
  destruct t as [ctx server k wire d|parent k];
    unfold task_body, set_body, evict_body, flight_Do, Add, mbind, prog_mbind; simpl.
  - destruct (env (EFlight writeFlight k)) as [|[|]]; simpl; [|by task_case env..].
    destruct (writeClient re) as [w|]; simpl; [|by task_case env].
    destruct (env (ESet w (WithoutCancel ctx) k wire d)) as [[e|]|]; simpl; by task_case env.
  - destruct (env (EFlight evictFlight k)) as [|[|]]; simpl; [|by task_case env..].
    destruct (writeClient re) as [w|]; simpl; [|by task_case env].
    destruct (env (EExpire w (WithoutCancel parent) k 0)) as [[e|]|]; simpl; by task_case env.
Qed.

(** ** Witnesses *)

Section witnesses.
#[local] Existing Instances demo_unicode demo_platform demo_dns demo_coredns demo_xxhash.

Definition redis_ex : Redis := with_clients New (Some 0%nat) (Some 0%nat) None.

(** An environment where Redis holds [payload] with 42 seconds to live under every key. *)
Definition env_ex (payload : bytes) : ∀ e, Resp e := λ e,
  match e with
  | ENow => 0
  | EMetric _ | ELog _ | EFlightEnd _ _ | EGo _ => tt
  | ESometimes => true
  | EFlight _ _ => Leader
  | ERand _ => 0%nat
  | EPipe _ _ _ => mkPipeReply (Ok payload) (Ok (42 * Second))
  | ESet _ _ _ _ _ | EExpire _ _ _ _ => CmdDone None
  | EPing _ _ | EClose _ | EWriteMsg _ => None
  | EWrite _ => (0, None)
  end.

Definition payload_ex (m : Msg) : bytes :=
  match ToBytes m with Ok b => b | Err _ => [] end.

Definition ctx_ex : Ctx := mkCtx [] false.

Lemma get_hit_verified_witness :
  ∃ tr, exec (env_ex (payload_ex ans_ex)) (get redis_ex ctx_ex req_ex "srv") =
    (tr, Some (Some (setMsgTTL (unpacked ans_ex) 42))) ∧
  CheckingDisabled (setMsgTTL (unpacked ans_ex) 42) = CheckingDisabled req_ex.
Proof.
  eexists. split; [vm_compute; reflexivity|].
  apply (@get_hit_verified _ _ _ _ _ demo_coredns_laws (env_ex (payload_ex ans_ex)) redis_ex ctx_ex
           req_ex "srv" [] 0%nat (fst (exec (env_ex (payload_ex ans_ex)) (get redis_ex ctx_ex req_ex "srv"))));
    [reflexivity|vm_compute; reflexivity].
Defined.

(** a message for another name *)
Definition other_ex : Msg :=
  mkMsg 0 true 0 false false true true false false false 0 true [mkQuestion "other.org." 1 1]
    [a_ex 300] [] [].

(** A good entry is served; one for another name is a counted miss that is evicted. *)
Lemma get_self_heals_witness :
  snd (exec (env_ex (payload_ex nx_ex)) (get redis_ex ctx_ex req_ex "srv")) =
    Some (Some (setMsgTTL (unpacked nx_ex) 42)) ∧
  (∃ ctx', EGo (TaskEvict ctx' (request_key redis_ex req_ex)) ∈
    fst (exec (env_ex (payload_ex other_ex)) (get redis_ex ctx_ex req_ex "srv"))).
Proof.
  pose proof (get_self_heals (env_ex (payload_ex nx_ex)) redis_ex ctx_ex req_ex "srv" [] 0%nat
    eq_refl) as Hgood.
  pose proof (get_self_heals (env_ex (payload_ex other_ex)) redis_ex ctx_ex req_ex "srv" [] 0%nat
    eq_refl) as Hother.
  cbv zeta in Hgood, Hother.
  destruct (exec (env_ex (payload_ex nx_ex)) (get redis_ex ctx_ex req_ex "srv")) as [tr o].
  destruct (exec (env_ex (payload_ex other_ex)) (get redis_ex ctx_ex req_ex "srv")) as [tr' o'] eqn:E.
  split.
  - apply (proj1 (proj2 Hgood)). exists (payload_ex nx_ex), false.
    split; [reflexivity|]. split; [discriminate|]. split; vm_compute; reflexivity.
  - apply (proj1 (proj2 (proj2 (proj2 Hother)))). split; [eexists; reflexivity|].
    apply (proj1 (proj2 (proj2 Hother))). transitivity (snd (tr', o')); [reflexivity|].
    rewrite <- E. vm_compute. reflexivity.
Defined.

Lemma get_single_bounded_read_witness :
  filter (λ e, redis_effect e = true)
    (fst (exec (env_ex []) (get redis_ex ctx_ex req_ex "srv"))) =
  [EPipe 0 (mkCtx [500 * Millisecond] false) (request_key redis_ex req_ex)].
Proof. apply (get_single_bounded_read (env_ex []) redis_ex ctx_ex req_ex "srv" [] 0). reflexivity. Defined.

(** a message without a question *)
Definition noq_ex : Msg :=
  mkMsg 0 true 0 false false false false false false false 0 false [] [] [] [].

Lemma get_panics_without_question_witness :
  snd (exec (env_ex (payload_ex noq_ex)) (get redis_ex ctx_ex req_ex "srv")) = None.
Proof.
  apply (@get_panics_without_question _ _ _ _ _ demo_coredns_laws (env_ex (payload_ex noq_ex))
           redis_ex ctx_ex req_ex "srv" [] 0 (payload_ex noq_ex) (setMsgTTL noq_ex 42) false);
    (reflexivity || discriminate || (vm_compute; reflexivity)).
Defined.

End witnesses.
