(* ===== verification/Setup.v ===== *)
(** * setup.go: validity of the configuration

    What [parse] guarantees of the configurations it accepts, and the values of
    its directives. *)

From coqutil Require Import Datatypes.RecordSetters.
From S2P Require Import Prelude GoString GoError GoFloat GoTime Dns Fixtures GoStrconv GoNet.
From S2P Require Import Ttl Key Config Parse Prog RedisCache.
Import DoubleBraceUpdate.

Local Open Scope Z_scope.

(** ** Values *)

Section values.
Context `{!UnicodeTables, !Platform}.

Lemma ParseUint64_range s n : ParseUint64 s = Ok n → in_uint 64 n.
Proof.
  unfold ParseUint64, in_uint. destruct s as [|c s]; [done|].
  destruct (dec_val (String c s) 0) as [v|] eqn:E; [|done].
  pose proof (dec_val_ge _ _ _ E ltac:(lia)). case_if; [|done]. intros [= <-]. bool_hyps. lia.
Qed.

Lemma rem_whole d : 0 ≤ d → Z.rem d Second = 0 → whole_seconds d.
Proof. intros Hd Hr. split; [done|]. by rewrite <- Z.rem_mod_nonneg. Qed.

Lemma parseTTL_bare s n :
  dec_val s 0 = Some n → s ≠ "" → s ≠ "0" →
  (n < 2 ^ 63 → parseTTL s =
    if Z.rem (wrap_int 64 (n * Second)) Second =? 0 then Ok (wrap_int 64 (n * Second))
    else Err (errorf "TTL must be a whole number of seconds")) ∧
  (2 ^ 63 ≤ n → parseTTL s = Err (errorf "invalid TTL")).
Proof.
  intros Hd Hne Hs0. unfold parseTTL. destruct (ParseDuration_bare s n Hs0 Hd) as [e ->].
  assert (Atoi s = if n <? 2 ^ 63 then Ok n else Err ErrRange) as ->.
  { unfold Atoi. destruct s as [|c s]; [done|]. rewrite take_sign_digit by by eapply dec_val_head.
    by rewrite Hd. }
  destruct (Z.ltb_spec n (2 ^ 63)); (split; [intros ?|intros ?]); try lia; [|done].
  unfold dur_mul. by destruct (Z.rem _ _ =? 0).
Qed.

Lemma parseTTL_seconds s d : parseTTL s = Ok d → Z.rem d Second = 0 ∧ in_int 64 d.
Proof.
  unfold parseTTL. destruct (ParseDuration s) as [d'|] eqn:Ep.
  - apply ParseDuration_range in Ep. case_if; [done|]. intros [= <-]. by bool_hyps.
  - destruct (Atoi s) as [n|]; [|done]. case_if; [done|]. intros [= <-]. bool_hyps.
    split; [done|]. by apply wrap_int_range.
Qed.

(** C34: [parseTTL] accepts only whole seconds. A string of digits is read as that
    many seconds when they fit a [Duration]; beyond that the product wraps around
    in 64 bits and the wrapped value is accepted if it is a whole number of
    seconds, up to the largest [int], beyond which it is an error. Digits with a
    unit whose product fits a [Duration] are read as that Go duration, and
    rejected when it is not a whole number of seconds. *)
Theorem parseTTL_spec s d :
  (parseTTL s = Ok d → Z.rem d Second = 0 ∧ in_int 64 d) ∧
  (∀ n, dec_val s 0 = Some n → s ≠ "" →
    (n * Second < 2 ^ 63 → parseTTL s = Ok (n * Second)) ∧
    (n < 2 ^ 63 → Z.rem (wrap_int 64 (n * Second)) Second = 0 →
      parseTTL s = Ok (wrap_int 64 (n * Second))) ∧
    (n < 2 ^ 63 → Z.rem (wrap_int 64 (n * Second)) Second ≠ 0 → ∃ e, parseTTL s = Err e) ∧
    (2 ^ 63 ≤ n → ∃ e, parseTTL s = Err e)) ∧
  (∀ ds u unit n, s = ds +:+ u → ds ≠ "" → dec_val ds 0 = Some n → unitMap u = Some unit →
    n * unit < 2 ^ 63 →
    (Z.rem (n * unit) Second = 0 → parseTTL s = Ok (n * unit)) ∧
    (Z.rem (n * unit) Second ≠ 0 → ∃ e, parseTTL s = Err e)).
Proof.
  split_and!.
  - apply parseTTL_seconds.
  - intros n Hd Hne. pose proof (dec_val_ge _ _ _ Hd ltac:(lia)) as Hn.
    destruct (String.eqb_spec s "0") as [-> |Hs0].
    { injection Hd as <-. by split_and!. }
    destruct (parseTTL_bare s n Hd Hne Hs0) as [Hlt Hge]. split_and!.
    + intros Hfit. rewrite Second_val in Hfit. rewrite Hlt by lia.
      rewrite wrap_int_small by (done || unfold in_int; rewrite Second_val; lia).
      by rewrite Z.rem_mul.
    + intros Hi Hr. by rewrite Hlt, Hr by done.
    + intros Hi Hr. rewrite Hlt, (proj2 (Z.eqb_neq _ _) Hr) by done. eauto.
    + intros Hi. rewrite Hge by done. eauto.
  - intros ds u unit n -> Hne Hd Hu Hn. unfold parseTTL.
    rewrite (ParseDuration_unit ds u unit n) by done.
    split; intros Hr; [by rewrite Hr|]. rewrite (proj2 (Z.eqb_neq _ _) Hr). eauto.
Qed.

(** C33: [normalizeAddr] gives a [host:port] that splits back into the host and
    the port, 6379 when the port is missing or empty, for a name or IPv4 address
    and for a bracketed IPv6 address with a port. *)
Theorem normalizeAddr_spec h p :
  plain p →
  let p' := if String.eqb p "" then "6379" else p in
  (plain h → normalizeAddr h = Ok (h +:+ ":6379")) ∧
  (plain h → h ≠ "" → normalizeAddr (h +:+ String colon p) = Ok (h +:+ String colon p')) ∧
  (has_byte h colon = true → has_byte h lbracket = false → has_byte h rbracket = false →
    normalizeAddr (String lbracket (h +:+ String rbracket (String colon p))) =
    Ok (String lbracket (h +:+ String rbracket (String colon p'))) ∧
    SplitHostPort (String lbracket (h +:+ String rbracket (String colon p'))) = Ok (h, p')).
Proof.
  intros Hp p'. assert (plain p') as Hp' by (unfold p'; case_if; done).
  unfold normalizeAddr. split_and!.
  - intros (Hc & Hl & Hr). rewrite SplitHostPort_no_colon, addrErr_contains by done. simpl.
    unfold JoinHostPort. by rewrite Hc.
  - intros Hh Hne. rewrite SplitHostPort_plain, (proj2 (String.eqb_neq _ _) Hne) by done.
    unfold JoinHostPort. by rewrite (proj1 Hh).
  - intros Hc Hl Hr. rewrite (SplitHostPort_bracket h p) by done.
    rewrite (proj2 (String.eqb_neq h "")) by (by intros ->).
    split; [|by apply SplitHostPort_bracket]. unfold JoinHostPort. by rewrite Hc.
Qed.

(** C40: a bracketed IPv6 address without a port is accepted and turned into an
    address with doubled brackets, which does not split into a host and a port
    any more. *)
Theorem normalizeAddr_ipv6_without_port h :
  has_byte h colon = true → has_byte h rbracket = false →
  let bad := String lbracket (String lbracket (h +:+ String rbracket (String rbracket ":6379"))) in
  normalizeAddr (String lbracket (h +:+ String rbracket "")) = Ok bad ∧
  SplitHostPort bad = Err (addrErr bad missingPort).
Proof.
  intros Hc Hr bad. split; [|by apply (SplitHostPort_double_bracket h "6379")].
  unfold normalizeAddr. rewrite SplitHostPort_bracket_no_port, addrErr_contains by done. simpl.
  unfold JoinHostPort. rewrite has_byte_cons, has_byte_app, Hc, orb_true_r. unfold bad. f_equal.
  change (String lbracket (String lbracket ((h +:+ String rbracket "") +:+ String rbracket ":6379")) =
          String lbracket (String lbracket (h +:+ String rbracket (String rbracket ":6379")))).
  by rewrite string_app_assoc.
Qed.

End values.

(** ** Valid configurations *)

(** What every accepted directive keeps. *)
Record config_ok (re : Redis) : Prop := mkConfigOk {
  ok_ttls : ttls_ok (ttls re);
  ok_timeouts :
    0 < connectTimeout (timeouts re) ∧ 0 < readTimeout (timeouts re) ∧ 0 < writeTimeout (timeouts re);
  ok_pool :
    0 ≤ poolSize (pool re) ∧ 0 ≤ minIdleConns (pool re) ∧ 0 ≤ maxIdleConns (pool re) ∧
    0 ≤ maxActiveConns (pool re) ∧ 0 ≤ connMaxIdleTime (pool re) ∧ 0 ≤ connMaxLifetime (pool re) ∧
    0 ≤ poolTimeout (pool re);
  (** -1 is go-redis's value for no retries, 0 its value for its own default *)
  ok_retries :
    (maxRetries (retries re) = -1 ∨ 0 < maxRetries (retries re)) ∧
    0 ≤ minRetryBackoff (retries re) ∧ 0 ≤ maxRetryBackoff (retries re);
  ok_keepalive : 0 ≤ tcpKeepalive re;
  ok_db : 0 ≤ db re;
  ok_seed : in_uint 64 (hashSeed (re_keyer re));
  ok_readFrom : readFrom (cluster re) ∈ [""; "latency"; "random"; "primary"];
  ok_sentinel : masterName (sentinel_conf re) ≠ "" → sentinels (sentinel_conf re) ≠ [];
  (** a TLS setting never goes unused *)
  ok_tls : tlsEnabled (tls re) = false →
    tlsCert (tls re) = "" ∧ tlsKey (tls re) = "" ∧ tlsCA (tls re) = "" ∧
    tlsVerifyChain (tls re) = true ∧ tlsVerifyHostname (tls re) = true;
  ok_clients : writeClient re = None ∧ readClient re = None ∧ readPool re = None;
}.

(** What the check of the modes excludes: with cluster seeds a sentinel master,
    [endpoint], [read_endpoint] and a database other than 0; with a sentinel master
    [endpoint] and [read_endpoint]; without both the sentinel credentials and
    [read_from]. Credentials with cluster seeds and [read_from] with a sentinel
    master are not excluded. *)
Definition mode_ok (re : Redis) : Prop :=
  if nonempty (clusterAddrs (cluster re)) then
    masterName (sentinel_conf re) = "" ∧ endpointSet (conn re) = false ∧
    readEndpoints (conn re) = [] ∧ db re = 0
  else if set (masterName (sentinel_conf re)) then
    endpointSet (conn re) = false ∧ readEndpoints (conn re) = []
  else
    sentinelUsername (sentinel_conf re) = "" ∧ sentinelPassword (sentinel_conf re) = "" ∧
    readFrom (cluster re) = "".

Definition backoff_ok (re : Redis) : Prop :=
  0 < minRetryBackoff (retries re) → 0 < maxRetryBackoff (retries re) →
  minRetryBackoff (retries re) ≤ maxRetryBackoff (retries re).

Lemma nonempty_false {A} (l : list A) : nonempty l = false ↔ l = [].
Proof. by destruct l. Qed.

Lemma set_false s : set s = false ↔ s = "".
Proof. unfold set. rewrite negb_false_iff. apply String.eqb_eq. Qed.

Section parse.
Context `{!UnicodeTables, !Platform, !Controller, !ControllerLaws}.

Lemma config_ok_New : config_ok New.
Proof.
  constructor; simpl; try (vm_compute; repeat split; congruence); [lia|set_solver].
Qed.

Lemma parseTTL_whole s d : parseTTL s = Ok d → 0 ≤ d → whole_seconds d.
Proof. intros Hp Hd. apply rem_whole; [done|]. by apply (parseTTL_seconds s d). Qed.

Lemma normalizeAddrs_length w l l' : normalizeAddrs w l = Ok l' → length l' = length l.
Proof.
  revert l'. induction l as [|a l IH]; intros l'; simpl; [by intros [= <-]|].
  destruct (normalizeAddr a); [|done]. destruct (normalizeAddrs w l); simpl; [|done].
  intros [= <-]. simpl. by rewrite (IH _ eq_refl).
Qed.

(** Close a directive: decompose it, then rebuild the record. *)
Ltac solve_directive :=
  repeat pstep; bool_hyps;
  match goal with
  | Hok : config_ok _ |- config_ok _ => destruct Hok; constructor; simpl; try done
  end.

Lemma ok_success n re : config_ok re → pspec n (d_success re) config_ok.
Proof.
  intros Hok. unfold d_success. solve_directive.
  all: destruct ok_ttls0 as (?&?&?&?&?&?); unfold ttls_ok; simpl; split_and!; try done; try lia;
    (eapply parseTTL_whole; [eassumption|lia]).
Qed.

Lemma ok_denial n re : config_ok re → pspec n (d_denial re) config_ok.
Proof.
  intros Hok. unfold d_denial. solve_directive.
  all: destruct ok_ttls0 as (?&?&?&?&?&?); unfold ttls_ok; simpl; split_and!; try done; try lia;
    (eapply parseTTL_whole; [eassumption|lia]).
Qed.

Lemma ok_timeout_line n re : config_ok re → pspec n (d_timeout_line re) config_ok.
Proof. intros Hok. unfold d_timeout_line. solve_directive. all: naive_solver lia. Qed.

Lemma ok_pool_line n re : config_ok re → pspec n (d_pool_line re) config_ok.
Proof.
  intros Hok. unfold d_pool_line. repeat pstep; bool_hyps;
    repeat case_if; destruct Hok; constructor; simpl; try done; naive_solver lia.
Qed.

Lemma ok_retries_line n re : config_ok re → pspec n (d_retries_line re) config_ok.
Proof.
  intros Hok. unfold d_retries_line. solve_directive.
  all: try case_if; bool_hyps; naive_solver lia.
Qed.

Lemma ok_sentinel_dir n re : config_ok re → pspec n (d_sentinel re) config_ok.
Proof.
  intros Hok. unfold d_sentinel. solve_directive.
  intros _ [_ ->]%app_eq_nil.
  match goal with E : normalizeAddrs _ _ = Ok _ |- _ => by apply normalizeAddrs_length in E end.
Qed.

Lemma ok_read_from n re : config_ok re → pspec n (d_read_from re) config_ok.
Proof.
  intros Hok. unfold d_read_from. solve_directive.
  match goal with E : _ || _ = true |- _ =>
    apply orb_true_iff in E as [[E|E]%orb_true_iff|E]; apply String.eqb_eq in E; subst; set_solver
  end.
Qed.

Lemma ok_key_hash_seed n re : config_ok re → pspec n (d_key_hash_seed re) config_ok.
Proof.
  intros Hok. unfold d_key_hash_seed. solve_directive. by eapply ParseUint64_range.
Qed.

#[local] Hint Resolve ok_success ok_denial ok_sentinel_dir ok_read_from ok_key_hash_seed
  ok_timeout_line ok_pool_line ok_retries_line : redis.
#[local] Hint Resolve pspec_argErr pspec_blockLoop : redis.

Lemma ok_directive n re : config_ok re → pspec n (directive n re) config_ok.
Proof.
  intros Hok. eapply pspec_bind; [apply pspec_val|]. intros v _. unfold directive_switch.
  repeat match goal with
  | |- pspec _ (if String.eqb v ?s then _ else _) _ => destruct (String.eqb v s)
  end.
  all: try solve [eauto 3 with redis].
  all: unfold d_endpoint, d_read_endpoint, d_username, d_password, d_sentinel_username,
         d_sentinel_password, d_cluster, d_tcp_keepalive, d_db, d_tls, d_tls_cert, d_tls_key,
         d_tls_ca, d_tls_verify_chain, d_tls_verify_hostname, d_resolver, d_key_prefix; solve_directive.
Qed.

Lemma pspec_next n : pspec n next (λ _, True).
Proof. intros c Hc. unfold next. pose proof (Next_forward c). by destruct (Next c). Qed.

Lemma pspec_serverBlockKeys n : pspec n serverBlockKeys (λ _, True).
Proof. intros c Hc. simpl. done. Qed.

Lemma pspec_validateMode n re : pspec n (validateMode re) (λ _, mode_ok re).
Proof.
  unfold validateMode, mode_ok.
  destruct (nonempty _) eqn:Ec; [|destruct (set (masterName _)) eqn:Em]; repeat pstep;
    (apply pspec_reject; [intros ?|pstep]);
    repeat match goal with
    | E : nonempty _ = false |- _ => apply nonempty_false in E
    | E : set _ = false |- _ => apply set_false in E
    | E : _ || _ = false |- _ => apply orb_false_iff in E as [? ?]
    | E : negb (_ =? _) = false |- _ => apply negb_false_iff, Z.eqb_eq in E
    end; done.
Qed.

(** The check passes exactly on [mode_ok]. *)
Lemma validateMode_exact re c : validateMode re c = Done (tt, c) ↔ mode_ok re.
Proof.
  unfold validateMode, mode_ok, mbind, parser_mbind, parser_bind, reject, fail, parser_ret.
  pose proof (set_false (masterName (sentinel_conf re))) as Hm.
  destruct (nonempty (clusterAddrs _)); [|destruct (set (masterName _)) eqn:Em];
    rewrite <- ?Hm, <- ?nonempty_false, <- ?set_false, <- ?Z.eqb_eq;
    destruct (set (masterName (sentinel_conf re))), (endpointSet (conn re)),
      (nonempty (readEndpoints (conn re))), (db re =? 0), (set (readFrom (cluster re))),
      (set (sentinelUsername (sentinel_conf re))), (set (sentinelPassword (sentinel_conf re)));
    naive_solver.
Qed.

Lemma pspec_validateBackoff n re : pspec n (validateBackoff re) (λ _, backoff_ok re).
Proof.
  unfold validateBackoff, backoff_ok. apply pspec_reject; [|pstep]. intros E Hmin Hmax.
  rewrite (proj2 (Z.ltb_lt _ _) Hmin), (proj2 (Z.ltb_lt _ _) Hmax) in E. simpl in E. bool_hyps. lia.
Qed.

(** The zone [z] is what the origin [o] normalizes to. *)
Definition zone_of (o z : string) : Prop := head (NormalizeExact o) = Some z.

(** Only an origin without a normal form makes the loop over the origins panic. *)
Lemma pspec_normalizeZones n origins :
  pspec_or n (∃ o, o ∈ origins ∧ NormalizeExact o = []) (normalizeZones origins)
    (Forall2 zone_of origins).
Proof.
  assert (∀ l, l ⊆ origins →
    pspec_or n (∃ o, o ∈ origins ∧ NormalizeExact o = []) (normalizeZones l) (Forall2 zone_of l))
    as Hl; [|by apply Hl].
  induction l as [|o l IH]; intros Hsub; simpl; [by apply pspec_ret|].
  destruct (NormalizeExact o) as [|z zs] eqn:E.
  { intros c _. exists o. split; [set_solver|done]. }
  eapply pspec_bind; [apply IH; set_solver|].
  intros l' Hl'. apply pspec_ret. constructor; [|done]. unfold zone_of. by rewrite E.
Qed.

(** The origins of a block, from the controller at its first token: the arguments
    of the directive, or the keys of the server block. *)
Definition zone_origins (c : Ctl) : list string :=
  let '(args, c') := RemainingArgs c in if nonempty args then args else ServerBlockKeys c'.

(** The configuration is valid, whichever directives were given in which order. *)
Definition accepted (origins : list string) (o : option Redis) : Prop :=
  match o with
  | Some re => config_ok re ∧ mode_ok re ∧ backoff_ok re ∧ Forall2 zone_of origins (Zones re)
  | None => False
  end.

(** The outcomes of [parse]: nil without a [redis_cache] token; otherwise a valid
    configuration, an error, or a panic on an origin without a normal form. *)
Definition parse_result (c : Ctl) (o : Outcome (option Redis * Ctl)) : Prop :=
  let '(found, c1) := Next c in
  match o with
  | Done (re, _) => if found then accepted (zone_origins c1) re else re = None
  | Failed _ => found = true
  | Panicked => found = true ∧ ∃ z, z ∈ zone_origins c1 ∧ NormalizeExact z = []
  | OutOfFuel => False
  end.

Lemma parse_outcome n c : (Remaining c < n)%nat → parse_result c (parse n c).
Proof.
  intros Hc. unfold parse, parse_result. pose proof (Next_forward c) as Hn.
  unfold mbind, parser_mbind. unfold parser_bind at 1, next.
  destruct (Next c) as [[] c1] eqn:En; [|done]. simpl in Hn.
  pose proof (RemainingArgs_forward c1) as Hr. unfold zone_origins.
  unfold parser_bind at 1, remainingArgs. destruct (RemainingArgs c1) as [args c2]. simpl in Hr.
  unfold parser_bind at 1, serverBlockKeys. set (origins := if nonempty args then _ else _).
  match goal with |- match ?q c2 with _ => _ end =>
    assert (pspec_or n (∃ z, z ∈ origins ∧ NormalizeExact z = []) q (accepted origins)) as Hq
  end.
  - eapply pspec_bind; [apply pspec_or_weaken, (pspec_blockLoop n _ config_ok)|].
    { intros re. apply ok_directive. }
    { apply config_ok_New. }
    intros re Hok.
    eapply pspec_bind; [apply pspec_or_weaken, pspec_validateMode|]. intros u1 Hmode.
    eapply pspec_bind; [apply pspec_or_weaken, pspec_validateBackoff|]. intros u2 Hback.
    eapply pspec_bind; [apply pspec_normalizeZones|]. intros zones Hz.
    eapply pspec_bind; [apply pspec_or_weaken, pspec_next|]. intros [] _; [pstep|].
    apply pspec_ret. split_and!; [destruct Hok; by constructor|exact Hmode|exact Hback|exact Hz].
  - specialize (Hq c2 ltac:(lia)).
    match type of Hq with match ?o with _ => _ end => destruct o as [[re c3]| | |] end; naive_solver.
Qed.

(** C28: reading a configuration terminates: with fuel beyond the number of
    tokens, none of the block loops, nested ones included, runs out of it,
    whatever the tokens are. *)
Theorem parse_terminates fuel c :
  (Remaining c < fuel)%nat → parse fuel c ≠ OutOfFuel.
Proof.
  intros Hc E. pose proof (parse_outcome fuel c Hc) as Hp. unfold parse_result in Hp.
  rewrite E in Hp. by destruct (Next c).
Qed.

(** More fuel than enough changes nothing. *)
Definition refines_fuel {A} (p q : Parser A) : Prop := ∀ c, p c ≠ OutOfFuel → q c = p c.

Lemma refines_fuel_bind {A B} (p q : Parser A) (f g : A → Parser B) :
  refines_fuel p q → (∀ a, refines_fuel (f a) (g a)) → refines_fuel (p ≫= f) (q ≫= g).
Proof.
  intros Hp Hf c. unfold mbind, parser_mbind, parser_bind. specialize (Hp c).
  destruct (p c) as [[a c']| | |]; intros Hc; [|by rewrite Hp..].
  rewrite Hp by done. by apply Hf.
Qed.

Lemma refines_fuel_refl {A} (p : Parser A) : refines_fuel p p.
Proof. by intros c. Qed.

Lemma refines_fuel_blockLoop f g body body' re :
  (f ≤ g)%nat → (∀ re, refines_fuel (body re) (body' re)) →
  refines_fuel (blockLoop f body re) (blockLoop g body' re).
Proof.
  intros Hfg Hb. revert g Hfg re. induction f as [|f IH]; intros [|g] Hfg re; try lia; try (by intros c ?). simpl.
  apply refines_fuel_bind; [apply refines_fuel_refl|]. intros []; [|apply refines_fuel_refl].
  apply refines_fuel_bind; [apply Hb|]. intros re'. apply IH. lia.
Qed.

Lemma refines_fuel_parse f g : (f ≤ g)%nat → refines_fuel (parse f) (parse g).
Proof.
  intros Hfg. unfold parse. apply refines_fuel_bind; [apply refines_fuel_refl|].
  intros []; [|apply refines_fuel_refl].
  do 2 (apply refines_fuel_bind; [apply refines_fuel_refl|intros ?]).
  apply refines_fuel_bind; [|intros ?; apply refines_fuel_refl].
  apply refines_fuel_blockLoop; [done|]. intros re. apply refines_fuel_bind; [apply refines_fuel_refl|].
  intros v. unfold directive_switch. repeat case_if; try apply refines_fuel_refl.
  all: apply refines_fuel_blockLoop; [done|]; intros; apply refines_fuel_refl.
Qed.

Lemma parse_fuel f g c :
  (Remaining c < f)%nat → (f ≤ g)%nat → parse g c = parse f c.
Proof.
  intros Hc Hfg. apply refines_fuel_parse; [done|]. intros E.
  pose proof (parse_outcome f c Hc) as Hp. unfold parse_result in Hp. rewrite E in Hp.
  by destruct (Next c).
Qed.

Lemma parse_accepts fuel c re c' :
  (Remaining c < fuel)%nat → parse fuel c = Done (Some re, c') →
  config_ok re ∧ mode_ok re ∧ backoff_ok re.
Proof.
  intros Hc E. pose proof (parse_outcome fuel c Hc) as Hp. unfold parse_result in Hp.
  rewrite E in Hp. destruct (Next c) as [[] c1]; [|done]. destruct Hp as (? & ? & ? & _). done.
Qed.


(** A second [success] line without a minimum keeps the minimum of the
    first: a smaller maximum leaves a minimum above the maximum, which the check
    of a single line rejects. *)
Theorem success_keeps_minimum re c a c' d :
  RemainingArgs c = ([a], c') → parseTTL a = Ok d → 0 < d < pMinTTL (ttls re) →
  ∃ re', d_success re c = Done (re', c') ∧
    pMaxTTL (ttls re') = d ∧ pMaxTTL (ttls re') < pMinTTL (ttls re').
Proof.
  intros Ha Hd Hlt. exists (re {{ ttls -> pMaxTTL := d }}).
  split; [|split; [done|]; change (d < pMinTTL (ttls re)); lia].
  unfold d_success, mbind, parser_mbind, parser_bind, remainingArgs. rewrite Ha, Hd. simpl.
  unfold parser_ret, reject. by rewrite (proj2 (Z.leb_gt _ _)) by lia.
Qed.

(** ** What a directive may change *)

(** The settings of each directive, as the function that forgets them. *)
Definition settings : list (string * (Redis → Redis)) :=
  let tls_setting (f : Redis → Redis) : Redis → Redis :=
    λ re, f (re {{ tls -> tlsEnabled := false }}) in
  [("success", λ re, re {{ ttls -> pMaxTTL := 0; ttls -> pMinTTL := 0 }});
   ("denial", λ re, re {{ ttls -> nMaxTTL := 0; ttls -> nMinTTL := 0 }});
   ("endpoint", λ re, re {{ conn -> addr := ""; conn -> endpointSet := false }});
   ("read_endpoint", λ re, re {{ conn -> readEndpoints := [] }});
   ("username", λ re, re {{ conn -> username := "" }});
   ("password", λ re, re {{ conn -> password := "" }});
   ("sentinel_username", λ re, re {{ sentinel_conf -> sentinelUsername := "" }});
   ("sentinel_password", λ re, re {{ sentinel_conf -> sentinelPassword := "" }});
   ("sentinel", λ re, re {{ sentinel_conf -> masterName := ""; sentinel_conf -> sentinels := [] }});
   ("cluster", λ re, re {{ cluster -> clusterAddrs := [] }});
   ("read_from", λ re, re {{ cluster -> readFrom := "" }});
   ("timeout", λ re, re {{ timeouts := mkTimeoutConf 0 0 0 }});
   ("pool", λ re, re {{ pool := mkPoolConf 0 0 0 0 0 0 0 }});
   ("retries", λ re, re {{ retries := mkRetryConf 0 0 0 }});
   ("tcp_keepalive", λ re, re {{ tcpKeepalive := 0 }});
   ("db", λ re, re {{ db := 0 }});
   ("tls", tls_setting id);
   ("tls_cert", tls_setting (λ re, re {{ tls -> tlsCert := "" }}));
   ("tls_key", tls_setting (λ re, re {{ tls -> tlsKey := "" }}));
   ("tls_ca", tls_setting (λ re, re {{ tls -> tlsCA := "" }}));
   ("tls_verify_chain", tls_setting (λ re, re {{ tls -> tlsVerifyChain := false }}));
   ("tls_verify_hostname", tls_setting (λ re, re {{ tls -> tlsVerifyHostname := false }}));
   ("resolver", λ re, re {{ resolver := "" }});
   ("key_prefix", λ re, re {{ re_keyer -> prefix := "" }});
   ("key_hash_seed", λ re, re {{ re_keyer -> hashSeed := 0 }})].

(** The configuration with the settings of directive [v] forgotten, [None] for a
    directive that does not exist. *)
Definition forget (v : string) (re : Redis) : option Redis :=
  '(_, f) ← snd <$> list_find (λ p, p.1 = v) settings; Some (f re).

Definition same_but (v : string) (re re' : Redis) : Prop :=
  is_Some (forget v re) ∧ forget v re' = forget v re.


(** A line of a block of settings keeps what the block does not own. *)
Ltac frame := split; [by eexists|repeat case_if; reflexivity].

Lemma frame_block n v body re :
  is_Some (forget v re) →
  (∀ re, is_Some (forget v re) → pspec n (body re) (same_but v re)) →
  pspec n (blockLoop n body re) (same_but v re).
Proof.
  intros Hv Hbody. apply (pspec_blockLoop n body (same_but v re)); [|by split].
  intros re1 [_ E1]. assert (is_Some (forget v re1)) as Hv1 by by rewrite E1.
  intros c Hc. specialize (Hbody re1 Hv1 c Hc). destruct (body re1 c) as [[re2 c']| | |]; try done.
  destruct Hbody as [? [_ E2]]. split; [done|]. split; [done|by rewrite E2].
Qed.

Lemma frame_switch n re v : pspec n (directive_switch n re v) (same_but v re).
Proof.
  unfold directive_switch.
  repeat match goal with
  | |- pspec _ (if String.eqb v ?s then _ else _) _ => destruct (String.eqb_spec v s) as [-> |_]
  end.
  all: try (apply frame_block; [by eexists|]; intros re' _).
  all: unfold d_success, d_denial, d_endpoint, d_read_endpoint, d_username, d_password,
    d_sentinel_username, d_sentinel_password, d_sentinel, d_cluster, d_read_from, d_timeout_line,
    d_pool_line, d_retries_line, d_tcp_keepalive, d_db, d_tls, d_tls_cert, d_tls_key, d_tls_ca,
    d_tls_verify_chain, d_tls_verify_hostname, d_resolver, d_key_prefix, d_key_hash_seed.
  all: repeat pstep; frame.
Qed.

(** C19: a directive changes its own settings and nothing else: when a line of the
    block is accepted, its directive is one of the documented ones, and the
    configurations before and after it agree on everything but that directive's
    settings. TLS verification, for one, is only ever switched by its two
    directives, and every TLS directive but those leaves both checks as they are. *)
Theorem directive_frame fuel re c re' c' :
  (Remaining c < fuel)%nat → directive fuel re c = Done (re', c') → same_but (Val c) re re'.
Proof.
  intros Hc E. pose proof (frame_switch fuel re (Val c) c Hc) as Hf.
  change (directive fuel re c) with (directive_switch fuel re (Val c) c) in E. rewrite E in Hf.
  apply Hf.
Qed.

End parse.

(** ** Witnesses *)

Section witnesses.
#[local] Existing Instances demo_unicode demo_platform demo_tls.

(** A controller over the lines of one block: the tokens of the current line,
    and the lines after it; a line with a closing brace ends a block. *)
Record DemoCtl : Type := mkDemoCtl {
  dc_started : bool;
  dc_cur : list string;
  dc_lines : list (list string);
}.

Definition demo_controller : Controller := {|
  Ctl := DemoCtl;
  Next c := if dc_started c then (false, c) else (true, mkDemoCtl true (dc_cur c) (dc_lines c));
  NextBlock c :=
    match dc_lines c with
    | [] => (false, c)
    | l :: rest =>
        if bool_decide (l = ["}"]) then (false, mkDemoCtl true [] rest)
        else (true, mkDemoCtl true l rest)
    end;
  Val c := default "" (head (dc_cur c));
  RemainingArgs c := (tail (dc_cur c), mkDemoCtl (dc_started c) (take 1 (dc_cur c)) (dc_lines c));
  ServerBlockKeys _ := ["example.org."];
  ArgErr _ := errorf "wrong argument count";
  Errf _ text := errorf text;
  Remaining c := length (dc_lines c);
  NormalizeExact s := if String.eqb s "a:b:c" then [] else [s];
|}.
#[local] Existing Instance demo_controller.

Lemma demo_controller_laws : ControllerLaws.
Proof.
  constructor; simpl.
  - intros [st cur [|l rest]] c'; simpl; [done|]. case_bool_decide; [done|].
    intros [= <-]. simpl. lia.
  - intros [st cur [|l rest]] c'; simpl; [by intros [= <-]|]. case_bool_decide; [|done].
    intros [= <-]. simpl. lia.
  - intros [[] cur l]; done.
  - intros c. done.
Qed.
#[local] Existing Instance demo_controller_laws.

Definition demo_ctl (started : bool) (cur : list string) (lines : list (list string)) : Ctl :=
  mkDemoCtl started cur lines.

Definition ctl_ex : Ctl := demo_ctl false ["redis_cache"]
  [["success"; "7200"; "30s"]; ["endpoint"; "redis"];
   ["timeout"]; ["read"; "200ms"]; ["}"]; ["retries"]; ["max"; "0"]; ["}"]; ["}"]].

Definition redis_parsed_ex : Redis :=
  match parse 20 ctl_ex with Done (Some re, _) => re | _ => New end.

Example parse_ex :
  redis_parsed_ex =
  New {{ Zones := ["example.org."]; ttls := mkTtlConf (2 * Hour) (30 * Minute) (30 * Second) 0;
         conn -> addr := "redis:6379"; conn -> endpointSet := true;
         timeouts -> readTimeout := 200 * Millisecond; retries -> maxRetries := -1 }}.
Proof. by vm_compute. Qed.

Lemma parse_terminates_witness : parse 20 ctl_ex ≠ OutOfFuel.
Proof. apply (parse_terminates 20 ctl_ex). vm_compute. lia. Defined.


Lemma directive_frame_witness :
  ∃ re', directive 5 New (demo_ctl true ["tls_ca"; "/ca.pem"] []) = Done (re', demo_ctl true ["tls_ca"] []) ∧
    same_but "tls_ca" New re' ∧ tlsVerifyChain (tls re') = true ∧ tlsCA (tls re') = "/ca.pem".
Proof.
  eexists. split; [vm_compute; reflexivity|]. split; [|split; reflexivity].
  apply (directive_frame 5 New (demo_ctl true ["tls_ca"; "/ca.pem"] []) _ (demo_ctl true ["tls_ca"] []));
    [vm_compute; lia|vm_compute; reflexivity].
Defined.

Lemma success_keeps_minimum_witness :
  ∃ re', d_success (New {{ ttls -> pMinTTL := 10 * Minute }}) (demo_ctl true ["success"; "5m"] []) =
    Done (re', demo_ctl true ["success"] []) ∧ pMaxTTL (ttls re') = 5 * Minute ∧
    pMaxTTL (ttls re') < pMinTTL (ttls re').
Proof.
  apply (success_keeps_minimum (New {{ ttls -> pMinTTL := 10 * Minute }})
           (demo_ctl true ["success"; "5m"] []) "5m");
    [reflexivity|vm_compute; reflexivity|vm_compute; split; reflexivity].
Defined.

Lemma parseTTL_spec_witness :
  parseTTL "90" = Ok (90 * Second) ∧ parseTTL "36028797018963978" = Ok (10 * Second) ∧
  parseTTL "2h" = Ok (2 * Hour) ∧ ∃ e, parseTTL "1500ms" = Err e.
Proof.
  split; [|split; [|split]].
  - exact (proj1 (proj1 (proj2 (parseTTL_spec "90" 0)) 90
      ltac:(vm_compute; reflexivity) ltac:(discriminate)) ltac:(vm_compute; reflexivity)).
  - exact (proj1 (proj2 (proj1 (proj2 (parseTTL_spec "36028797018963978" 0)) (2 ^ 55 + 10)
      ltac:(vm_compute; reflexivity) ltac:(discriminate))) ltac:(vm_compute; reflexivity)
      ltac:(vm_compute; reflexivity)).
  - apply (proj2 (proj2 (parseTTL_spec "2h" 0)) "2" "h" Hour 2);
      [reflexivity|discriminate|reflexivity|reflexivity|vm_compute; reflexivity|vm_compute; reflexivity].
  - apply (proj2 (proj2 (parseTTL_spec "1500ms" 0)) "1500" "ms" Millisecond 1500);
      [reflexivity|discriminate|reflexivity|reflexivity|vm_compute; reflexivity|vm_compute; discriminate].
Defined.

Lemma normalizeAddr_spec_witness :
  normalizeAddr "redis" = Ok "redis:6379" ∧
  normalizeAddr (String lbracket ("::1" +:+ String rbracket (String colon ""))) =
    Ok (String lbracket ("::1" +:+ String rbracket (String colon "6379"))).
Proof.
  split.
  - refine (proj1 (normalizeAddr_spec "redis" "" _) _); vm_compute; repeat split.
  - refine (proj1 (proj2 (proj2 (normalizeAddr_spec "::1" "" _)) _ _ _)); vm_compute; repeat split.
Defined.

Lemma normalizeAddr_ipv6_without_port_witness :
  normalizeAddr "[::1]" = Ok "[[::1]]:6379" ∧ is_ok (SplitHostPort "[[::1]]:6379") = false.
Proof.
  destruct (normalizeAddr_ipv6_without_port "::1") as [Hn Hs]; [vm_compute; reflexivity..|].
  split; [exact Hn|]. change "[[::1]]:6379" with
    (String lbracket (String lbracket ("::1" +:+ String rbracket (String rbracket ":6379")))).
  rewrite Hs. reflexivity.
Defined.

End witnesses.
