(* ===== verification/Writer.v ===== *)
(** * cache.go: the caching response writer

    [WriteMsg] classifies a reply, decides whether and for how long to keep it,
    packs it, clamps the TTLs the client sees, answers the client and starts the
    goroutine that writes to Redis. *)

From coqutil Require Import Datatypes.RecordSetters.
From S2P Require Import Prelude GoString GoError GoFloat GoTime Dns Fixtures Ttl.
From S2P Require Import Serialization Cacheable Key Config Prog RedisCache.
Import DoubleBraceUpdate.

Local Open Scope Z_scope.

Record ResponseWriter : Type := mkResponseWriter {
  (** [state.Req]; the embedded [dns.ResponseWriter] is the effect [EWriteMsg] *)
  rw_state : Msg;
  rw_Redis : Redis;
  rw_server : string;
  rw_ctx : Ctx;
}.

(** [maxDur] and [minDur] for a message type. *)
Definition ttl_bounds (t : TtlConf) (mt : RType) : Duration * Duration :=
  match mt with
  | NameError | NoData => (nMaxTTL t, nMinTTL t)
  | _ => (pMaxTTL t, pMinTTL t)
  end.

(** Clamp: max(minDur, min(msgTTL, maxDur)), as the code computes it. *)
Definition clamp (maxDur minDur msgTTL : Duration) : Duration :=
  let duration := maxDur in
  let duration := if msgTTL <? duration then msgTTL else duration in
  if duration <? minDur then minDur else duration.

Section writer.
Context `{!UnicodeTables, !Platform, !DnsLib, !CoreDns, !XxHash}.

(** [None] is the panic of [res.Question[0]] behind a [Match] that holds. *)
Definition responseMatchesRequest (req res : Msg) : option bool :=
  if negb (state_Match req res) then Some false
  else match Question res with
  | [] => None
  | q :: _ =>
      Some ((Qclass q =? state_QClass req) &&
            Bool.eqb (CheckingDisabled res) (CheckingDisabled req))
  end.

(** The key a reply is stored under: the request's question and CD bit with the
    reply's DO bit. *)
Definition store_key (re : Redis) (req : Msg) (do : bool) : string :=
  key (re_keyer re) (state_Name req) (state_QClass req) (state_QType req) do
    (CheckingDisabled req).

(** The snapshot of the wire bytes, nil when the reply is not to be cached. *)
Definition snapshot (w : ResponseWriter) (k : string) (duration : Duration) (res : Msg) :
    Prog (option bytes) :=
  if negb (String.eqb k "") && (0 <? duration) then
    matches ← of_option (responseMatchesRequest (rw_state w) res);
    if negb (matches : bool) then
      _ ← metric (cacheResponseMismatches (rw_server w));
      Ret None
    else match ToBytes res with
    | Err _ =>
        _ ← log LDebug;
        _ ← metric (cacheEncodeErrors (rw_server w));
        Ret None
    | Ok b => Ret (Some b)
    end
  else Ret None.

Definition WriteMsg (w : ResponseWriter) (res : Msg) : Prog (option error) :=
  t ← now;
  let '(mt, opt) := Typify res t in
  let do := match opt with Some o => opt_Do o | None => false end in
  c ← of_option (cacheable res mt);
  let k := if (c : bool) then store_key (rw_Redis w) (rw_state w) do else "" in
  let '(maxDur, minDur) := ttl_bounds (ttls (rw_Redis w)) mt in
  msgTTL ← of_option (minMsgTTL res mt);
  let duration := clamp maxDur minDur msgTTL in
  wire ← snapshot w k duration res;
  err ← w_WriteMsg (setMsgTTL res (uint32_Seconds duration));
  _ ← (match wire with
       | Some b => go (TaskSet (rw_ctx w) (rw_server w) k b duration)
       | None => Ret tt
       end);
  Ret err.

Definition Write (w : ResponseWriter) (buf : bytes) : Prog (Z * option error) :=
  _ ← log LWarning;
  w_Write buf.

End writer.

(** ** The clamp *)

Lemma clamp_eq maxDur minDur msgTTL :
  clamp maxDur minDur msgTTL = Z.max minDur (Z.min msgTTL maxDur).
Proof.
  unfold clamp. destruct (Z.ltb_spec msgTTL maxDur); simpl;
    match goal with |- context [?a <? ?b] => destruct (Z.ltb_spec a b) end; lia.
Qed.

Lemma clamp_whole maxDur minDur msgTTL :
  whole_seconds maxDur → whole_seconds minDur → whole_seconds msgTTL →
  whole_seconds (clamp maxDur minDur msgTTL).
Proof.
  unfold clamp. intros. destruct (msgTTL <? maxDur); simpl;
    match goal with |- context [?a <? ?b] => by destruct (a <? b) end.
Qed.

Section writer_lemmas.
Context `{!UnicodeTables, !Platform, !DnsLib, !CoreDns, !XxHash}.

(** The clamped duration of a reply of type [mt]. *)
Definition reply_duration (re : Redis) (res : Msg) (mt : RType) : option Duration :=
  let '(maxDur, minDur) := ttl_bounds (ttls re) mt in
  clamp maxDur minDur <$> minMsgTTL res mt.

(** The effects of the snapshot and its result. *)
Definition snapshot_table (w : ResponseWriter) (k : string) (duration : Duration) (res : Msg) :
    list Effect * option (option bytes) :=
  if negb (String.eqb k "") && (0 <? duration) then
    match responseMatchesRequest (rw_state w) res with
    | None => ([], None)
    | Some false => ([EMetric (cacheResponseMismatches (rw_server w))], Some None)
    | Some true =>
        match ToBytes res with
        | Err _ => ([ELog LDebug; EMetric (cacheEncodeErrors (rw_server w))], Some None)
        | Ok b => ([], Some (Some b))
        end
    end
  else ([], Some None).

Lemma exec_snapshot env w k duration res :
  exec env (snapshot w k duration res) = snapshot_table w k duration res.
Proof.
  unfold snapshot, snapshot_table, mbind, prog_mbind. case_if; [|done].
  destruct (responseMatchesRequest _ _) as [[|]|]; simpl; [..|done].
  - destruct (ToBytes res); [done|]. simpl. done.
  - done.
Qed.

Lemma exec_WriteMsg (env : ∀ e, Resp e) w res mt opt c duration str wire :
  Typify res (env ENow) = (mt, opt) → cacheable res mt = Some c →
  reply_duration (rw_Redis w) res mt = Some duration →
  let do := match opt with Some o => opt_Do o | None => false end in
  let k := if c then store_key (rw_Redis w) (rw_state w) do else "" in
  let sent := EWriteMsg (setMsgTTL res (uint32_Seconds duration)) in
  snapshot_table w k duration res = (str, Some wire) →
  exec env (WriteMsg w res) =
  (ENow :: str ++ sent ::
     match wire with Some b => [EGo (TaskSet (rw_ctx w) (rw_server w) k b duration)] | None => [] end,
   Some (env sent)).
Proof.
  intros Ht Hc Hd do k sent Hs. unfold WriteMsg, mbind, prog_mbind. cbn [exec prog_bind now perform].
  rewrite Ht. cbn [prog_bind]. rewrite Hc. cbn [of_option prog_bind]. fold do. fold k.
  revert Hd. unfold reply_duration. destruct (ttl_bounds _ mt) as [mx mn].
  destruct (minMsgTTL res mt) as [ttl|]; [|done]. simpl. intros [= Hd]. rewrite Hd.
  rewrite exec_bind, exec_snapshot, Hs. simpl. fold sent.
  destruct wire as [b|]; simpl; by rewrite <- ?app_assoc.
Qed.

Lemma responseMatchesRequest_true `{!CoreDnsLaws} req res :
  responseMatchesRequest req res = Some true →
  (∃ q, Question res = [q] ∧ ToLower (QName q) = state_Name req ∧ Qtype q = state_QType req ∧
    Qclass q = state_QClass req) ∧ CheckingDisabled res = CheckingDisabled req ∧
  state_Match req res = true.
Proof.
  unfold responseMatchesRequest. destruct (state_Match req res) eqn:Em; [|done]. simpl.
  pose proof Em as (q & -> & Hn & Ht)%state_Match_spec. intros [= E]. bool_hyps. eauto 10.
Qed.

Lemma responseMatchesRequest_total `{!CoreDnsLaws} req res :
  is_Some (responseMatchesRequest req res).
Proof.
  unfold responseMatchesRequest. destruct (state_Match req res) eqn:Em; [|eauto]. simpl.
  apply state_Match_spec in Em as (q & -> & _). eauto.
Qed.

Lemma cacheable_total m mt : is_Some (cacheable m mt).
Proof.
  unfold cacheable. destruct (Question m) as [|q [|]] eqn:Eq; simpl; [eauto| |eauto].
  destruct (Truncated m); [eauto|].
  assert (is_Some (isNODATA m)) as [b Hb].
  { unfold isNODATA. rewrite Eq. repeat case_match; eauto. }
  rewrite Hb. repeat case_match; eauto.
Qed.

Lemma snapshot_table_total `{!CoreDnsLaws} w k d res :
  ∃ str wire, snapshot_table w k d res = (str, Some wire) ∧
    (∀ e, e ∈ str → redis_effect e = false ∧ (∀ m, e ≠ EWriteMsg m) ∧ ∀ t, e ≠ EGo t) ∧
    (∀ b, wire = Some b ↔
      k ≠ "" ∧ 0 < d ∧ responseMatchesRequest (rw_state w) res = Some true ∧ ToBytes res = Ok b).
Proof.
  unfold snapshot_table. destruct (responseMatchesRequest_total (rw_state w) res) as [mr Hm].
  rewrite Hm. destruct (String.eqb_spec k ""), (Z.ltb_spec 0 d); simpl;
    try (eexists _, _; split; [done|]; set_unfold; naive_solver lia).
  destruct mr; [|eexists _, _; split; [done|]; set_unfold; naive_solver].
  destruct (ToBytes res); eexists _, _; (split; [done|]); set_unfold; naive_solver.
Qed.

Lemma reply_duration_total re res mt :
  msg_wf res → ttls_ok (ttls re) →
  ∃ d, reply_duration re res mt = Some d ∧ whole_seconds d.
Proof.
  intros Hwf (?&?&?&?&_). destruct (minMsgTTL_total res mt Hwf) as (s & Hs & Hs32).
  unfold reply_duration. destruct (ttl_bounds (ttls re) mt) as [mx mn] eqn:Eb. rewrite Hs. simpl.
  eexists. split; [done|]. unfold in_uint in Hs32.
  apply clamp_whole; [..|apply whole_seconds_mul; lia];
    unfold ttl_bounds in Eb; destruct mt; by simplify_eq.
Qed.

(** A key is never empty, so the code's test [k != ""] is the test for cacheable. *)
Lemma store_key_nonempty re req do : store_key re req do ≠ "".
Proof.
  intros E. apply (f_equal String.length) in E. revert E. unfold store_key, key.
  case_if; [by rewrite length_hexsum|]. rewrite !length_string_app, length_hexsum. simpl. lia.
Qed.

Lemma Typify_DO `{!CoreDnsLaws} res t mt opt :
  Typify res t = (mt, opt) → match opt with Some o => opt_Do o | None => false end = msg_DO res.
Proof. intros E. unfold msg_DO. by rewrite <- (Typify_opt res t), E. Qed.

(** The whole run of [WriteMsg]. *)
Lemma WriteMsg_run `{!CoreDnsLaws} (env : ∀ e, Resp e) w res :
  let re := rw_Redis w in let req := rw_state w in
  msg_wf res → ttls_ok (ttls re) →
  ∃ mt c d str wire,
    fst (Typify res (env ENow)) = mt ∧ cacheable res mt = Some c ∧
    reply_duration re res mt = Some d ∧ whole_seconds d ∧
    let k := store_key re req (msg_DO res) in
    let sent := EWriteMsg (setMsgTTL res (uint32_Seconds d)) in
    exec env (WriteMsg w res) =
      (ENow :: str ++ sent ::
        match wire with Some b => [EGo (TaskSet (rw_ctx w) (rw_server w) k b d)] | None => [] end,
       Some (env sent)) ∧
    (∀ e, e ∈ str → redis_effect e = false ∧ (∀ m, e ≠ EWriteMsg m) ∧ ∀ t, e ≠ EGo t) ∧
    (∀ b, wire = Some b ↔
      c = true ∧ 0 < d ∧ responseMatchesRequest req res = Some true ∧ ToBytes res = Ok b).
Proof.
  intros re req Hwf Hok. destruct (Typify res (env ENow)) as [mt opt] eqn:Et.
  destruct (cacheable_total res mt) as [c Hc].
  destruct (reply_duration_total re res mt Hwf Hok) as (d & Hd & Hwd).
  pose proof (Typify_DO _ _ _ _ Et) as Hdo.
  set (k := if c then store_key re req (msg_DO res) else "").
  destruct (snapshot_table_total w k d res) as (str & wire & Hs & Hq & Hw).
  exists mt, c, d, str, wire. cbv zeta. split_and!; [done..| |done|].
  - rewrite (exec_WriteMsg env w res mt opt c d str wire) by (by rewrite ?Hdo).
    fold re req. rewrite Hdo. fold k. f_equal. f_equal. f_equal. f_equal.
    destruct wire as [b|]; [|done]. destruct (proj1 (Hw b) eq_refl) as (Hk & _).
    unfold k in *. by destruct c.
  - intros b. rewrite Hw. unfold k. destruct c; [|naive_solver].
    pose proof (store_key_nonempty re req (msg_DO res)). naive_solver.
Qed.

(** ** Properties of the write path *)

(** C11: the client is answered exactly once and never waits for Redis: the
    run of [WriteMsg] sends no Redis command, hands the reply with its clamped
    TTL to the client's writer exactly once, returns that writer's error, and
    starts no goroutine before the client has been answered. *)
Theorem WriteMsg_answers_first `{!CoreDnsLaws} (env : ∀ e, Resp e) w res :
  msg_wf res → ttls_ok (ttls (rw_Redis w)) →
  ∃ d before after,
    reply_duration (rw_Redis w) res (fst (Typify res (env ENow))) = Some d ∧
    let sent := EWriteMsg (setMsgTTL res (uint32_Seconds d)) in
    exec env (WriteMsg w res) = (before ++ sent :: after, Some (env sent)) ∧
    Forall (λ e, redis_effect e = false ∧ ∀ m, e ≠ EWriteMsg m) (before ++ after) ∧
    Forall (λ e, ∀ t, e ≠ EGo t) before ∧ (length after ≤ 1)%nat.
Proof.
  intros Hwf Hok.
  destruct (WriteMsg_run env w res Hwf Hok) as (mt & c & d & str & wire & -> & _ & Hd & _ & He & Hq & _).
  cbv zeta in He. exists d, (ENow :: str),
    (match wire with Some b => [EGo (TaskSet (rw_ctx w) (rw_server w)
       (store_key (rw_Redis w) (rw_state w) (msg_DO res)) b d)] | None => [] end).
  cbv zeta. split_and!; [done|exact He| | |by destruct wire; simpl; lia].
  - apply Forall_forall. intros e. rewrite elem_of_app, elem_of_cons.
    intros [[-> | Hin]|Hin]; [done|naive_solver|].
    destruct wire; [apply list_elem_of_singleton in Hin as ->|by apply elem_of_nil in Hin]. done.
  - apply Forall_forall. intros e [-> | Hin]%elem_of_cons; [done|naive_solver].
Qed.

(** C10: a reply is stored exactly when it is cacheable, its clamped duration is
    positive, it matches the request on question and CD, and it can be packed;
    then one goroutine sets the payload of the reply as it arrived (before its
    TTLs were clamped) under the key of the request's question and CD bit with
    the reply's DO bit, for that duration. *)
Theorem WriteMsg_stores `{!CoreDnsLaws} (env : ∀ e, Resp e) w res t :
  let re := rw_Redis w in let req := rw_state w in
  let mt := fst (Typify res (env ENow)) in
  msg_wf res → ttls_ok (ttls re) →
  EGo t ∈ fst (exec env (WriteMsg w res)) ↔
  ∃ b d, t = TaskSet (rw_ctx w) (rw_server w) (store_key re req (msg_DO res)) b d ∧
    cacheable res mt = Some true ∧ reply_duration re res mt = Some d ∧ 0 < d ∧
    responseMatchesRequest req res = Some true ∧ ToBytes res = Ok b.
Proof.
  cbv zeta. intros Hwf Hok.
  destruct (WriteMsg_run env w res Hwf Hok) as (mt' & c & d & str & wire & Hmt & Hc & Hd & _ & He & Hq & Hw).
  subst mt'. cbv zeta in He. rewrite He. cbn [fst].
  rewrite elem_of_cons, elem_of_app, elem_of_cons. split.
  - intros [?|[Hin|[?|Hin]]]; [done| |done|].
    + destruct (Hq _ Hin) as (_ & _ & Hgo). by destruct (Hgo t).
    + destruct wire as [b|]; [|by apply elem_of_nil in Hin].
      apply list_elem_of_singleton in Hin. destruct (proj1 (Hw b) eq_refl) as (-> & ? & ? & ?).
      exists b, d. split_and!; congruence.
  - intros (b & d' & -> & Hc' & Hd' & Hpos & Hm & Hb). do 3 right.
    assert (d' = d) as -> by congruence. assert (c = true) as -> by congruence.
    rewrite (proj2 (Hw b)) by done. by apply list_elem_of_singleton.
Qed.

(** C17: the duration of a well-formed reply, with TTL bounds as the parser leaves
    them (whole seconds, positive maxima), is the message's TTL capped by the configured
    maximum of its kind and then raised to the configured minimum. It is never
    below the minimum, and not above the maximum when the two are in order; a
    minimum above the maximum, which the parser does not exclude, wins and is the
    duration of every such reply. The duration is a whole number of seconds, and
    whenever the minimum is below 2^32 seconds the TTL field the client sees is
    exactly that number: the float conversion and the [uint32] cast lose nothing. *)
Theorem reply_duration_bounds re res mt :
  let '(maxDur, minDur) := ttl_bounds (ttls re) mt in
  msg_wf res → ttls_ok (ttls re) →
  ∃ msgTTL d, minMsgTTL res mt = Some msgTTL ∧ reply_duration re res mt = Some d ∧
    d = Z.max minDur (Z.min msgTTL maxDur) ∧ whole_seconds d ∧
    minDur ≤ d ∧ (minDur ≤ maxDur → d ≤ maxDur) ∧ (maxDur < minDur → d = minDur) ∧
    (minDur < 2 ^ 32 * Second → uint32_Seconds d * Second = d ∧ in_uint 32 (uint32_Seconds d)).
Proof.
  destruct (ttl_bounds (ttls re) mt) as [mx mn] eqn:Eb. intros Hwf Hok.
  destruct (minMsgTTL_total res mt Hwf) as (s & Hs & _ & Hlt).
  destruct (reply_duration_total re res mt Hwf Hok) as (d & Hd & Hwd).
  assert (d = Z.max mn (Z.min (s * Second) mx)) as Ed.
  { revert Hd. unfold reply_duration. rewrite Eb, Hs. simpl. intros [= <-]. apply clamp_eq. }
  exists (s * Second), d. split_and!; [done|done|done|done|lia|lia|lia|]. intros Hmn.
  assert (d < 2 ^ 32 * Second) by (rewrite Second_val in *; lia).
  rewrite uint32_Seconds_whole by (done || lia). pose proof (proj1 Hwd). split.
  - by rewrite <- (whole_seconds_div d Hwd).
  - split; [by apply Z.div_pos|]. apply Z.div_lt_upper_bound; [done|lia].
Qed.

(** What a later lookup finds in the entry a reply was stored as. *)
Lemma stored_entry_good `{!DnsLaws, !CoreDnsLaws} req req' res b ttl :
  state_Name req' = state_Name req → state_QClass req' = state_QClass req →
  state_QType req' = state_QType req → CheckingDisabled req' = CheckingDisabled req →
  state_Do req' = msg_DO res →
  RoundTrips (msgWithoutOPT res) → ToBytes res = Ok b →
  responseMatchesRequest req res = Some true →
  good_entry req' (mkPipeReply (Ok b) (Ok ttl))
    (setMsgTTL (unpacked (msgWithoutOPT res)) (Get_ttl (Ok ttl))).
Proof.
  intros Hn Hc Ht Hcd Hdo Hrt Hb Hm.
  apply responseMatchesRequest_true in Hm as ((q & Hq & _ & _ & Hqc) & Hrcd & Hmatch).
  exists b, (msg_DO res). split_and!; [done|by eapply ToBytes_nonempty| |].
  - destruct (FromBytes_ToBytes_body res b (Get_ttl (Ok ttl)) Hb) as (wire & Hp & E).
    cbn [ttlCmd]. by rewrite E, (Hrt wire).
  - unfold mismatch. rewrite msgWithoutOPT_eq.
    rewrite (state_Match_ext req' req _ res), Hmatch by done. simpl.
    rewrite Hq, Hqc, Hrcd, Hc, Hdo, Hcd, Z.eqb_refl, !Bool.eqb_reflx. done.
Qed.

(** C7: a reply that was stored is served. Whatever goroutine [WriteMsg]
    started for [res], its key is the lookup key of every request for the same
    lowered name, class, type and CD bit whose DO bit is the one of the reply,
    and a lookup that finds its payload with a remaining lifetime [ttl] hits: it
    returns the reply without its OPT records and with the remaining TTL. *)
Theorem write_then_read `{!DnsLaws, !CoreDnsLaws} (env env' : ∀ e, Resp e) w res req' k b d ctx ctx' server srv rtr c ttl :
  let re := rw_Redis w in let req := rw_state w in
  msg_wf res → ttls_ok (ttls re) → RoundTrips (msgWithoutOPT res) →
  EGo (TaskSet ctx srv k b d) ∈ fst (exec env (WriteMsg w res)) →
  state_Name req' = state_Name req → state_QClass req' = state_QClass req →
  state_QType req' = state_QType req → CheckingDisabled req' = CheckingDisabled req →
  state_Do req' = msg_DO res →
  exec env' (readPipeline re) = (rtr, Some c) →
  env' (EPipe c (WithTimeout ctx' (readTimeout (timeouts re))) k) = mkPipeReply (Ok b) (Ok ttl) →
  k = request_key re req' ∧
  snd (exec env' (get re ctx' req' server)) =
    Some (Some (setMsgTTL (unpacked (msgWithoutOPT res)) (Get_ttl (Ok ttl)))).
Proof.
  cbv zeta. intros Hwf Hok Hrt Hgo Hn Hc Ht Hcd Hdo Hr Hpipe.
  destruct (WriteMsg_run env w res Hwf Hok) as (mt & cc & d' & str & wire & _ & _ & _ & _ & He & Hq & Hw).
  cbv zeta in He. rewrite He in Hgo. revert Hgo. cbn [fst].
  rewrite elem_of_cons, elem_of_app, elem_of_cons. intros [?|[Hin|[?|Hin]]]; [done| |done|].
  { destruct (Hq _ Hin) as (_ & _ & Hgo). by destruct (Hgo (TaskSet ctx srv k b d)). }
  destruct wire as [b'|]; [|by apply elem_of_nil in Hin].
  apply list_elem_of_singleton in Hin. injection Hin as -> -> -> -> ->.
  destruct (proj1 (Hw b') eq_refl) as (_ & _ & Hm & Hb).
  assert (store_key (rw_Redis w) (rw_state w) (msg_DO res) = request_key (rw_Redis w) req') as Hk
    by (unfold store_key, request_key; by rewrite Hn, Hc, Ht, Hcd, Hdo).
  split; [done|]. rewrite Hk in Hpipe.
  pose proof (stored_entry_good _ req' res b' ttl Hn Hc Ht Hcd Hdo Hrt Hb Hm)
    as (b & dd & [= <-] & Hbne & Hf & Hmis).
  pose proof (exec_get env' (rw_Redis w) ctx' req' server rtr c Hr) as Hx. cbv zeta in Hx.
  rewrite Hpipe in Hx. revert Hx. unfold get_table. cbn [getCmd ttlCmd] in *.
  destruct b' as [|b0 b']; [done|]. rewrite Hf, Hmis.
  apply mismatch_false in Hmis as ((q & -> & _) & _). by intros ->.
Qed.

(** C38: no positive reply or delegation is kept longer than one hour unless the
    configured minimum is longer: [minMsgTTL] starts from one hour, so a
    configured maximum above one hour has no effect. *)
Theorem positive_duration_capped re res mt d :
  positive_type mt → msg_wf res → reply_duration re res mt = Some d →
  d ≤ Z.max (pMinTTL (ttls re)) Hour.
Proof.
  intros Hmt Hwf. unfold reply_duration.
  replace (ttl_bounds (ttls re) mt) with (pMaxTTL (ttls re), pMinTTL (ttls re))
    by by destruct Hmt as [-> | ->].
  rewrite minMsgTTL_positive_eq by done. simpl. intros [= <-]. rewrite clamp_eq.
  pose proof (min_ttl_bounds 3600 (all_rrs res) (proj1 (msg_wf_all res) Hwf) ltac:(lia)).
  rewrite Hour_val. case_if.
  - unfold failSafeTTL. rewrite Second_val. lia.
  - rewrite Second_val. lia.
Qed.

(** C39: a server failure is stored too, when a positive minimum TTL is
    configured: [cacheable] lets [ServerError] pass, its message TTL is 0 and
    the clamp raises it to the minimum, so a matching SERVFAIL reply is kept for
    exactly that long. *)
Theorem servfail_cached `{!CoreDnsLaws} (env : ∀ e, Resp e) w res opt b :
  let re := rw_Redis w in
  Typify res (env ENow) = (ServerError, opt) → msg_wf res → ttls_ok (ttls re) →
  0 < pMinTTL (ttls re) → Truncated res = false →
  responseMatchesRequest (rw_state w) res = Some true → ToBytes res = Ok b →
  EGo (TaskSet (rw_ctx w) (rw_server w) (store_key re (rw_state w) (msg_DO res)) b
        (pMinTTL (ttls re))) ∈ fst (exec env (WriteMsg w res)).
Proof.
  cbv zeta. intros Ht Hwf Hok Hmin Htr Hm Hb.
  destruct (WriteMsg_run env w res Hwf Hok)
    as (mt & c & d & str & wire & Hmt & Hc & Hd & _ & He & _ & Hw).
  cbv zeta in He. rewrite He. cbn [fst]. rewrite Ht in Hmt. simpl in Hmt. subst mt.
  assert (c = true) as ->.
  { pose proof (responseMatchesRequest_true _ _ Hm) as ((q & Hq & _) & _).
    revert Hc. unfold cacheable. rewrite Hq, Htr. simpl. congruence. }
  assert (d = pMinTTL (ttls (rw_Redis w))) as ->.
  { revert Hd. unfold reply_duration. simpl. unfold minMsgTTL. simpl. intros [= <-].
    rewrite clamp_eq. destruct Hok as (_ & _ & _ & _ & ? & _). lia. }
  rewrite (proj2 (Hw b)) by done. set_solver.
Qed.

End writer_lemmas.

(** ** Witnesses *)

Section witnesses.
#[local] Existing Instances demo_unicode demo_platform demo_dns demo_coredns demo_xxhash.
#[local] Existing Instances demo_dns_laws demo_coredns_laws.

Definition redis_min_ex : Redis :=
  redis_ex {{ ttls := mkTtlConf (2 * Hour) Hour (30 * Second) 0 }}.
Definition w_ex (re : Redis) : ResponseWriter := mkResponseWriter req_ex re "srv" ctx_ex.

Lemma ttls_ok_ex : ttls_ok (ttls redis_ex).
Proof. vm_compute. intuition congruence. Qed.
Lemma ttls_ok_min_ex : ttls_ok (ttls redis_min_ex).
Proof. vm_compute. intuition congruence. Qed.

(** The goroutine that stores [ans_ex]. *)
Definition task_ex : Task :=
  TaskSet ctx_ex "srv" (store_key redis_ex req_ex false) (payload_ex ans_ex) (300 * Second).

Lemma WriteMsg_answers_first_witness :
  ∃ d, reply_duration redis_ex ans_ex NoError = Some d ∧
    snd (exec (env_ex []) (WriteMsg (w_ex redis_ex) ans_ex)) = Some None.
Proof.
  destruct (WriteMsg_answers_first (env_ex []) (w_ex redis_ex) ans_ex)
    as (d & before & after & Hd & He & _); [solve_wf|exact ttls_ok_ex|].
  exists d. split; [exact Hd|]. rewrite He. reflexivity.
Defined.

Lemma WriteMsg_stores_witness :
  EGo task_ex ∈ fst (exec (env_ex []) (WriteMsg (w_ex redis_ex) ans_ex)).
Proof.
  apply WriteMsg_stores; [solve_wf|exact ttls_ok_ex|].
  exists (payload_ex ans_ex), (300 * Second).
  split_and!; (reflexivity || (vm_compute; reflexivity)).
Defined.

(** A denial within its bounds, and a configuration whose minimum is above its
    maximum. *)
Lemma reply_duration_bounds_witness :
  (∃ d, reply_duration redis_min_ex nx_ex NameError = Some d ∧ uint32_Seconds d * Second = d) ∧
  reply_duration (redis_ex {{ ttls := mkTtlConf (5 * Minute) (30 * Minute) (10 * Minute) 0 }})
    ans_ex NoError = Some (10 * Minute).
Proof.
  split.
  - destruct (reply_duration_bounds redis_min_ex nx_ex NameError)
      as (t & d & _ & Hd & _ & _ & _ & _ & _ & Hu); [solve_wf|exact ttls_ok_min_ex|].
    exists d. split; [assumption|]. apply Hu. vm_compute. reflexivity.
  - destruct (reply_duration_bounds
      (redis_ex {{ ttls := mkTtlConf (5 * Minute) (30 * Minute) (10 * Minute) 0 }}) ans_ex NoError)
      as (t & d & _ & -> & _ & _ & _ & _ & Hd & _); [solve_wf|vm_compute; intuition congruence|].
    f_equal. apply Hd. vm_compute. reflexivity.
Defined.

Lemma write_then_read_witness :
  snd (exec (env_ex (payload_ex ans_ex)) (get redis_ex ctx_ex req_ex "srv")) =
  Some (Some (setMsgTTL (unpacked (msgWithoutOPT ans_ex)) 42)).
Proof.
  refine (proj2 (write_then_read (env_ex []) (env_ex (payload_ex ans_ex)) (w_ex redis_ex) ans_ex req_ex
    (store_key redis_ex req_ex false) (payload_ex ans_ex) (300 * Second) ctx_ex ctx_ex "srv" "srv"
    [] 0 (42 * Second) _ _ _ _ _ _ _ _ _ _ _)); try reflexivity;
    [solve_wf|exact ttls_ok_ex|apply demo_RoundTrips|].
  apply list_elem_of_lookup. exists 2%nat. vm_compute. reflexivity.
Defined.

Lemma positive_duration_capped_witness :
  Hour ≤ Z.max (pMinTTL (ttls redis_min_ex)) Hour ∧
  reply_duration redis_min_ex (msg_ex true 0 [a_ex 7200] [] []) NoError = Some Hour.
Proof.
  split; [|vm_compute; reflexivity].
  apply (positive_duration_capped redis_min_ex (msg_ex true 0 [a_ex 7200] [] []) NoError Hour);
    [left; reflexivity|solve_wf|vm_compute; reflexivity].
Defined.

Lemma servfail_cached_witness :
  EGo (TaskSet ctx_ex "srv" (store_key redis_min_ex req_ex (msg_DO servfail_ex))
        (payload_ex servfail_ex) (pMinTTL (ttls redis_min_ex))) ∈ fst (exec (env_ex []) (WriteMsg (w_ex redis_min_ex) servfail_ex)).
Proof.
  apply (servfail_cached (env_ex []) (w_ex redis_min_ex) servfail_ex None);
    [vm_compute; reflexivity|solve_wf|exact ttls_ok_min_ex|vm_compute; reflexivity..].
Defined.

End witnesses.

