(* ===== verification/Handler.v ===== *)
(** * handler.go: ServeDNS

    The plugin's entry point. A handler is a program over the effects of
    Prog.v; the [dns.ResponseWriter] it is given is the effects [EWriteMsg] and
    [EWrite], and a handler that is given the caching writer is that handler
    with these two effects replaced by the writer's methods. The handlers down
    the chain do not change the request message in place. *)

From S2P Require Import Prelude GoString GoError GoFloat GoTime Dns Fixtures Ttl.
From S2P Require Import Serialization Cacheable Key Config Prog RedisCache Writer.

Local Open Scope Z_scope.

(** [plugin.Handler.ServeDNS] of another plugin. *)
Definition Handler : Type := Ctx → Msg → Prog (Z * option error).

(** CoreDNS: calling the next plugin of the chain, and the server's label. *)
Class PluginLib : Type := {
  NextOrFailure : string → option Handler → Ctx → Msg → Prog (Z * option error);
  WithServer : Ctx → string;
}.

(** A next plugin is called with the same arguments; without one nothing is
    written to the client. *)
Class PluginLaws `{PluginLib} : Prop := {
  NextOrFailure_Some name h ctx r : NextOrFailure name (Some h) ctx r = h ctx r;
  NextOrFailure_None name ctx r : ∃ rc err, NextOrFailure name None ctx r = Ret (rc, Some err);
}.

Definition Redis_Name : string := "redis_cache".

Section handler.
Context `{!UnicodeTables, !Platform, !DnsLib, !CoreDns, !XxHash, !PluginLib}.

(** The message served from the cache, after the assignments of the hit path. *)
Definition hit_reply (r m : Msg) : Msg :=
  let rcode := Rcode m in
  let m := SetReply m r in
  let m := with_Rcode m rcode in
  let m := with_Authoritative m true in
  if negb (state_Do r) && negb (AuthenticatedData r) then with_AuthenticatedData m false else m.

Definition ServeDNS (re : Redis) (next : option Handler) (ctx : Ctx) (r : Msg) :
    Prog (Z * option error) :=
  let zone := Zones_Matches (Zones re) (state_Name r) in
  if String.eqb zone "" then NextOrFailure Redis_Name next ctx r
  else
    let server := WithServer ctx in
    m ← get re ctx r server;
    match m with
    | Some m =>
        let m := hit_reply r m in
        err ← w_WriteMsg m;
        Ret (Rcode m, err)
    | None =>
        let crr := mkResponseWriter r re server ctx in
        with_writer (WriteMsg crr) (Write crr) (NextOrFailure Redis_Name next ctx r)
    end.

(** ** The hit path *)

Lemma hit_reply_fields `{!DnsLaws} r m q qs :
  Question r = q :: qs →
  let m' := hit_reply r m in
  Id m' = Id r ∧ Response m' = true ∧ Question m' = [q] ∧ Rcode m' = Rcode m ∧
  Authoritative m' = true ∧ Answer m' = Answer m ∧ Ns m' = Ns m ∧ Extra m' = Extra m ∧
  AuthenticatedData m' = AuthenticatedData m && (state_Do r || AuthenticatedData r).
Proof.
  intros Hq. unfold hit_reply.
  pose proof (SetReply_Id m r). pose proof (SetReply_Response m r).
  pose proof (SetReply_Question m r q qs Hq). pose proof (SetReply_AD m r).
  pose proof (SetReply_Answer m r). pose proof (SetReply_Ns m r). pose proof (SetReply_Extra m r).
  destruct (state_Do r), (AuthenticatedData r); simpl; split_and!; try done;
    by rewrite ?andb_true_r, ?andb_false_r.
Qed.

(** C22: a hit is answered from the cache alone. The next plugin is not called,
    the client gets exactly one message, the handler returns its rcode and the
    writer's error, and the message has the request's id and question, the
    stored rcode and sections, AA set, and AD only where it was stored and the
    request asked for it with DO or AD. *)
Theorem ServeDNS_hit `{!DnsLaws} env re next ctx r m tr q qs :
  Zones_Matches (Zones re) (state_Name r) ≠ "" → Question r = q :: qs →
  exec env (get re ctx r (WithServer ctx)) = (tr, Some (Some m)) →
  ∃ m', exec env (ServeDNS re next ctx r) =
      (tr ++ [EWriteMsg m'], Some (Rcode m, env (EWriteMsg m'))) ∧
    Id m' = Id r ∧ Response m' = true ∧ Question m' = [q] ∧ Rcode m' = Rcode m ∧
    Authoritative m' = true ∧ Answer m' = Answer m ∧ Ns m' = Ns m ∧ Extra m' = Extra m ∧
    AuthenticatedData m' = AuthenticatedData m && (state_Do r || AuthenticatedData r).
Proof.
  intros Hz Hq Hg. pose proof (hit_reply_fields r m q qs Hq) as Hf. cbv zeta in Hf.
  exists (hit_reply r m). split; [|exact Hf].
  unfold ServeDNS. rewrite (proj2 (String.eqb_neq _ _) Hz).
  unfold mbind, prog_mbind. rewrite exec_bind, Hg. simpl.
  by destruct Hf as (_ & _ & _ & -> & _).
Qed.

(** ** The miss path *)

(** What the client sees of an event: the message with its TTLs erased, or the
    bytes, with the writer's answer. *)
Inductive Seen : Type :=
| SeenMsg (m : Msg) (err : option error)
| SeenBytes (b : bytes) (n : Z) (err : option error).

Definition seen (ev : Event) : list Seen :=
  match ev with
  | existT (EWriteMsg m) err => [SeenMsg (setMsgTTL m 0) err]
  | existT (EWrite b) ans => [SeenBytes b (fst ans) (snd ans)]
  | _ => []
  end.

Definition client_view (tr : list Event) : list Seen := tr ≫= seen.

Lemma client_view_app a b : client_view (a ++ b) = client_view a ++ client_view b.
Proof. apply bind_app. Qed.

Lemma client_view_cons ev tr : client_view (ev :: tr) = seen ev ++ client_view tr.
Proof. done. Qed.

Definition no_client (e : Effect) : Prop :=
  match e with EWriteMsg _ | EWrite _ => False | _ => True end.

Lemma client_view_none tr : Forall (λ ev, no_client (projT1 ev)) tr → client_view tr = [].
Proof.
  intros Ht. induction Ht as [|[e a] tr He Ht IH]; [done|].
  rewrite client_view_cons, IH. by destruct e.
Qed.

Lemma get_no_client re ctx req server : only no_client (get re ctx req server).
Proof.
  unfold get, Get, readPipeline, pipeline, pick, evictAsync, now, metric, log, sometimes, go,
    rand_IntN, pipe_get_ttl.
  only_effects done.
Qed.

Lemma snapshot_no_client w k d res : only no_client (snapshot w k d res).
Proof. unfold snapshot, metric, log. only_effects done. Qed.

Lemma snapshot_returns `{!CoreDnsLaws} w k d res tr :
  ¬ Run (snapshot w k d res) tr None.
Proof.
  unfold snapshot. destruct (responseMatchesRequest_total (rw_state w) res) as [mr ->].
  unfold mbind, prog_mbind. destruct (negb _ && _); [|by intros [_ ?]].
  destruct mr; simpl; [|by intros (? & ? & _ & _ & ?)].
  destruct (ToBytes res); simpl; [by intros [_ ?]|].
  by intros (? & ? & _ & ? & ? & _ & _ & ?).
Qed.

(** Any run of [WriteMsg] hands the client the reply, and returns what the
    client's writer returned; and it can, whatever that writer returns. *)
Lemma WriteMsg_client `{!CoreDnsLaws} w res tr o :
  msg_wf res → Run (WriteMsg w res) tr o →
  ∃ err, o = Some err ∧ client_view tr = [SeenMsg (setMsgTTL res 0) err].
Proof.
  intros Hwf. unfold WriteMsg, mbind, prog_mbind. intros (t & tr' & -> & Hr).
  simpl in Hr. destruct (Typify res t) as [mt opt]. destruct (cacheable_total res mt) as [c Hc].
  destruct (minMsgTTL_total res mt Hwf) as (s & Hs & _). rewrite Hc in Hr. simpl in Hr.
  destruct (ttl_bounds _ mt) as [mx mn]. rewrite Hs in Hr. simpl in Hr.
  apply Run_bind in Hr as [(wire & tr1 & tr2 & -> & R1 & R2)|[_ []%snapshot_returns]].
  destruct R2 as (err & tr3 & -> & R3).
  apply (only_Run _ _ _ _ (snapshot_no_client _ _ _ _)), client_view_none in R1.
  exists err. rewrite client_view_cons, client_view_app, R1, client_view_cons. simpl.
  rewrite setMsgTTL_twice. destruct wire; simpl in R3; [destruct R3 as (? & ? & -> & R3)|];
    by destruct R3 as [-> ->].
Qed.

Lemma WriteMsg_client_any `{!CoreDnsLaws} w res err :
  msg_wf res → ttls_ok (ttls (rw_Redis w)) →
  ∃ tr, Run (WriteMsg w res) tr (Some err) ∧ client_view tr = [SeenMsg (setMsgTTL res 0) err].
Proof.
  intros Hwf Hok. pose proof (Run_exec (quiet_env err) (WriteMsg w res)) as Hr.
  destruct (WriteMsg_run (quiet_env err) w res Hwf Hok)
    as (mt & c & d & str & wire & _ & _ & _ & _ & He & _). cbv zeta in He.
  rewrite He in Hr. cbn [snd] in Hr. eexists. split; [exact Hr|].
  apply WriteMsg_client in Hr as (err' & [= <-] & Hv); done.
Qed.

(** A handler that only writes well-formed messages, behind the caching writer. *)
Definition wf_writes (e : Effect) : Prop :=
  match e with EWriteMsg m => msg_wf m | _ => True end.

Lemma with_writer_client `{!CoreDnsLaws} {A} w (p : Prog A) tr o :
  all_effects wf_writes p → Run (with_writer (WriteMsg w) (Write w) p) tr o →
  ∃ tr', Run p tr' o ∧ client_view tr = client_view tr'.
Proof.
  revert tr. induction p as [a| |e k IH]; intros tr Hp; [by intros [-> ->]; exists []|done|].
  destruct Hp as [He Hk].
  assert (∀ a tr1 tr2, client_view tr1 = seen (existT e a) →
    Run (with_writer (WriteMsg w) (Write w) (k a)) tr2 o →
    ∃ tr', Run (Do e k) tr' o ∧ client_view (tr1 ++ tr2) = client_view tr') as Hstep.
  { intros a tr1 tr2 Hv Hr. destruct (IH a tr2 (Hk a) Hr) as (tr' & Hr' & E).
    exists (existT e a :: tr'). split; [simpl; eauto|].
    by rewrite client_view_app, client_view_cons, E, Hv. }
  assert ((∃ a tr', tr = existT e a :: tr' ∧
      Run (with_writer (WriteMsg w) (Write w) (k a)) tr' o) →
    ∃ tr', Run (Do e k) tr' o ∧ client_view tr = client_view tr') as Hpass.
  { intros (a & tr' & -> & Hr). apply (Hstep a [existT e a]); [apply app_nil_r|done]. }
  destruct e; try exact Hpass; cbn [with_writer].
  - intros [(a & tr1 & tr2 & -> & Ha & Hr)|[_ Ha]]%Run_bind;
      apply WriteMsg_client in Ha as (err & [= <-] & Hv); [|done..]. by apply (Hstep a tr1).
  - intros (u & tr' & -> & a & tr2 & -> & Hr).
    by apply (Hstep a [existT (ELog LWarning) u; existT (EWrite b) a]).
Qed.

Lemma with_writer_client_any `{!CoreDnsLaws} {A} w (p : Prog A) tr o :
  all_effects wf_writes p → ttls_ok (ttls (rw_Redis w)) → Run p tr o →
  ∃ tr', Run (with_writer (WriteMsg w) (Write w) p) tr' o ∧ client_view tr' = client_view tr.
Proof.
  intros Hp Hok. revert tr Hp.
  induction p as [a| |e k IH]; intros tr Hp; [by intros [-> ->]; exists []|done|].
  destruct Hp as [He Hk]. intros (a & tr1 & -> & Hr).
  destruct (IH a tr1 (Hk a) Hr) as (tr' & Hr' & E). rewrite client_view_cons.
  assert (client_view (existT e a :: tr') = seen (existT e a) ++ client_view tr1) as Hpass
    by by rewrite client_view_cons, E.
  destruct e; try (eexists; split; [|exact Hpass]; simpl; by eauto); cbn [with_writer].
  - destruct (WriteMsg_client_any w m a He Hok) as (tr0 & R0 & Hv).
    exists (tr0 ++ tr'). split; [apply Run_bind; left; eauto 10|].
    by rewrite client_view_app, Hv, E.
  - exists (existT (ELog LWarning) tt :: existT (EWrite b) a :: tr').
    split; [|by rewrite !client_view_cons, E].
    exists tt. eexists. split; [done|]. exists a. eauto.
Qed.

(** The two ends of the run after the lookup. *)
Lemma ServeDNS_Run re next ctx r tr o :
  Zones_Matches (Zones re) (state_Name r) ≠ "" → Run (ServeDNS re next ctx r) tr o →
  ∃ tr0 tr1 lookup, tr = tr0 ++ tr1 ∧ Run (get re ctx r (WithServer ctx)) tr0 lookup ∧
    client_view tr0 = [] ∧
    match lookup with
    | None => o = None ∧ tr1 = []
    | Some (Some m) => ∃ err, o = Some (Rcode (hit_reply r m), err) ∧
        tr1 = [existT (EWriteMsg (hit_reply r m)) err]
    | Some None =>
        let crr := mkResponseWriter r re (WithServer ctx) ctx in
        Run (with_writer (WriteMsg crr) (Write crr) (NextOrFailure Redis_Name next ctx r)) tr1 o
    end.
Proof.
  intros Hz. unfold ServeDNS. rewrite (proj2 (String.eqb_neq _ _) Hz).
  assert (∀ tr0 o, Run (get re ctx r (WithServer ctx)) tr0 o → client_view tr0 = []) as Hg
    by (intros tr0 o' Hr; by eapply client_view_none, only_Run; [apply get_no_client|]).
  intros [(m & tr0 & tr1 & -> & R0 & R1)|[-> R0]]%Run_bind.
  - exists tr0, tr1, (Some m). split_and!; [done..|by eapply Hg|]. destruct m as [m|]; [|done].
    destruct R1 as (err & tr' & -> & -> & ->). by exists err.
  - exists tr, [], None. rewrite app_nil_r. split_and!; [done..|by eapply Hg|done|done].
Qed.

Lemma first_reply_app tr tr' reply :
  first_reply tr = Some reply → first_reply (tr ++ tr') = Some reply.
Proof. unfold first_reply. rewrite omap_app. by destruct (omap pipe_reply tr). Qed.

(** C6: the cache fails open. Take a request in a served zone, an instance with
    clients and TTL bounds as [setup] registers them, and a next plugin that does
    not panic and writes well-formed messages. Nothing is left to serve exactly
    when GET failed, with whatever error, or returned a value that is empty,
    undecodable, or for another question; then the plugin is transparent: the
    client sees what some run of the next plugin alone would show it, in the same
    order, but for the TTLs, and the handler's result is that run's result. Every
    run reads one reply from Redis and ends in one of three ways: that one; the
    good entry of the reply as the one message the client gets; or a panic before
    anything is written, on an entry that decodes to a message without a question.
    And with every reply that leaves nothing to serve, every run of the next plugin
    is shown by some run. *)
Theorem ServeDNS_miss_transparent `{!CoreDnsLaws, !PluginLaws} re h ctx r :
  Zones_Matches (Zones re) (state_Name r) ≠ "" → clients_ok re → ttls_ok (ttls re) →
  all_effects wf_writes (h ctx r) →
  (∀ reply, unusable r reply ↔
    (∃ e, getCmd reply = Err e) ∨ getCmd reply = Ok [] ∨
    (∃ b e, getCmd reply = Ok b ∧ b ≠ [] ∧ FromBytes b (Get_ttl (ttlCmd reply)) = Err e) ∨
    (collision r reply ∧ ¬ no_question reply)) ∧
  (∀ tr o, Forall in_range tr → Run (ServeDNS re (Some h) ctx r) tr o →
    ∃ reply, first_reply tr = Some reply ∧
      (unusable r reply ∧
        (∃ tr', Run (h ctx r) tr' o ∧ client_view tr = client_view tr') ∨
       (∃ m err, good_entry r reply m ∧ o = Some (Rcode (hit_reply r m), err) ∧
         client_view tr = [SeenMsg (setMsgTTL (hit_reply r m) 0) err]) ∨
       (no_question reply ∧ o = None ∧ client_view tr = []))) ∧
  (∀ reply tr' o, unusable r reply → Run (h ctx r) tr' o →
    ∃ tr, Run (ServeDNS re (Some h) ctx r) tr o ∧ first_reply tr = Some reply ∧
      client_view tr = client_view tr').
Proof.
  intros Hz Hc Hok Hh. split; [by intros; apply unusable_spec|]. split.
  - intros tr o Ht Hr.
    destruct (ServeDNS_Run _ _ _ _ _ _ Hz Hr) as (tr0 & tr1 & lookup & -> & R0 & Hv & R1).
    apply Forall_app in Ht as [Ht _].
    destruct (get_Run _ _ _ _ _ _ Hc Ht R0) as (reply & E & HN & HG & HM).
    exists reply. split; [by apply first_reply_app|]. rewrite client_view_app, Hv.
    destruct lookup as [[m|]|].
    + destruct R1 as (err & -> & ->). right; left. exists m, err. split_and!; [by apply HG|done..].
    + left. split; [by apply HM|]. rewrite NextOrFailure_Some in R1.
      destruct (with_writer_client _ _ _ _ Hh R1) as (tr' & R2 & E2). eauto.
    + destruct R1 as [-> ->]. do 2 right. split_and!; [by apply HN|done..].
  - intros reply tr' o Hu Hr.
    destruct (get_any_reply re ctx r (WithServer ctx) reply Hc) as (tr0 & R0 & Ht & E).
    pose proof (get_table_spec (quiet_env None) re ctx r (WithServer ctx) reply) as Hs.
    destruct (get_table _ _ _ _ _ _) as [ttr lookup]. destruct Hs as (_ & _ & HM & _).
    rewrite (proj2 HM Hu) in R0. simpl in R0.
    destruct (with_writer_client_any (mkResponseWriter r re (WithServer ctx) ctx) _ _ _ Hh Hok Hr)
      as (tr1 & R1 & Ev).
    exists (tr0 ++ tr1). split_and!.
    + unfold ServeDNS. rewrite (proj2 (String.eqb_neq _ _) Hz), NextOrFailure_Some.
      apply Run_bind. left. by exists None, tr0, tr1.
    + by apply first_reply_app.
    + rewrite client_view_app, Ev. erewrite client_view_none; [done|].
      eapply only_Run; [apply get_no_client|exact R0].
Qed.

End handler.

(** ** Witnesses *)

Section witnesses.
#[local] Existing Instances demo_unicode demo_platform demo_dns demo_coredns demo_xxhash.
#[local] Existing Instances demo_dns_laws demo_coredns_laws.

Definition demo_plugin : PluginLib := {|
  NextOrFailure _ next ctx r :=
    match next with
    | Some h => h ctx r
    | None => Ret (2, Some (sentinel (OtherErr "no next plugin found")))
    end;
  WithServer _ := "srv";
|}.
#[local] Existing Instance demo_plugin.

Lemma demo_plugin_laws : PluginLaws.
Proof. constructor; [done|]. intros. eexists _, _. done. Qed.
#[local] Existing Instance demo_plugin_laws.

(** A next plugin that answers [ans_ex] with the request's id. *)
Definition next_ex : Handler := λ _ r,
  err ← w_WriteMsg (hit_reply r ans_ex); Ret (0, err).

(** A cached NXDOMAIN keeps its rcode. *)
Lemma ServeDNS_hit_witness :
  ∃ m', snd (exec (env_ex (payload_ex nx_ex)) (ServeDNS redis_ex None ctx_ex req_ex)) =
    Some (3, None) ∧ Rcode m' = 3 ∧ Authoritative m' = true.
Proof.
  destruct (ServeDNS_hit (env_ex (payload_ex nx_ex)) redis_ex None ctx_ex req_ex (setMsgTTL (unpacked nx_ex) 42)
      (fst (exec (env_ex (payload_ex nx_ex)) (get redis_ex ctx_ex req_ex "srv"))) q_ex [])
    as (m' & He & _ & _ & _ & Hr & Ha & _);
    [vm_compute; discriminate|reflexivity|vm_compute; reflexivity|].
  exists m'. rewrite He. split_and!; [reflexivity|exact Hr|exact Ha].
Defined.

(** An environment where every read of Redis runs into its deadline. *)
Definition down_reply : PipeReply :=
  mkPipeReply (Err (sentinel DeadlineExceeded)) (Err (sentinel DeadlineExceeded)).
Definition down_env : ∀ e, Resp e := λ e,
  match e with
  | EPipe _ _ _ => down_reply
  | e => quiet_env None e
  end.

(** With Redis down, the client sees what the next plugin writes. *)
Lemma ServeDNS_miss_transparent_witness :
  let run := exec down_env (ServeDNS redis_ex (Some next_ex) ctx_ex req_ex) in
  let tr := (λ e, existT e (down_env e)) <$> fst run in
  first_reply tr = Some down_reply ∧
  ∃ tr', Run (next_ex ctx_ex req_ex) tr' (snd run) ∧ client_view tr = client_view tr'.
Proof.
  intros run tr.
  destruct (ServeDNS_miss_transparent redis_ex next_ex ctx_ex req_ex) as (Hfail & Hruns & _);
    [vm_compute; discriminate|split; [vm_compute; eexists; reflexivity..]|exact ttls_ok_ex
    |split; [solve_wf|split]|].
  destruct (Hruns tr (snd run)) as (reply & E & Hends); [repeat constructor|apply Run_exec|].
  assert (first_reply tr = Some down_reply) as E' by (vm_compute; reflexivity).
  split; [exact E'|].
  assert (reply = down_reply) as -> by congruence.
  destruct (proj2 (Hfail down_reply) (or_introl (ex_intro _ (sentinel DeadlineExceeded) eq_refl)))
    as [Hn Hg].
  destruct Hends as [[_ Hsame]|[(m & err & Hm & _)|[Hno _]]]; [exact Hsame| |].
  - destruct (Hg (ex_intro _ m Hm)).
  - destruct (Hn Hno).
Defined.

End witnesses.
