(* ===== verification/Metrics.v ===== *)
(** * metrics.go: the metrics and how they are counted

    The seven metric vectors as the variable block declares them, the series a use
    of one increments, and the accounting of a lookup: one observation of the
    request histogram per lookup, and at most one of the hit, error and
    collision counters, so that misses are what the request count and the hit
    count leave. The Prometheus library is a class of operations. *)

From S2P Require Import Prelude GoString GoError GoFloat GoTime Dns Fixtures Ttl.
From S2P Require Import Serialization Cacheable Key Config Prog RedisCache Writer Handler.

Local Open Scope Z_scope.

(** ** The library *)

(** [prometheus.Opts], shared by counters and histograms. *)
Record Opts : Type := mkOpts {
  Namespace : string;
  Subsystem : string;
  OptName : string;
  Help : string;
}.

Record HistogramOpts : Type := mkHistogramOpts {
  Buckets : list float64;
  NativeHistogramBucketFactor : float64;
  NativeHistogramMaxBucketNumber : Z;
  NativeHistogramMinResetDuration : Duration;
}.

(** A vector: its options, the options of a histogram, and its label names. *)
Record Vec : Type := mkVec {
  vec_opts : Opts;
  vec_histogram : option HistogramOpts;
  vec_labels : list string;
}.

(** client_golang and the constants of package plugin. *)
Class Prometheus : Type := {
  plugin_Namespace : string;
  plugin_NativeHistogramBucketFactor : float64;
  ExponentialBuckets : float64 → float64 → nat → list float64;
  BuildFQName : string → string → string → string;
  (** the label pairs of the series, [None] for a panic *)
  WithLabelValues : Vec → list string → option (list (string * string));
}.

(** What its documentation says. *)
Class PrometheusLaws `{Prometheus} : Prop := {
  (** the lowest bucket is [start], each next one [factor] times the one before *)
  ExponentialBuckets_length start factor n : length (ExponentialBuckets start factor n) = n;
  ExponentialBuckets_head start factor n :
    (0 < n)%nat → ExponentialBuckets start factor n !! 0%nat = Some start;
  ExponentialBuckets_next start factor n i b :
    (S i < n)%nat → ExponentialBuckets start factor n !! i = Some b →
    ExponentialBuckets start factor n !! S i = Some (f64_mul b factor);
  (** the three components joined *)
  BuildFQName_inj ns sub n n' : BuildFQName ns sub n = BuildFQName ns sub n' → n = n';
  (** a panic exactly when the number of values is not that of the labels *)
  WithLabelValues_spec v vals :
    WithLabelValues v vals =
    if (length vals =? length (vec_labels v))%nat then Some (zip (vec_labels v) vals) else None;
}.

Section metrics.
Context `{!Prometheus}.

(** ** The variable block *)

Definition vec (name help : string) (labels : list string) : Vec :=
  mkVec (mkOpts plugin_Namespace "redis_cache" name help) None labels.

Definition cacheHits_vec : Vec :=
  vec "hits_total" "The count of cache hits from Redis." ["server"].

(** The constants 0.00025 and 2 as float64 values. *)
Definition cacheRequests_vec : Vec :=
  mkVec (mkOpts plugin_Namespace "redis_cache" "request_duration_seconds"
      "Histogram of the time (in seconds) each cache lookup took. The _count series is the total number of cache requests.")
    (Some (mkHistogramOpts
      (ExponentialBuckets (f64_div (f64_of_Z 1) (f64_of_Z 4000)) (f64_of_Z 2) 14)
      plugin_NativeHistogramBucketFactor 160 Hour))
    ["server"].

Definition cacheReadErrors_vec : Vec :=
  vec "get_errors_total"
    "The count of errors when reading entries from Redis, bucketed by reason (timeout, connection, other)."
    ["server"; "reason"].

Definition cacheResponseMismatches_vec : Vec :=
  vec "response_mismatches_total"
    "The count of upstream replies whose question did not match the original request and were therefore refused for caching. Non-zero suggests a misbehaving forwarder upstream or an attempted cache-poisoning probe."
    ["server"].

Definition cacheSetErrors_vec : Vec :=
  vec "set_errors_total"
    "The count of errors when adding entries to Redis, bucketed by reason (timeout, connection, other)."
    ["server"; "reason"].

Definition cacheCollisions_vec : Vec :=
  vec "collisions_total" "The count of cache hits whose stored question did not match the request."
    ["server"].

Definition cacheEncodeErrors_vec : Vec :=
  vec "encode_errors_total"
    "The count of DNS messages that could not be serialized to wire format and so were not cached."
    ["server"].

(** Everything the block registers, in order. *)
Definition registered : list Vec :=
  [cacheHits_vec; cacheRequests_vec; cacheReadErrors_vec; cacheResponseMismatches_vec;
   cacheSetErrors_vec; cacheCollisions_vec; cacheEncodeErrors_vec].

Definition fq_name (v : Vec) : string :=
  BuildFQName (Namespace (vec_opts v)) (Subsystem (vec_opts v)) (OptName (vec_opts v)).

(** ** The uses *)

(** The vector a use names and the values it passes. *)
Definition metric_use (m : Metric) : Vec * list string :=
  match m with
  | cacheHits server => (cacheHits_vec, [server])
  | cacheRequests server => (cacheRequests_vec, [server])
  | cacheReadErrors server reason => (cacheReadErrors_vec, [server; reason])
  | cacheResponseMismatches server => (cacheResponseMismatches_vec, [server])
  | cacheSetErrors server reason => (cacheSetErrors_vec, [server; reason])
  | cacheCollisions server => (cacheCollisions_vec, [server])
  | cacheEncodeErrors server => (cacheEncodeErrors_vec, [server])
  end.

(** The series a use increments or observes: its name and label pairs. *)
Definition series (m : Metric) : option (string * list (string * string)) :=
  let '(v, vals) := metric_use m in
  pairs ← WithLabelValues v vals; Some (fq_name v, pairs).

Definition metric_of (e : Effect) : list Metric :=
  match e with EMetric m => [m] | _ => [] end.

(** The metrics of a run, in order. *)
Definition metrics_of (tr : list Event) : list Metric := tr ≫= (metric_of ∘ projT1).

(** ** Registration and series *)

Context `{!PrometheusLaws}.

#[local] Instance BuildFQName_Inj ns sub : Inj (=) (=) (BuildFQName ns sub).
Proof. intros n n'. apply BuildFQName_inj. Qed.

Lemma series_eq m :
  series m =
  Some (fq_name (fst (metric_use m)), zip (vec_labels (fst (metric_use m))) (snd (metric_use m))).
Proof. unfold series. destruct m; simpl; by rewrite WithLabelValues_spec. Qed.

(** Registering the metrics cannot clash and using them cannot panic: the
    seven vectors have different full names, every use in the code passes as many
    values as its vector has labels, and two uses reach the same series only when
    they are the same use. *)
Theorem metrics_sound :
  NoDup (fq_name <$> registered) ∧
  (∀ m, ∃ s, series m = Some s ∧ fst s ∈ fq_name <$> registered) ∧
  (∀ m m', series m = series m' → m = m').
Proof.
  split_and!.
  - change (fq_name <$> registered) with
      (BuildFQName plugin_Namespace "redis_cache" <$> (OptName ∘ vec_opts <$> registered)).
    apply NoDup_fmap_2; [apply _|]. apply (bool_decide_eq_true_1 (NoDup _)). done.
  - intros m. rewrite series_eq. eexists. split; [done|]. apply (list_elem_of_fmap_2 fq_name).
    destruct m; simpl; unfold registered; set_solver.
  - intros m m'. rewrite !series_eq. unfold fq_name.
    destruct m, m'; simpl; intros [= E]; try apply BuildFQName_inj in E; congruence.
Qed.

Lemma bucket_nth i :
  (i < 14)%nat →
  ExponentialBuckets (f64_div (f64_of_Z 1) (f64_of_Z 4000)) (f64_of_Z 2) 14 !! i =
  Some (Nat.iter i (λ b, f64_mul b (f64_of_Z 2)) (f64_div (f64_of_Z 1) (f64_of_Z 4000))).
Proof.
  induction i as [|i IH]; intros Hi; [by apply ExponentialBuckets_head|].
  rewrite (ExponentialBuckets_next _ _ _ _ _ ltac:(done) (IH ltac:(lia))). done.
Qed.

(** The finite buckets of the lookup histogram reach past two seconds, and
    so past the default read timeout: the last upper bound is the float64 2.048,
    and a lookup that ends with the default read timeout falls in a finite bucket. *)
Theorem lookup_buckets_cover_timeout :
  ∃ h b, vec_histogram cacheRequests_vec = Some h ∧ last (Buckets h) = Some b ∧
    f64_mul b (f64_of_Z 125) = f64_of_Z 256 ∧
    SFleb (f64_of_Z 2) b = true ∧ SFleb (Seconds defaultReadTimeout) b = true.
Proof.
  eexists _, _. split; [done|]. split.
  - rewrite last_lookup. cbn [Buckets]. rewrite ExponentialBuckets_length. apply (bucket_nth 13). lia.
  - split_and!; vm_compute; reflexivity.
Qed.

End metrics.

(** ** Accounting *)

(** A run seen through the metrics it counts. *)
Definition counts {A} (p : Prog A) (ms : list Metric) (Q : list Metric → option A → Prop) : Prop :=
  wp (λ _ _, True) (λ w e _ w', w' = w ++ metric_of e) p ms (λ w a, Q w (Some a)) (λ w, Q w None).

Lemma counts_Run {A} (p : Prog A) Q ms tr o :
  counts p ms Q → Run p tr o → Q (ms ++ metrics_of tr) o.
Proof.
  unfold counts. revert ms tr. induction p as [a| |e k IH]; intros ms tr; simpl.
  - intros HQ [-> ->]. by rewrite app_nil_r.
  - intros HE [-> ->]. by rewrite app_nil_r.
  - intros [_ Hk] (a & tr' & -> & Hr).
    specialize (IH a _ tr' (Hk a _ eq_refl) Hr). by rewrite <- app_assoc in IH.
Qed.

Lemma counts_nothing {A} (p : Prog A) ms :
  only (λ e, metric_of e = []) p → counts p ms (λ ms' _, ms' = ms).
Proof.
  intros Hp. unfold counts. induction p as [a| |e k IH]; simpl in *; [done..|]. destruct Hp as [He Hk].
  split; [done|]. intros a ms' ->. rewrite He, app_nil_r. by apply IH.
Qed.

Section accounting.
Context `{!UnicodeTables, !Platform, !DnsLib, !CoreDns, !XxHash}.

Lemma Get_no_metric re ctx k : only (λ e, metric_of e = []) (Get re ctx k).
Proof.
  unfold Get, readPipeline, pipeline, pick, evictAsync, log, go, rand_IntN, pipe_get_ttl.
  only_effects done.
Qed.

(** What a lookup counts besides the request, by its outcome. *)
Definition lookup_counts (server : string) (o : option (option Msg)) (ms : list Metric) : Prop :=
  match o with
  | Some (Some _) => ms = [cacheHits server]
  | Some None =>
      ms = [] ∨ ms = [cacheCollisions server] ∨
      ∃ reason, ms = [cacheReadErrors server reason] ∧ reason ∈ ["timeout"; "connection"; "other"]
  | None => ms = []
  end.

Lemma errReason_range e : errReason (Some e) ∈ ["timeout"; "connection"; "other"].
Proof. unfold errReason. repeat case_match; set_solver. Qed.

(** C26: every lookup is counted once. Whatever Redis answers, the lookup is
    observed in the request histogram exactly once, last, also when it panics;
    before that it counts one hit when it serves a message, and otherwise at most
    one collision or one read error with one of the three documented reasons. So
    requests minus hits is the number of lookups that served nothing. *)
Theorem lookup_accounting re ctx req server tr o :
  Run (get re ctx req server) tr o →
  ∃ ms, metrics_of tr = ms ++ [cacheRequests server] ∧ lookup_counts server o ms.
Proof.
  apply (counts_Run _ (λ l o, ∃ ms, l = ms ++ [cacheRequests server] ∧ lookup_counts server o ms) []).
  unfold counts, get, mbind, prog_mbind. simpl. split; [done|]. intros ? ms ->.
  apply wp_defer.
  apply (wp_mono _ _ _ _ (λ l a, lookup_counts server (Some a) l) _ (λ l, lookup_counts server None l)).
  2, 3: intros l; simpl; intros; split; [done|]; intros ? l' ->; split; [done|]; intros ? l'' ->;
    rewrite app_nil_r; eauto.
  apply wp_bind. eapply wp_mono; [apply (counts_nothing _ [] (Get_no_metric _ _ _))| |by intros l ->].
  intros l [[om d] err] ->. destruct err as [err|].
  - destruct om; simpl; (split; [done|]); intros ? l ->; (split; [done|]); intros emit l' ->;
      (destruct emit; [split; [done|]; intros ? l'' ->|]); right; right; eexists;
      (split; [done|apply errReason_range]).
  - destruct om as [m|]; [|by left]. simpl. destruct (mismatch req m d) as [mis|]; [|done]. simpl.
    destruct (head (Question m)); [|done]. simpl. destruct mis; simpl.
    + split; [done|]. intros ? l ->. split; [done|]. intros ? l' ->. split; [done|]. intros ? l'' ->.
      right; left. done.
    + split; [done|]. intros ? l ->. split; [done|]. by intros ? l' ->.
Qed.

End accounting.

(** ** Witnesses *)

Section witnesses.
#[local] Existing Instances demo_unicode demo_platform demo_dns demo_coredns demo_xxhash.

Fixpoint demo_buckets (start factor : float64) (n : nat) : list float64 :=
  match n with
  | O => []
  | S n => start :: demo_buckets (f64_mul start factor) factor n
  end.

Definition demo_prometheus : Prometheus := {|
  plugin_Namespace := "coredns";
  plugin_NativeHistogramBucketFactor := f64_div (f64_of_Z 105) (f64_of_Z 100);
  ExponentialBuckets := demo_buckets;
  BuildFQName ns sub n := (ns +:+ "_" +:+ sub +:+ "_" +:+ n)%stdpp;
  WithLabelValues v vals :=
    if (length vals =? length (vec_labels v))%nat then Some (zip (vec_labels v) vals) else None;
|}.
#[local] Existing Instance demo_prometheus.

Lemma demo_prometheus_laws : PrometheusLaws.
Proof.
  constructor; simpl.
  - intros start factor n. revert start. induction n as [|n IH]; intros start; simpl; [done|by rewrite IH].
  - intros start factor [|n] Hn; [lia|done].
  - intros start factor n i b. revert start n. induction i as [|i IH]; intros start [|n] Hi; simpl; [lia| |lia|].
    + intros [= ->]. destruct n; [lia|done].
    + apply IH. lia.
  - intros ns sub n n' E. by repeat apply (inj _) in E.
  - done.
Qed.
#[local] Existing Instance demo_prometheus_laws.

Lemma metrics_sound_witness :
  series (cacheReadErrors "dns://:53" "timeout") =
    Some ("coredns_redis_cache_get_errors_total", [("server", "dns://:53"); ("reason", "timeout")]) ∧
  NoDup (fq_name <$> registered).
Proof. split; [vm_compute; reflexivity|apply metrics_sound]. Defined.

Lemma lookup_buckets_cover_timeout_witness :
  ∃ h b, vec_histogram cacheRequests_vec = Some h ∧ last (Buckets h) = Some b ∧
    SFleb (Seconds defaultReadTimeout) b = true.
Proof.
  destruct lookup_buckets_cover_timeout as (h & b & Hh & Hb & _ & _ & Hle).
  exists h, b. split; [exact Hh|]. split; [exact Hb|exact Hle].
Defined.

(** A miss counts the request alone. *)
Lemma lookup_accounting_witness :
  ∃ tr ms, metrics_of tr = ms ++ [cacheRequests "s"] ∧ ms = [] ∧
    lookup_counts "s" (Some None) ms.
Proof.
  pose proof (Run_exec (quiet_env None) (get redis_ex ctx_ex req_ex "s")) as Hr.
  destruct (lookup_accounting redis_ex ctx_ex req_ex "s" _ _ Hr) as (ms & Hms & Hc).
  eexists _, ms. split; [exact Hms|]. split; [|exact Hc].
  apply (f_equal length) in Hms. rewrite length_app in Hms. vm_compute in Hms.
  destruct ms; [reflexivity|]. simpl in Hms. rewrite Nat.add_comm in Hms. discriminate.
Defined.

End witnesses.
