(* ===== verification/Startup.v ===== *)
(** * setup.go: startup, registration, shutdown, plugin order

    [setup] with the line it logs, the two closures it hands to CoreDNS, the
    clients' lifecycle, and the directive list edit of [init]. *)

From coqutil Require Import Datatypes.RecordSetters.
From S2P Require Import Prelude GoString GoError GoFloat GoTime Dns Fixtures GoStrconv GoNet.
From S2P Require Import Ttl Serialization Cacheable Key Config Parse Prog RedisCache Setup Writer Handler.
Import DoubleBraceUpdate.

Local Open Scope Z_scope.

(** ** The library *)

(** CoreDNS: [plugin.Error], and the registry of setup functions by plugin name,
    which [plugin.Register] adds to and [caddy.DirectiveAction] looks up. *)
Class SetupLib : Type := {
  plugin_Error : string → error → error;
  Registry : Type → Type;
  plugin_Register {F : Type} : Registry F → string → F → Registry F;
  DirectiveAction {F : Type} : Registry F → string → option F;
}.

(** A name that is not taken yet gets the function registered under it, and no
    other name is affected. *)
Class SetupLaws `{SetupLib} : Prop := {
  DirectiveAction_Register {F} (r : Registry F) n f :
    DirectiveAction r n = None → DirectiveAction (plugin_Register r n f) n = Some f;
  DirectiveAction_other {F} (r : Registry F) n n' f :
    n ≠ n' → DirectiveAction r n = None →
    DirectiveAction (plugin_Register r n f) n' = DirectiveAction r n';
}.

(** ** init: the plugin's place in the chain *)

(** The scan for an entry that is there already. *)
Fixpoint has_directive (ds : list string) : bool :=
  match ds with
  | [] => false
  | d :: rest => if String.eqb d "redis_cache" then true else has_directive rest
  end.

(** The index of the first [cache]. *)
Fixpoint cache_index (i : nat) (ds : list string) : option nat :=
  match ds with
  | [] => None
  | d :: rest => if String.eqb d "cache" then Some i else cache_index (S i) rest
  end.

(** [dnsserver.Directives] after [init]. *)
Definition init_Directives (ds : list string) : list string :=
  if has_directive ds then ds
  else match cache_index 0 ds with
  | Some i => take (i + 1) ds ++ ["redis_cache"] ++ drop (i + 1) ds
  | None => ds
  end.

Lemma has_directive_spec ds : has_directive ds = true ↔ "redis_cache" ∈ ds.
Proof.
  induction ds as [|d ds IH]; simpl; [set_solver|].
  destruct (String.eqb_spec d "redis_cache") as [-> |]; set_solver.
Qed.

Lemma cache_index_Some i ds j :
  cache_index i ds = Some j →
  ∃ l1 l2, ds = l1 ++ ("cache" :: l2) ∧ ("cache" ∉ l1) ∧ j = (i + length l1)%nat.
Proof.
  revert i. induction ds as [|d ds IH]; intros i; simpl; [done|].
  destruct (String.eqb_spec d "cache") as [-> |Hd].
  - intros [= <-]. exists [], ds. split_and!; [done|set_solver|simpl; lia].
  - intros (l1 & l2 & -> & Hn & ->)%IH. exists (d :: l1), l2.
    split_and!; [done|set_solver|simpl; lia].
Qed.

Lemma cache_index_None i ds : cache_index i ds = None → "cache" ∉ ds.
Proof.
  revert i. induction ds as [|d ds IH]; intros i; simpl; [set_solver|].
  destruct (String.eqb_spec d "cache"); [done|]. intros ?%IH. set_solver.
Qed.

Lemma init_Directives_place ds :
  ("redis_cache" ∈ ds ∨ ("cache" ∉ ds) → init_Directives ds = ds) ∧
  ("redis_cache" ∉ ds → "cache" ∈ ds →
    ∃ l1 l2, ds = l1 ++ ("cache" :: l2) ∧ ("cache" ∉ l1) ∧
      init_Directives ds = l1 ++ ("cache" :: "redis_cache" :: l2)) ∧
  init_Directives (init_Directives ds) = init_Directives ds.
Proof.
  assert (∀ l, "redis_cache" ∈ l → init_Directives l = l) as Hin.
  { intros l Hl%has_directive_spec. unfold init_Directives. by rewrite Hl. }
  assert ("redis_cache" ∉ ds → "cache" ∈ ds →
    ∃ l1 l2, ds = l1 ++ ("cache" :: l2) ∧ ("cache" ∉ l1) ∧
      init_Directives ds = l1 ++ ("cache" :: "redis_cache" :: l2)) as Hput.
  { intros Hr Hc. unfold init_Directives.
    destruct (has_directive ds) eqn:E; [by apply has_directive_spec in E|].
    destruct (cache_index 0 ds) as [j|] eqn:Ej; [|by apply cache_index_None in Ej].
    apply cache_index_Some in Ej as (l1 & l2 & -> & Hn & ->). exists l1, l2. split_and!; [done..|].
    replace (l1 ++ ("cache" :: l2)) with ((l1 ++ ["cache"]) ++ l2) by by rewrite <- app_assoc.
    assert (0 + length l1 + 1 = length (l1 ++ ["cache"]))%nat as -> by (rewrite length_app; simpl; lia).
    rewrite take_app_length, drop_app_length. by rewrite <- app_assoc. }
  assert ("cache" ∉ ds → init_Directives ds = ds) as Hno.
  { intros Hc. unfold init_Directives. destruct (has_directive ds); [done|].
    destruct (cache_index 0 ds) as [j|] eqn:Ej; [|done].
    apply cache_index_Some in Ej as (l1 & l2 & -> & _). set_solver. }
  split_and!; [naive_solver|done|].
  destruct (decide ("redis_cache" ∈ ds)) as [Hr|Hr]; [by rewrite !Hin by (by rewrite ?Hin)|].
  destruct (decide ("cache" ∈ ds)) as [Hc|Hc]; [|by rewrite !Hno by (by rewrite ?Hno)].
  destruct (Hput Hr Hc) as (l1 & l2 & _ & _ & E). rewrite E. apply Hin. set_solver.
Qed.

(** ** setup *)

Section setup.
Context `{!UnicodeTables, !Platform, !Controller, !ControllerLaws, !TlsLib, !SetupLib}.

(** The plugin as CoreDNS holds it: the [Redis] struct with its [Next] field. All
    servers of a server block share the pointer. *)
Record Plugin : Type := mkPlugin {
  pl_Redis : Redis;
  pl_Next : option Handler;
}.

(** The closure given to [AddPlugin]: [re.Next = next; return re]. *)
Definition add_plugin (p : Plugin) (next : Handler) : Plugin := mkPlugin (pl_Redis p) (Some next).

(** The closure given to [OnShutdown]. *)
Definition on_shutdown (p : Plugin) : Prog (option error) := close (pl_Redis p).

(** [mode], the text between the parentheses of the startup line. *)
Definition startup_mode (re : Redis) : string :=
  let standalone := ("standalone @ " +:+ addr (conn re))%stdpp in
  if nonempty (clusterAddrs (cluster re)) then
    let rf := readFrom (cluster re) in
    let rf := if String.eqb rf "" then "latency" else rf in
    ("cluster (read_from=" +:+ rf +:+ ") seeds: " +:+ Join (clusterAddrs (cluster re)) ", ")%stdpp
  else if negb (String.eqb (masterName (sentinel_conf re)) "") then
    ("sentinel (master=" +:+ masterName (sentinel_conf re) +:+ ") via " +:+
      Join (sentinels (sentinel_conf re)) ", ")%stdpp
  else if nonempty (readEndpoints (conn re)) then
    ("primary @ " +:+ addr (conn re) +:+ ", replicas: " +:+ Join (readEndpoints (conn re)) ", ")%stdpp
  else standalone.

(** What [setup] logs after the first ping. *)
Definition startup_log (re : Redis) (err : option error) : Level :=
  match err with
  | Some _ => LWarning
  | None => LInfo ("Connected to Redis (" +:+ startup_mode re +:+ ")")%stdpp
  end.

(** The error [setup] returns, and the plugin it registers with its clients. A nil
    [*Redis] makes [re.buildClients] panic. *)
Definition setup (fuel : nat) (c : Ctl) : Prog (option error * option (Plugin * list Client)) :=
  match parse fuel c with
  | OutOfFuel | Panicked => Panic
  | Failed e => Ret (Some (plugin_Error "redis_cache" e), None)
  | Done (None, _) => Panic
  | Done (Some re, _) =>
      match buildClients re with
      | Err e => Ret (Some (plugin_Error "redis_cache" e), None)
      | Ok (re, clients) =>
          err ← verifyConnectivity re;
          _ ← log (startup_log re err);
          Ret (None, Some (mkPlugin re None, clients))
      end
  end.

Lemma exec_pool_ping env ctx l : snd (exec env (pool_ping ctx l)) = Some tt.
Proof.
  induction l as [|c l IH]; [done|]. simpl. unfold mbind, prog_mbind.
  destruct (env (EPing c ctx)); simpl; destruct (exec env (pool_ping ctx l)); done.
Qed.

(** Pinging never panics on clients [buildClients] made, and reports the answer
    of the write client, which is the first. *)
Lemma verifyConnectivity_returns env re re' cs :
  writeClient re = None ∧ readClient re = None ∧ readPool re = None →
  buildClients re = Ok (re', cs) →
  snd (exec env (verifyConnectivity re')) = Some (env (EPing 0 Background)).
Proof.
  intros (Hw & Hr & Hp). unfold buildClients. destruct (buildTLSConfig re) as [t|]; [|done].
  destruct re; simpl in *. subst.
  destruct (negb _); [|destruct (negb _); [|destruct (readEndpoints conn) as [|e1 [|e2 es]] eqn:Ee]].
  all: intros [= <- <-]; unfold verifyConnectivity, distinct_reader, mbind, prog_mbind; simpl;
    rewrite ?Ee; simpl.
  all: destruct (env (EPing 0 Background)); simpl; eauto.
  - destruct (env (EPing 1 Background)); simpl; eauto.
  - pose proof (exec_pool_ping env Background (seq 1 (S (S (length es))))) as Hpp. simpl in Hpp.
    rewrite exec_bind. simpl. destruct (exec env _) as [tr [[]|]]; simpl in *; [eauto|done].
Qed.

(** C20: how startup ends, for every Corefile and whatever Redis answers to the
    first pings. A block [parse] accepts registers the plugin, for exactly the
    normal forms of its zones, with clients for writes and reads, and only logs a
    line: the topology when the write client answered, a warning when not. TLS
    files that cannot be used, and every error of [parse], are returned as errors
    without registering anything or talking to Redis. The one other end is a
    panic, which no error reports: a zone argument or server block key without a
    normal form makes the index into its empty list of normal forms panic. A nil
    [*Redis] panics too, but needs a controller without a [redis_cache] token. *)
Theorem setup_starts env fuel c :
  (Remaining c < fuel)%nat →
  let run := exec env (setup fuel c) in
  match parse fuel c with
  | OutOfFuel => False
  | Failed e => run = ([], Some (Some (plugin_Error "redis_cache" e), None))
  | Panicked => run = ([], None) ∧ ∃ z, z ∈ zone_origins (snd (Next c)) ∧ NormalizeExact z = []
  | Done (None, _) => run = ([], None) ∧ fst (Next c) = false
  | Done (Some re, _) =>
      match buildTLSConfig re with
      | Err e => run = ([], Some (Some (plugin_Error "redis_cache" (Wrap "tls" e)), None))
      | Ok _ => ∃ re' cs pings, buildClients re = Ok (re', cs) ∧
          run = (pings ++ [ELog (startup_log re' (env (EPing 0 Background)))],
                 Some (None, Some (mkPlugin re' None, cs))) ∧
          clients_ok re' ∧ ttls_ok (ttls re') ∧ ttls re' = ttls re ∧
          Forall2 zone_of (zone_origins (snd (Next c))) (Zones re')
      end
  end.
Proof.
  intros Hf run. pose proof (parse_outcome fuel c Hf) as Hp. unfold parse_result in Hp.
  unfold run, setup. destruct (Next c) as [found c1]. simpl fst; simpl snd.
  destruct (parse fuel c) as [[[re|] c']| | |]; [|by destruct found|done|naive_solver|done].
  destruct found; [|done]. destruct Hp as (Hok & _ & _ & Hz).
  destruct (buildTLSConfig re) as [t|e] eqn:Et; [|unfold buildClients; by rewrite Et].
  destruct (buildClients re) as [[re' cs]|e] eqn:Eb.
  2: { revert Eb. unfold buildClients. rewrite Et. repeat case_match; done. }
  destruct (buildClients_inv re re' cs (ok_clients _ Hok) Eb) as (Hcl & _ & Ere).
  pose proof (verifyConnectivity_returns env re re' cs (ok_clients _ Hok) Eb) as Hv.
  exists re', cs, (fst (exec env (verifyConnectivity re'))).
  split_and!; [done| |done|rewrite Ere; apply (ok_ttls _ Hok)|by rewrite Ere..].
  unfold mbind, prog_mbind. rewrite exec_bind.
  destruct (exec env (verifyConnectivity re')) as [tr o]. simpl in Hv. subst o.
  by rewrite (exec_bind_unit _ _ _ _ (exec_log _ _)).
Qed.

(** What a start that registered the plugin says of the configuration. *)
Lemma setup_inv env fuel c p cs :
  (Remaining c < fuel)%nat → snd (exec env (setup fuel c)) = Some (None, Some (p, cs)) →
  ∃ re, config_ok re ∧ buildClients re = Ok (pl_Redis p, cs) ∧ pl_Next p = None ∧
    clients_ok (pl_Redis p) ∧ ttls_ok (ttls (pl_Redis p)).
Proof.
  intros Hf. unfold setup. destruct (parse fuel c) as [[[re|] c']| | |] eqn:E; try done.
  destruct (parse_accepts fuel c re c' Hf E) as (Hok & _ & _).
  destruct (buildClients re) as [[re' cs']|e] eqn:Eb; [|done].
  destruct (buildClients_inv re re' cs' (ok_clients _ Hok) Eb) as (Hcl & _ & Ere).
  unfold mbind, prog_mbind. rewrite exec_bind.
  destruct (exec env (verifyConnectivity re')) as [tr [err|]]; [|done].
  rewrite (exec_bind_unit _ _ _ _ (exec_log _ _)). simpl. intros [= <- <-].
  exists re. split_and!; [done..|]. rewrite Ere. apply (ok_ttls _ Hok).
Qed.

Definition client_addr (c : Client) : string :=
  match c with NewClient o => Addr o | _ => "" end.

(** The topology of a list of clients, in words. *)
Definition announced (cs : list Client) : string :=
  (match cs with
  | [NewClusterClient o] =>
      "cluster (read_from=" +:+
      (if Co_RouteRandomly o then "random" else if Co_RouteByLatency o then "latency" else "primary") +:+
      ") seeds: " +:+ Join (Co_Addrs o) ", "
  | [NewFailoverClusterClient o] =>
      "sentinel (master=" +:+ Fo_MasterName o +:+ ") via " +:+ Join (Fo_SentinelAddrs o) ", "
  | [NewClient o] => "standalone @ " +:+ Addr o
  | NewClient o :: replicas =>
      "primary @ " +:+ Addr o +:+ ", replicas: " +:+
      Join (client_addr <$> replicas) ", "
  | _ => ""
  end)%stdpp.

(** C27: the startup line tells the truth: the topology it names, with the
    addresses, the master name and the cluster read routing, is that of the
    clients [buildClients] created. *)
Theorem startup_mode_truthful re re' cs :
  config_ok re → buildClients re = Ok (re', cs) → startup_mode re' = announced cs.
Proof.
  intros Hok Hb. destruct (buildClients_inv re re' cs (ok_clients _ Hok) Hb) as (_ & _ & ->).
  revert Hb. unfold buildClients. destruct (buildTLSConfig re) as [t|]; [|done].
  change (startup_mode (with_clients re _ _ _)) with (startup_mode re).
  unfold startup_mode, nonempty. pose proof (ok_readFrom _ Hok) as Hrf.
  destruct (length (clusterAddrs (cluster re)) =? 0)%nat; simpl.
  2: { intros [= _ <-]. unfold applyClusterReadRouting.
       repeat (apply elem_of_cons in Hrf as [-> |Hrf]; [done|]). by apply elem_of_nil in Hrf. }
  destruct (String.eqb (masterName (sentinel_conf re)) ""); simpl; [|by intros [= _ <-]].
  destruct (readEndpoints (conn re)) as [|e1 [|e2 es]]; intros [= _ <-]; [done..|].
  assert (∀ l : list string, client_addr <$>
    ((λ ep, NewClient (clientOptions re ep (dialer re) t)) <$> l) = l) as Haddr.
  { intros l. rewrite <- list_fmap_compose. apply list_fmap_id. }
  cbn [length Nat.eqb negb]. unfold announced. do 3 f_equal.
  symmetry. exact (f_equal (λ l, Join l ", ") (Haddr (e1 :: e2 :: es))).
Qed.

(** What the pick of a pool may return. *)
Lemma Run_pick l tr c : Run (pick l) tr (Some c) → c ∈ l.
Proof.
  unfold pick, mbind, prog_mbind. case_if; [by intros []|]. intros (i & tr' & _ & Hr). simpl in *.
  revert Hr. destruct (l !! i) eqn:E; intros [_ Hr]; [|done]. injection Hr as ->.
  by eapply list_elem_of_lookup_2.
Qed.

Lemma Run_pick_any l c : c ∈ l → ∃ tr, Run (pick l) tr (Some c).
Proof.
  intros [i Hi]%list_elem_of_lookup. unfold pick. case_if.
  { apply Nat.eqb_eq, length_zero_iff_nil in Hif. by subst. }
  exists [existT (ERand (length l)) i]. exists i, []. split; [done|]. simpl. by rewrite Hi.
Qed.

(** The clients of explicit-replica mode: the primary, then one per replica. *)
Lemma buildClients_replicas re re' cs :
  writeClient re = None ∧ readClient re = None ∧ readPool re = None →
  clusterAddrs (cluster re) = [] → masterName (sentinel_conf re) = "" →
  readEndpoints (conn re) ≠ [] → buildClients re = Ok (re', cs) →
  ∃ mk, (∀ a, Addr (mk a) = a) ∧ cs = NewClient <$> (mk <$> addr (conn re) :: readEndpoints (conn re)) ∧
    writeClient re' = Some 0%nat ∧
    (∀ c, (∃ tr, Run (readPipeline re') tr (Some c)) ↔
      (1 ≤ c < S (length (readEndpoints (conn re))))%nat).
Proof.
  intros (Hw & Hr & Hp) Hcl Hm He. unfold buildClients. rewrite Hcl, Hm. simpl.
  destruct (buildTLSConfig re) as [t|]; [|done].
  destruct (readEndpoints (conn re)) as [|e1 [|e2 es]]; [done|..]; intros [= <- <-].
  all: exists (λ a, clientOptions re a (dialer re) t); split_and!; [done| |done|].
  - done.
  - intros c. unfold readPipeline.
    change (readPool (with_clients re (Some 0%nat) (Some 1%nat) (readPool re))) with (readPool re).
    rewrite Hp. simpl. split.
    + intros (tr & _ & [= ->]). lia.
    + intros Hc. exists []. split; [done|]. f_equal. lia.
  - simpl. do 3 f_equal. by rewrite <- list_fmap_compose.
  - intros c. unfold readPipeline, pipeline. simpl readPool. cbv iota.
    change (1 ≤ c < _)%nat with (1 ≤ c < 1 + length (e1 :: e2 :: es))%nat.
    rewrite <- elem_of_seq. split; [by intros [tr Hr']; eapply Run_pick|apply Run_pick_any].
Qed.

(** C32: with explicit replicas, reads and writes are split: writes go to a
    client that dials the primary, every client a read may pick dials one of the
    configured replicas, and every replica may be picked. *)
Theorem reads_go_to_replicas re re' cs :
  writeClient re = None ∧ readClient re = None ∧ readPool re = None →
  clusterAddrs (cluster re) = [] → masterName (sentinel_conf re) = "" →
  readEndpoints (conn re) ≠ [] → buildClients re = Ok (re', cs) →
  (∃ w o, writeClient re' = Some w ∧ cs !! w = Some (NewClient o) ∧ Addr o = addr (conn re)) ∧
  (∀ c tr, Run (readPipeline re') tr (Some c) →
    ∃ o, cs !! c = Some (NewClient o) ∧ Addr o ∈ readEndpoints (conn re)) ∧
  (∀ ep, ep ∈ readEndpoints (conn re) →
    ∃ c tr o, Run (readPipeline re') tr (Some c) ∧ cs !! c = Some (NewClient o) ∧ Addr o = ep).
Proof.
  intros Hn Hcl Hm He Hb.
  destruct (buildClients_replicas re re' cs Hn Hcl Hm He Hb) as (mk & Hmk & -> & Hw & Hread).
  split_and!.
  - exists 0%nat, (mk (addr (conn re))). by rewrite Hmk.
  - intros c tr Hr. destruct (proj1 (Hread c) ltac:(eauto)) as [Hc1 Hc2].
    destruct c as [|c]; [lia|].
    destruct (lookup_lt_is_Some_2 (readEndpoints (conn re)) c) as [ep Hep]; [lia|].
    exists (mk ep). rewrite Hmk. simpl. rewrite !list_lookup_fmap, Hep. split; [done|].
    by eapply list_elem_of_lookup_2.
  - intros ep [i Hi]%list_elem_of_lookup. pose proof (lookup_lt_Some _ _ _ Hi).
    destruct (proj2 (Hread (S i))) as [tr Hr]; [lia|]. exists (S i), tr, (mk ep). rewrite Hmk.
    simpl. by rewrite !list_lookup_fmap, Hi.
Qed.

(** The errors of a list of closes. *)
Lemma exec_pool_close_errs env l :
  exec env (pool_close_errs l) = (EClose <$> l, Some (omap (λ c, env (EClose c)) l)).
Proof.
  induction l as [|c l IH]; [done|]. simpl. unfold mbind, prog_mbind in *.
  rewrite exec_bind, IH. simpl. rewrite app_nil_r. by destruct (env (EClose c)).
Qed.

Lemma exec_close_client env c :
  exec env (close_client c) =
  (EClose <$> option_list c, Some (omap (λ c, env (EClose c)) (option_list c))).
Proof. destruct c as [c|]; [|done]. simpl. by destruct (env (EClose c)). Qed.

Lemma close_error_None errs : close_error errs = None ↔ errs = [].
Proof. by destruct errs. Qed.

Lemma omap_nil {A B} (f : A → option B) l : omap f l = [] ↔ Forall (λ x, f x = None) l.
Proof.
  induction l as [|x l IH]; [by rewrite Forall_nil|]. rewrite Forall_cons. simpl.
  change (list_omap _ _ f l) with (omap f l). destruct (f x); naive_solver.
Qed.

Lemma exec_close env re :
  fst (exec env (close re)) = EClose <$> client_refs re ∧
  ∃ err, snd (exec env (close re)) = Some err ∧
    (err = None ↔ Forall (λ c, env (EClose c) = None) (client_refs re)).
Proof.
  assert (exec env (match readPool re with
      | Some p => prog_bind (λ err, Ret (option_list err)) (pool_close p)
      | None => Ret []
      end) = (EClose <$> default [] (readPool re),
        Some (option_list (close_error (omap (λ c, env (EClose c)) (default [] (readPool re))))))) as Hp.
  { destruct (readPool re) as [p|]; [|done]. unfold pool_close, mbind, prog_mbind. simpl.
    rewrite !exec_bind, exec_pool_close_errs. simpl. by rewrite !app_nil_r. }
  assert (client_refs re = option_list (writeClient re) ++ option_list (distinct_reader re) ++
    default [] (readPool re)) as ->.
  { unfold client_refs, distinct_reader. destruct (readClient re) as [r|]; [|done]. by case_bool_decide. }
  unfold close, mbind, prog_mbind.
  rewrite exec_bind, exec_close_client. rewrite exec_bind, exec_close_client, exec_bind, Hp. simpl.
  rewrite app_nil_r, !fmap_app. split; [done|]. eexists. split; [done|].
  rewrite close_error_None, !Forall_app, <- !omap_nil.
  destruct (omap _ (default [] _)) eqn:E; simpl; split.
  - intros [-> [-> _]%app_nil]%app_nil. done.
  - by intros (-> & -> & _).
  - intros [_ [_ ?]%app_nil]%app_nil. done.
  - by intros (_ & _ & ?).
Qed.

(** C31: what startup opened, shutdown closes. When [setup] registered the plugin,
    and however often the chain was built with it since, [OnShutdown] closes
    every client that was created, exactly once and in order of creation, also
    when an earlier close fails, and reports an error exactly when some close
    failed. *)
Theorem shutdown_closes_all env env' fuel c p cs nexts :
  (Remaining c < fuel)%nat → snd (exec env (setup fuel c)) = Some (None, Some (p, cs)) →
  let p' := foldl add_plugin p nexts in
  fst (exec env' (on_shutdown p')) = EClose <$> seq 0 (length cs) ∧
  ∃ err, snd (exec env' (on_shutdown p')) = Some err ∧
    (err = None ↔ ∀ c, (c < length cs)%nat → env' (EClose c) = None).
Proof.
  intros Hf Hs p'. destruct (setup_inv _ _ _ _ _ Hf Hs) as (re & Hok & Hb & _).
  assert (pl_Redis p' = pl_Redis p) as Hp.
  { unfold p'. clear. revert p. induction nexts as [|n nexts IH]; intros p; [done|]. simpl. by rewrite IH. }
  unfold on_shutdown. rewrite Hp. clear p' Hp.
  destruct (buildClients_inv re _ cs (ok_clients _ Hok) Hb) as (_ & Hrefs & _).
  destruct (exec_close env' (pl_Redis p)) as (Htr & err & He & Hiff). rewrite Hrefs in *.
  split; [done|]. exists err. split; [done|]. rewrite Hiff, Forall_forall.
  setoid_rewrite elem_of_seq. split; intros Hc i Hlt; apply Hc; lia.
Qed.

(** ** init *)

(** [setup] as CoreDNS calls it: on the controller alone. The fuel is one more than
    the tokens that are left, which [parse] never exhausts. *)
Definition setup_action (c : Ctl) : Prog (option error * option (Plugin * list Client)) :=
  setup (S (Remaining c)) c.

(** The type of a setup function. *)
Definition SetupFunc : Type := Ctl → Prog (option error * option (Plugin * list Client)).

(** The whole of [init]: the registry and [dnsserver.Directives] after it. *)
Definition plugin_init (r : Registry SetupFunc) (ds : list string) : Registry SetupFunc * list string :=
  (plugin_Register r "redis_cache" setup_action, init_Directives ds).

(** C36: [init] registers [setup] under the plugin's name: on every Corefile the
    function CoreDNS finds under [redis_cache] runs as [setup] does with any fuel
    that is enough, and every other directive keeps its function. It puts the
    plugin right behind the first [cache], so that the in-process cache is asked
    first; it leaves a list that has the plugin already, or has no [cache], as it
    is; and running it again does not change the list. *)
Theorem init_Directives_spec `{!SetupLaws} r ds :
  DirectiveAction r "redis_cache" = None →
  (∃ f, DirectiveAction (fst (plugin_init r ds)) "redis_cache" = Some f ∧
    ∀ fuel c, (Remaining c < fuel)%nat → f c = setup fuel c) ∧
  (∀ name, name ≠ "redis_cache" →
    DirectiveAction (fst (plugin_init r ds)) name = DirectiveAction r name) ∧
  let place := λ ds, snd (plugin_init r ds) in
  ("redis_cache" ∈ ds ∨ ("cache" ∉ ds) → place ds = ds) ∧
  ("redis_cache" ∉ ds → "cache" ∈ ds →
    ∃ l1 l2, ds = l1 ++ ("cache" :: l2) ∧ ("cache" ∉ l1) ∧
      place ds = l1 ++ ("cache" :: "redis_cache" :: l2)) ∧
  place (place ds) = place ds.
Proof.
  intros Hr. split; [|split; [|apply init_Directives_place]].
  - exists setup_action. split; [by apply DirectiveAction_Register|]. intros fuel c Hc.
    pose proof (parse_fuel (S (Remaining c)) fuel c ltac:(lia) Hc) as E. revert E.
    unfold setup_action, setup. generalize (parse fuel c). by intros o ->.
  - intros name Hne. by apply DirectiveAction_other.
Qed.

End setup.

(** ** Witnesses *)

Section witnesses.
#[local] Existing Instances demo_unicode demo_platform demo_tls demo_controller demo_controller_laws.

(** A registry as a list of names with their functions. *)
Definition demo_setup : SetupLib := {|
  plugin_Error := Wrap;
  Registry F := list (string * F);
  plugin_Register F r n f := r ++ [(n, f)];
  DirectiveAction F r n := snd ∘ snd <$> list_find (λ p, p.1 = n) r;
|}.
#[local] Existing Instance demo_setup.

Lemma demo_setup_laws : SetupLaws.
Proof.
  constructor; simpl.
  - intros F r n f Hr. destruct (list_find _ r) as [|] eqn:E; [done|].
    rewrite list_find_app_r by done. simpl. by rewrite decide_True.
  - intros F r n n' f Hne Hr. destruct (list_find (λ p, p.1 = n') r) as [[i x]|] eqn:E.
    + by rewrite (list_find_app_l _ _ _ _ _ E).
    + rewrite list_find_app_r by done. simpl. by rewrite decide_False.
Qed.
#[local] Existing Instance demo_setup_laws.

Lemma init_Directives_spec_witness :
  let r : Registry SetupFunc := [("cache", λ c, Ret (None, None))] in
  snd (plugin_init r ["log"; "cache"; "forward"]) = ["log"; "cache"; "redis_cache"; "forward"] ∧
  (∃ f, DirectiveAction (fst (plugin_init r ["log"; "cache"; "forward"])) "redis_cache" = Some f ∧
    f ctl_ex = setup 20 ctl_ex).
Proof.
  intros r. split; [reflexivity|].
  destruct (init_Directives_spec r ["log"; "cache"; "forward"] eq_refl) as [(f & Hf & Hs) _].
  exists f. split; [exact Hf|]. apply Hs. vm_compute. lia.
Defined.

(** A block that starts, and one whose zone argument has no normal form. *)
Lemma setup_starts_witness :
  (∃ re' cs, exec (quiet_env None) (setup 20 ctl_ex) =
    ([EPing 0 Background; ELog (LInfo "Connected to Redis (standalone @ redis:6379)")],
     Some (None, Some (mkPlugin re' None, cs))) ∧ clients_ok re') ∧
  exec (quiet_env None) (setup 20 (demo_ctl false ["redis_cache"; "a:b:c"] [["}"]])) = ([], None).
Proof.
  split.
  - pose proof (setup_starts (quiet_env None) 20 ctl_ex ltac:(vm_compute; lia)) as Hs. cbv zeta in Hs.
    assert (parse 20 ctl_ex = Done (Some redis_parsed_ex, demo_ctl true [] [])) as E
      by (vm_compute; reflexivity).
    rewrite E in Hs. destruct Hs as (re' & cs & pings & _ & Er & Hc & _). exists re', cs.
    split; [|exact Hc].
    assert (snd (exec (quiet_env None) (setup 20 ctl_ex)) = Some (None, Some (mkPlugin re' None, cs))) as <-
      by (rewrite Er; reflexivity).
    vm_compute. reflexivity.
  - pose proof (setup_starts (quiet_env None) 20 (demo_ctl false ["redis_cache"; "a:b:c"] [["}"]])
      ltac:(vm_compute; lia)) as Hs. cbv zeta in Hs.
    assert (parse 20 (demo_ctl false ["redis_cache"; "a:b:c"] [["}"]]) = Panicked) as E
      by (vm_compute; reflexivity).
    rewrite E in Hs. exact (proj1 Hs).
Defined.

Lemma startup_mode_truthful_witness :
  ∃ re' cs, buildClients (New {{ cluster -> clusterAddrs := ["a:6379"; "b:6379"] }}) = Ok (re', cs) ∧
    startup_mode re' = announced cs ∧
    announced cs = "cluster (read_from=latency) seeds: a:6379, b:6379".
Proof.
  eexists _, _. split; [reflexivity|]. split; [|reflexivity].
  eapply (startup_mode_truthful (New {{ cluster -> clusterAddrs := ["a:6379"; "b:6379"] }}));
    [|reflexivity].
  destruct config_ok_New. split; assumption.
Defined.

Definition ctl_replicas_ex : Ctl := demo_ctl false ["redis_cache"]
  [["endpoint"; "p"]; ["read_endpoint"; "r1"; "r2"]; ["}"]].

Lemma shutdown_closes_all_witness :
  ∃ p cs, snd (exec (quiet_env None) (setup 20 ctl_replicas_ex)) = Some (None, Some (p, cs)) ∧
    fst (exec (quiet_env None) (on_shutdown p)) = [EClose 0; EClose 1; EClose 2].
Proof.
  destruct (snd (exec (quiet_env None) (setup 20 ctl_replicas_ex))) as [[[e|] [[p cs]|]]|] eqn:E;
    try (vm_compute in E; discriminate E).
  exists p, cs. split; [reflexivity|].
  destruct (shutdown_closes_all (quiet_env None) (quiet_env None) 20 ctl_replicas_ex p cs []
    ltac:(vm_compute; lia) E) as [Hc _].
  cbn [foldl] in Hc. rewrite Hc. vm_compute in E. injection E as _ <-. reflexivity.
Defined.

Lemma reads_go_to_replicas_witness :
  ∃ re' cs, buildClients (New {{ conn -> readEndpoints := ["r1:6379"; "r2:6379"] }}) = Ok (re', cs) ∧
    ∃ c tr o, Run (readPipeline re') tr (Some c) ∧ cs !! c = Some (NewClient o) ∧ Addr o = "r2:6379".
Proof.
  eexists _, _. split; [reflexivity|].
  refine (proj2 (proj2 (reads_go_to_replicas (New {{ conn -> readEndpoints := ["r1:6379"; "r2:6379"] }})
    _ _ (conj eq_refl (conj eq_refl eq_refl)) eq_refl eq_refl _ eq_refl)) "r2:6379" _);
    [discriminate|right; left].
Defined.

End witnesses.
