(* ===== verification/CacheSpec.v ===== *)
(** * The specification: a cache whose entries expire

    What the fleet of instances and their Redis promise to clients, without keys,
    payloads, goroutines or commands: a log of the messages clients got, and the
    replies that were put into the cache, each for its clamped lifetime. The
    cache may forget an entry at any time; it serves an entry only to a request
    with the same question, DO and CD bit, and only while the entry lives. *)

From stdpp Require Import relations.
From coqutil Require Import Datatypes.RecordSetters.
From S2P Require Import Prelude GoString GoError GoFloat GoTime Dns Fixtures Ttl.
From S2P Require Import Serialization Cacheable Key Config Prog RedisCache Writer Handler.
Import DoubleBraceUpdate.

Local Open Scope Z_scope.

(** A message a client got: the request with the time it arrived, and the time
    it was answered. *)
Record Answered : Type := mkAnswered {
  an_req : Msg;
  an_start : Z;
  an_msg : Msg;
  an_time : Z;
}.

(** A reply in the cache: its slot, the request and the reply, and for how long
    it was stored and when. *)
Record Stored : Type := mkStored {
  st_key : string;
  st_req : Msg;
  st_res : Msg;
  st_dur : Duration;
  st_time : Z;
}.

Record Cache : Type := mkCache {
  time : Z;
  answered : list Answered;
  store : list Stored;
}.

Definition empty_cache : Cache := mkCache 0 [] [].

Definition expiry (s : Stored) : Z := st_time s + st_dur s.

Section spec.
Context `{!UnicodeTables, !Platform, !DnsLib, !CoreDns, !XxHash}.
(** The configurations of the instances, what the next plugins may answer a
    request with, and by how much Redis may expire an entry late. *)
Context (confs : nat → Redis) (Produced : Msg → Msg → Prop) (late : Duration).

(** The requests agree on everything a cached reply depends on but DO. *)
Definition same_question (r r' : Msg) : Prop :=
  state_Name r = state_Name r' ∧ state_QClass r = state_QClass r' ∧
  state_QType r = state_QType r' ∧ CheckingDisabled r = CheckingDisabled r'.

(** A reply of the next plugin to this very request, its TTLs replaced when it
    went through the caching writer. *)
Definition fresh (r m : Msg) : Prop :=
  ∃ res, Produced r res ∧ (m = res ∨ ∃ d, m = setMsgTTL res (uint32_Seconds d)).

(** A reply may be stored in slot [k] for [d]: the next plugin produced it, it
    matches the request, it is cacheable, [d] is its clamped lifetime under some
    instance's configuration, and a client has got it, with that lifetime. *)
Record storable (c : Cache) (k : string) (r res : Msg) (d : Duration) : Prop := {
  so_answered : ∃ start t, mkAnswered r start (setMsgTTL res (uint32_Seconds d)) t ∈ answered c ∧
    t ≤ time c;
  so_produced : Produced r res;
  so_matches : responseMatchesRequest r res = Some true;
  so_conf : ∃ i t, let mt := fst (Typify res t) in
    cacheable res mt = Some true ∧ reply_duration (confs i) res mt = Some d ∧
    k = store_key (confs i) r (msg_DO res);
  so_positive : 0 < d;
}.

(** The entry is in the cache and lives at time [t]. *)
Definition lives (c : Cache) (s : Stored) (t : Z) : Prop :=
  s ∈ store c ∧ st_time s ≤ t < expiry s + late.

(** A TTL that does not outlast an entry of the slot by a second or more; 0 when
    the remaining lifetime could not be read. *)
Definition ttl_ok (c : Cache) (k : string) (t ttl : Z) : Prop :=
  in_uint 32 ttl ∧
  (ttl = 0 ∨ ∃ s, s ∈ store c ∧ st_key s = k ∧ st_time s ≤ t ∧
     ttl * Second < expiry s + late + Second - t).

(** [m] is a stored reply, read at a moment of this request at which it lived,
    without its OPT record, with its TTLs replaced and the header set for this
    request. *)
Definition cached (c : Cache) (r : Msg) (start : Z) (m : Msg) : Prop :=
  ∃ s t ttl, lives c s t ∧ start ≤ t ≤ time c ∧ ttl_ok c (st_key s) t ttl ∧
    storable c (st_key s) (st_req s) (st_res s) (st_dur s) ∧
    same_question r (st_req s) ∧ msg_DO (st_res s) = state_Do r ∧
    m = hit_reply r (setMsgTTL (unpacked (msgWithoutOPT (st_res s))) ttl).

Inductive spec_step : Cache → Cache → Prop :=
| spec_tick c n : 0 ≤ n → spec_step c (c {{ time := time c + n }})
| spec_fresh c r start m :
    start ≤ time c → fresh r m →
    spec_step c (c {{ answered := answered c ++ [mkAnswered r start m (time c)] }})
| spec_store c k r res d :
    storable c k r res d →
    spec_step c (c {{ store := store c ++ [mkStored k r res d (time c)] }})
| spec_cached c r start m :
    cached c r start m →
    spec_step c (c {{ answered := answered c ++ [mkAnswered r start m (time c)] }}).

(** ** Growth *)

(** A cache only grows. *)
Record grows (c c' : Cache) : Prop := mkGrows {
  gr_answered : answered c ⊆ answered c';
  gr_store : store c ⊆ store c';
  gr_time : time c ≤ time c';
}.

#[export] Instance grows_preorder : PreOrder grows.
Proof.
  split; [by intros c; split|].
  intros a b c [? ? ?] [? ? ?]. split; [by etrans|by etrans|lia].
Qed.

Lemma spec_step_grows c c' : spec_step c c' → grows c c'.
Proof.
  intros []; split; simpl; try lia; try done; intros x Hx; apply elem_of_app; by left.
Qed.

#[export] Instance storable_mono : Proper (grows ==> eq ==> eq ==> eq ==> eq ==> impl) storable.
Proof.
  intros c c' Hg k _ <- r _ <- res _ <- d _ <- [(start & t & Hin & Ht) ????].
  split; [|done..]. exists start, t. split; [by apply (gr_answered _ _ Hg)|].
  pose proof (gr_time _ _ Hg). lia.
Qed.

#[export] Instance lives_mono : Proper (grows ==> eq ==> eq ==> impl) lives.
Proof. intros c c' Hg s _ <- t _ <- [Hin Ht]. split; [by apply (gr_store _ _ Hg)|done]. Qed.

#[export] Instance ttl_ok_mono : Proper (grows ==> eq ==> eq ==> eq ==> impl) ttl_ok.
Proof.
  intros c c' Hg k _ <- t _ <- ttl _ <- [Hu [?|(s & Hin & ?)]]; (split; [done|]); [by left|].
  right. exists s. split; [by apply (gr_store _ _ Hg)|done].
Qed.

#[export] Instance cached_mono : Proper (grows ==> eq ==> eq ==> eq ==> impl) cached.
Proof.
  intros c c' Hg r _ <- start _ <- m _ <- (s & t & ttl & Hl & Ht & Hok & Hs & ?).
  exists s, t, ttl. rewrite Hg in Hl, Hok, Hs. pose proof (gr_time _ _ Hg). split_and!; naive_solver lia.
Qed.

(** ** Runs of the specification *)

Definition spec_reachable (c : Cache) : Prop := rtc spec_step empty_cache c.

Lemma spec_reachable_ind (P : Cache → Prop) :
  P empty_cache → (∀ c c', spec_reachable c → P c → spec_step c c' → P c') →
  ∀ c, spec_reachable c → P c.
Proof.
  intros Hinit Hs c Hc. enough (spec_reachable c ∧ P c) by naive_solver.
  refine (rtc_ind_r (λ c, spec_reachable c ∧ P c) empty_cache _ _ c Hc);
    [split; [apply rtc_refl|done]|].
  intros c1 c2 _ Hst [Hr Hp]. split; [by eapply rtc_r|by eapply Hs].
Qed.

(** Everything stored was storable when it was stored. *)
Lemma spec_store_at c s :
  spec_reachable c → s ∈ store c →
  ∃ c0, grows c0 c ∧ time c0 = st_time s ∧
    storable c0 (st_key s) (st_req s) (st_res s) (st_dur s).
Proof.
  intros Hc. revert c Hc s. apply (spec_reachable_ind (λ c, ∀ s, s ∈ store c → _)).
  { by intros s ?%elem_of_nil. }
  intros c c' Hr IH Hst s Hin. pose proof (spec_step_grows _ _ Hst) as Hg.
  enough (∃ c0, grows c0 c ∧ time c0 = st_time s ∧
    storable c0 (st_key s) (st_req s) (st_res s) (st_dur s)) as (c0 & ? & ?).
  { exists c0. split; [by etrans|done]. }
  destruct Hst; simpl in *; try by apply IH.
  apply elem_of_app in Hin as [Hin| ->%list_elem_of_singleton]; [by apply IH|by exists c].
Qed.

Lemma spec_store_ok c s :
  spec_reachable c → s ∈ store c →
  storable c (st_key s) (st_req s) (st_res s) (st_dur s) ∧ st_time s ≤ time c.
Proof.
  intros Hr Hin. destruct (spec_store_at c s Hr Hin) as (c0 & Hg & <- & Hs).
  rewrite Hg in Hs. split; [done|apply Hg].
Qed.

(** Everything a client got was fresh, or cached. *)
Lemma spec_answered_ok c x :
  spec_reachable c → x ∈ answered c →
  an_start x ≤ an_time x ≤ time c ∧
  (fresh (an_req x) (an_msg x) ∨
   ∃ c0, grows c0 c ∧ time c0 = an_time x ∧ cached c0 (an_req x) (an_start x) (an_msg x)).
Proof.
  intros Hc. revert c Hc x. apply (spec_reachable_ind (λ c, ∀ x, x ∈ answered c → _)).
  { by intros x ?%elem_of_nil. }
  intros c c' Hr IH Hst x Hin. pose proof (spec_step_grows _ _ Hst) as Hg.
  assert (x ∈ answered c ∨ an_start x ≤ an_time x ∧ an_time x = time c ∧
    (fresh (an_req x) (an_msg x) ∨ cached c (an_req x) (an_start x) (an_msg x))) as Hx.
  { destruct Hst; simpl in *; try by left.
    - apply elem_of_app in Hin as [Hin| ->%list_elem_of_singleton]; [by left|]. right. simpl. auto.
    - apply elem_of_app in Hin as [Hin| ->%list_elem_of_singleton]; [by left|]. right. simpl.
      split_and!; [|done|by right].
      match goal with H : cached _ _ _ _ |- _ => destruct H as (? & ? & ? & _ & ? & _) end. lia. }
  pose proof (gr_time _ _ Hg).
  destruct Hx as [Hx|(? & ? & [?|?])].
  - destruct (IH x Hx) as [Ht [?|(c0 & ? & ? & ?)]]; (split; [lia|]); [by left|right].
    exists c0. split_and!; [by etrans|done|done].
  - split; [lia|by left].
  - split; [lia|right]. by exists c.
Qed.

End spec.
