(* ===== verification/World.v ===== *)
(** * The world: requests, goroutines, Redis, the clock

    Any number of CoreDNS instances share a Redis deployment. A world holds the
    time, the SET commands sent so far, the calls in flight in the singleflight
    groups, the messages handed to clients so far, and the threads: requests in
    [ServeDNS] and the goroutines they started, each a residual program. A step
    lets one thread perform its next effect, starts a request, or lets time
    pass, so that all interleavings of all instances are runs.

    Redis answers a pipeline with anything the relation [redis_reply] allows. What
    is assumed of it is that a value it returns was set under that key and has not
    expired, up to [redis_late], and that a positive TTL is the remaining
    lifetime of a value set under that key. Eviction, replication lag, lost
    writes, failover and errors are all allowed. *)

From stdpp Require Import relations.
From coqutil Require Import Datatypes.RecordSetters.
From S2P Require Import Prelude GoString GoError GoFloat GoTime Dns Fixtures Ttl.
From S2P Require Import Serialization Cacheable Key Config Prog RedisCache Writer Handler.
From S2P Require Import CacheSpec.
Import DoubleBraceUpdate.

Local Open Scope Z_scope.

#[export] Instance Group_eq_dec : EqDecision Group.
Proof. solve_decision. Defined.

#[export] Instance Group_countable : Countable Group.
Proof.
  refine (inj_countable' (λ g, match g with writeFlight => true | evictFlight => false end)
            (λ b : bool, if b then writeFlight else evictFlight) _).
  by intros [].
Defined.

(** A call in flight: the instance, the group and the key. *)
Abbreviation Flight := (nat * Group * string)%type.

(** The request a thread works for, and when it arrived. *)
Record Call : Type := mkCall {
  call_req : Msg;
  call_start : Z;
}.

Record Thread : Type := mkThread {
  th_inst : nat;
  th_call : Call;
  th_prog : Prog unit;
}.

(** A SET command: key, value, expiration (0: none) and the time it was sent. *)
Record SetCmd : Type := mkSetCmd {
  set_key : string;
  set_wire : bytes;
  set_dur : Duration;
  set_time : Z;
}.

Record World : Type := mkWorld {
  clock : Z;
  (** the SET commands sent, by any instance *)
  sets : list SetCmd;
  (** the calls in flight, with the thread that runs them *)
  inflight : gmap Flight nat;
  (** the messages handed to clients *)
  answers : list Answered;
  threads : list Thread;
}.

(** The services outside of the plugin: what Redis may reply, at a time, to a
    pipeline of an instance's client for a key, and what a singleflight group
    may tell a caller. A SET may reach Redis late and the clocks of its nodes
    may differ: [redis_late] bounds by how much an entry outlives its
    expiration for both reasons. *)
Class Services : Type := {
  redis_late : Duration;
  redis_reply : list SetCmd → Z → nat → nat → string → PipeReply → Prop;
  flight_admits : gmap Flight nat → Flight → FlightReply → Prop;
}.

Class ServicesLaws `{Services} : Prop := {
  (** GET returns a value that was set under the key and, if it was set with an
      expiration, has not expired *)
  redis_get s now i c k reply b :
    redis_reply s now i c k reply → getCmd reply = Ok b →
    ∃ x, x ∈ s ∧ set_key x = k ∧ set_wire x = b ∧
      (0 < set_dur x → now < set_time x + set_dur x + redis_late);
  (** a positive TTL is a number of seconds, rounded, until a value set under
      the key expires; another client may have set it since the GET *)
  redis_ttl s now i c k reply d :
    redis_reply s now i c k reply → ttlCmd reply = Ok d → 0 < d →
    whole_seconds d ∧ ∃ x, x ∈ s ∧ set_key x = k ∧
      d < set_time x + set_dur x + redis_late + Second - now;
  (** a group runs one function per key at a time *)
  flight_exclusive m f : flight_admits m f Leader → m !! f = None;
}.

(** Every command returns: with a reply or, at its deadline, with an error; and
    a call for a key nobody runs a call for runs its function. *)
Class ServicesLive `{Services} : Prop := {
  redis_total s now i c k : ∃ reply, redis_reply s now i c k reply;
  flight_free m f : m !! f = None → flight_admits m f Leader;
}.

Section world.
Context `{!UnicodeTables, !Platform, !DnsLib, !CoreDns, !XxHash, !PluginLib, !Services}.
(** The instances: their configuration and the next plugin of their chain. *)
Context (confs : nat → Redis) (next : nat → Handler).

(** The answers the environment may give to an effect. *)
Definition may_answer (w : World) (i : nat) (e : Effect) : Resp e → Prop :=
  match e with
  | EPipe c _ k => λ reply, redis_reply (sets w) (clock w) i c k reply
  | EFlight g k => λ reply, flight_admits (inflight w) (i, g, k) reply
  | ERand n => λ j, (j < n)%nat
  | _ => λ _, True
  end.

(** The goroutine an effect starts. *)
Definition spawned (th : Thread) (e : Effect) : list Thread :=
  match e with
  | EGo t => [mkThread (th_inst th) (th_call th) (task_body (confs (th_inst th)) t)]
  | _ => []
  end.

(** The message an effect hands to the client. *)
Definition handed (w : World) (th : Thread) (e : Effect) : list Answered :=
  match e with
  | EWriteMsg m => [mkAnswered (call_req (th_call th)) (call_start (th_call th)) m (clock w)]
  | _ => []
  end.

(** The command an effect sends. *)
Definition sent (w : World) (e : Effect) : list SetCmd :=
  match e with
  | ESet _ _ k wire d => [mkSetCmd k wire d (clock w)]
  | _ => []
  end.

(** The calls in flight after an effect of thread [tid]. *)
Definition flights (w : World) (tid : nat) (th : Thread) (e : Effect) : Resp e → gmap Flight nat :=
  match e with
  | EFlight g k => λ reply,
      match reply with
      | Leader => <[(th_inst th, g, k) := tid]> (inflight w)
      | Shared _ => inflight w
      end
  | EFlightEnd g k => λ _, delete (th_inst th, g, k) (inflight w)
  | _ => λ _, inflight w
  end.

(** The world after thread [tid] performed an effect and continues as [p]. *)
Definition effect (w : World) (tid : nat) (th : Thread) (e : Effect) (a : Resp e) (p : Prog unit) :
    World :=
  mkWorld (clock w) (sets w ++ sent w e) (flights w tid th e a) (answers w ++ handed w th e)
    (<[tid := mkThread (th_inst th) (th_call th) p]> (threads w) ++ spawned th e).

(** A request thread: [ServeDNS], its result returned to the server. *)
Definition request (i : nat) (ctx : Ctx) (c : Call) : Thread :=
  mkThread i c (_ ← ServeDNS (confs i) (Some (next i)) ctx (call_req c); Ret tt).

(** A thread performs its next effect. *)
Inductive work : World → World → Prop :=
| work_effect w tid th e k (a : Resp e) :
    threads w !! tid = Some th → th_prog th = Do e k → may_answer w (th_inst th) e a →
    work w (effect w tid th e a (k a)).

Inductive step : World → World → Prop :=
| step_work w w' : work w w' → step w w'
| step_tick w n : 0 ≤ n → step w (w {{ clock := clock w + n }})
| step_request w i ctx r :
    step w (w {{ threads := threads w ++ [request i ctx (mkCall r (clock w))] }}).

Definition init : World := mkWorld 0 [] ∅ [] [].

Definition reachable (w : World) : Prop := rtc step init w.

End world.
