(* ===== verification/System.v ===== *)
(** * The whole system refines the specification

    Every thread of the world of World.v keeps a guarantee that the other threads
    rely on: messages handed to clients are moves of the specification of
    CacheSpec.v, SET commands carry replies that may be stored, a thread runs at
    most one call of a singleflight group and leaves it. The invariant is a
    simulation: the world is matched by a reachable state of the specification
    with the same clock, the same answers and one stored reply per SET. *)

From stdpp Require Import relations.
From coqutil Require Import Datatypes.RecordSetters.
From S2P Require Import Prelude GoString GoError GoFloat GoTime Dns Fixtures Ttl.
From S2P Require Import Serialization Cacheable Key Config Prog RedisCache Writer Handler.
From S2P Require Import CacheSpec World.
Import DoubleBraceUpdate.

Local Open Scope Z_scope.

(** A thread's view of the world: the state of the specification and the calls it runs. *)
Record View : Type := mkView {
  cache : Cache;
  held : Group → string → Prop;
}.

Definition idle (v : View) : Prop := ∀ g k, ¬ held v g k.

(** Steps of the other threads, and effects that do not concern singleflight. *)
Record later (u v : View) : Prop := mkLater {
  la_cache : grows (cache u) (cache v);
  la_held g k : held v g k ↔ held u g k;
}.

#[export] Instance later_preorder : PreOrder later.
Proof.
  split; [by intros v; split|].
  intros u v w [Hc Hh] [Hc' Hh']. split; [by etrans|]. intros g k. by rewrite Hh', Hh.
Qed.

#[export] Instance idle_later : Proper (later ==> impl) idle.
Proof. intros u v [_ Hh] Hi g k. rewrite Hh. apply Hi. Qed.

Lemma later_time u v t : later u v → t ≤ time (cache u) → t ≤ time (cache v).
Proof. intros [[_ _ ?] _]. lia. Qed.

Section system.
Context `{!UnicodeTables, !Platform, !DnsLib, !CoreDns, !XxHash, !PluginLib, !Services}.
Context (confs : nat → Redis) (next : nat → Handler) (Produced : Msg → Msg → Prop).

Local Abbreviation storable := (storable confs Produced).
Local Abbreviation cached := (cached confs Produced redis_late).
Local Abbreviation lives := (lives redis_late).
Local Abbreviation ttl_ok := (ttl_ok redis_late).
Local Abbreviation spec_step := (spec_step confs Produced redis_late).
Local Abbreviation spec_reachable := (spec_reachable confs Produced redis_late).

(** ** What a thread may rely on and must guarantee *)

(** A payload that may be set: it encodes a reply that may be stored. *)
Definition settable (c : Cache) (k : string) (wire : bytes) (d : Duration) : Prop :=
  ∃ r res, storable c k r res d ∧ ToBytes res = Ok wire.

(** A payload that may be read: it encodes a stored reply that lives. *)
Definition readable (c : Cache) (k : string) (wire : bytes) : Prop :=
  ∃ s, lives c s (time c) ∧ storable c (st_key s) (st_req s) (st_res s) (st_dur s) ∧
    st_key s = k ∧ ToBytes (st_res s) = Ok wire.

Definition guarantee (cl : Call) (v : View) (e : Effect) : Prop :=
  match e with
  | ERand n => (0 < n)%nat
  | EWriteMsg m =>
      call_start cl ≤ time (cache v) ∧
      (fresh Produced (call_req cl) m ∨ cached (cache v) (call_req cl) (call_start cl) m)
  | ESet _ _ k wire d => held v writeFlight k ∧ settable (cache v) k wire d
  | EExpire _ _ k _ => held v evictFlight k
  | EFlight _ _ => idle v
  | EFlightEnd g k => held v g k
  | EGo (TaskSet _ _ k wire d) => settable (cache v) k wire d
  | _ => True
  end.

(** The calls a thread runs after an effect. *)
Definition held_after (h : Group → string → Prop) (e : Effect) : Resp e → Group → string → Prop :=
  match e with
  | EFlight g k => λ reply g' k',
      match reply with
      | Leader => (g', k') = (g, k) ∨ h g' k'
      | Shared _ => h g' k'
      end
  | EFlightEnd g k => λ _ g' k', (g', k') ≠ (g, k) ∧ h g' k'
  | _ => λ _, h
  end.

(** What the answer tells in the world after it. *)
Definition learned (cl : Call) (v' : View) (e : Effect) : Resp e → Prop :=
  match e with
  | EPipe _ _ k => λ reply,
      (∀ b, getCmd reply = Ok b → readable (cache v') k b) ∧
      ttl_ok (cache v') k (time (cache v')) (Get_ttl (ttlCmd reply))
  | ERand n => λ j, (j < n)%nat
  | EWriteMsg m => λ _,
      mkAnswered (call_req cl) (call_start cl) m (time (cache v')) ∈ answered (cache v')
  | _ => λ _, True
  end.

Definition rely (cl : Call) (v : View) (e : Effect) (a : Resp e) (v' : View) : Prop :=
  grows (cache v) (cache v') ∧ (∀ g k, held v' g k ↔ held_after (held v) e a g k) ∧
  learned cl v' e a.

Definition safe {A} (cl : Call) (p : Prog A) (v : View) (Q : View → A → Prop) : Prop :=
  wp (guarantee cl) (rely cl) p v Q (λ _, False).

#[local] Instance settable_mono : Proper (grows ==> eq ==> eq ==> eq ==> impl) settable.
Proof.
  intros c c' Hg k _ <- b _ <- d _ <- (r & res & Hs & ?). exists r, res. by rewrite Hg in Hs.
Qed.

Lemma guarantee_later cl u v e : later u v → guarantee cl u e → guarantee cl v e.
Proof.
  intros Hl. pose proof Hl as [Hg Hh]. destruct e; simpl; try done.
  - intros [? Hs]. rewrite Hg in Hs. split; [by apply Hh|done].
  - apply Hh.
  - by rewrite Hl.
  - apply Hh.
  - destruct t; [|done]. by rewrite Hg.
  - intros [Ht [?|Hc]]; (split; [by eapply later_time|]); [by left|right]. by rewrite Hg in Hc.
Qed.

Lemma rely_later cl u v e a v' : later u v → rely cl v e a v' → rely cl u e a v'.
Proof.
  intros [Hp Hh] (Hp' & Hh' & Hl). split_and!; [by etrans|..|done].
  intros g k. rewrite Hh'. destruct e; simpl; try by rewrite Hh. destruct a; by rewrite Hh.
Qed.

Lemma safe_later {A} cl (p : Prog A) u v Q :
  (∀ u v a, later u v → Q u a → Q v a) → later u v → safe cl p u Q → safe cl p v Q.
Proof.
  intros HQ. apply wp_interfere; [by intros; eapply guarantee_later| |done|done].
  intros u0 v0 e a v' Hl Hr. exists v'. split; [by eapply rely_later|done].
Qed.

(** ** The programs keep the guarantee *)

Context `{!DnsLaws, !CoreDnsLaws, !PluginLaws}.

(** The next plugins answer with well-formed messages that survive packing. *)
Definition produced_ok : Prop :=
  ∀ r m, Produced r m → msg_wf m ∧ RoundTrips (msgWithoutOPT m).

Hypothesis Hproduced : produced_ok.

(** A message decoded from a payload that was read during the request. *)
Definition entry (c : Cache) (start : Z) (m : Msg) (d : bool) : Prop :=
  ∃ s t ttl, lives c s t ∧ start ≤ t ≤ time c ∧ ttl_ok c (st_key s) t ttl ∧
    storable c (st_key s) (st_req s) (st_res s) (st_dur s) ∧
    m = setMsgTTL (unpacked (msgWithoutOPT (st_res s))) ttl ∧ d = msg_DO (st_res s).

#[local] Instance entry_mono : Proper (grows ==> eq ==> eq ==> eq ==> impl) entry.
Proof.
  intros c c' Hg start _ <- m _ <- d _ <- (s & t & ttl & Hl & Ht & Hok & Hs & ?).
  exists s, t, ttl. rewrite Hg in Hl, Hok, Hs. pose proof (gr_time _ _ Hg). split_and!; naive_solver lia.
Qed.

(** Decoding what was read. *)
Lemma readable_entry c k b ttl start m d :
  readable c k b → ttl_ok c k (time c) ttl → start ≤ time c → FromBytes b ttl = Ok (m, d) →
  entry c start m d.
Proof.
  intros (s & Hl & Hs & <- & Hb) Hok Ht Hf.
  destruct (FromBytes_ToBytes_body (st_res s) b ttl Hb) as (wire & Hw & Hf').
  rewrite Hf' in Hf. destruct (Hproduced _ _ (so_produced _ _ _ _ _ _ _ Hs)) as [_ Hrt].
  rewrite (Hrt wire Hw) in Hf. injection Hf as <- <-.
  exists s, (time c), ttl. split_and!; done || lia.
Qed.

Lemma entry_Question m ttl : Question (setMsgTTL (unpacked (msgWithoutOPT m)) ttl) = Question m.
Proof. by rewrite msgWithoutOPT_eq. Qed.

(** An entry that passes the post-fetch check may be served. *)
Lemma entry_cached c r start m d :
  entry c start m d → mismatch r m d = Some false → cached c r start (hit_reply r m).
Proof.
  intros (s & t & ttl & Hl & Ht & Hok & Hs & -> & ->)
    ((q & Hq & Hn & Hty & Hc) & Hdo & Hcd)%mismatch_false.
  pose proof (so_matches _ _ _ _ _ _ _ Hs) as Hm.
  apply responseMatchesRequest_true in Hm as ((q' & Hq' & Hn' & Ht' & Hc') & Hcd' & _).
  rewrite entry_Question, Hq' in Hq. injection Hq as <-.
  exists s, t, ttl. split_and!; try (done || lia).
  all: revert Hcd; rewrite msgWithoutOPT_eq; simpl; intros Hcd; repeat split; congruence.
Qed.

Lemma entry_no_panic c r start m d :
  entry c start m d → is_Some (mismatch r m d) ∧ is_Some (head (Question m)).
Proof.
  intros (s & t & ttl & _ & _ & _ & Hs & -> & ->).
  pose proof (so_matches _ _ _ _ _ _ _ Hs) as Hm.
  apply responseMatchesRequest_true in Hm as ((q' & Hq' & _) & _).
  assert (Question (setMsgTTL (unpacked (msgWithoutOPT (st_res s))) ttl) = [q']) as Hq
    by by rewrite entry_Question.
  split; [|rewrite Hq; by eexists].
  match goal with |- is_Some (mismatch ?r ?m ?d) => pose proof (mismatch_cases r m d) as Hm end.
  by rewrite Hq in Hm.
Qed.

(** Take a step whose effect needs no guarantee. *)
Ltac quiet_step a v :=
  simpl; split; [exact I|];
  let Hg := fresh in let Hh := fresh in
  intros a v (Hg & Hh & ?); pose proof (mkLater _ v Hg Hh); clear Hg Hh; simpl.

(** Close a goal that the world only moved on. *)
Ltac grow := cbv beta in *; first [done | etransitivity; [eassumption|grow]].

Lemma safe_readPipeline cl re v :
  clients_ok re → safe cl (readPipeline re) v (λ v' _, later v v').
Proof.
  intros [_ Hc]. unfold safe, readPipeline, pipeline, pick. destruct (readPool re) as [p|].
  - destruct (length p =? 0)%nat eqn:E.
    { apply Nat.eqb_eq, length_zero_iff_nil in E. done. }
    apply Nat.eqb_neq in E. simpl. split; [lia|]. intros a v' (Hg & Hh & Ha).
    destruct (lookup_lt_is_Some_2 p a) as [c Hcl]; [done|]. simpl. rewrite Hcl. by split.
  - destruct Hc as [c ->]. simpl. done.
Qed.

Lemma safe_Get cl re ctx k v :
  clients_ok re → call_start cl ≤ time (cache v) →
  safe cl (Get re ctx k) v (λ v' '(om, d, err), later v v' ∧
    match om, err with Some m, None => entry (cache v') (call_start cl) m d | _, _ => True end).
Proof.
  intros Hc Hst. unfold safe, Get, mbind, prog_mbind. apply wp_bind.
  eapply wp_mono; [by apply safe_readPipeline| |done]. intros v1 c Hv1. quiet_step reply v2.
  destruct (getCmd reply) as [b|e] eqn:Eg.
  2: { destruct (err_eqb e RedisNil); simpl; (split; [grow|done]). }
  destruct (length b =? 0)%nat.
  { quiet_step u v3. split; [grow|done]. }
  match goal with H : learned _ _ _ _ |- _ => destruct H as [Hread Httl] end.
  apply wp_bind. apply (wp_mono _ _ _ _ (λ v' _, later v2 v') _ (λ _, False)).
  { destruct (ttlCmd reply) as [|e]; [by simpl|]. destruct (negb _); [|by simpl]. by quiet_step u v3. }
  2: done.
  intros v3 _ Hv3. destruct (FromBytes b _) as [[m d]|e] eqn:Ef.
  - split; [grow|]. assert (entry (cache v2) (call_start cl) m d) as He.
    { eapply readable_entry; [by apply Hread|done| |done]. eapply later_time; [|done]. grow. }
    by rewrite (la_cache _ _ Hv3) in He.
  - quiet_step u v4. split; [grow|done].
Qed.

Lemma safe_get cl re ctx server v :
  clients_ok re → call_start cl ≤ time (cache v) →
  safe cl (get re ctx (call_req cl) server) v (λ v' o, later v v' ∧
    match o with
    | Some m => cached (cache v') (call_req cl) (call_start cl) (hit_reply (call_req cl) m)
    | None => True
    end).
Proof.
  set (r := call_req cl). set (start := call_start cl).
  intros Hc Hst. unfold safe, get, mbind, prog_mbind. quiet_step t v0. apply wp_defer, wp_bind.
  eapply wp_mono; [apply (safe_Get cl); [done|by eapply later_time]| |done].
  intros v1 [[om d] err] [Hv1 Hom].
  assert (∀ v' o, later v1 v' → (∀ m, o = Some m → cached (cache v1) r start (hit_reply r m)) →
    wp (guarantee cl) (rely cl) (prog_bind (λ _, metric (cacheRequests server)) now) v'
      (λ v'' _, later v v'' ∧
         match o with Some m => cached (cache v'') r start (hit_reply r m) | None => True end)
      (λ _, False)) as Hend.
  { intros v' o Hv' Ho. quiet_step t' v2. quiet_step u v3. split; [grow|].
    destruct o as [m|]; [|done]. specialize (Ho m eq_refl).
    assert (later v1 v3) as [Hg _] by grow. by rewrite Hg in Ho. }
  destruct err as [err|].
  { clear Hom. destruct om; quiet_step u v2; quiet_step emit v3; (destruct emit; [quiet_step u' v4|]);
      (apply (Hend _ None); [grow|done]). }
  destruct om as [m|]; [|by apply Hend].
  destruct (entry_no_panic _ r _ _ _ Hom) as [[mis Hmis] [q Hq]].
  rewrite Hmis, Hq. simpl. destruct mis.
  - quiet_step u v2. quiet_step u' v3. quiet_step u'' v4. apply (Hend _ None); [grow|done].
  - quiet_step u v2. quiet_step u' v3. apply (Hend _ (Some m)); [grow|]. intros ? [= <-].
    by eapply entry_cached.
Qed.

Lemma safe_snapshot cl w k d res v :
  safe cl (snapshot w k d res) v (λ v' wire, later v v' ∧
    ∀ b, wire = Some b → k ≠ "" ∧ 0 < d ∧ ToBytes res = Ok b ∧
      responseMatchesRequest (rw_state w) res = Some true).
Proof.
  unfold safe, snapshot, mbind, prog_mbind.
  destruct (responseMatchesRequest_total (rw_state w) res) as [mr Hm]. rewrite Hm.
  destruct (String.eqb_spec k ""), (Z.ltb_spec 0 d); simpl; try done. destruct mr; simpl.
  - destruct (ToBytes res) as [b|e] eqn:Eb; simpl; [naive_solver|].
    quiet_step u v1. quiet_step u' v2. split; [grow|done].
  - quiet_step u v1. by split; [grow|].
Qed.

Lemma safe_WriteMsg i cl server ctx res v :
  Produced (call_req cl) res → call_start cl ≤ time (cache v) →
  safe cl (WriteMsg (mkResponseWriter (call_req cl) (confs i) server ctx) res) v
    (λ v' _, later v v').
Proof.
  intros HP Hst. destruct (Hproduced _ _ HP) as [Hwf _].
  unfold safe, WriteMsg, mbind, prog_mbind. quiet_step t v1.
  destruct (Typify res t) as [mt opt] eqn:Et. destruct (cacheable_total res mt) as [c Hc].
  destruct (minMsgTTL_total res mt Hwf) as (s & Hs & _). rewrite Hc. simpl.
  assert (∀ mx mn, ttl_bounds (ttls (confs i)) mt = (mx, mn) →
    reply_duration (confs i) res mt = Some (clamp mx mn (s * Second))) as Hd.
  { intros mx mn E. unfold reply_duration. by rewrite E, Hs. }
  destruct (ttl_bounds _ mt) as [mx mn]. specialize (Hd _ _ eq_refl). rewrite Hs. simpl.
  apply wp_bind.
  eapply wp_mono; [apply safe_snapshot| |done]. intros v2 wire [Hv2 Hwire]. simpl.
  split; [split; [apply (later_time v); [grow|done]|left; exists res; eauto]|].
  intros err v3 (Hg3 & Hh3 & Hin). pose proof (mkLater _ v3 Hg3 Hh3). simpl in Hin.
  destruct wire as [b|]; simpl; [|grow]. destruct (Hwire b eq_refl) as (Hk & Hpos & Hb & Hm).
  split.
  - exists (call_req cl), res. split; [|done]. split; try done; [by exists (call_start cl), (time (cache v3))|].
    exists i, t. rewrite Et. simpl. destruct c; [|done]. by rewrite (Typify_DO res t mt opt).
  - intros u v4 (Hg4 & Hh4 & _). pose proof (mkLater _ v4 Hg4 Hh4). grow.
Qed.

(** The effects of a next plugin: it does not touch the plugin's own resources. *)
Definition next_effect (r : Msg) (e : Effect) : Prop :=
  match e with
  | EWriteMsg m => Produced r m
  | ERand n => (0 < n)%nat
  | EPipe _ _ _ | ESet _ _ _ _ _ | EExpire _ _ _ _ | EFlight _ _ | EFlightEnd _ _ | EGo _ => False
  | _ => True
  end.

Definition next_ok : Prop := ∀ i ctx r, all_effects (next_effect r) (next i ctx r).

Hypothesis Hnext : next_ok.
Hypothesis Hconfs : ∀ i, clients_ok (confs i).

Lemma next_effect_allowed cl u v e :
  later u v → call_start cl ≤ time (cache u) → next_effect (call_req cl) e →
  guarantee cl v e ∧ (∀ a v', rely cl v e a v' → later u v').
Proof.
  intros Hl Ht He. split.
  - destruct e; try done. split; [by eapply later_time|]. left. exists m. auto.
  - intros a v' (Hg & Hh & _). etrans; [exact Hl|]. split; [done|]. by destruct e.
Qed.

Lemma safe_ServeDNS i ctx cl v :
  call_start cl ≤ time (cache v) →
  safe cl (ServeDNS (confs i) (Some (next i)) ctx (call_req cl)) v (λ v' _, later v v').
Proof.
  intros Ht. unfold safe, ServeDNS. rewrite NextOrFailure_Some. destruct (String.eqb _ _).
  { apply (wp_all_effects _ _ _ _ (later v) _ (λ _, False) (Hnext i ctx (call_req cl))); [done|].
    intros w e Hl He. by apply next_effect_allowed. }
  unfold mbind, prog_mbind. apply wp_bind.
  eapply wp_mono; [by apply (safe_get cl)| |done]. intros v1 [m|] [Hv1 Hm]; simpl.
  - split; [split; [by eapply later_time|by right]|].
    intros err v2 (Hg & Hh & _). pose proof (mkLater _ v2 Hg Hh). grow.
  - apply (wp_with_writer _ _ _ _ _ _ (later v) _ (λ _, False) (Hnext i ctx (call_req cl))); [done|..].
    + intros w m Hl HP. eapply wp_mono; [apply safe_WriteMsg; [done|by eapply later_time]| |done].
      intros; grow.
    + intros w b Hl _. quiet_step u v2. quiet_step u' v3. grow.
    + intros w e Hl He _ _. by apply next_effect_allowed.
Qed.

Definition task_ok (c : Cache) (t : Task) : Prop :=
  match t with TaskSet _ _ k wire d => settable c k wire d | TaskEvict _ _ => True end.

(** The only call the thread runs. *)
Definition runs_only (g : Group) (k : string) (v : View) : Prop :=
  ∀ g' k', held v g' k' ↔ (g', k') = (g, k).

#[local] Instance runs_only_later g k : Proper (later ==> impl) (runs_only g k).
Proof. intros u v [_ Hh] Hr g' k'. by rewrite Hh. Qed.

(** Running a function in a group: the group is left on every path. *)
Lemma safe_flight_Do cl g k fn v :
  idle v →
  (∀ v1, later (mkView (cache v) (λ g' k', (g', k') = (g, k))) v1 →
    wp (guarantee cl) (rely cl) fn v1 (λ v2 _, runs_only g k v2) (runs_only g k)) →
  wp (guarantee cl) (rely cl) (flight_Do g k fn) v (λ v' _, idle v') idle.
Proof.
  intros Hi Hfn. unfold flight_Do, mbind, prog_mbind. simpl. split; [done|].
  assert (∀ v2, runs_only g k v2 → wp (guarantee cl) (rely cl) (flight_leave g k) v2
    (λ v' _, idle v') idle) as Hleave.
  { intros v2 Hr. simpl. split; [by apply Hr|]. intros u v3 (_ & Hh & _) g' k'. rewrite Hh. simpl.
    specialize (Hr g' k'). naive_solver. }
  intros [|p] v1 (Hg & Hh & _); simpl in Hh.
  - apply wp_defer.
    eapply wp_mono; [apply Hfn|by intros v2 u; apply Hleave|by intros v2; apply Hleave].
    split; [done|]. intros g' k'. rewrite Hh. specialize (Hi g' k'). naive_solver.
  - assert (idle v1) by (intros g' k'; rewrite Hh; apply Hi). by destruct p.
Qed.

Lemma safe_task cl re t v :
  task_ok (cache v) t → idle v → safe cl (task_body re t) v (λ v' _, idle v').
Proof.
  intros Ht Hi. unfold safe. destruct t as [ctx server k wire d|parent k]; apply wp_recover.
  all: eapply wp_mono; [apply safe_flight_Do; [done|]|done|].
  2, 4: intros v' Hi'; quiet_step u v1; by match goal with H : later _ _ |- _ => rewrite <- H end.
  all: intros v1 Hl; unfold Add, mbind, prog_mbind.
  all: match type of Hl with later (mkView _ (λ g' k', (g', k') = (?g, ?k))) _ =>
    assert (runs_only g k v1) as Hr by (intros g' k'; apply (la_held _ _ Hl)) end.
  - destruct (writeClient re) as [c|]; simpl; [|done].
    split; [split; [by apply Hr|]|].
    { simpl in Ht. rewrite (la_cache _ _ Hl) in Ht. done. }
    intros [[e|]|] v2 (Hg2 & Hh2 & _); pose proof (mkLater _ v2 Hg2 Hh2) as Hl2; rewrite Hl2 in Hr;
      simpl; [|done..].
    quiet_step u v3. quiet_step u' v4. intros.
    assert (later v2 v4) as Hl4 by grow. by rewrite Hl4 in Hr.
  - destruct (writeClient re) as [c|]; simpl; [|done]. split; [by apply Hr|].
    intros [[e|]|] v2 (Hg2 & Hh2 & _); pose proof (mkLater _ v2 Hg2 Hh2) as Hl2; rewrite Hl2 in Hr;
      simpl; [|done..].
    quiet_step u v3. by match goal with H : later v2 _ |- _ => rewrite H in Hr end.
Qed.

(** ** The simulation *)

(** A SET command carries the stored reply. *)
Record represents (x : SetCmd) (s : Stored) : Prop := mkRepresents {
  re_key : set_key x = st_key s;
  re_wire : ToBytes (st_res s) = Ok (set_wire x);
  re_dur : set_dur x = st_dur s;
  re_time : set_time x = st_time s;
}.

(** The world is matched by the state of the specification. *)
Record matched (w : World) (c : Cache) : Prop := mkMatched {
  ma_clock : clock w = time c;
  ma_answers : answers w = answered c;
  ma_sets : Forall2 represents (sets w) (store c);
}.

Definition view (c : Cache) (w : World) (tid : nat) (th : Thread) : View :=
  mkView c (λ g k, inflight w !! (th_inst th, g, k) = Some tid).

Record inv (w : World) (c : Cache) : Prop := mkInv {
  inv_matched : matched w c;
  inv_spec : spec_reachable c;
  inv_threads tid th :
    threads w !! tid = Some th →
    safe (th_call th) (th_prog th) (view c w tid th) (λ v _, idle v);
  (** a call in flight is run by a thread of its instance *)
  inv_flights i g k tid :
    inflight w !! (i, g, k) = Some tid → ∃ th, threads w !! tid = Some th ∧ th_inst th = i;
}.

Lemma represents_elem xs ss x :
  Forall2 represents xs ss → x ∈ xs → ∃ s, s ∈ ss ∧ represents x s.
Proof.
  intros Hf [j Hj]%list_elem_of_lookup. destruct (Forall2_lookup_l _ _ _ _ _ Hf Hj) as (s & Hs & ?).
  exists s. split; [by eapply list_elem_of_lookup_2|done].
Qed.

Lemma represents_elem_r xs ss s :
  Forall2 represents xs ss → s ∈ ss → ∃ x, x ∈ xs ∧ represents x s.
Proof.
  intros Hf [j Hj]%list_elem_of_lookup. destruct (Forall2_lookup_r _ _ _ _ _ Hf Hj) as (x & Hx & ?).
  exists x. split; [by eapply list_elem_of_lookup_2|done].
Qed.

(** The specification follows an effect that keeps the guarantee. *)
Lemma effect_matched w c tid th e a p :
  matched w c → guarantee (th_call th) (view c w tid th) e →
  ∃ c', rtc spec_step c c' ∧ matched (effect confs w tid th e a p) c'.
Proof.
  intros [Hc Ha Hs] Hg. destruct e; simpl in Hg;
    try (exists c; split; [done|]; split; simpl; rewrite ?app_nil_r; done).
  - destruct Hg as [_ (r & res & Hst & Hb)].
    eexists. split; [apply rtc_once, spec_store, Hst|]. split; simpl; rewrite ?app_nil_r; try done.
    apply Forall2_app; [done|]. constructor; [|done]. by split.
  - destruct Hg as [Ht [Hf|Hf]]; eexists.
    + split; [by apply rtc_once, spec_fresh|]. split; simpl; rewrite ?app_nil_r; try done.
      by rewrite Ha, Hc.
    + split; [by apply rtc_once, spec_cached|]. split; simpl; rewrite ?app_nil_r; try done.
      by rewrite Ha, Hc.
Qed.

Lemma spec_steps_grow c c' : rtc spec_step c c' → grows c c'.
Proof. induction 1; [done|]. by etrans; [eapply spec_step_grows|]. Qed.

Context `{!ServicesLaws}.

(** What Redis replies, in terms of the specification. *)
Lemma redis_reply_read w c i cl k reply :
  matched w c → spec_reachable c → redis_reply (sets w) (clock w) i cl k reply →
  (∀ b, getCmd reply = Ok b → readable c k b) ∧ ttl_ok c k (time c) (Get_ttl (ttlCmd reply)).
Proof.
  intros [Hc _ Hs] Hr Hre. split.
  - intros b Hb. destruct (redis_get _ _ _ _ _ _ _ Hre Hb) as (x & Hx & Hk & Hw & Hexp).
    destruct (represents_elem _ _ _ Hs Hx) as (s & Hin & [Ek Ew Ed Et]).
    destruct (spec_store_ok _ _ _ _ _ Hr Hin) as [Hst Hpast].
    pose proof (so_positive _ _ _ _ _ _ _ Hst). exists s. unfold lives, expiry.
    split_and!; (done || lia || congruence).
  - unfold Get_ttl. destruct (ttlCmd reply) as [d|] eqn:Ed; [|by split; [|left]].
    destruct (Z.ltb_spec 0 d) as [Hd|]; [|by split; [|left]].
    destruct (redis_ttl _ _ _ _ _ _ _ Hre Ed Hd) as [Hwh (x & Hx & Hk & Hrem)].
    destruct (represents_elem _ _ _ Hs Hx) as (s & Hin & [Ek _ Edu Et]).
    destruct (spec_store_ok _ _ _ _ _ Hr Hin) as [_ Hpast].
    split; [apply uint32_Seconds_range|right]. exists s. unfold expiry.
    pose proof (uint32_Seconds_le d Hwh). split_and!; [done|congruence|lia|lia].
Qed.

Lemma effect_rely w c c' tid th e a p :
  let w' := effect confs w tid th e a p in
  grows c c' → spec_reachable c' → matched w' c' → may_answer w (th_inst th) e a →
  rely (th_call th) (view c w tid th) e a
    (view c' w' tid (mkThread (th_inst th) (th_call th) p)).
Proof.
  intros w' Hg Hr Hm Ha. split_and!; [done|..].
  - intros g k. destruct e; simpl; try done.
    + destruct a; simpl; [|done]. rewrite lookup_insert_Some. split.
      * intros [[? _]|[_ ?]]; [left; congruence|by right].
      * intros [[= -> ->]|Hk]; [by left|].
        destruct (decide ((th_inst th, g0, key) = (th_inst th, g, k))) as [E|E]; [by left|by right].
    + rewrite lookup_delete_Some. split; intros [? ?]; split; congruence.
  - destruct e; simpl in *; try done.
    + eapply redis_reply_read; [exact Hm|done|]. simpl. by rewrite app_nil_r.
    + rewrite <- (ma_answers _ _ Hm), <- (ma_clock _ _ Hm). simpl.
      rewrite elem_of_app, list_elem_of_singleton. by right.
Qed.

(** What the other threads hold is not touched. *)
Lemma effect_later w c c' tid th tid' th' e a p :
  grows c c' → tid' ≠ tid →
  guarantee (th_call th) (view c w tid th) e → may_answer w (th_inst th) e a →
  later (view c w tid' th') (view c' (effect confs w tid th e a p) tid' th').
Proof.
  intros Hc Hne Hg Ha. split; [done|]. intros g k. destruct e; simpl in *; try done.
  - destruct a; simpl; [|done]. apply flight_exclusive in Ha. rewrite lookup_insert_Some. split.
    + intros [[_ ?]|[_ ?]]; [congruence|done].
    + intros Hk. right. split; congruence.
  - rewrite lookup_delete_Some. split; [by intros [_ ?]|]. intros Hk. split; congruence.
Qed.

(** The threads after an effect: the one that moved, another, or a new one. *)
Lemma effect_threads w tid th e a p tid' th' :
  is_Some (threads w !! tid) →
  threads (effect confs w tid th e a p) !! tid' = Some th' →
  tid' = tid ∧ th' = mkThread (th_inst th) (th_call th) p ∨
  tid' ≠ tid ∧ threads w !! tid' = Some th' ∨
  (length (threads w) ≤ tid')%nat ∧ ∃ t, e = EGo t ∧
    th' = mkThread (th_inst th) (th_call th) (task_body (confs (th_inst th)) t).
Proof.
  intros Hu%lookup_lt_is_Some. simpl. intros [Hl|[Hge Hl]]%lookup_app_Some.
  - destruct (decide (tid' = tid)) as [-> |Hne].
    + rewrite list_lookup_insert_eq in Hl by done. left. by simplify_eq.
    + rewrite list_lookup_insert_ne in Hl by done. right; left. done.
  - rewrite length_insert in *. right; right. split; [done|].
    destruct e; simpl in Hl; try by rewrite lookup_nil in Hl. apply list_lookup_singleton_Some in Hl as [_ <-]. by eexists.
Qed.

Lemma flights_valid w c tid th e a i g k tid' :
  inv w c → threads w !! tid = Some th → flights w tid th e a !! (i, g, k) = Some tid' →
  ∃ th, threads w !! tid' = Some th ∧ th_inst th = i.
Proof.
  intros Hi Hth. destruct e; simpl; try apply (inv_flights _ _ Hi).
  - destruct a; [|apply (inv_flights _ _ Hi)].
    intros [[[= <- <- <-] <-]|[_ ?]]%lookup_insert_Some; [eauto|by eapply inv_flights].
  - intros [_ ?]%lookup_delete_Some. by eapply inv_flights.
Qed.

(** A thread that does not exist yet runs nothing. *)
Lemma new_thread_idle w c c' w' tid th :
  inv w c → (length (threads w) ≤ tid)%nat → inflight w' = inflight w →
  idle (view c' w' tid th).
Proof.
  intros Hi Hge Hf g k. simpl. rewrite Hf. intros (th' & Hl & _)%(inv_flights _ _ Hi).
  apply lookup_lt_Some in Hl. lia.
Qed.

(** The steps of the world are steps of the specification, or none. *)
Lemma work_inv w c w' : inv w c → work confs w w' → ∃ c', rtc spec_step c c' ∧ inv w' c'.
Proof.
  intros Hi Hw. destruct Hw as [u tid th e k a Hth Hp Ha].
  pose proof (inv_threads _ _ Hi tid th Hth) as Hsafe. rewrite Hp in Hsafe.
  destruct Hsafe as [Hg Hk].
  destruct (effect_matched u c tid th e a (k a) (inv_matched _ _ Hi) Hg) as (c' & Hs & Hm).
  pose proof (spec_steps_grow _ _ Hs) as Hgr. exists c'. split; [done|].
  assert (spec_reachable c') as Hr by exact (transitivity (inv_spec _ _ Hi) Hs).
  split; [done|done|..].
  - intros tid' th' [[-> ->]|[[Hne Hl]|(Hge & t & -> & ->)]]%effect_threads; [..|by eauto].
    + by apply Hk, effect_rely.
    + eapply safe_later; [by intros ??? Hl'; rewrite Hl'| |by apply (inv_threads _ _ Hi)].
      by apply effect_later.
    + apply safe_task; [|by eapply new_thread_idle]. destruct t; [|done].
      simpl in Hg. by rewrite Hgr in Hg.
  - intros i g k' tid' Hf. destruct (flights_valid _ _ _ _ _ _ _ _ _ _ Hi Hth Hf) as (th' & Hl & <-).
    simpl. destruct (decide (tid' = tid)) as [-> |Hne].
    + rewrite lookup_app_l, list_lookup_insert_eq by (rewrite ?length_insert; by eapply lookup_lt_Some).
      eexists. split; [done|]. simpl. congruence.
    + exists th'. split; [|done]. apply lookup_app_l_Some. by rewrite list_lookup_insert_ne.
Qed.

Lemma step_inv w c w' : inv w c → step confs next w w' → ∃ c', rtc spec_step c c' ∧ inv w' c'.
Proof.
  intros Hi Hst. destruct Hst as [u u' Hw|u n Hn|u i ctx r]; [by eapply work_inv|..].
  - assert (spec_step c (c {{ time := time c + n }})) as Hs by by apply spec_tick.
    pose proof (spec_step_grows _ _ _ _ _ Hs) as Hg.
    exists (c {{ time := time c + n }}). split; [by apply rtc_once|].
    destruct Hi as [[Hc ??] Hr Ht Hf]. split; [split; simpl; [by rewrite Hc|done|done]|by eapply rtc_r| |done].
    intros tid th Hth. apply (safe_later _ _ (view c u tid th)); [by intros ??? Hl; rewrite Hl|by split|].
    by apply Ht.
  - exists c. split; [done|]. pose proof Hi as [Hm Hr Ht Hf]. split; [by destruct Hm|done|..]; simpl.
    + intros tid th [Hl|[Hge Hl]]%lookup_app_Some; [by apply Ht in Hl|].
      assert (idle (view c (u {{ threads := threads u ++ [request confs next i ctx (mkCall r (clock u))] }}) tid th))
        as Hidle by by eapply new_thread_idle.
      destruct (tid - length (threads u))%nat; simplify_eq/=. unfold request.
      apply wp_bind. eapply wp_mono; [apply safe_ServeDNS; simpl; by rewrite (ma_clock _ _ Hm)| |done].
      intros v' rc Hl'. simpl. by rewrite <- Hl'.
    + intros i' g k tid (th & Hl & ?)%Hf. exists th. split; [by apply lookup_app_l_Some|done].
Qed.

Lemma reachable_inv w : reachable confs next w → ∃ c, inv w c.
Proof.
  intros Hr. refine (rtc_ind_r (λ w, ∃ c, inv w c) init _ _ w Hr).
  - exists empty_cache. split; [by split|apply rtc_refl|done|done].
  - intros u w' _ Hst [c Hi]. destruct (step_inv _ _ _ Hi Hst) as (c' & _ & ?). by exists c'.
Qed.

(** ** Properties of the whole system *)

(** C1: the system implements a cache that may forget but never answers wrongly.
    In every interleaving of the requests and goroutines of every instance, with
    any hash function and a Redis that may lose, delay or expire anything, the
    world is matched by a state the specification reaches: same time, same
    sequence of messages to clients, and one stored reply per SET command. So
    each message is a fresh reply of the next plugin to this very request, or a
    reply that was stored for a request with the same lowered name, class, type
    and CD bit and with this request's DO bit, read while it lived. *)
Theorem system_refines_spec w :
  reachable confs next w → ∃ c, spec_reachable c ∧ matched w c.
Proof. intros (c & Hi)%reachable_inv. exists c. split; apply Hi. Qed.

(** No thread panics: as long as Redis holds only what the plugins wrote,
    neither a request nor a goroutine of any instance reaches a panic. *)
Theorem system_no_panic w tid th :
  reachable confs next w → threads w !! tid = Some th → th_prog th ≠ Panic.
Proof.
  intros (c & Hi)%reachable_inv Hth Hp. pose proof (inv_threads _ _ Hi tid th Hth) as Hs.
  by rewrite Hp in Hs.
Qed.

(** The thread's next effect is a SET for [key]. *)
Definition sending (th : Thread) (key : string) : Prop :=
  ∃ c ctx b d k, th_prog th = Do (ESet c ctx key b d) k.

(** C13: the writes of an instance are deduplicated: two goroutines of the same
    instance are never both about to send a SET for the same key. *)
Theorem system_single_set w t1 t2 th1 th2 key :
  reachable confs next w → threads w !! t1 = Some th1 → threads w !! t2 = Some th2 →
  th_inst th1 = th_inst th2 → sending th1 key → sending th2 key → t1 = t2.
Proof.
  intros (c & Hi)%reachable_inv Hl1 Hl2 Hinst (? & ? & ? & ? & ? & Hp1) (? & ? & ? & ? & ? & Hp2).
  pose proof (inv_threads _ _ Hi _ _ Hl1) as Hs1. pose proof (inv_threads _ _ Hi _ _ Hl2) as Hs2.
  rewrite Hp1 in Hs1. rewrite Hp2 in Hs2.
  destruct Hs1 as [[Hh1 _] _], Hs2 as [[Hh2 _] _]. simpl in *. rewrite Hinst in Hh1. congruence.
Qed.

(** C14: everything sent to Redis is the payload of a reply that the next plugin
    produced for a request it matches on question and CD, under the key of that
    request with the reply's DO bit; it is sent with a positive expiration, the
    reply's clamped lifetime under the instance's configuration, and not before a
    client got the reply with that lifetime as its TTL. *)
Theorem system_redis_contents w x :
  reachable confs next w → x ∈ sets w →
  ∃ i t r res start ta, mkAnswered r start (setMsgTTL res (uint32_Seconds (set_dur x))) ta ∈ answers w ∧
    ta ≤ set_time x ≤ clock w ∧ Produced r res ∧ ToBytes res = Ok (set_wire x) ∧
    responseMatchesRequest r res = Some true ∧ set_key x = store_key (confs i) r (msg_DO res) ∧
    reply_duration (confs i) res (fst (Typify res t)) = Some (set_dur x) ∧ 0 < set_dur x.
Proof.
  intros (c & [[Hc Ha Hs] Hr _ _])%reachable_inv Hin.
  destruct (represents_elem _ _ _ Hs Hin) as (s & Hins & [-> Hw -> ->]).
  destruct (spec_store_at _ _ _ _ _ Hr Hins) as (c0 & Hg & Ht & [(start & ta & Hans & Hle) ?? Hcf ?]).
  destruct Hcf as (i & t & _ & Hd & Hk). pose proof (gr_time _ _ Hg).
  exists i, t, (st_req s), (st_res s), start, ta. rewrite Ha, Hc.
  split_and!; try (done || lia). by apply (gr_answered _ _ Hg).
Qed.

(** C2: no client gets an expired reply. A message that is not a fresh reply of
    the next plugin is the payload of a SET command that Redis returned at a
    moment of this request, less than the command's expiration (plus Redis's
    lateness) after it was sent. The TTL it is served with is 0 or outlasts by less
    than a second (plus that lateness) what is left, at that moment, of some entry
    that was set under the same key by then: GET and TTL are not atomic, so this
    need not be the entry served. It is the entry served when no other SET under
    the key was sent by then, and then its TTL has that bound. *)
Theorem system_never_stale w x :
  reachable confs next w → x ∈ answers w →
  fresh Produced (an_req x) (an_msg x) ∨
  ∃ cmd res t ttl, cmd ∈ sets w ∧ ToBytes res = Ok (set_wire cmd) ∧
    an_msg x = hit_reply (an_req x) (setMsgTTL (unpacked (msgWithoutOPT res)) ttl) ∧
    an_start x ≤ t ≤ an_time x ∧
    set_time cmd ≤ t < set_time cmd + set_dur cmd + redis_late ∧
    let outlasts cmd' := ttl * Second < set_time cmd' + set_dur cmd' + redis_late + Second - t in
    (ttl = 0 ∨ ∃ cmd', cmd' ∈ sets w ∧ set_key cmd' = set_key cmd ∧ set_time cmd' ≤ t ∧
       outlasts cmd') ∧
    ((∀ cmd', cmd' ∈ sets w → set_key cmd' = set_key cmd → set_time cmd' ≤ t → cmd' = cmd) →
      ttl = 0 ∨ outlasts cmd).
Proof.
  intros (c & [[Hc Ha Hs] Hr _ _])%reachable_inv Hin. rewrite Ha in Hin.
  destruct (spec_answered_ok _ _ _ _ _ Hr Hin) as [Ht [?|(c0 & Hg & Et & Hc0)]]; [by left|right].
  destruct Hc0 as (s & t & ttl & [Hins Hlive] & Ht' & [_ Hok] & _ & _ & _ & Hm).
  apply (gr_store _ _ Hg) in Hins.
  destruct (represents_elem_r _ _ _ Hs Hins) as (cmd & Hcmd & [Ek Ew Ed Etm]).
  exists cmd, (st_res s), t, ttl. unfold expiry in *. cbv zeta.
  assert (ttl = 0 ∨ ∃ cmd', cmd' ∈ sets w ∧ set_key cmd' = set_key cmd ∧ set_time cmd' ≤ t ∧
    ttl * Second < set_time cmd' + set_dur cmd' + redis_late + Second - t) as Hsome.
  { destruct Hok as [?|(s' & Hs' & Hk & Hp & Httl)]; [by left|right]. apply (gr_store _ _ Hg) in Hs'.
    destruct (represents_elem_r _ _ _ Hs Hs') as (cmd' & Hcmd' & [Ek' _ Ed' Etm']).
    exists cmd'. rewrite Ed', Etm'. split_and!; (done || congruence || lia). }
  rewrite Ed, Etm. split_and!; try (done || lia). intros Hone.
  destruct Hsome as [?|(cmd' & Hin' & Hk' & Ht2 & Hb)]; [by left|right].
  rewrite (Hone cmd' Hin' Hk' Ht2) in Hb. by rewrite Ed, Etm in Hb.
Qed.

End system.

(** ** Witnesses

    A scheduler that lets one thread run, with a Redis that keeps everything until
    it expires: its worlds are reachable. *)

Section witnesses.
#[local] Existing Instances demo_unicode demo_platform demo_dns demo_coredns demo_xxhash demo_plugin.
#[local] Existing Instances demo_dns_laws demo_coredns_laws demo_plugin_laws.

(** Redis may forget or fail at any time, and never makes a value up. *)
Definition demo_services : Services := {|
  redis_late := 0;
  redis_reply s now _ _ k reply :=
    (∀ b, getCmd reply = Ok b → ∃ x, x ∈ s ∧ set_key x = k ∧ set_wire x = b ∧
      (0 < set_dur x → now < set_time x + set_dur x)) ∧
    (∀ d, ttlCmd reply = Ok d → 0 < d → whole_seconds d ∧ ∃ x, x ∈ s ∧ set_key x = k ∧
      d < set_time x + set_dur x + Second - now);
  flight_admits m f reply := reply = Leader → m !! f = None;
|}.
#[local] Existing Instance demo_services.

Lemma demo_services_laws : ServicesLaws.
Proof.
  constructor; simpl.
  - intros s now i c k reply b [Hg _] Hb. destruct (Hg b Hb) as (x & ?). exists x. by rewrite Z.add_0_r.
  - intros s now i c k reply d [_ Ht] Hd Hpos. destruct (Ht d Hd Hpos) as [? (x & ?)].
    split; [done|]. exists x. by rewrite Z.add_0_r.
  - by intros m f Hm; apply Hm.
Qed.

Lemma demo_services_live : ServicesLive.
Proof.
  constructor; simpl; [|done]. intros s now i c k.
  exists (mkPipeReply (Err (sentinel RedisNil)) (Err (sentinel RedisNil))). done.
Qed.
#[local] Existing Instances demo_services_laws demo_services_live.

(** The command that a GET at [now] finds. *)
Definition found (s : list SetCmd) (now : Z) (k : string) : option SetCmd :=
  snd <$> list_find (λ x, set_key x = k ∧ now < set_time x + set_dur x) s.

Definition oracle (w : World) (i : nat) (e : Effect) : Resp e :=
  match e with
  | EPipe _ _ k =>
      match found (sets w) (clock w) k with
      | Some x =>
          mkPipeReply (Ok (set_wire x))
            (Ok ((set_time x + set_dur x - clock w) `div` Second * Second))
      | None => mkPipeReply (Err (sentinel RedisNil)) (Err (sentinel RedisNil))
      end
  | EFlight g k => match inflight w !! (i, g, k) with Some _ => Shared false | None => Leader end
  | e => quiet_env None e
  end.

(** A scheduler for any instances. *)
Section scheduler.
Context (confs : nat → Redis) (next : nat → Handler).

(** One step of thread [tid]. *)
Definition advance (tid : nat) (w : World) : World :=
  match threads w !! tid with
  | Some th =>
      match th_prog th with
      | Do (ERand _) _ | Ret _ | Panic => w
      | Do e k =>
          let a := oracle w (th_inst th) e in effect confs w tid th e a (k a)
      end
  | None => w
  end.

Lemma oracle_may_answer w i e : (∀ n, e ≠ ERand n) → may_answer w i e (oracle w i e).
Proof.
  destruct e; intros Hn; try exact I; [by destruct (Hn n)| |].
  - simpl. unfold found. destruct (list_find _ _) as [[j x]|] eqn:E; simpl; [|done].
    apply list_find_Some in E as (Hj & [<- Hlt] & _). apply list_elem_of_lookup_2 in Hj. split.
    + intros b [= <-]. by exists x.
    + intros d [= <-] Hd. assert (0 < Second) by done.
      pose proof (Z.mul_div_le (set_time x + set_dur x - clock w) Second ltac:(done)).
      split; [apply whole_seconds_mul; lia|]. exists x. split_and!; [done..|]. lia.
  - simpl. by destruct (inflight w !! _).
Qed.

Lemma advance_reachable n tid w :
  reachable confs next w → reachable confs next (Nat.iter n (advance tid) w).
Proof.
  intros Hr. induction n as [|n IH]; [done|]. simpl. unfold reachable in *.
  set (u := Nat.iter n _ _) in *. unfold advance.
  destruct (threads u !! tid) as [th|] eqn:Eth; [|done].
  destruct (th_prog th) as [a| |e k] eqn:Ep; [done..|].
  assert ((∀ n, e ≠ ERand n) → rtc (step confs next) init
    (let a := oracle u (th_inst th) e in effect confs u tid th e a (k a))) as Hstep.
  { intros Hn. eapply rtc_r; [exact IH|]. apply step_work.
    by apply work_effect; [..|apply oracle_may_answer]. }
  destruct e; try done; apply Hstep; done.
Qed.

(** A client of instance [i] asks [r]. *)
Definition ask (i : nat) (r : Msg) (w : World) : World :=
  w {{ threads := threads w ++ [request confs next i ctx_ex (mkCall r (clock w))] }}.

Lemma ask_reachable i r w :
  reachable confs next w → reachable confs next (ask i r w).
Proof. intros Hr. eapply rtc_r; [exact Hr|]. apply step_request. Qed.

(** Time passes. *)
Definition wait (n : Z) (w : World) : World := w {{ clock := clock w + n }}.

Lemma wait_reachable n w :
  0 ≤ n → reachable confs next w → reachable confs next (wait n w).
Proof. intros Hn Hr. eapply rtc_r; [exact Hr|]. by apply step_tick. Qed.

End scheduler.

Definition confs_ex : nat → Redis := λ _, redis_ex.
Definition nexts_ex : nat → Handler := λ _, next_ex.
Definition produced_ex (r m : Msg) : Prop := m = hit_reply r ans_ex.

(** A client of instance 0 asks; the goroutine that stores the reply is about to
    send it; it does; 258 seconds later a client of instance 1 asks the same. *)
Definition world_miss : World := Nat.iter 30 (advance confs_ex 0) (ask confs_ex nexts_ex 0 req_ex init).
Definition world_set : World := Nat.iter 1 (advance confs_ex 1) world_miss.
Definition world_stored : World := Nat.iter 10 (advance confs_ex 1) world_set.
Definition world_hit : World :=
  Nat.iter 30 (advance confs_ex 2) (ask confs_ex nexts_ex 1 req_ex (wait (258 * Second) world_stored)).

Lemma world_set_reachable : reachable confs_ex nexts_ex world_set.
Proof.
  exact (advance_reachable confs_ex nexts_ex 1 1 _ (advance_reachable confs_ex nexts_ex 30 0 _
           (ask_reachable confs_ex nexts_ex 0 req_ex init (rtc_refl _ _)))).
Qed.

Lemma world_stored_reachable : reachable confs_ex nexts_ex world_stored.
Proof. exact (advance_reachable confs_ex nexts_ex 10 1 _ world_set_reachable). Qed.

Lemma world_hit_reachable : reachable confs_ex nexts_ex world_hit.
Proof.
  apply (advance_reachable confs_ex nexts_ex 30 2 (ask confs_ex nexts_ex 1 req_ex (wait (258 * Second) world_stored))).
  apply ask_reachable, wait_reachable; [done|exact world_stored_reachable].
Qed.

Lemma produced_ex_ok : produced_ok produced_ex.
Proof.
  intros r m ->. split; [|apply demo_RoundTrips].
  unfold hit_reply. destruct (_ && _); solve_wf.
Qed.

Lemma nexts_ex_ok : next_ok nexts_ex produced_ex.
Proof. intros i ctx r. simpl. done. Qed.

Lemma confs_ex_ok i : clients_ok (confs_ex i).
Proof. split; by eexists. Qed.

(** The second client is served from the cache, with the 42 seconds left of 300. *)
Definition hit_ex : Answered :=
  mkAnswered req_ex (258 * Second) (hit_reply req_ex (setMsgTTL (unpacked (hit_reply req_ex ans_ex)) 42))
    (258 * Second).

Lemma system_refines_spec_witness :
  answers world_hit =
    [mkAnswered req_ex 0 (setMsgTTL (hit_reply req_ex ans_ex) 300) 0; hit_ex] ∧
  ∃ c, spec_reachable confs_ex produced_ex redis_late c ∧ matched world_hit c.
Proof.
  split; [vm_compute; reflexivity|].
  apply (system_refines_spec confs_ex nexts_ex produced_ex produced_ex_ok nexts_ex_ok confs_ex_ok).
  exact world_hit_reachable.
Defined.

Lemma hit_ex_answered : hit_ex ∈ answers world_hit.
Proof. apply (list_elem_of_lookup_2 _ 1). vm_compute. reflexivity. Qed.

Lemma system_never_stale_witness :
  fresh produced_ex req_ex (an_msg hit_ex) ∨
  ∃ cmd t, cmd ∈ sets world_hit ∧ t = 258 * Second ∧
    set_time cmd ≤ t < set_time cmd + set_dur cmd.
Proof.
  destruct (system_never_stale confs_ex nexts_ex produced_ex produced_ex_ok nexts_ex_ok confs_ex_ok
    world_hit hit_ex world_hit_reachable hit_ex_answered)
    as [Hf|(cmd & res & t & ttl & Hin & _ & _ & Ht & Hl & _)]; [left; exact Hf|right].
  exists cmd, t. cbn [hit_ex an_start an_time redis_late demo_services] in *.
  split; [exact Hin|]. split; [lia|]. lia.
Defined.

Lemma system_no_panic_witness :
  ∃ th, threads world_hit !! 2%nat = Some th ∧ th_prog th ≠ Panic.
Proof.
  eexists. split; [vm_compute; reflexivity|].
  apply (system_no_panic confs_ex nexts_ex produced_ex produced_ex_ok nexts_ex_ok confs_ex_ok
           world_hit 2); [exact world_hit_reachable|vm_compute; reflexivity].
Defined.

Lemma system_redis_contents_witness :
  ∃ x i r res, x ∈ sets world_stored ∧ ToBytes res = Ok (set_wire x) ∧
    set_key x = store_key (confs_ex i) r (msg_DO res) ∧ set_dur x = 300 * Second.
Proof.
  assert (∃ x, sets world_stored = [x] ∧ set_dur x = 300 * Second) as (x & Hx & Hd)
    by (eexists; vm_compute; split; reflexivity).
  assert (x ∈ sets world_stored) as Hin by (rewrite Hx; left).
  destruct (system_redis_contents confs_ex nexts_ex produced_ex produced_ex_ok nexts_ex_ok confs_ex_ok
              world_stored x world_stored_reachable Hin)
    as (i & t & r & res & start & ta & _ & _ & _ & Hb & _ & Hk & _).
  exists x, i, r, res. split; [exact Hin|]. split; [exact Hb|]. split; [exact Hk|exact Hd].
Defined.

Lemma system_single_set_witness :
  ∃ th key, threads world_set !! 1%nat = Some th ∧ sending th key ∧
    ∀ tid, threads world_set !! tid = Some th → 1%nat = tid.
Proof.
  eexists _, _. split_and!; [vm_compute; reflexivity|do 5 eexists; vm_compute; reflexivity|].
  intros tid Hl.
  eapply (system_single_set confs_ex nexts_ex produced_ex produced_ex_ok nexts_ex_ok confs_ex_ok
            world_set 1 tid); [exact world_set_reachable|vm_compute; reflexivity|exact Hl|reflexivity|..];
    do 5 eexists; vm_compute; reflexivity.
Defined.

End witnesses.
