(* ===== verification/Hostile.v ===== *)
(** * Any Redis at all

    The system of World.v without a law about Redis or the singleflight groups:
    other programs may write under the plugin's keys, an entry may be corrupted,
    replayed or never expire. Requests may then panic (on an entry without a
    question), but no client is answered with a reply to another question. *)

From stdpp Require Import relations.
From coqutil Require Import Datatypes.RecordSetters.
From S2P Require Import Prelude GoString GoError GoFloat GoTime Dns Fixtures Ttl.
From S2P Require Import Serialization Cacheable Key Config Prog RedisCache Writer Handler.
From S2P Require Import CacheSpec World System.
Import DoubleBraceUpdate.

Local Open Scope Z_scope.

Section hostile.
Context `{!UnicodeTables, !Platform, !DnsLib, !CoreDns, !XxHash, !PluginLib, !Services}.
Context (confs : nat → Redis) (next : nat → Handler) (Produced : Msg → Msg → Prop).
Context `{!CoreDnsLaws, !PluginLaws}.

(** A reply decoded from some bytes, for the question, class, DO and CD bit of the
    request. *)
Definition verified (r m : Msg) : Prop :=
  ∃ b ttl m0 q, FromBytes b ttl = Ok (m0, state_Do r) ∧ m = hit_reply r m0 ∧ Question m0 = [q] ∧
    ToLower (QName q) = state_Name r ∧ Qtype q = state_QType r ∧ Qclass q = state_QClass r ∧
    CheckingDisabled m0 = CheckingDisabled r.

Definition write_ok (r : Msg) (e : Effect) : Prop :=
  match e with EWriteMsg m => fresh Produced r m ∨ verified r m | _ => True end.

(** Whatever answers it gets, the program writes only acceptable messages, and if
    it returns, [Q] holds of the result. *)
Definition writes {A} (r : Msg) (p : Prog A) (Q : A → Prop) : Prop :=
  wp (λ _ : unit, write_ok r) (λ _ _ _ _, True) p tt (λ _, Q) (λ _, True).

Lemma writes_nothing {A} r (p : Prog A) : only no_client p → writes r p (λ _, True).
Proof.
  unfold writes. induction p as [a| |e k IH]; simpl; [done..|]. intros [He Hk].
  split; [by destruct e|]. intros a [] _. by apply IH.
Qed.

Lemma writes_Get r re ctx k :
  writes r (Get re ctx k) (λ '(om, d, err),
    match om, err with Some m, None => ∃ b ttl, FromBytes b ttl = Ok (m, d) | _, _ => True end).
Proof.
  unfold writes, Get, mbind, prog_mbind. apply wp_bind.
  eapply wp_mono; [apply (writes_nothing r)| |done].
  { unfold readPipeline, pipeline, pick, rand_IntN. only_effects done. }
  intros [] c _. simpl. split; [done|]. intros reply [] _.
  destruct (getCmd reply) as [b|e]; [|by destruct (err_eqb e RedisNil)].
  destruct (length b =? 0)%nat; [done|]. apply wp_bind.
  eapply wp_mono; [apply (writes_nothing r); unfold log; only_effects done| |done].
  intros [] _ _. destruct (FromBytes b _) as [[m d]|e] eqn:Ef; [|done]. simpl. eauto.
Qed.

Lemma writes_get r re ctx server :
  writes r (get re ctx r server) (λ o, match o with Some m => verified r (hit_reply r m) | None => True end).
Proof.
  unfold writes, get, mbind, prog_mbind. simpl. split; [done|]. intros t [] _. apply wp_defer, wp_bind.
  eapply wp_mono; [apply writes_Get| |by intros [] _]. intros [] [[om d] err] Hom.
  destruct err as [err|].
  { destruct om; simpl; (split; [done|]); intros _ [] _; (split; [done|]); by intros [] [] _. }
  destruct om as [m|]; [|by simpl]. destruct Hom as (b & ttl & Hf).
  destruct (mismatch r m d) as [[|]|] eqn:Em; simpl; [..|done].
  - by destruct (head (Question m)).
  - destruct (head (Question m)) as [q0|]; simpl; [|done].
    apply mismatch_false in Em as ((q & ? & ? & ? & ?) & -> & ?).
    assert (verified r (hit_reply r m)) by (exists b, ttl, m, q; auto 10).
    by repeat (split; [done|]; intros ? [] _).
Qed.

Lemma writes_WriteMsg i r server ctx res :
  Produced r res → writes r (WriteMsg (mkResponseWriter r (confs i) server ctx) res) (λ _, True).
Proof.
  intros HP. unfold writes, WriteMsg, mbind, prog_mbind. simpl. split; [done|]. intros t [] _.
  destruct (Typify res t) as [mt opt]. destruct (cacheable res mt) as [c|]; simpl; [|done].
  destruct (ttl_bounds _ mt) as [mx mn]. destruct (minMsgTTL res mt) as [s|]; simpl; [|done].
  apply wp_bind. eapply wp_mono; [apply writes_nothing, snapshot_no_client| |done].
  intros [] wire _. simpl. split; [left; exists res; eauto|]. intros err [] _. by destruct wire.
Qed.

(** The effects of a next plugin that matter here: what it writes. *)
Hypothesis Hnext : ∀ i ctx r, only (λ e, ∀ m, e = EWriteMsg m → Produced r m) (next i ctx r).

Lemma writes_with_writer {A} r wm wr (p : Prog A) :
  only (λ e, ∀ m, e = EWriteMsg m → Produced r m) p →
  (∀ m, Produced r m → writes r (wm m) (λ _, True)) → (∀ b, writes r (wr b) (λ _, True)) →
  writes r (with_writer wm wr p) (λ _, True).
Proof.
  intros Hp Hwm Hwr. unfold writes in *. induction p as [a| |e k IH]; simpl in *; [done..|].
  destruct Hp as [He Hk].
  destruct e; simpl; try (split; [done|]; intros a [] _; by apply IH);
    apply wp_bind; (eapply wp_mono; [by eauto| |done]); intros [] a _; by apply IH.
Qed.

Lemma writes_ServeDNS i ctx r :
  writes r (ServeDNS (confs i) (Some (next i)) ctx r) (λ _, True).
Proof.
  unfold writes, ServeDNS. rewrite NextOrFailure_Some. destruct (String.eqb _ _).
  { pose proof (Hnext i ctx r) as Hn. induction (next i ctx r) as [a| |e k IH]; simpl in *; [done..|].
    destruct Hn as [He Hk]. split; [|intros a [] _; by apply IH].
    destruct e; try done. left. exists m. auto. }
  unfold mbind, prog_mbind. apply wp_bind.
  eapply wp_mono; [apply writes_get| |by intros [] _]. intros [] [m|] Hm; simpl.
  - split; [by right|done].
  - apply writes_with_writer; [done|by intros; apply writes_WriteMsg|]. intros b. by simpl.
Qed.

Lemma writes_task r re t : writes r (task_body re t) (λ _, True).
Proof.
  apply writes_nothing. destruct t; unfold task_body, set_body, evict_body; apply only_recover; try done.
  all: unfold flight_Do, Add, flight_enter, flight_leave, redis_Set, redis_Expire, log, metric.
  all: only_effects done.
Qed.

(** C4: the cache cannot be made to answer another question. Whatever Redis and
    the singleflight groups do, whoever writes to Redis, and however the threads
    interleave, every message a client gets is a fresh reply of the next plugin
    to this request, or decodes from bytes Redis returned to a message whose one
    question has the request's name, type and class, stored with the request's
    DO and CD bits. *)
Theorem hostile_redis w x :
  reachable confs next w → x ∈ answers w →
  fresh Produced (an_req x) (an_msg x) ∨ verified (an_req x) (an_msg x).
Proof.
  intros Hr. revert x.
  enough ((∀ x, x ∈ answers w → fresh Produced (an_req x) (an_msg x) ∨ verified (an_req x) (an_msg x)) ∧
    ∀ th, th ∈ threads w → writes (call_req (th_call th)) (th_prog th) (λ _, True)) by tauto.
  refine (rtc_ind_r (λ w, _ ∧ _) init _ _ w Hr); [by split; intros ? ?%elem_of_nil|].
  clear w Hr. intros w w' _ Hst [Ha Ht].
  destruct Hst as [u u' Hw|u n _|u i ctx r]; [|done|].
  - destruct Hw as [u tid th e k a Hth Hp _].
    pose proof (Ht th (list_elem_of_lookup_2 _ _ _ Hth)) as Hs. rewrite Hp in Hs. destruct Hs as [He Hk].
    split.
    + intros x [Hx|Hx]%elem_of_app; [by apply Ha|]. destruct e; try by apply elem_of_nil in Hx.
      by apply list_elem_of_singleton in Hx as ->.
    + intros th' [Hx|Hx]%elem_of_app.
      * apply list_elem_of_lookup in Hx as [j Hj].
        apply list_lookup_insert_Some in Hj as [(_ & <- & _)|(_ & Hj)];
          [by apply Hk|by eapply Ht, list_elem_of_lookup_2].
      * destruct e; try by apply elem_of_nil in Hx. apply list_elem_of_singleton in Hx as ->.
        apply writes_task.
  - split; [done|]. intros th [Hx|Hx]%elem_of_app; [by apply Ht|].
    apply list_elem_of_singleton in Hx as ->. apply wp_bind.
    eapply wp_mono; [apply writes_ServeDNS|done|done].
Qed.

End hostile.

Section witnesses.
#[local] Existing Instances demo_unicode demo_platform demo_dns demo_coredns demo_xxhash demo_plugin.
#[local] Existing Instances demo_coredns_laws demo_plugin_laws demo_services.

Lemma hostile_redis_witness :
  fresh produced_ex req_ex (an_msg hit_ex) ∨ verified req_ex (an_msg hit_ex).
Proof.
  refine (hostile_redis confs_ex nexts_ex produced_ex _ world_hit hit_ex world_hit_reachable hit_ex_answered).
  intros i ctx r. split; [|exact (λ _, I)]. intros m E. injection E as <-. reflexivity.
Defined.

End witnesses.
