(* ===== verification/Progress.v ===== *)
(** * The system quiesces

    Without new requests the threads come to an end: a thread is a finite program,
    and the goroutines it starts start no others. They end by returning, with
    every call of a singleflight group left: a thread that waits for a call waits
    for a thread that runs, holds only that call and waits for none. *)

From stdpp Require Import relations.
From coqutil Require Import Datatypes.RecordSetters.
From S2P Require Import Prelude GoString GoError GoFloat GoTime Dns Fixtures Ttl.
From S2P Require Import Serialization Cacheable Key Config Prog RedisCache Writer Handler.
From S2P Require Import CacheSpec World System.

Local Open Scope Z_scope.

(** [P] holds on every way the relation goes, after finitely many steps. *)
Inductive inevitable {A} (R : relation A) (P : A → Prop) (x : A) : Prop :=
| inevitable_now : P x → inevitable R P x
| inevitable_step : (∃ y, R x y) → (∀ y, R x y → inevitable R P y) → inevitable R P x.

Lemma inevitable_wf {A} (R : relation A) (I P : A → Prop) x :
  Acc (flip R) x → (∀ x y, I x → R x y → I y) → (∀ x, I x → P x ∨ ∃ y, R x y) → I x →
  inevitable R P x.
Proof.
  intros Hacc Hstep Hprog. induction Hacc as [x _ IH]. intros Hx.
  destruct (Hprog x Hx) as [?|?]; [by left|right; [done|]]. intros y Hy. apply IH; [done|by eapply Hstep].
Qed.

(** Where two elements of a list are. *)
Lemma app_middle_eq {A} (l1 l2 a b : list A) x y :
  l1 ++ x :: l2 = a ++ y :: b →
  (l1 = a ∧ x = y ∧ l2 = b) ∨ (∃ c, l1 = a ++ y :: c ∧ b = c ++ x :: l2) ∨
  (∃ c, a = l1 ++ x :: c ∧ l2 = c ++ y :: b).
Proof.
  revert a. induction l1 as [|z l1 IH]; intros [|z' a]; simpl; intros [= -> E]; [naive_solver|..].
  - right; right. by exists a.
  - right; left. by exists l1.
  - destruct (IH _ E) as [(-> & -> & ->)|[(c & -> & ->)|(c & -> & ->)]]; naive_solver.
Qed.

Definition returned (th : Thread) : bool :=
  match th_prog th with Ret _ => true | _ => false end.

(** Every thread has returned, and no call is in flight. *)
Definition quiescent (w : World) : Prop :=
  Forall returned (threads w) ∧ inflight w = ∅.

#[export] Instance quiescent_dec w : Decision (quiescent w).
Proof. solve_decision. Defined.

Section progress.
Context `{!UnicodeTables, !Platform, !DnsLib, !CoreDns, !XxHash, !PluginLib, !Services}.
Context (confs : nat → Redis) (next : nat → Handler) (Produced : Msg → Msg → Prop).

(** ** Termination *)

(** What an effect does to the threads, with any answer. *)
Inductive pool_step : list Thread → list Thread → Prop :=
| pool_effect l1 l2 th e k a :
    th_prog th = Do e k →
    pool_step (l1 ++ th :: l2)
      (l1 ++ mkThread (th_inst th) (th_call th) (k a) :: l2 ++ spawned confs th e).

Lemma work_pool w w' : work confs w w' → pool_step (threads w) (threads w').
Proof.
  intros [u tid th e k a Hth Hp _]. simpl.
  rewrite insert_take_drop by by eapply lookup_lt_Some.
  rewrite <- (take_drop_middle (threads u) tid th Hth) at 1. rewrite <- app_assoc. by constructor.
Qed.

Abbreviation ends := (Acc (flip pool_step)).

(** Adding the thread keeps a pool that comes to an end one that does. *)
Definition harmless (th : Thread) : Prop := ∀ l1 l2, ends (l1 ++ l2) → ends (l1 ++ th :: l2).

(** It is enough that the thread's own steps do. *)
Lemma harmless_steps th :
  match th_prog th with
  | Do e k => ∀ a l1 l2, ends (l1 ++ l2) →
      ends (l1 ++ mkThread (th_inst th) (th_call th) (k a) :: l2 ++ spawned confs th e)
  | _ => True
  end → harmless th.
Proof.
  intros Hown l1 l2 Hl. remember (l1 ++ l2) as l eqn:E. revert l1 l2 E.
  induction Hl as [l Hl IHl]; intros l1 l2 ->. pose proof (Acc_intro _ Hl) as Hends.
  constructor. unfold flip in *. intros l' Hst. inversion Hst as [a b u e k r Hp Eq]. subst l'. clear Hst.
  symmetry in Eq. apply app_middle_eq in Eq as [(-> & -> & ->)|[(c & -> & ->)|(c & -> & ->)]].
  - rewrite Hp in Hown. by apply Hown.
  - rewrite <- (app_assoc c), <- app_comm_cons, (app_comm_cons c), (app_assoc a).
    eapply IHl; [|done]. rewrite <- !app_assoc, <- !app_comm_cons, (app_assoc c l2). by constructor.
  - rewrite <- app_assoc, <- app_comm_cons.
    eapply IHl; [|done]. rewrite !(app_assoc l1 c). by constructor.
Qed.

Lemma spawned_cases th e : spawned confs th e = [] ∨ ∃ th', spawned confs th e = [th'].
Proof. destruct e; simpl; eauto. Qed.

Lemma harmless_prog i cl p :
  only (λ e, ∀ q th, th ∈ spawned confs (mkThread i cl q) e → harmless th) p →
  harmless (mkThread i cl p).
Proof.
  induction p as [u| |e k IH]; intros Hp; apply harmless_steps; simpl; [done..|].
  destruct Hp as [He Hk]. intros a l1 l2 Hl. apply IH; [done|].
  destruct (spawned_cases (mkThread i cl (Do e k)) e) as [-> |[th Hth]]; [by rewrite app_nil_r|].
  rewrite Hth, app_assoc. apply (He (Do e k)); [rewrite Hth; by left|]. by rewrite app_nil_r.
Qed.

(** A goroutine starts no goroutine. *)
Lemma task_spawns_nothing re t : only (λ e, ∀ t', e ≠ EGo t') (task_body re t).
Proof.
  destruct t; unfold task_body, set_body, evict_body; apply only_recover; try (split; [done|]; done).
  all: unfold flight_Do, Add, flight_enter, flight_leave, redis_Set, redis_Expire, log, metric.
  all: only_effects done.
Qed.

Lemma pool_ends l : ends l.
Proof.
  assert (∀ i cl t, harmless (mkThread i cl (task_body (confs i) t))) as Htask.
  { intros i cl t. apply harmless_prog. eapply only_mono; [apply task_spawns_nothing|].
    intros e He q th Hin. destruct e; try by apply elem_of_nil in Hin. by destruct (He t0). }
  induction l as [|[i cl p] l IH].
  - constructor. intros l' Hst. inversion Hst as [l1 ? ? ? ? ? ? E]. by destruct l1.
  - apply (harmless_prog i cl p) with (l1 := []); [|done]. apply only_all. intros e q th Hin.
    destruct e; try by apply elem_of_nil in Hin. by apply list_elem_of_singleton in Hin as ->.
Qed.

Lemma work_ends w : Acc (flip (work confs)) w.
Proof.
  remember (threads w) as l eqn:E. revert w E.
  induction (pool_ends l) as [l _ IH]. intros w ->. constructor. intros w' Hw.
  eapply IH; [|done]. by apply work_pool.
Qed.

(** The work of the system terminates: without new requests, no world has an
    infinite run, whatever Redis, the groups, the client writers, the random
    numbers and the clocks answer. *)
Theorem work_terminates : well_founded (flip (work confs)).
Proof. exact work_ends. Qed.

(** ** Progress *)

Context `{!DnsLaws, !CoreDnsLaws, !PluginLaws, !ServicesLaws, !ServicesLive}.
Hypothesis Hproduced : produced_ok Produced.
Hypothesis Hnext : next_ok next Produced.
Hypothesis Hconfs : ∀ i, clients_ok (confs i).


(** An effect that does not wait for a call of another thread gets an answer. *)
Lemma answerable w i cl v e :
  guarantee confs Produced cl v e →
  (∀ g k, e = EFlight g k → inflight w !! (i, g, k) = None) → ∃ a, may_answer w i e a.
Proof.
  intros Hg Hf. destruct e; try (by exists (quiet_env None _)).
  - exact (redis_total (sets w) (clock w) i c key).
  - exists Leader. apply flight_free. by apply Hf.
Qed.

(** The thread that runs a call can move. *)
Lemma holder_works w c i g k tid :
  inv confs Produced w c → inflight w !! (i, g, k) = Some tid → ∃ w', work confs w w'.
Proof.
  intros Hi Hf. destruct (inv_flights _ _ _ _ Hi _ _ _ _ Hf) as (th & Hth & <-).
  pose proof (inv_threads _ _ _ _ Hi _ _ Hth) as Hs.
  destruct (th_prog th) as [u| |e kk] eqn:Hp; simpl in Hs; [by destruct (Hs g k)|done|].
  destruct Hs as [Hg _].
  destruct (answerable w (th_inst th) _ _ e Hg) as [a Ha].
  { intros g' k' ->. simpl in Hg. by destruct (Hg g k). }
  eexists. by eapply work_effect.
Qed.

Lemma inv_progress w c : inv confs Produced w c → quiescent w ∨ ∃ w', work confs w w'.
Proof.
  intros Hi. destruct (decide (inflight w = ∅)) as [Hempty|Hne].
  2: { apply map_choose in Hne as ([[i g] k] & tid & Hf). right. by eapply holder_works. }
  destruct (decide (Forall returned (threads w))) as [?|Hnot]; [by left|right].
  apply not_Forall_Exists in Hnot; [|apply _]. apply Exists_exists in Hnot as (th & Hin & Hn).
  apply list_elem_of_lookup in Hin as [tid Hth]. unfold returned in Hn. simpl in Hn.
  pose proof (inv_threads _ _ _ _ Hi _ _ Hth) as Hs.
  destruct (th_prog th) as [u| |e k] eqn:Hp; simpl in *; [by destruct Hn|done|].
  destruct Hs as [Hg _]. destruct (answerable w (th_inst th) _ _ e Hg) as [a Ha].
  { intros g' k' ->. by rewrite Hempty. }
  eexists. by eapply work_effect.
Qed.

Lemma reachable_quiesces w : reachable confs next w → inevitable (work confs) quiescent w.
Proof.
  intros Hr. apply (inevitable_wf _ (λ w, ∃ c, inv confs Produced w c)).
  - apply work_ends.
  - intros u u' [c Hi] Hw. destruct (work_inv _ _ _ _ _ Hi Hw) as (c' & _ & ?). by exists c'.
  - intros u [c Hi]. by eapply inv_progress.
  - by apply (reachable_inv confs next).
Qed.

(** C5: the system always quiesces, and never deadlocks. From every reachable
    world, whatever the scheduler and the services do, without new requests
    finitely many steps lead to a world in which every request and every
    goroutine has returned and every singleflight call has been left. *)
Theorem system_quiesces w : reachable confs next w → inevitable (work confs) quiescent w.
Proof. apply reachable_quiesces. Qed.

End progress.

Section witnesses.
#[local] Existing Instances demo_unicode demo_platform demo_dns demo_coredns demo_xxhash demo_plugin.
#[local] Existing Instances demo_dns_laws demo_coredns_laws demo_plugin_laws.
#[local] Existing Instances demo_services demo_services_laws demo_services_live.

(** While a goroutine is about to send its SET, it is still to come back. *)
Lemma system_quiesces_witness :
  ¬ quiescent world_set ∧ inevitable (work confs_ex) quiescent world_set.
Proof.
  split.
  - apply (bool_decide_eq_false_1 (quiescent world_set)). vm_compute. reflexivity.
  - apply (system_quiesces confs_ex nexts_ex produced_ex produced_ex_ok nexts_ex_ok confs_ex_ok).
    exact world_set_reachable.
Defined.

End witnesses.
