(* ===== verification/Deploy.v ===== *)
(** * Deployments: from Corefiles to the fleet

    The instances of World.v with the configurations that [setup] registered: what
    the parser and [buildClients] guarantee discharges what the theorems on the
    running system ask of a configuration. *)

From stdpp Require Import relations.
From coqutil Require Import Datatypes.RecordSetters.
From S2P Require Import Prelude GoString GoError GoFloat GoTime Dns Fixtures GoStrconv GoNet.
From S2P Require Import Ttl Serialization Cacheable Key Config Parse Prog RedisCache Setup Writer Handler.
From S2P Require Import Startup CacheSpec World System Progress.

Local Open Scope Z_scope.

(** A CoreDNS instance: the Corefile block it was started from, the answers its
    pings got, and the plugin [setup] registered with its clients. *)
Section deploy.
Context `{!UnicodeTables, !Platform, !DnsLib, !CoreDns, !XxHash, !PluginLib, !Services}.
Context `{!Controller, !TlsLib, !SetupLib}.

Record Instance_ : Type := mkInstance {
  in_ctl : Ctl;
  in_fuel : nat;
  in_env : ∀ e, Resp e;
  in_plugin : Plugin;
  in_clients : list Client;
}.

Definition started (x : Instance_) : Prop :=
  (Remaining (in_ctl x) < in_fuel x)%nat ∧
  snd (exec (in_env x) (setup (in_fuel x) (in_ctl x))) = Some (None, Some (in_plugin x, in_clients x)).

Context (fleet : nat → Instance_) (next : nat → Handler) (Produced : Msg → Msg → Prop).

(** The configuration an instance serves with, once the chain was built. *)
Definition fleet_conf (i : nat) : Redis := pl_Redis (add_plugin (in_plugin (fleet i)) (next i)).

Context `{!ControllerLaws, !DnsLaws, !CoreDnsLaws, !PluginLaws, !ServicesLaws, !ServicesLive}.
Hypothesis Hproduced : produced_ok Produced.
Hypothesis Hnext : next_ok next Produced.
Hypothesis Hstarted : ∀ i, started (fleet i).

Lemma fleet_ok i : clients_ok (fleet_conf i) ∧ ttls_ok (ttls (fleet_conf i)).
Proof.
  destruct (Hstarted i) as [Hf Hs]. by destruct (setup_inv _ _ _ _ _ Hf Hs) as (re & _ & _ & _ & ? & ?).
Qed.

(** The lifetime of a reply under a configuration of the fleet. *)
Lemma fleet_duration i res mt d :
  msg_wf res → reply_duration (fleet_conf i) res mt = Some d →
  whole_seconds d ∧ d ≤ Z.max (fst (ttl_bounds (ttls (fleet_conf i)) mt))
                          (snd (ttl_bounds (ttls (fleet_conf i)) mt)).
Proof.
  intros Hwf Hd. destruct (fleet_ok i) as [_ Hok].
  destruct (reply_duration_total _ res mt Hwf Hok) as (d' & Hd' & Hw).
  rewrite Hd in Hd'. injection Hd' as <-. split; [done|].
  revert Hd. unfold reply_duration. destruct (ttl_bounds _ mt) as [mx mn].
  destruct (minMsgTTL res mt); [|done]. simpl. intros [= <-]. rewrite clamp_eq. lia.
Qed.

(** C3: a fleet started from any Corefiles that [setup] accepts is correct. In
    every world it reaches, the specification is refined; no thread has
    panicked; everything sent to Redis expires after a positive whole number of
    seconds, at most the configured maximum (or minimum, if that is larger) of
    some instance; and without new requests the fleet comes to rest. *)
Theorem fleet_correct w :
  reachable fleet_conf next w →
  (∃ c, spec_reachable fleet_conf Produced redis_late c ∧ matched w c) ∧
  (∀ th, th ∈ threads w → th_prog th ≠ Panic) ∧
  (∀ x, x ∈ sets w → 0 < set_dur x ∧ whole_seconds (set_dur x) ∧
    ∃ i mt, set_dur x ≤ Z.max (fst (ttl_bounds (ttls (fleet_conf i)) mt))
                          (snd (ttl_bounds (ttls (fleet_conf i)) mt))) ∧
  inevitable (work fleet_conf) quiescent w.
Proof.
  intros Hr. assert (∀ i, clients_ok (fleet_conf i)) as Hconfs by apply fleet_ok.
  destruct (reachable_inv fleet_conf next Produced Hproduced Hnext Hconfs w Hr) as [c Hi].
  split_and!.
  - exists c. split; apply Hi.
  - intros th [tid Hth]%list_elem_of_lookup Hp. pose proof (inv_threads _ _ _ _ Hi tid th Hth) as Hs.
    by rewrite Hp in Hs.
  - intros x Hx. destruct Hi as [[_ _ Hs] Hreach _ _].
    destruct (represents_elem _ _ _ Hs Hx) as (s & Hin & [_ _ -> _]).
    destruct (spec_store_ok _ _ _ _ _ Hreach Hin) as [[_ HP _ (i & t & _ & Hd & _) Hpos] _].
    destruct (fleet_duration i _ _ _ (proj1 (Hproduced _ _ HP)) Hd) as [Hw Hle]. eauto.
  - by apply (reachable_quiesces fleet_conf next Produced).
Qed.

End deploy.

Section witnesses.
#[local] Existing Instances demo_unicode demo_platform demo_dns demo_coredns demo_xxhash demo_plugin.
#[local] Existing Instances demo_dns_laws demo_coredns_laws demo_plugin_laws.
#[local] Existing Instances demo_services demo_services_laws demo_services_live.
#[local] Existing Instances demo_tls demo_controller demo_controller_laws demo_setup.

(** Every instance is started from the block of [ctl_ex]. *)
Definition fleet_ex (i : nat) : Instance_ :=
  match snd (exec (quiet_env None) (setup 20 ctl_ex)) with
  | Some (_, Some (p, cs)) => mkInstance ctl_ex 20 (quiet_env None) p cs
  | _ => mkInstance ctl_ex 20 (quiet_env None) (mkPlugin New None) []
  end.

Definition fleet_conf_ex : nat → Redis := fleet_conf fleet_ex nexts_ex.

(** A client asks instance 0, and the reply is stored. *)
Definition fleet_world_ex : World :=
  Nat.iter 10 (advance fleet_conf_ex 1)
    (Nat.iter 30 (advance fleet_conf_ex 0) (ask fleet_conf_ex nexts_ex 0 req_ex init)).

Lemma fleet_world_ex_reachable : reachable fleet_conf_ex nexts_ex fleet_world_ex.
Proof.
  exact (advance_reachable fleet_conf_ex nexts_ex 10 1 _ (advance_reachable fleet_conf_ex nexts_ex 30 0 _
           (ask_reachable fleet_conf_ex nexts_ex 0 req_ex init (rtc_refl _ _)))).
Qed.

Lemma fleet_correct_witness :
  set_dur <$> sets fleet_world_ex = [300 * Second] ∧
  ∃ c, spec_reachable fleet_conf_ex produced_ex redis_late c ∧ matched fleet_world_ex c.
Proof.
  split; [vm_compute; reflexivity|].
  refine (proj1 (fleet_correct fleet_ex nexts_ex produced_ex produced_ex_ok nexts_ex_ok _
    fleet_world_ex fleet_world_ex_reachable)).
  intros i. split; [vm_compute; lia|vm_compute; reflexivity].
Defined.

End witnesses.
